(** * Resume text normalisation (candidate.utils.ts)

    A shallow embedding of [cleanExtractedText] and [extractTextFromPDFs]
    from [src/modules/candidate/candidate.utils.ts], and the properties the
    specification states about them; then the handler [uploadResumes] of
    [src/modules/candidate/candidate.controller.ts], which calls them, and
    further properties of the code.

    JavaScript strings are sequences of UTF-16 code units; every glyph the
    source mentions lies in the Basic Multilingual Plane, so a string is
    modelled as a list of code units. *)

From Stdlib Require Import String Ascii.
From Stdlib Require Import List NArith ZArith Bool Arith Lia.
Import ListNotations.
Import Corelib.Init.Datatypes.   (* [length] is the one of lists *)

Set Implicit Arguments.

(* ================================================================= *)
(** ** Characters and strings *)

Abbreviation char := N.
Definition jsstring := list char.

Definition ch (a : ascii) : char := N_of_ascii a.
Arguments ch a%_char.

Fixpoint str (s : String.string) : jsstring :=
  match s with
  | String.EmptyString => []
  | String.String a r => ch a :: str r
  end.
Arguments str s%_string.

Definition nl : char := 10%N.   (* \n *)
Definition cr : char := 13%N.   (* \r *)
Definition tab : char := 9%N.   (* \t *)

Definition inRange (lo hi : char) : char -> bool :=
  fun c => (lo <=? c)%N && (c <=? hi)%N.
Arguments inRange (lo hi)%_N _.

Definition oneOf (l : list char) : char -> bool :=
  fun c => existsb (N.eqb c) l.

Definition chr (x : char) : char -> bool := fun c => (c =? x)%N.

Definition notC (p : char -> bool) : char -> bool := fun c => negb (p c).

(** [\s], and the characters [String.prototype.trim] strips: ECMAScript
    WhiteSpace and LineTerminator. *)
Definition isSpace : char -> bool :=
  fun c =>
    inRange 9 13 c            (* \t \n \v \f \r *)
    || (c =? 32)%N            (* space *)
    || (c =? 0xA0)%N          (* no-break space *)
    || (c =? 0x1680)%N
    || inRange 0x2000 0x200A c
    || (c =? 0x2028)%N || (c =? 0x2029)%N
    || (c =? 0x202F)%N || (c =? 0x205F)%N
    || (c =? 0x3000)%N || (c =? 0xFEFF)%N.

Definition isNonSpace : char -> bool := notC isSpace.            (* \S *)
Definition isDigit : char -> bool := inRange 48 57.              (* \d *)
Definition isUpper : char -> bool := inRange 65 90.              (* A-Z *)
Definition isLower : char -> bool := inRange 97 122.             (* a-z *)
Definition isWord : char -> bool :=                              (* \w *)
  fun c => isUpper c || isLower c || isDigit c || (c =? ch "_")%N.
Definition isPunct : char -> bool :=                             (* [.,;:!?] *)
  oneOf (str ".,;:!?").
(** The word characters that are no digits. *)
Definition isLetter : char -> bool :=
  fun c => isUpper c || isLower c || (c =? ch "_")%N.

(** Bullet glyphs. *)
Definition blackCircle : char := 0x25CF%N.   (* ● *)
Definition bullet      : char := 0x2022%N.   (* • *)
Definition blackSquare : char := 0x25AA%N.   (* ▪ *)
Definition whiteSquare : char := 0x25AB%N.   (* ▫ *)
Definition whiteBullet : char := 0x25E6%N.   (* ◦ *)
Definition triBullet   : char := 0x2023%N.   (* ‣ *)
Definition hyphenBullet : char := 0x2043%N.  (* ⁃ *)
Definition enDash      : char := 0x2013%N.   (* – *)

Definition bulletGlyphs : list char :=
  [blackCircle; bullet; blackSquare; whiteSquare; whiteBullet; triBullet;
   hyphenBullet].
Definition variantGlyphs : list char :=
  [bullet; blackSquare; whiteSquare; whiteBullet; triBullet; hyphenBullet].

Fixpoint eqbStr (a b : jsstring) : bool :=
  match a, b with
  | [], [] => true
  | x :: a', y :: b' => (x =? y)%N && eqbStr a' b'
  | _, _ => false
  end.

(** [s.endsWith(suffix)] *)
Definition endsWith (s suffix : jsstring) : bool :=
  (length suffix <=? length s)
  && eqbStr (skipn (length s - length suffix) s) suffix.

Fixpoint dropWhile (p : char -> bool) (s : jsstring) : jsstring :=
  match s with
  | [] => []
  | x :: t => if p x then dropWhile p t else s
  end.

(** [s.trim()] *)
Definition trim (s : jsstring) : jsstring :=
  rev (dropWhile isSpace (rev (dropWhile isSpace s))).

(** [s.split(sep)] for a one-character separator: the empty string splits
    into one empty piece. *)
Fixpoint split (sep : char) (s : jsstring) : list jsstring :=
  match s with
  | [] => [[]]
  | x :: t =>
      if (x =? sep)%N then [] :: split sep t
      else match split sep t with
           | l :: ls => (x :: l) :: ls
           | [] => [[x]]
           end
  end.

(** [parts.join(sep)] *)
Fixpoint join (sep : jsstring) (parts : list jsstring) : jsstring :=
  match parts with
  | [] => []
  | [p] => p
  | p :: rest => p ++ sep ++ join sep rest
  end.

(* ================================================================= *)
(** ** Regular expressions

    Every regular expression of the source is an alternation of sequences
    of greedy quantified character classes, some wrapped in a capture
    group, between optional [^] and [$] anchors.  The matcher is the
    backtracking one of ECMAScript restricted to that shape: a quantifier
    first takes as many characters as it may and gives them back one at a
    time while the rest of the sequence fails. *)

Module Regex.

Inductive atom : Type :=
| Bol                                   (* ^ *)
| Eol                                   (* $ *)
| Rep (capture : bool) (c : char -> bool) (lo : nat) (hi : option nat).
                                        (* c{lo,hi}, or (c{lo,hi}) *)

Definition one c := Rep false c 1 (Some 1).
Definition star c := Rep false c 0 None.
Definition plus c := Rep false c 1 None.
Definition exactly n c := Rep false c n (Some n).
Definition between lo hi c := Rep false c lo (Some hi).
Definition atLeast n c := Rep false c n None.
Definition group (a : atom) : atom :=
  match a with
  | Rep _ c lo hi => Rep true c lo hi
  | _ => a
  end.
Definition lit (s : jsstring) : list atom := map (fun x => one (chr x)) s.

(** A pattern is a list of alternatives, tried in order. *)
Definition pattern := list (list atom).

(** Length of the longest prefix of [s] in class [c], at most [hi]. *)
Fixpoint span (c : char -> bool) (hi : option nat) (s : jsstring) : nat :=
  match s with
  | [] => 0
  | x :: t =>
      if c x then
        match hi with
        | Some 0 => 0
        | Some (S h) => S (span c (Some h) t)
        | None => S (span c None t)
        end
      else 0
  end.

(** Try [f k], [f (k-1)], ... down to [f lo]. *)
Fixpoint backtrack {A} (f : nat -> option A) (lo k : nat) : option A :=
  if k <? lo then None
  else match f k with
       | Some r => Some r
       | None => match k with
                 | 0 => None
                 | S k' => backtrack f lo k'
                 end
       end.

(** [matchSeq atoms bos s]: match the sequence at the head of [s]; [bos]
    tells whether [s] is the whole subject.  The result holds the captures
    in group order and the number of characters matched. *)
Fixpoint matchSeq (atoms : list atom) (bos : bool) (s : jsstring)
  : option (list jsstring * nat) :=
  match atoms with
  | [] => Some ([], 0)
  | Bol :: rest => if bos then matchSeq rest bos s else None
  | Eol :: rest => match s with
                   | [] => matchSeq rest bos s
                   | _ :: _ => None
                   end
  | Rep cap c lo hi :: rest =>
      backtrack
        (fun k =>
           match matchSeq rest (bos && (k =? 0)) (skipn k s) with
           | Some (caps, n) =>
               Some (if cap then firstn k s :: caps else caps, k + n)
           | None => None
           end)
        lo (span c hi s)
  end.

Fixpoint matchAt (p : pattern) (bos : bool) (s : jsstring)
  : option (list jsstring * nat) :=
  match p with
  | [] => None
  | alt :: rest =>
      match matchSeq alt bos s with
      | Some r => Some r
      | None => matchAt rest bos s
      end
  end.

(** [re.test(s)] for a regular expression without the [g] flag. *)
Fixpoint search (p : pattern) (bos : bool) (s : jsstring) : bool :=
  match matchAt p bos s with
  | Some _ => true
  | None => match s with
            | [] => false
            | _ :: t => search p false t
            end
  end.

Definition test (p : pattern) (s : jsstring) : bool := search p true s.

(** Replacement templates: literal characters and [$n]. *)
Inductive tok : Type := Lit (c : char) | Ref (n : nat).

Definition digitOf (a : ascii) : option nat :=
  let n := nat_of_ascii a in
  if (49 <=? n) && (n <=? 57) then Some (n - 48) else None.

Fixpoint tpl (s : String.string) : list tok :=
  match s with
  | String.EmptyString => []
  | String.String a r =>
      match r with
      | String.String d r' =>
          match digitOf d with
          | Some n => if Ascii.eqb a "$" then Ref n :: tpl r'
                      else Lit (ch a) :: tpl r
          | None => Lit (ch a) :: tpl r
          end
      | String.EmptyString => [Lit (ch a)]
      end
  end.
Arguments tpl s%_string.

Definition expandTok (caps : list jsstring) (t : tok) : jsstring :=
  match t with
  | Lit c => [c]
  | Ref n => nth (n - 1) caps []
  end.

Definition expand (t : list tok) (caps : list jsstring) : jsstring :=
  flat_map (expandTok caps) t.

(** [s.replace(re, template)] for a regular expression with the [g] flag.
    [skip] counts the characters of [s] still inside the previous match. *)
Fixpoint scan (p : pattern) (t : list tok) (skip : nat) (bos : bool)
         (s : jsstring) : jsstring :=
  match s with
  | [] => match matchAt p bos [] with
          | Some (caps, _) => expand t caps
          | None => []
          end
  | x :: s' =>
      match skip with
      | S k => scan p t k false s'
      | 0 =>
          match matchAt p bos s with
          | Some (caps, 0) => expand t caps ++ x :: scan p t 0 false s'
          | Some (caps, S k) => expand t caps ++ scan p t k false s'
          | None => x :: scan p t 0 false s'
          end
      end
  end.

Definition replace (p : pattern) (t : list tok) (s : jsstring) : jsstring :=
  scan p t 0 true s.

End Regex.
Import Regex.

Notation "x |> f" := (f x) (at level 40, left associativity, only parsing).

(* ================================================================= *)
(** ** cleanExtractedText *)

(** *** 1. Initial artifact cleaning and normalisation *)

(** [/--\s*\d+\s+of\s+\d+\s*--/g] *)
Definition rxPageSeparator : pattern :=
  [ lit (str "--") ++ [star isSpace; plus isDigit; plus isSpace]
    ++ lit (str "of") ++ [plus isSpace; plus isDigit; star isSpace]
    ++ lit (str "--") ].

(** [/[\x00-\x08\x0B-\x0C\x0E-\x1F\x7F]/g] *)
Definition isControl : char -> bool :=
  fun c => inRange 0x00 0x08 c || inRange 0x0B 0x0C c
           || inRange 0x0E 0x1F c || (c =? 0x7F)%N.
Definition rxControl : pattern := [ [one isControl] ].

(** [/\r\n|\r/g] *)
Definition rxLineBreak : pattern :=
  [ [one (chr cr); one (chr nl)]; [one (chr cr)] ].

(** [/\t/g] *)
Definition rxTab : pattern := [ [one (chr tab)] ].

(** [/[ ]{2,}/g] *)
Definition rxSpaces : pattern := [ [atLeast 2 (chr (ch " "))] ].

Definition normalizeArtifacts (text : jsstring) : jsstring :=
  text
  |> replace rxPageSeparator []
  |> replace rxControl []
  |> replace rxLineBreak [Lit nl]
  |> replace rxTab (tpl " ")
  |> replace rxSpaces (tpl " ").

(** *** 2. Line merging *)

(** [/^[●•▪▫◦‣⁃]/] *)
Definition rxBulletPoint : pattern := [ [Bol; one (oneOf bulletGlyphs)] ].

(** [/^[A-Z\s&]{2,35}$/] *)
Definition isCapsChar : char -> bool :=
  fun c => isUpper c || isSpace c || (c =? ch "&")%N.
Definition rxHeaderCaps : pattern := [ [Bol; between 2 35 isCapsChar; Eol] ].

(** [/:\s*$/] *)
Definition rxHeaderColon : pattern :=
  [ [one (chr (ch ":")); star isSpace; Eol] ].

(** [/^[A-Z][a-z]+\s+\d{4}\s*[–-]/] *)
Definition rxDateRange : pattern :=
  [ [Bol; one isUpper; plus isLower; plus isSpace; exactly 4 isDigit;
     star isSpace; one (oneOf [enDash; ch "-"])] ].

(** [/^[A-Z][A-Za-z\s&]+\([^)]+\)\s+/] *)
Definition isNameChar : char -> bool :=
  fun c => isUpper c || isLower c || isSpace c || (c =? ch "&")%N.
Definition rxCompanyLocation : pattern :=
  [ [Bol; one isUpper; plus isNameChar; one (chr (ch "("));
     plus (notC (chr (ch ")"))); one (chr (ch ")")); plus isSpace] ].

Definition isBulletPoint (currentLine : jsstring) : bool :=
  test rxBulletPoint currentLine.

Definition isHeaderCaps (currentLine : jsstring) : bool :=
  test rxHeaderCaps currentLine && (length currentLine <? 40).

Definition isHeaderColon (currentLine : jsstring) : bool :=
  test rxHeaderColon currentLine && (length currentLine <? 50).

Definition isDateRange (currentLine : jsstring) : bool :=
  test rxDateRange currentLine.

Definition isCompanyLocation (currentLine : jsstring) : bool :=
  test rxCompanyLocation currentLine.

Definition isFirstLines (i : nat) : bool := i <? 2.

Definition isNewSection (i : nat) (currentLine : jsstring) : bool :=
  isBulletPoint currentLine
  || isHeaderCaps currentLine
  || isHeaderColon currentLine
  || isDateRange currentLine
  || isCompanyLocation currentLine
  || isFirstLines i.

(** [processedLines[processedLines.length - 1] || ''] *)
Definition prevLineOf (processedLines : list jsstring) : jsstring :=
  last processedLines [].

Definition shouldMerge (i : nat) (prevLine currentLine : jsstring) : bool :=
  negb (isNewSection i currentLine)
  && (0 <? length prevLine)
  && negb (isBulletPoint currentLine)
  && negb (endsWith prevLine (str ":")).

(** One iteration of the [for] loop over [lines]. *)
Definition mergeStep (processedLines : list jsstring) (i : nat)
           (currentLine : jsstring) : list jsstring :=
  let prevLine := prevLineOf processedLines in
  if shouldMerge i prevLine currentLine && (0 <? length processedLines)
  then removelast processedLines ++ [prevLine ++ str " " ++ currentLine]
  else processedLines ++ [currentLine].

Fixpoint mergeLoop (processedLines : list jsstring) (i : nat)
         (lines : list jsstring) : list jsstring :=
  match lines with
  | [] => processedLines
  | currentLine :: rest =>
      mergeLoop (mergeStep processedLines i currentLine) (S i) rest
  end.

Definition splitLines (cleaned : jsstring) : list jsstring :=
  filter (fun l => 0 <? length l) (map trim (split nl cleaned)).

Definition mergeLines (lines : list jsstring) : list jsstring :=
  mergeLoop [] 0 lines.

(** *** 3. Post-processing and formatting *)

(** [/\s+([.,;:!?])/g] *)
Definition rxSpaceBeforePunct : pattern :=
  [ [plus isSpace; group (one isPunct)] ].

(** [/([.,;:!?])\s*([.,;:!?])/g] *)
Definition rxPunctPair : pattern :=
  [ [group (one isPunct); star isSpace; group (one isPunct)] ].

(** [/\s*\|\s*/g] *)
Definition rxPipe : pattern :=
  [ [star isSpace; one (chr (ch "|")); star isSpace] ].

(** [/(\w)\s*-\s*(\w)/g] *)
Definition rxWordDash : pattern :=
  [ [group (one isWord); star isSpace; one (chr (ch "-")); star isSpace;
     group (one isWord)] ].

(** [/(\d{4})\s*-\s*(\d{4})/g] *)
Definition rxYearDash : pattern :=
  [ [group (exactly 4 isDigit); star isSpace; one (chr (ch "-"));
     star isSpace; group (exactly 4 isDigit)] ].

(** [/(\S+)\s*@\s*(\S+)/g] *)
Definition rxEmail : pattern :=
  [ [group (plus isNonSpace); star isSpace; one (chr (ch "@"));
     star isSpace; group (plus isNonSpace)] ].

(** [/[•▪▫◦‣⁃]/g] *)
Definition rxBulletVariant : pattern := [ [one (oneOf variantGlyphs)] ].

(** [/\n{3,}/g] *)
Definition rxBlankLines : pattern := [ [atLeast 3 (chr nl)] ].

(** The post-processing block up to the bullet normalisation. *)
Definition repairSpacing (cleaned : jsstring) : jsstring :=
  cleaned
  |> replace rxSpaceBeforePunct (tpl "$1")
  |> replace rxPunctPair (tpl "$1 $2")
  |> replace rxPipe (tpl " | ")
  |> replace rxWordDash (tpl "$1-$2")
  |> replace rxYearDash (tpl "$1 - $2")
  |> replace rxEmail (tpl "$1@$2")
  |> replace rxBulletVariant [Lit blackCircle].

(** The whole post-processing block: the punctuation and spacing repair. *)
Definition repair (cleaned : jsstring) : jsstring :=
  repairSpacing cleaned
  |> replace rxBlankLines [Lit nl; Lit nl]
  |> trim.

(** [processedLines.join('\n')], the text the repair starts from. *)
Definition reconstructed (text : jsstring) : jsstring :=
  let cleaned := normalizeArtifacts text in
  let lines := splitLines cleaned in
  let processedLines := mergeLines lines in
  join [nl] processedLines.

(** [text] is [None] for [null] and [undefined]. *)
Definition cleanExtractedText (text : option jsstring) : jsstring :=
  match text with
  | None => []
  | Some [] => []
  | Some text => repair (reconstructed text)
  end.

(* ================================================================= *)
(** ** extractTextFromPDFs *)

(** The values the PDF parser may hand back ([result] is typed [any]). *)
#[local] Unset Elimination Schemes.
Inductive JsVal : Type :=
| JUndefined
| JNull
| JBool (b : bool)
| JNum (n : Z)
| JStr (s : jsstring)
| JArr (items : list JsVal)
| JObj (fields : list (string * JsVal)).
#[local] Set Elimination Schemes.

Fixpoint lookup (k : string) (fields : list (string * JsVal)) : option JsVal :=
  match fields with
  | [] => None
  | (k', v) :: rest => if String.eqb k k' then Some v else lookup k rest
  end.

(** ['k' in v], for the keys [text] and [pages], which no prototype holds. *)
Definition hasProp (k : string) (v : JsVal) : bool :=
  match v with
  | JObj fields => match lookup k fields with Some _ => true | None => false end
  | _ => false
  end.

(** [v.k] for [v] neither [null] nor [undefined]. *)
Definition getProp (k : string) (v : JsVal) : JsVal :=
  match v with
  | JObj fields =>
      match lookup k fields with Some x => x | None => JUndefined end
  | _ => JUndefined
  end.

Definition truthy (v : JsVal) : bool :=
  match v with
  | JUndefined | JNull => false
  | JBool b => b
  | JNum n => negb (n =? 0)%Z
  | JStr s => 0 <? length s
  | JArr _ | JObj _ => true
  end.

Definition isString (v : JsVal) : bool :=
  match v with JStr _ => true | _ => false end.

Definition isArray (v : JsVal) : bool :=
  match v with JArr _ => true | _ => false end.

Definition itemsOf (v : JsVal) : list JsVal :=
  match v with JArr items => items | _ => [] end.

(** What a [try] block evaluates to: a value, or an exception on its way
    to the [catch]. *)
Inductive attempt (A : Type) : Type :=
| Ok (a : A)
| Thrown.
Arguments Ok {A} a.
Arguments Thrown {A}.

(** [page?.text || ''] *)
Definition pageText (page : JsVal) : JsVal :=
  let text := match page with
              | JUndefined | JNull => JUndefined
              | _ => getProp "text" page
              end in
  if truthy text then text else JStr [].

(** [text?.trim()?.length > 0]: a truthy value that is no string has no
    [trim] method, and calling it raises a TypeError. *)
Definition keepPage (text : JsVal) : attempt bool :=
  match text with
  | JStr s => Ok (0 <? length (trim s))
  | JUndefined | JNull => Ok false
  | _ => Thrown
  end.

(** The string [join] sees in an array element that passed the filter. *)
Definition toStr (v : JsVal) : jsstring :=
  match v with JStr s => s | _ => [] end.

Fixpoint filterPages (texts : list JsVal) : attempt (list jsstring) :=
  match texts with
  | [] => Ok []
  | text :: rest =>
      match keepPage text with
      | Thrown => Thrown
      | Ok keep =>
          match filterPages rest with
          | Thrown => Thrown
          | Ok kept => Ok (if keep then toStr text :: kept else kept)
          end
      end
  end.

(** The [if] cascade that turns the parser's result into [plainText]. *)
Definition plainTextOf (result : JsVal) : attempt jsstring :=
  match result with
  | JStr s => Ok s
  | JArr _ | JObj _ =>
      if hasProp "text" result && isString (getProp "text" result)
      then Ok (toStr (getProp "text" result))
      else if hasProp "pages" result
              && isArray (getProp "pages" result)
              && (0 <? length (itemsOf (getProp "pages" result)))
      then
        match filterPages (map pageText (itemsOf (getProp "pages" result))) with
        | Ok kept => Ok (join [nl; nl] kept)
        | Thrown => Thrown
        end
      else Ok []
  | _ => Ok []
  end.

(** What [new PDFParse(new Uint8Array(buffer)).getText()] does when awaited. *)
Inductive outcome : Type :=
| Returns (result : JsVal)
| Throws.

(** The [try]/[catch] around one document, from the parser's outcome on. *)
Definition textOfOutcome (o : outcome) : jsstring :=
  match o with
  | Throws => []
  | Returns result =>
      match plainTextOf result with
      | Ok plainText => cleanExtractedText (Some plainText)
      | Thrown => []
      end
  end.

Section Extraction.

(** The parser is an external collaborator: it may depend on and change
    a state of its own. *)
Variables Buffer World : Type.
Variable getText : Buffer -> World -> outcome * World.

(** The state threaded through the batch: the parser's, and the log of
    the buffers it was called on. *)
Record Env : Type := mkEnv { world : World; calls : list Buffer }.

Definition M (A : Type) : Type := Env -> A * Env.
Definition ret {A} (a : A) : M A := fun e => (a, e).
Definition bind {A B} (m : M A) (f : A -> M B) : M B :=
  fun e => let (a, e') := m e in f a e'.

Definition invoke (buffer : Buffer) : M outcome :=
  fun e =>
    let (o, w) := getText buffer (world e) in
    (o, mkEnv w (calls e ++ [buffer])).

(** The body of [for (const buffer of buffers)]; [None] is a [null] or
    [undefined] entry. *)
Definition extractOne (buffer : option Buffer) : M jsstring :=
  match buffer with
  | None => ret []
  | Some b => bind (invoke b) (fun o => ret (textOfOutcome o))
  end.

Fixpoint extractLoop (buffers : list (option Buffer))
         (extractedTexts : list jsstring) : M (list jsstring) :=
  match buffers with
  | [] => ret extractedTexts
  | buffer :: rest =>
      bind (extractOne buffer)
           (fun text => extractLoop rest (extractedTexts ++ [text]))
  end.

(** [buffers] is an array by its type, so the guard that returns the
    empty array for a non-array never fires. *)
Definition extractTextFromPDFs (buffers : list (option Buffer))
  : M (list jsstring) :=
  extractLoop buffers [].

End Extraction.

(* ================================================================= *)
(** ** Notions the statements use *)

(** The caps-header rule in the specification's words: upper-case letters,
    white space and ampersands only, between 2 and 34 characters. *)
Definition capsHeaderSpec (line : jsstring) : bool :=
  forallb isCapsChar line && (2 <=? length line) && (length line <=? 34).

(** The shapes of a result object: whether it carries a string-valued
    [text], and the items of its [pages] array (none when [pages] is absent
    or no array). *)
Definition hasStringText (fields : list (string * JsVal)) : bool :=
  match lookup "text" fields with Some (JStr _) => true | _ => false end.

Definition pagesOf (fields : list (string * JsVal)) : list JsVal :=
  match lookup "pages" fields with Some (JArr items) => items | _ => [] end.

(** A page object whose [text] is the given string. *)
Definition pageOf (text : jsstring) : JsVal :=
  JObj [("text"%string, JStr text)].

(** No three newlines in a row. *)
Definition shortRuns (s : jsstring) : Prop :=
  forall u v, s = u ++ v -> span (chr nl) None v < 3.

(** A parser for the examples: it fails on the buffer [2] and returns the
    buffer's number as text otherwise; its state counts the calls. *)
Definition flakyParser (b w : nat) : outcome * nat :=
  (if b =? 2 then Throws
   else Returns (JStr (str "page " ++ [(ch "0" + N.of_nat b)%N])),
   S w).

(** A line of 35 capital letters. *)
Definition line35 : jsstring := repeat (ch "A") 35.

(** The specification's example for the first two lines. *)
Definition preambleExample : list jsstring :=
  [str "John Doe"; str "Senior Engineer"; str "Built systems";
   str "that scale."].

(** Two newlines in a row: a blank line. *)
Fixpoint hasBlankLine (s : jsstring) : bool :=
  match s with
  | x :: (y :: _) as t => ((x =? nl)%N && (y =? nl)%N) || hasBlankLine t
  | _ => false
  end.

(** [noBlankFrom seen s]: [s] has no two newlines with only white space
    between them; [seen] tells that a newline was read and only white space
    since. *)
Fixpoint noBlankFrom (seen : bool) (s : jsstring) : bool :=
  match s with
  | [] => true
  | x :: t =>
      if (x =? nl)%N then (if seen then false else noBlankFrom true t)
      else if isSpace x then noBlankFrom seen t
      else noBlankFrom false t
  end.

(** A line as the merge loop holds them: no newline inside, and some
    character that is not white space. *)
Definition solidLine (l : jsstring) : bool :=
  forallb (fun x => negb (x =? nl)%N) l && existsb isNonSpace l.

(** The capture groups of a sequence, in order: class and lower bound. *)
Fixpoint groupsOf (atoms : list atom) : list ((char -> bool) * nat) :=
  match atoms with
  | [] => []
  | Rep true c lo _ :: rest => (c, lo) :: groupsOf rest
  | _ :: rest => groupsOf rest
  end.

Definition capturedBy (s : jsstring) (g : (char -> bool) * nat)
           (w : jsstring) : Prop :=
  forallb (fst g) w = true /\ snd g <= length w /\ incl w s.

(** The characters a match may consume: those of a class with a non-zero
    lower bound must occur in the subject. *)
Fixpoint mandatory (atoms : list atom) : list (char -> bool) :=
  match atoms with
  | [] => []
  | Rep _ c (S _) _ :: rest => c :: mandatory rest
  | _ :: rest => mandatory rest
  end.

(** The scan of a global replace, as a relation between the rest of the
    subject and the output produced for it. *)
Inductive Rewrites (p : pattern) (t : list tok)
  : bool -> jsstring -> jsstring -> Prop :=
| rw_end bos :
    matchAt p bos [] = None ->
    Rewrites p t bos [] []
| rw_end_match bos caps n :
    matchAt p bos [] = Some (caps, n) ->
    Rewrites p t bos [] (expand t caps)
| rw_keep bos x s out :
    matchAt p bos (x :: s) = None ->
    Rewrites p t false s out ->
    Rewrites p t bos (x :: s) (x :: out)
| rw_empty bos x s caps out :
    matchAt p bos (x :: s) = Some (caps, 0) ->
    Rewrites p t false s out ->
    Rewrites p t bos (x :: s) (expand t caps ++ x :: out)
| rw_match bos x m s caps out :
    matchAt p bos (x :: m ++ s) = Some (caps, S (length m)) ->
    Rewrites p t false s out ->
    Rewrites p t bos (x :: m ++ s) (expand t caps ++ out).

(** ** The repair seen on tokens

    The repair only ever changes the white space between the characters
    that are not white space.  For the proof of idempotence a text is cut
    into tokens, each character that is not white space with the white
    space before it, and each step of [repair] is read as a mask over the
    gaps.  Nothing here is part of the program: the lemmas of the section
    on tokens tie each mask to the [replace] of the step it stands for. *)

(** A text cut at its characters that are not white space: each with the
    white space before it, and the white space after the last one. *)
Definition tokens := list (jsstring * char).

(** The text the tokens stand for. *)
Fixpoint render (ts : tokens) (tail : jsstring) : jsstring :=
  match ts with
  | [] => tail
  | (g, c) :: rest => g ++ c :: render rest tail
  end.

(** Gaps are white space, the characters between them are not. *)
Definition gapped (ts : tokens) : Prop :=
  Forall (fun t => forallb isSpace (fst t) = true /\ isSpace (snd t) = false) ts.

(** A mask tells, for each token, the gap a step puts before it, if any. *)
Definition mask := list (option jsstring).

(** Laying a mask over the tokens. *)
Fixpoint override (m : mask) (ts : tokens) : tokens :=
  match m, ts with
  | e :: m', (g, c) :: ts' =>
      (match e with Some v => v | None => g end, c) :: override m' ts'
  | _, _ => ts
  end.

(** The mask of a left-to-right sweep: where [hit] finds a match at the
    head of the tokens, its window is laid down and the sweep goes on
    behind it. *)
Fixpoint sweep (fuel : nat) (hit : tokens -> option mask) (ts : tokens) : mask :=
  match fuel with
  | 0 => []
  | S fuel' =>
      match ts with
      | [] => []
      | _ :: rest =>
          match hit ts with
          | Some win => win ++ sweep fuel' hit (skipn (length win) ts)
          | None => None :: sweep fuel' hit rest
          end
      end
  end.

(** A pattern without [^]. *)
Definition noBol (p : pattern) : Prop :=
  Forall (Forall (fun a => a <> Bol)) p.

Definition isEmpty (g : jsstring) : bool :=
  match g with [] => true | _ :: _ => false end.

(** [n] characters of class [c] at the head of [s]. *)
Definition solidRun (c : char -> bool) (n : nat) (s : jsstring) : bool :=
  (n <=? length s) && forallb c (firstn n s).

(** [n] tokens of class [c] with nothing between them. *)
Fixpoint tightRun (c : char -> bool) (n : nat) (ts : tokens) : bool :=
  match n with
  | 0 => true
  | S n' =>
      match ts with
      | (g, x) :: ts' => isEmpty g && c x && tightRun c n' ts'
      | [] => false
      end
  end.

(** The sequences the repair looks for, as seen on tokens: runs of a fixed
    number of characters of one class, with any white space between the
    runs. *)
Inductive item : Type :=
| Solid (capture : bool) (c : char -> bool) (n : nat)
| Gap.

(** The atom of the matcher an item stands for. *)
Definition atomOf (i : item) : atom :=
  match i with
  | Solid cap c n => Rep cap c n (Some n)
  | Gap => Rep false isSpace 0 None
  end.

(** No solid run takes white space, and a gap is followed by a solid run
    that is not empty. *)
Fixpoint itemsOk (items : list item) : Prop :=
  match items with
  | [] => True
  | Solid _ c _ :: rest =>
      (forall z, isSpace z = true -> c z = false) /\ itemsOk rest
  | Gap :: rest =>
      match rest with Solid _ _ (S _) :: _ => True | _ => False end
      /\ itemsOk rest
  end.

(** Matching on tokens: the captures, the number of tokens and the number
    of characters taken. *)
Fixpoint tokMatch (items : list item) (ts : tokens)
  : option (list jsstring * nat * nat) :=
  match items with
  | [] => Some ([], 0, 0)
  | Solid cap c n :: rest =>
      if tightRun c n ts then
        match tokMatch rest (skipn n ts) with
        | Some (caps, m, len) =>
            Some (if cap then map snd (firstn n ts) :: caps else caps,
                  n + m, n + len)
        | None => None
        end
      else None
  | Gap :: rest =>
      match ts with
      | [] => None
      | (g, x) :: ts' =>
          match tokMatch rest (([], x) :: ts') with
          | Some (caps, m, len) => Some (caps, m, length g + len)
          | None => None
          end
      end
  end.

(** The hit of a sequence that starts with a solid run: it is tried on
    the head token, whose gap stays outside the match. *)
Definition hitOf (items : list item) (win : mask) (ts : tokens) : option mask :=
  match ts with
  | [] => None
  | (g, c) :: ts' =>
      match tokMatch items (([], c) :: ts') with
      | Some _ => Some win
      | None => None
      end
  end.

(** [rxPunctPair], [rxWordDash] and [rxYearDash] as items. *)
Definition itemsPunctPair : list item :=
  [Solid true isPunct 1; Gap; Solid true isPunct 1].
Definition itemsWordDash : list item :=
  [Solid true isWord 1; Gap; Solid false (chr (ch "-")) 1; Gap;
   Solid true isWord 1].
Definition itemsYearDash : list item :=
  [Solid true isDigit 4; Gap; Solid false (chr (ch "-")) 1; Gap;
   Solid true isDigit 4].

(** What their replacement texts [$1 $2], [$1-$2] and [$1 - $2] do to the
    gaps of the tokens matched. *)
Definition winPunctPair : mask := [None; Some (str " ")].
Definition winWordDash : mask := [None; Some []; Some []].
Definition winYearDash : mask :=
  [None; None; None; None; Some (str " "); Some (str " "); None; None; None].

(** The masks of the three steps that start on a character. *)
Definition maskPunctPair (ts : tokens) : mask :=
  sweep (length ts) (hitOf itemsPunctPair winPunctPair) ts.
Definition maskWordDash (ts : tokens) : mask :=
  sweep (length ts) (hitOf itemsWordDash winWordDash) ts.
Definition maskYearDash (ts : tokens) : mask :=
  sweep (length ts) (hitOf itemsYearDash winYearDash) ts.

(** [rxSpaceBeforePunct] with [$1]: the gap before a punctuation mark
    goes. *)
Definition maskSpaceBeforePunct (ts : tokens) : mask :=
  map (fun t => if isPunct (snd t) then Some [] else None) ts.

(** [rxPipe]: one space before a pipe and one after it; a pipe that
    follows a pipe gets the spaces of both matches.  [after] tells that the
    token before is a pipe. *)
Fixpoint maskPipe (after : bool) (ts : tokens) : mask :=
  match ts with
  | [] => []
  | (g, c) :: rest =>
      if chr (ch "|") c
      then Some (if after then str "  " else str " ") :: maskPipe true rest
      else (if after then Some (str " ") else None) :: maskPipe false rest
  end.

(** The white space at the end of the text after [rxPipe]. *)
Fixpoint tailPipe (after : bool) (ts : tokens) (tail : jsstring) : jsstring :=
  match ts with
  | [] => if after then str " " else tail
  | (g, c) :: rest => tailPipe (chr (ch "|") c) rest tail
  end.

(** [rxBulletVariant] on one character. *)
Definition relabel (c : char) : char :=
  if oneOf variantGlyphs c then blackCircle else c.

(** The step of [repair] that collapses the runs of newlines. *)
Definition collapse (s : jsstring) : jsstring :=
  replace rxBlankLines [Lit nl; Lit nl] s.

(** What [trim] does to the tokens (and it empties the tail). *)
Definition dropFirstGap (ts : tokens) : tokens :=
  match ts with
  | [] => []
  | (g, c) :: rest => ([], c) :: rest
  end.

Definition relabelTok (t : jsstring * char) : jsstring * char :=
  (fst t, relabel (snd t)).

Definition collapseTok (t : jsstring * char) : jsstring * char :=
  (collapse (fst t), snd t).

(** What the repair can tell of a character that is not white space. *)
Definition kind (c : char) : bool * bool * bool * bool * bool :=
  (isPunct c, chr (ch "|") c, isWord c, chr (ch "-") c, isDigit c).

(** Two token lists the repair cannot tell apart: the same kinds of
    characters, and the same digits written together. *)
Fixpoint sim (pd : bool) (a b : tokens) : Prop :=
  match a, b with
  | [], [] => True
  | (g, c) :: a', (g', c') :: b' =>
      kind c = kind c'
      /\ (pd && isDigit c = true -> isEmpty g = isEmpty g')
      /\ sim (isDigit c) a' b'
  | _, _ => False
  end.

(** A mask that leaves the gap between two digits alone. *)
Fixpoint safe (pd : bool) (m : mask) (ts : tokens) : Prop :=
  match m, ts with
  | e :: m', (g, c) :: ts' =>
      match e with Some _ => pd && isDigit c = false | None => True end
      /\ safe (isDigit c) m' ts'
  | _, _ => True
  end.

(** A mask that puts white space only. *)
Definition spaceMask (m : mask) : Prop :=
  Forall (fun e => match e with
                   | Some v => forallb isSpace v = true
                   | None => True
                   end) m.

(** The first gaps are both empty or both not. *)
Definition headAgree (a b : tokens) : Prop :=
  match a, b with
  | (g, _) :: _, (g', _) :: _ => isEmpty g = isEmpty g'
  | _, _ => True
  end.

(** Items that look at the kind of a character only: single characters of
    a class the kind decides, or runs of digits, with a gap between any two
    runs. *)
Fixpoint kindly (items : list item) : Prop :=
  match items with
  | [] => True
  | Solid _ c n :: rest =>
      ((n = 1 /\ forall x y, kind x = kind y -> c x = c y) \/ c = isDigit)
      /\ match rest with Solid _ _ _ :: _ => False | _ => True end
      /\ kindly rest
  | Gap :: rest => kindly rest
  end.

(** Whether the items match. *)
Definition tokOk (items : list item) (ts : tokens) : bool :=
  match tokMatch items ts with Some _ => true | None => false end.

(** One entry of a mask at work. *)
Definition pick (e : option jsstring) (g : jsstring) : jsstring :=
  match e with Some v => v | None => g end.

(** No token is an at sign. *)
Definition noAt (ts : tokens) : Prop :=
  forallb (notC (chr (ch "@"))) (map snd ts) = true.

(** One pass of the repair over tokens, each step with its own mask. *)
Definition spacingTokens (ts : tokens) : tokens :=
  let t1 := override (maskSpaceBeforePunct ts) ts in
  let t2 := override (maskPunctPair t1) t1 in
  let t3 := override (maskPipe false t2) t2 in
  let t4 := override (maskWordDash t3) t3 in
  override (maskYearDash t4) t4.

Definition passTokens (ts : tokens) : tokens :=
  dropFirstGap (map collapseTok (map relabelTok (spacingTokens ts))).

(** The same pass with the masks given. *)
Definition fixedPass (mA mB mC mD mE : mask) (ts : tokens) : tokens :=
  map collapseTok (map relabelTok
    (override mE (override mD (override mC (override mB (override mA ts)))))).

(* ================================================================= *)
(** ** More of the code

    Notions for the properties of the code the specification's claims
    leave out, and the handler that calls [extractTextFromPDFs]. *)

(** The characters one sees: those that are not white space. *)
Definition visible (s : jsstring) : jsstring := filter isNonSpace s.

(** A line that is not empty and neither begins nor ends with white
    space, as [trim] leaves it. *)
Definition trimmedLine (l : jsstring) : bool :=
  match l with
  | [] => false
  | x :: _ => negb (isSpace x) && negb (isSpace (last l x))
  end.

(** The characters the first block takes out of the text: the control
    characters it deletes, and the tab and the carriage return it
    replaces. *)
Definition isArtifact : char -> bool :=
  fun c => isControl c || (c =? tab)%N || (c =? cr)%N.

(** The characters the first seven steps of the repair look for:
    punctuation, the pipe, the hyphen, the at sign and the bullet
    variants. *)
Definition isRepairTrigger : char -> bool :=
  fun c => isPunct c || (c =? ch "|")%N || (c =? ch "-")%N || (c =? ch "@")%N
           || oneOf variantGlyphs c.

(** Two spaces in a row. *)
Fixpoint hasDoubleSpace (s : jsstring) : bool :=
  match s with
  | x :: (y :: _) as t =>
      ((x =? ch " ")%N && (y =? ch " ")%N) || hasDoubleSpace t
  | _ => false
  end.

(** The buffers of a batch that are there, in order. *)
Definition presentBuffers {Buffer : Type} (buffers : list (option Buffer))
  : list Buffer :=
  flat_map (fun b => match b with Some x => [x] | None => [] end) buffers.

(** A page text that is truthy and no string: [text?.trim] is then
    [undefined], and calling it raises a TypeError. *)
Definition badPageText (text : JsVal) : bool :=
  truthy text && negb (isString text).

(** ** uploadResumes (candidate.controller.ts) *)

(** An entry of [req.files], as far as the controller looks at it: its
    [buffer], [None] when that is [null] or [undefined]. *)
Record UploadedFile (Buffer : Type) : Type := mkFile { buffer : option Buffer }.

(** [req?.files]: nothing (or another falsy value), a value that is no
    array, or an array, whose entries may be [null] or [undefined]. *)
Inductive Files (Buffer : Type) : Type :=
| NoFiles
| NotAnArray
| FileArray (files : list (option (UploadedFile Buffer))).
Arguments NoFiles {Buffer}.
Arguments NotAnArray {Buffer}.

(** [httpStatus.BAD_REQUEST] and [httpStatus.OK]. *)
Definition BAD_REQUEST : nat := 400.
Definition OK : nat := 200.

(** The object handed to [sendResponse], and its [data]. *)
Record ResponseData : Type := mkData { extractedTexts : list jsstring }.

Record ResponseBody : Type := mkResponse {
  statusCode : nat;
  success : bool;
  message : string;
  data : ResponseData
}.

(** How the handler ends: [throw new AppError(status, message)], or the
    call of [sendResponse]. *)
Inductive reply : Type :=
| Raised (status : nat) (message : string)
| Sent (body : ResponseBody).

Section Upload.

Variables Buffer World : Type.
Variable getText : Buffer -> World -> outcome * World.

(** [file?.buffer] *)
Definition bufferOf (file : option (UploadedFile Buffer)) : option Buffer :=
  match file with
  | Some f => buffer f
  | None => None
  end.

(** [files.map((file) => file?.buffer).filter(...)]: the buffers that are
    neither [null] nor [undefined]. *)
Definition buffersOf (files : list (option (UploadedFile Buffer)))
  : list Buffer :=
  presentBuffers (map bufferOf files).

Definition uploadResumes (files : Files Buffer) : M Buffer World reply :=
  match files with
  | FileArray ((_ :: _) as files) =>
      match buffersOf files with
      | [] => ret (Raised BAD_REQUEST "No valid file buffers found")
      | buffers =>
          bind (extractTextFromPDFs getText (map Some buffers))
               (fun extractedTexts =>
                  ret (Sent (mkResponse OK true "Resumes uploaded successfully"
                                        (mkData extractedTexts))))
      end
  | _ => ret (Raised BAD_REQUEST "No files uploaded")
  end.

(** The buffers a request carries: those of the entries of a [files]
    array. *)
Definition usableBuffers (files : Files Buffer) : list Buffer :=
  match files with
  | FileArray files => buffersOf files
  | _ => []
  end.

End Upload.

(* ================================================================= *)
(** ** The repair on tokens, all steps

    The email step as a sweep over the tokens, texts with one at sign,
    and the gaps each step leaves alone: notions for the claims about
    running text. *)

(** *** The email step on tokens *)

(** The number of tokens at the head that are written together with what
    stands before them. *)
Fixpoint solidLen (ts : tokens) : nat :=
  match ts with
  | (g, _) :: r => if isEmpty g then S (solidLen r) else 0
  | [] => 0
  end.

(** Where [(\S+)\s*@\s*(\S+)] finds its at sign, counted in tokens behind
    the character the match starts on: the first group takes the longest
    run of characters written together and gives characters back until an
    at sign with a token behind it follows. *)
Fixpoint emailHit (rest : tokens) : option nat :=
  match rest with
  | [] => None
  | (g, c) :: rest' =>
      let here := match rest' with
                  | _ :: _ => if chr (ch "@") c then Some 0 else None
                  | [] => None
                  end in
      if isEmpty g
      then match emailHit rest' with
           | Some q => Some (S q)
           | None => here
           end
      else here
  end.

(** The gaps [$1@$2] closes: the one before the at sign and the one behind
    it. *)
Definition winEmail (q : nat) (rest : tokens) : mask :=
  repeat None (S q) ++ [Some []; Some []]
  ++ repeat None (solidLen (skipn (q + 2) rest)).

Definition hitEmail (ts : tokens) : option mask :=
  match ts with
  | [] => None
  | _ :: rest =>
      match emailHit rest with
      | Some q => Some (winEmail q rest)
      | None => None
      end
  end.

Definition maskEmail (ts : tokens) : mask := sweep (length ts) hitEmail ts.

(** One pass of the repair over tokens, the email step included. *)
Definition spacingAll (ts : tokens) : tokens :=
  let t5 := spacingTokens ts in override (maskEmail t5) t5.

Definition passAll (ts : tokens) : tokens :=
  dropFirstGap (map collapseTok (map relabelTok (spacingAll ts))).

(** The atoms of [rxEmail] behind its first group. *)
Definition emailTail : list atom :=
  [star isSpace; one (chr (ch "@")); star isSpace; group (plus isNonSpace)].

(** The first group taking [k] characters of [s], and the rest of the
    pattern what follows. *)
Definition emailTry (s : jsstring) (k : nat) : option (list jsstring * nat) :=
  match matchSeq emailTail false (skipn k s) with
  | Some (caps, n) => Some (firstn k s :: caps, k + n)
  | None => None
  end.

(** *** Texts with one at sign *)

(** Which tokens are at signs, and how many. *)
Definition atSkeleton (ts : tokens) : list bool :=
  map (fun t => chr (ch "@") (snd t)) ts.

Definition atCount (ts : tokens) : nat :=
  length (filter (fun b : bool => b) (atSkeleton ts)).

(** What the email step does to a text with one at sign: where a token
    stands before the at sign and one behind it, the two gaps around the
    at sign are closed.  [first] tells that no token stands before. *)
Fixpoint skelFrom (first : bool) (ts : tokens) : mask :=
  match ts with
  | [] => []
  | (g, c) :: rest =>
      if chr (ch "@") c
      then if first then []
           else match rest with
                | [] => []
                | _ :: _ => [Some []; Some []]
                end
      else None :: skelFrom false rest
  end.

(** One pass with the six masks given. *)
Definition fixedAll (mA mB mC mD mE mF : mask) (ts : tokens) : tokens :=
  map collapseTok (map relabelTok
    (override mF (override mE (override mD (override mC (override mB
       (override mA ts))))))).

(** *** Gaps a step leaves alone *)

(** A mask is quiet when it touches the gap between two characters only
    where [ok] holds of them. *)
Fixpoint quiet (ok : char -> char -> bool) (prev : option char) (m : mask)
         (ts : tokens) : Prop :=
  match m, ts with
  | e :: m', (g, c) :: ts' =>
      (forall v x, e = Some v -> prev = Some x -> ok x c = true)
      /\ quiet ok (Some c) m' ts'
  | _, _ => True
  end.

(** The gaps each step may touch, told from the characters on both
    sides. *)
Definition okPunct (_ c : char) : bool := isPunct c.
Definition okPipe (p c : char) : bool := chr (ch "|") c || chr (ch "|") p.
Definition okWordDash (_ c : char) : bool := chr (ch "-") c || isWord c.
Definition okYearDash (p c : char) : bool :=
  (chr (ch "-") c && isDigit p) || isDigit c.
Definition okEmail (p c : char) : bool := chr (ch "@") c || chr (ch "@") p.

(** The last character of a text that is not white space. *)
Definition lastVisible (s : jsstring) : option char :=
  match rev (visible s) with
  | [] => None
  | z :: _ => Some z
  end.

(** *** One gap through a pass *)

(** What a pass makes of the gap [g] before the token at place [n], when
    a token stands before it. *)
Definition gapAt (ts : tokens) (n : nat) (g : jsstring) : jsstring :=
  collapse
    (pick (nth n (maskEmail (spacingTokens ts)) None)
       (pick (nth n (maskYearDash ts) None)
          (pick (nth n (maskWordDash ts) None)
             (pick (nth n (maskPipe false ts) None)
                (pick (nth n (maskPunctPair ts) None)
                   (pick (nth n (maskSpaceBeforePunct ts) None) g)))))).

(** The tokens of a window through a pass, from place [n] on. *)
Fixpoint gapsFrom (ts : tokens) (n : nat) (mid : tokens) : tokens :=
  match mid with
  | [] => []
  | (g, c) :: r => (gapAt ts n g, relabel c) :: gapsFrom ts (S n) r
  end.

(** The classes of the characters a match of [rxPunctPair], [rxWordDash]
    and [rxYearDash] takes, in their order. *)
Definition clsPunctPair : list (char -> bool) := [isPunct; isPunct].
Definition clsWordDash : list (char -> bool) :=
  [isWord; chr (ch "-"); isWord].
Definition clsYearDash : list (char -> bool) :=
  [isDigit; isDigit; isDigit; isDigit; chr (ch "-");
   isDigit; isDigit; isDigit; isDigit].

(** A hit takes one token for each class, each of its class. *)
Definition obeys (cls : list (char -> bool)) (hit : tokens -> option mask)
  : Prop :=
  forall ts w, hit ts = Some w ->
    length w = length cls
    /\ forall k f, nth_error cls k = Some f ->
         exists g c, nth_error ts k = Some (g, c) /\ f c = true.

(** Whether the last character of a text that is not white space is of
    a class; [false] when there is none. *)
Definition lastVisibleIs (p : char -> bool) (s : jsstring) : bool :=
  match lastVisible s with
  | Some z => p z
  | None => false
  end.

(* ================================================================= *)
(** * Properties *)

(** ** The matcher *)

Section MatcherFacts.

Lemma backtrack_Some A (f : nat -> option A) lo k r :
  backtrack f lo k = Some r ->
  exists j, lo <= j <= k /\ f j = Some r.
Proof.
  induction k as [|k IH]; simpl.
  - destruct lo; simpl; [|discriminate].
    destruct (f 0) eqn:E; [|discriminate].
    intros [= <-]. exists 0. split; [lia|assumption].
  - destruct (S k <? lo) eqn:Hlt; [discriminate|].
    apply Nat.ltb_ge in Hlt.
    destruct (f (S k)) eqn:E.
    + intros [= <-]. exists (S k). split; [lia|assumption].
    + intros H. destruct (IH H) as (j & Hj & Hf).
      exists j. split; [lia|assumption].
Qed.

Lemma backtrack_below A (f : nat -> option A) lo k :
  k < lo -> backtrack f lo k = None.
Proof.
  intros H. apply Nat.ltb_lt in H. destruct k; simpl; now rewrite H.
Qed.

Lemma backtrack_first A (f : nat -> option A) lo k r :
  lo <= k -> f k = Some r -> backtrack f lo k = Some r.
Proof.
  intros Hle Hf. apply Nat.ltb_ge in Hle.
  destruct k; simpl; now rewrite Hle, Hf.
Qed.

Lemma span_le c hi s : span c hi s <= length s.
Proof.
  revert hi. induction s as [|x s IH]; intros hi; simpl; [lia|].
  destruct (c x); [|lia].
  destruct hi as [[|h]|]; [lia| |]; specialize (IH (Some h)) || idtac.
  - lia.
  - specialize (IH None). lia.
Qed.

Lemma span_bound c h s : span c (Some h) s <= h.
Proof.
  revert h. induction s as [|x s IH]; intros h; simpl; [lia|].
  destruct (c x); [|lia].
  destruct h as [|h]; [lia|]. specialize (IH h). lia.
Qed.

Lemma span_forallb c hi s k :
  k <= span c hi s -> forallb c (firstn k s) = true.
Proof.
  revert hi k. induction s as [|x s IH]; intros hi k Hk.
  - now rewrite firstn_nil.
  - destruct k as [|k]; [reflexivity|]. simpl in *.
    destruct (c x); [|lia]. simpl.
    destruct hi as [[|h]|]; [lia| |]; eapply IH with (k := k);
      apply Nat.succ_le_mono; eassumption.
Qed.

Lemma span_all c h s :
  forallb c s = true -> length s <= h -> span c (Some h) s = length s.
Proof.
  revert h. induction s as [|x s IH]; intros h Hall Hlen; simpl in *;
    [reflexivity|].
  apply andb_true_iff in Hall as [Hx Hs]. rewrite Hx.
  destruct h as [|h]; [lia|]. f_equal. apply IH; [assumption|lia].
Qed.

Lemma span_head_false c hi x s : c x = false -> span c hi (x :: s) = 0.
Proof. intros H. simpl. now rewrite H. Qed.

Lemma capturedBy_skipn s g w k :
  capturedBy (skipn k s) g w -> capturedBy s g w.
Proof.
  intros (Hc & Hlo & Hin). repeat split; try assumption.
  intros x Hx. apply Hin in Hx.
  rewrite <- (firstn_skipn k s). apply in_or_app. now right.
Qed.

Lemma matchSeq_sound atoms :
  forall bos s caps n,
    matchSeq atoms bos s = Some (caps, n) ->
    n <= length s /\ Forall2 (capturedBy s) (groupsOf atoms) caps.
Proof.
  induction atoms as [|a atoms IH]; intros bos s caps n H; simpl in H.
  - injection H as <- <-. split; [lia|constructor].
  - destruct a as [| |cap c lo hi].
    + destruct bos; [|discriminate]. exact (IH _ _ _ _ H).
    + destruct s; [|discriminate]. exact (IH _ _ _ _ H).
    + apply backtrack_Some in H as (j & [Hlo Hj] & H).
      destruct (matchSeq atoms _ (skipn j s)) as [[caps' n']|] eqn:E;
        [|discriminate].
      injection H as <- <-.
      apply IH in E as [Hn HF].
      pose proof (span_le c hi s) as Hsp.
      rewrite length_skipn in Hn.
      split; [lia|].
      assert (HF' : Forall2 (capturedBy s) (groupsOf atoms) caps').
      { eapply Forall2_impl; [|exact HF].
        intros g w. apply capturedBy_skipn. }
      destruct cap; simpl; [|destruct lo; assumption].
      constructor; [|assumption].
      repeat split; simpl.
      * eapply span_forallb; eassumption.
      * rewrite length_firstn. lia.
      * intros x Hx. rewrite <- (firstn_skipn j s).
        apply in_or_app. now left.
Qed.

Lemma matchAt_sound p :
  forall bos s caps n,
    matchAt p bos s = Some (caps, n) ->
    n <= length s /\
    exists alt, In alt p /\ Forall2 (capturedBy s) (groupsOf alt) caps.
Proof.
  induction p as [|alt p IH]; intros bos s caps n H; simpl in H;
    [discriminate|].
  destruct (matchSeq alt bos s) as [[caps' n']|] eqn:E.
  - injection H as <- <-. apply matchSeq_sound in E as [Hn HF].
    split; [assumption|]. exists alt. split; [now left|assumption].
  - apply IH in H as (Hn & alt' & Hin & HF).
    split; [assumption|]. exists alt'. split; [now right|assumption].
Qed.

(** A sequence that must consume a character of a class the subject
    lacks does not match. *)
Lemma matchSeq_mandatory atoms :
  forall bos s c,
    In c (mandatory atoms) ->
    (forall x, In x s -> c x = false) ->
    matchSeq atoms bos s = None.
Proof.
  induction atoms as [|a atoms IH]; intros bos s c Hin Hs; simpl in *;
    [contradiction|].
  destruct a as [| |cap c' lo hi].
  - destruct bos; eauto.
  - destruct s; eauto.
  - destruct (backtrack _ lo (span c' hi s)) as [[caps n]|] eqn:E;
      [|reflexivity].
    exfalso.
    apply backtrack_Some in E as (j & [Hlo Hj] & E).
    destruct (matchSeq atoms _ (skipn j s)) eqn:E'; [|discriminate].
    assert (Hs' : forall c'' , (forall x, In x s -> c'' x = false) ->
                               forall x, In x (skipn j s) -> c'' x = false).
    { intros c'' H x Hx. apply H. rewrite <- (firstn_skipn j s).
      apply in_or_app. now right. }
    destruct lo as [|lo].
    + rewrite (IH _ _ c Hin (Hs' _ Hs)) in E'. discriminate.
    + destruct Hin as [<-|Hin].
      * destruct s as [|x s]; [simpl in Hj; lia|].
        rewrite span_head_false in Hj; [lia|]. apply Hs. now left.
      * rewrite (IH _ _ c Hin (Hs' _ Hs)) in E'. discriminate.
Qed.

End MatcherFacts.

(** ** Global replace *)

Section ReplaceFacts.

Variable p : pattern.
Variable t : list tok.

Lemma scan_skipn k :
  forall s, k <= length s ->
            scan p t k false s = scan p t 0 false (skipn k s).
Proof.
  induction k as [|k IH]; intros s Hk; [reflexivity|].
  destruct s as [|x s]; simpl in *; [lia|].
  apply IH. lia.
Qed.

Lemma rw_match_skipn bos x s caps k out :
  matchAt p bos (x :: s) = Some (caps, S k) ->
  Rewrites p t false (skipn k s) out ->
  Rewrites p t bos (x :: s) (expand t caps ++ out).
Proof.
  intros Hm Hr.
  assert (Hk : k <= length s).
  { apply matchAt_sound in Hm as [Hn _]. simpl in Hn. lia. }
  pose proof (@rw_match p t bos x (firstn k s) (skipn k s) caps out) as R.
  rewrite firstn_skipn, length_firstn, Nat.min_l in R by assumption.
  auto.
Qed.

Lemma scan_Rewrites s : forall bos, Rewrites p t bos s (scan p t 0 bos s).
Proof.
  induction s as [s IH] using (induction_ltof1 _ (@length char)).
  unfold ltof in IH. intros bos.
  destruct s as [|x s]; simpl.
  - destruct (matchAt p bos []) as [[caps n]|] eqn:E.
    + eapply rw_end_match; eassumption.
    + now apply rw_end.
  - destruct (matchAt p bos (x :: s)) as [[caps [|k]]|] eqn:E.
    + apply rw_empty; [assumption|]. apply IH. simpl. lia.
    + assert (Hk : k <= length s).
      { apply matchAt_sound in E as [Hn _]. simpl in Hn. lia. }
      eapply rw_match_skipn; [eassumption|].
      rewrite scan_skipn by assumption.
      apply IH. rewrite length_skipn. simpl. lia.
    + apply rw_keep; [assumption|]. apply IH. simpl. lia.
Qed.

Lemma replace_Rewrites s : Rewrites p t true s (replace p t s).
Proof. apply scan_Rewrites. Qed.

(** Where the pattern matches nowhere, the text is left as it is. *)
Lemma scan_no_match s :
  forall bos,
    (forall b u v, s = u ++ v -> matchAt p b v = None) ->
    scan p t 0 bos s = s.
Proof.
  induction s as [|x s IH]; intros bos H; simpl.
  - now rewrite (H bos [] []).
  - rewrite (H bos [] (x :: s)) by reflexivity.
    f_equal. apply IH. intros b u v ->. apply (H b (x :: u) v). reflexivity.
Qed.

Lemma expand_chars caps x :
  In x (expand t caps) ->
  In (Lit x) t \/ exists w, In w caps /\ In x w.
Proof.
  unfold expand. rewrite in_flat_map. intros (tk & Htk & Hx).
  destruct tk as [c|n]; simpl in Hx.
  - destruct Hx as [->|[]]. now left.
  - right. exists (nth (n - 1) caps []). split; [|assumption].
    destruct (nth_in_or_default (n - 1) caps []) as [H|H]; [assumption|].
    rewrite H in Hx. contradiction.
Qed.

(** Every character of the output is a character of the input or a
    literal of the template. *)
Lemma Rewrites_chars bos s out :
  Rewrites p t bos s out ->
  forall x, In x out -> In x s \/ In (Lit x) t.
Proof.
  assert (Hexp : forall b s' caps n x,
             matchAt p b s' = Some (caps, n) ->
             In x (expand t caps) -> In x s' \/ In (Lit x) t).
  { intros b s' caps n x Hm Hx.
    apply matchAt_sound in Hm as (_ & alt & _ & HF).
    apply expand_chars in Hx as [Hx|(w & Hw & Hx)]; [now right|left].
    clear -HF Hw Hx. induction HF as [|g w' gs ws Hg _ IH]; [contradiction|].
    destruct Hw as [->|Hw]; [|now apply IH].
    destruct Hg as (_ & _ & Hincl). now apply Hincl. }
  induction 1 as [bos Hm|bos caps n Hm|bos x s out Hm Hr IH
                 |bos x s caps out Hm Hr IH|bos x m s caps out Hm Hr IH];
    intros y Hy.
  - contradiction.
  - eapply Hexp; eassumption.
  - destruct Hy as [->|Hy]; [left; now left|].
    destruct (IH _ Hy) as [H|H]; [left; now right|now right].
  - apply in_app_or in Hy as [Hy|[->|Hy]].
    + eapply Hexp; eassumption.
    + left. now left.
    + destruct (IH _ Hy) as [H|H]; [left; now right|now right].
  - apply in_app_or in Hy as [Hy|Hy].
    + eapply Hexp; eassumption.
    + destruct (IH _ Hy) as [H|H]; [|now right].
      left. right. apply in_or_app. now right.
Qed.

Lemma replace_chars s x :
  In x (replace p t s) -> In x s \/ In (Lit x) t.
Proof. apply Rewrites_chars with (bos := true). apply replace_Rewrites. Qed.

End ReplaceFacts.

(** Replacing a one-character class by a literal acts on each character
    by itself. *)
Lemma span_one c x s : span c (Some 1) (x :: s) = if c x then 1 else 0.
Proof.
  simpl. destruct (c x); [|reflexivity].
  now destruct s as [|y s]; simpl; [|destruct (c y)].
Qed.

Lemma matchAt_one c bos x s :
  matchAt [[one c]] bos (x :: s) = if c x then Some ([], 1) else None.
Proof.
  unfold matchAt, matchSeq, one. rewrite span_one.
  destruct (c x); reflexivity.
Qed.

Lemma replace_class c y s :
  replace [[one c]] [Lit y] s = map (fun x => if c x then y else x) s.
Proof.
  unfold replace. generalize true as bos.
  induction s as [|x s IH]; intros bos; [reflexivity|].
  cbn [scan map]. rewrite matchAt_one.
  destruct (c x); cbn [expand flat_map expandTok app]; f_equal; apply IH.
Qed.

(** ** Anchored tests *)

Lemma search_Bol_later alt s : search [Bol :: alt] false s = false.
Proof. induction s as [|x s IH]; simpl; [reflexivity|assumption]. Qed.

Lemma test_Bol alt s :
  test [Bol :: alt] s =
  match matchSeq alt true s with Some _ => true | None => false end.
Proof.
  unfold test. destruct s as [|x s]; simpl;
    destruct (matchSeq alt true _); try reflexivity.
  apply search_Bol_later.
Qed.

(** [^c{lo,hi}$] accepts exactly the strings of [lo] to [hi] characters,
    all in [c]. *)
Lemma test_whole_line c lo hi s :
  test [[Bol; Rep false c lo (Some hi); Eol]] s = true <->
  forallb c s = true /\ lo <= length s <= hi.
Proof.
  rewrite test_Bol. cbn [matchSeq].
  set (f := fun k : nat => _).
  split.
  - destruct (backtrack f lo (span c (Some hi) s)) as [r|] eqn:E;
      [intros _|discriminate].
    apply backtrack_Some in E as (j & [Hlo Hj] & E).
    subst f. cbv beta in E.
    destruct (skipn j s) eqn:Hsk; [|discriminate].
    apply (f_equal (@length char)) in Hsk. rewrite length_skipn in Hsk.
    simpl in Hsk.
    pose proof (span_le c (Some hi) s). pose proof (span_bound c hi s).
    assert (j = length s) by lia. subst j.
    split; [|lia].
    rewrite <- (firstn_all s) at 1. eapply span_forallb. eassumption.
  - intros [Hall Hlen]. rewrite span_all by (assumption || lia).
    erewrite backtrack_first; [reflexivity|lia|].
    subst f. cbv beta. rewrite skipn_all. reflexivity.
Qed.

(** [^[glyphs]] looks at the first character only. *)
Lemma test_first_char c s :
  test [[Bol; one c]] s = match s with x :: _ => c x | [] => false end.
Proof.
  rewrite test_Bol. destruct s as [|x s]; [reflexivity|].
  pose proof (matchAt_one c true x s) as H. cbn [matchAt] in H.
  destruct (matchSeq [one c] true (x :: s)); destruct (c x);
    congruence.
Qed.

Lemma isBulletPoint_head line :
  isBulletPoint line =
  match line with x :: _ => oneOf bulletGlyphs x | [] => false end.
Proof. apply test_first_char. Qed.

Lemma isHeaderCaps_spec line :
  isHeaderCaps line = true <->
  forallb isCapsChar line = true /\ 2 <= length line <= 35.
Proof.
  unfold isHeaderCaps. rewrite andb_true_iff.
  unfold rxHeaderCaps, between. rewrite test_whole_line, Nat.ltb_lt.
  intuition lia.
Qed.

Lemma bullet_not_caps x : oneOf bulletGlyphs x = true -> isCapsChar x = false.
Proof.
  unfold oneOf, bulletGlyphs. cbn [existsb].
  rewrite !orb_true_iff, !N.eqb_eq.
  intros H. decompose [or] H; subst; try reflexivity; discriminate.
Qed.

(** ** Strings *)

Lemma dropWhile_split p s :
  exists u, s = u ++ dropWhile p s /\ forallb p u = true.
Proof.
  induction s as [|x s (u & Hs & Hu)]; simpl.
  - exists []. split; reflexivity.
  - destruct (p x) eqn:Hp.
    + exists (x :: u). simpl. rewrite Hp, Hu. split; [congruence|reflexivity].
    + exists []. split; reflexivity.
Qed.

Lemma dropWhile_head p s x r : dropWhile p s = x :: r -> p x = false.
Proof.
  induction s as [|y s IH]; simpl; [discriminate|].
  destruct (p y) eqn:Hp; [assumption|]. now intros [= <- <-].
Qed.

Lemma trim_split s :
  exists u v, s = u ++ trim s ++ v
              /\ forallb isSpace u = true /\ forallb isSpace v = true.
Proof.
  destruct (dropWhile_split isSpace s) as (u & Hs & Hu).
  destruct (dropWhile_split isSpace (rev (dropWhile isSpace s)))
    as (w & Hr & Hw).
  exists u, (rev w). unfold trim. repeat split.
  - rewrite <- rev_app_distr, <- Hr, rev_involutive. assumption.
  - assumption.
  - rewrite forallb_forall in *. intros x Hx. apply Hw. now apply in_rev.
Qed.

Lemma trim_incl s : incl (trim s) s.
Proof.
  destruct (trim_split s) as (u & v & Hs & _). intros x Hx.
  rewrite Hs. apply in_or_app. right. apply in_or_app. now left.
Qed.

Lemma trim_nonspace s :
  0 < length (trim s) -> existsb isNonSpace (trim s) = true.
Proof.
  unfold trim. destruct (dropWhile isSpace (rev _)) as [|x r] eqn:E;
    simpl; [lia|intros _].
  apply dropWhile_head in E. rewrite existsb_app. simpl.
  unfold isNonSpace, notC. rewrite E. simpl. apply orb_true_r.
Qed.

Lemma split_no_sep sep s :
  Forall (fun l => forallb (fun x => negb (x =? sep)%N) l = true) (split sep s).
Proof.
  induction s as [|x s IH]; simpl.
  - repeat constructor.
  - destruct (x =? sep)%N eqn:Ex.
    + constructor; [reflexivity|assumption].
    + destruct (split sep s) as [|l ls]; inversion IH; subst;
        constructor; simpl; try rewrite Ex; auto.
Qed.

Lemma forallb_incl (q : char -> bool) (a b : jsstring) :
  incl a b -> forallb q b = true -> forallb q a = true.
Proof.
  rewrite !forallb_forall. auto.
Qed.

(** ** Lines without blank lines between them *)

Lemma noBlankFrom_weaken s :
  noBlankFrom true s = true -> noBlankFrom false s = true.
Proof.
  induction s as [|x s IH]; simpl; [reflexivity|].
  destruct (x =? nl)%N; [discriminate|].
  destruct (isSpace x); auto.
Qed.

Lemma noBlankFrom_any b s :
  noBlankFrom b s = true -> noBlankFrom false s = true.
Proof. destruct b; [apply noBlankFrom_weaken|auto]. Qed.

Lemma noBlankFrom_app_l u : forall b v,
  noBlankFrom b (u ++ v) = true -> noBlankFrom b u = true.
Proof.
  induction u as [|x u IH]; intros b v; simpl; [reflexivity|].
  destruct (x =? nl)%N; [destruct b; [discriminate|apply IH]|].
  destruct (isSpace x); apply IH.
Qed.

Lemma noBlankFrom_app_r u : forall b v,
  noBlankFrom b (u ++ v) = true -> noBlankFrom false v = true.
Proof.
  induction u as [|x u IH]; intros b v; simpl; [apply noBlankFrom_any|].
  destruct (x =? nl)%N; [destruct b; [discriminate|apply IH]|].
  destruct (isSpace x); apply IH.
Qed.

Lemma noBlankFrom_no_nl r : forall b v,
  forallb (fun x => negb (x =? nl)%N) r = true ->
  noBlankFrom b (r ++ v) = noBlankFrom (b && forallb isSpace r) v.
Proof.
  induction r as [|x r IH]; intros b v H; simpl in *.
  - now rewrite andb_true_r.
  - apply andb_true_iff in H as [Hx Hr].
    apply negb_true_iff in Hx. rewrite Hx.
    destruct (isSpace x); simpl; rewrite IH by assumption; [reflexivity|].
    now rewrite andb_false_r.
Qed.

Lemma existsb_nonspace r :
  existsb isNonSpace r = true -> forallb isSpace r = false.
Proof.
  induction r as [|x r IH]; simpl; [discriminate|].
  unfold isNonSpace at 1, notC. destruct (isSpace x); simpl; auto.
Qed.

Lemma noBlankFrom_solid r b v :
  solidLine r = true -> noBlankFrom b (r ++ v) = noBlankFrom false v.
Proof.
  unfold solidLine. intros H. apply andb_true_iff in H as [Hn He].
  rewrite noBlankFrom_no_nl by assumption.
  now rewrite (existsb_nonspace _ He), andb_false_r.
Qed.

Lemma noBlankFrom_cons x s out :
  (forall b, noBlankFrom b s = true -> noBlankFrom b out = true) ->
  forall b, noBlankFrom b (x :: s) = true -> noBlankFrom b (x :: out) = true.
Proof.
  intros H b. simpl.
  destruct (x =? nl)%N; [destruct b; [discriminate|apply H]|].
  destruct (isSpace x); apply H.
Qed.

(** A global replace whose replacement texts are solid keeps the text free
    of blank lines. *)
Lemma Rewrites_noBlank p t :
  (forall bos s caps n,
      matchAt p bos s = Some (caps, n) -> solidLine (expand t caps) = true) ->
  forall bos s out,
    Rewrites p t bos s out ->
    forall b, noBlankFrom b s = true -> noBlankFrom b out = true.
Proof.
  intros Hsolid bos s out R.
  induction R as [bos Hm|bos caps n Hm|bos x s out Hm Hr IH
                 |bos x s caps out Hm Hr IH|bos x m s caps out Hm Hr IH];
    intros b Hb.
  - reflexivity.
  - rewrite <- (app_nil_r (expand t caps)).
    rewrite noBlankFrom_solid by eauto. reflexivity.
  - revert b Hb. now apply noBlankFrom_cons.
  - rewrite noBlankFrom_solid by eauto.
    apply noBlankFrom_any in Hb. revert Hb. now apply noBlankFrom_cons.
  - rewrite noBlankFrom_solid by eauto.
    apply IH. change (x :: m ++ s) with ((x :: m) ++ s) in Hb.
    eapply noBlankFrom_app_r. eassumption.
Qed.

Lemma replace_noBlank p t :
  (forall bos s caps n,
      matchAt p bos s = Some (caps, n) -> solidLine (expand t caps) = true) ->
  forall s b, noBlankFrom b s = true -> noBlankFrom b (replace p t s) = true.
Proof.
  intros Hsolid s. eapply Rewrites_noBlank; [eassumption|].
  apply replace_Rewrites.
Qed.

Lemma noBlankFrom_trim s :
  noBlankFrom false s = true -> noBlankFrom false (trim s) = true.
Proof.
  destruct (trim_split s) as (u & v & Hs & _). intros H.
  rewrite Hs in H. apply noBlankFrom_app_r in H.
  eapply noBlankFrom_app_l. eassumption.
Qed.

(** ** The replacement texts of the repair are solid *)

Lemma class_no_nl (c : char -> bool) w :
  c nl = false -> forallb c w = true ->
  forallb (fun x => negb (x =? nl)%N) w = true.
Proof.
  intros Hnl. rewrite !forallb_forall. intros H x Hx.
  apply negb_true_iff. destruct (N.eqb_spec x nl) as [->|]; [|reflexivity].
  rewrite <- Hnl. symmetry. now apply H.
Qed.

Lemma isPunct_nonspace x : isPunct x = true -> isNonSpace x = true.
Proof.
  unfold isPunct, oneOf. cbn [existsb str].
  rewrite !orb_true_iff, !N.eqb_eq.
  intros H. decompose [or] H; subst; try reflexivity; discriminate.
Qed.

Lemma class_nonspace (c : char -> bool) w :
  (forall x, c x = true -> isNonSpace x = true) ->
  forallb c w = true -> 1 <= length w -> existsb isNonSpace w = true.
Proof.
  intros Hc Hw Hlen. destruct w as [|x w]; simpl in *; [lia|].
  apply andb_true_iff in Hw as [Hx _]. now rewrite (Hc _ Hx).
Qed.

Lemma solidLine_intro r :
  forallb (fun x => negb (x =? nl)%N) r = true ->
  existsb isNonSpace r = true -> solidLine r = true.
Proof. intros H1 H2. unfold solidLine. now rewrite H1, H2. Qed.

(** The shape of the captures of a successful match. *)
Ltac captures H :=
  let alt := fresh "alt" in
  let HF := fresh "HF" in
  apply matchAt_sound in H as (_ & alt & [<-|[]] & HF);
  cbn [groupsOf group one plus star exactly app lit map] in HF;
  repeat match goal with
         | F : Forall2 _ (_ :: _) _ |- _ => inversion F; subst; clear F
         | F : Forall2 _ [] _ |- _ => inversion F; subst; clear F
         | C : capturedBy _ _ _ |- _ =>
             let Hc := fresh "Hc" in
             let Hl := fresh "Hl" in
             destruct C as (Hc & Hl & _); cbn [fst snd] in Hc, Hl
         end.

Ltac unfold_tpl :=
  repeat match goal with
         | |- context [tpl ?x] =>
             let v := eval vm_compute in (tpl x) in change (tpl x) with v
         end;
  cbn [expand flat_map expandTok nth Nat.sub app].

Ltac no_nl :=
  repeat (rewrite forallb_app || cbn [forallb]);
  repeat (apply andb_true_intro; split);
  first [ reflexivity
        | eapply class_no_nl; [|eassumption]; reflexivity ].

Lemma solid_SpaceBeforePunct bos s caps n :
  matchAt rxSpaceBeforePunct bos s = Some (caps, n) ->
  solidLine (expand (tpl "$1") caps) = true.
Proof.
  intros H. captures H. unfold_tpl. apply solidLine_intro; [no_nl|].
  rewrite existsb_app. apply orb_true_intro. left.
  apply class_nonspace with (c := isPunct);
    [exact isPunct_nonspace|assumption|assumption].
Qed.

Lemma solid_PunctPair bos s caps n :
  matchAt rxPunctPair bos s = Some (caps, n) ->
  solidLine (expand (tpl "$1 $2") caps) = true.
Proof.
  intros H. captures H. unfold_tpl. apply solidLine_intro; [no_nl|].
  rewrite existsb_app. apply orb_true_intro. left.
  apply class_nonspace with (c := isPunct);
    [exact isPunct_nonspace|assumption|assumption].
Qed.

Lemma solid_Pipe bos s caps n :
  matchAt rxPipe bos s = Some (caps, n) ->
  solidLine (expand (tpl " | ") caps) = true.
Proof. intros _. reflexivity. Qed.

Lemma solid_WordDash bos s caps n :
  matchAt rxWordDash bos s = Some (caps, n) ->
  solidLine (expand (tpl "$1-$2") caps) = true.
Proof.
  intros H. captures H. unfold_tpl. apply solidLine_intro; [no_nl|].
  rewrite existsb_app. apply orb_true_intro. right. reflexivity.
Qed.

Lemma solid_YearDash bos s caps n :
  matchAt rxYearDash bos s = Some (caps, n) ->
  solidLine (expand (tpl "$1 - $2") caps) = true.
Proof.
  intros H. captures H. unfold_tpl. apply solidLine_intro; [no_nl|].
  rewrite existsb_app. apply orb_true_intro. right. reflexivity.
Qed.

Lemma solid_Email bos s caps n :
  matchAt rxEmail bos s = Some (caps, n) ->
  solidLine (expand (tpl "$1@$2") caps) = true.
Proof.
  intros H. captures H. unfold_tpl. apply solidLine_intro; [no_nl|].
  rewrite existsb_app. apply orb_true_intro. right. reflexivity.
Qed.

Lemma solid_BulletVariant bos s caps n :
  matchAt rxBulletVariant bos s = Some (caps, n) ->
  solidLine (expand [Lit blackCircle] caps) = true.
Proof. intros _. reflexivity. Qed.

(** ** The merge loop *)

Lemma mergeLoop_app l1 : forall acc i l2,
  mergeLoop acc i (l1 ++ l2)
  = mergeLoop (mergeLoop acc i l1) (i + length l1) l2.
Proof.
  induction l1 as [|l l1 IH]; intros acc i l2; simpl.
  - now rewrite Nat.add_0_r.
  - rewrite IH. f_equal. lia.
Qed.

Lemma mergeLoop_snoc lines i line :
  nth_error lines i = Some line ->
  mergeLoop [] 0 (firstn (S i) lines) =
  mergeStep (mergeLoop [] 0 (firstn i lines)) i line.
Proof.
  intros H.
  assert (Hi : i < length lines) by (apply nth_error_Some; congruence).
  assert (Hf : firstn (S i) lines = firstn i lines ++ [line]).
  { revert i H Hi. induction lines as [|l lines IH]; intros [|i] H Hi;
      simpl in *; try lia; try discriminate.
    - now injection H as ->.
    - f_equal. apply IH; [assumption|lia]. }
  rewrite Hf, mergeLoop_app. simpl.
  rewrite length_firstn, Nat.min_l by lia. reflexivity.
Qed.

Lemma Forall_removelast A (P : A -> Prop) l :
  Forall P l -> Forall P (removelast l).
Proof.
  induction 1 as [|x l Hx Hl IH]; simpl; [constructor|].
  destruct l; [constructor|]. constructor; assumption.
Qed.

Lemma Forall_last A (P : A -> Prop) l d : Forall P l -> l <> [] -> P (last l d).
Proof.
  induction 1 as [|x l Hx Hl IH]; intros Hne; [congruence|].
  simpl. destruct l; [assumption|]. apply IH. discriminate.
Qed.

Lemma solidLine_merge prev cur :
  solidLine prev = true -> solidLine cur = true ->
  solidLine (prev ++ str " " ++ cur) = true.
Proof.
  unfold solidLine. intros Hp Hc.
  apply andb_true_iff in Hp as [Hp1 Hp2].
  apply andb_true_iff in Hc as [Hc1 Hc2].
  apply andb_true_intro. split.
  - rewrite !forallb_app, Hp1, Hc1. reflexivity.
  - rewrite existsb_app, Hp2. reflexivity.
Qed.

Lemma mergeStep_solid acc i line :
  Forall (fun l => solidLine l = true) acc ->
  solidLine line = true ->
  Forall (fun l => solidLine l = true) (mergeStep acc i line).
Proof.
  intros Hacc Hline. unfold mergeStep.
  destruct (shouldMerge _ _ _ && (0 <? length acc)) eqn:E.
  - apply andb_true_iff in E as [_ E]. apply Nat.ltb_lt in E.
    apply Forall_app. split; [now apply Forall_removelast|].
    constructor; [|constructor].
    apply solidLine_merge; [|assumption].
    unfold prevLineOf.
    apply Forall_last with (P := fun l => solidLine l = true);
      [assumption|]. destruct acc; simpl in *; [lia|discriminate].
  - apply Forall_app. split; [assumption|].
    constructor; [assumption|constructor].
Qed.

Lemma mergeLoop_solid lines : forall acc i,
  Forall (fun l => solidLine l = true) acc ->
  Forall (fun l => solidLine l = true) lines ->
  Forall (fun l => solidLine l = true) (mergeLoop acc i lines).
Proof.
  induction lines as [|l lines IH]; intros acc i Hacc Hl; simpl;
    [assumption|].
  inversion Hl; subst. apply IH; [|assumption].
  now apply mergeStep_solid.
Qed.

Lemma splitLines_solid cleaned :
  Forall (fun l => solidLine l = true) (splitLines cleaned).
Proof.
  unfold splitLines. apply Forall_forall. intros l Hl.
  apply filter_In in Hl as [Hl Hlen]. apply Nat.ltb_lt in Hlen.
  apply in_map_iff in Hl as (piece & <- & Hp).
  pose proof (split_no_sep nl cleaned) as Hs.
  rewrite Forall_forall in Hs. specialize (Hs _ Hp).
  unfold solidLine. rewrite trim_nonspace by assumption.
  rewrite (forallb_incl _ (trim_incl piece) Hs). reflexivity.
Qed.

Lemma join_noBlank lines :
  Forall (fun l => solidLine l = true) lines ->
  forall b, noBlankFrom b (join [nl] lines) = true.
Proof.
  induction 1 as [|l lines Hl Hlines IH]; intros b; [reflexivity|].
  cbn [join]. destruct lines as [|l' lines].
  - rewrite <- (app_nil_r l). now rewrite noBlankFrom_solid.
  - rewrite noBlankFrom_solid by assumption. cbn [app noBlankFrom].
    rewrite N.eqb_refl. apply IH.
Qed.

Lemma reconstructed_noBlank text :
  noBlankFrom false (reconstructed text) = true.
Proof.
  unfold reconstructed, mergeLines. apply join_noBlank.
  apply mergeLoop_solid; [constructor|apply splitLines_solid].
Qed.

Lemma repairSpacing_noBlank s :
  noBlankFrom false s = true -> noBlankFrom false (repairSpacing s) = true.
Proof.
  intros H. unfold repairSpacing.
  apply replace_noBlank; [exact solid_BulletVariant|].
  apply replace_noBlank; [exact solid_Email|].
  apply replace_noBlank; [exact solid_YearDash|].
  apply replace_noBlank; [exact solid_WordDash|].
  apply replace_noBlank; [exact solid_Pipe|].
  apply replace_noBlank; [exact solid_PunctPair|].
  apply replace_noBlank; [exact solid_SpaceBeforePunct|].
  assumption.
Qed.

Lemma span_newlines b v : noBlankFrom b v = true -> span (chr nl) None v <= 1.
Proof.
  destruct v as [|x [|y v]]; simpl; try lia.
  - destruct (chr nl x); lia.
  - unfold chr. destruct (x =? nl)%N; [|lia].
    destruct (y =? nl)%N; [|lia]. destruct b; discriminate.
Qed.

(** Text without blank lines holds no run of three newlines. *)
Lemma collapse_noBlank s :
  noBlankFrom false s = true -> replace rxBlankLines [Lit nl; Lit nl] s = s.
Proof.
  intros H. apply scan_no_match. intros b u v ->.
  apply noBlankFrom_app_r in H. apply span_newlines in H.
  cbn [rxBlankLines matchAt matchSeq atLeast].
  rewrite backtrack_below; [reflexivity|lia].
Qed.

Lemma noBlankFrom_step b x s :
  noBlankFrom b (x :: s) =
  if (x =? nl)%N then (if b then false else noBlankFrom true s)
  else if isSpace x then noBlankFrom b s else noBlankFrom false s.
Proof. reflexivity. Qed.

Lemma noBlankFrom_hasBlankLine s : forall b,
  noBlankFrom b s = true -> hasBlankLine s = false.
Proof.
  induction s as [|x s IH]; intros b H; [reflexivity|].
  destruct s as [|y s]; [reflexivity|].
  cbn [hasBlankLine]. rewrite orb_false_iff.
  rewrite noBlankFrom_step in H. split.
  - destruct (x =? nl)%N; [|reflexivity].
    destruct (y =? nl)%N eqn:Ey; [|reflexivity].
    destruct b; [discriminate|]. simpl in H. now rewrite Ey in H.
  - destruct (x =? nl)%N.
    + destruct b; [discriminate|]. eapply IH. eassumption.
    + destruct (isSpace x); eapply IH; eassumption.
Qed.

Lemma mergeStep_nonempty acc i line :
  Forall (fun l => 0 < length l) acc -> 0 < length line ->
  Forall (fun l => 0 < length l) (mergeStep acc i line).
Proof.
  intros Hacc Hline. unfold mergeStep.
  destruct (shouldMerge _ _ _ && _).
  - apply Forall_app. split; [now apply Forall_removelast|].
    repeat constructor. rewrite !length_app. lia.
  - apply Forall_app. split; [assumption|]. repeat constructor. assumption.
Qed.

Lemma mergeLoop_nonempty lines : forall acc i,
  Forall (fun l => 0 < length l) acc ->
  Forall (fun l => 0 < length l) lines ->
  Forall (fun l => 0 < length l) (mergeLoop acc i lines).
Proof.
  induction lines as [|l lines IH]; intros acc i Hacc Hl; simpl;
    [assumption|].
  inversion Hl; subst. apply IH; [|assumption].
  now apply mergeStep_nonempty.
Qed.

Lemma Forall_firstn A (P : A -> Prop) n l : Forall P l -> Forall P (firstn n l).
Proof.
  intros H. rewrite Forall_forall in *. intros x Hx. apply H.
  rewrite <- (firstn_skipn n l). apply in_or_app. now left.
Qed.

(** A structural line is pushed, whatever came before. *)
Lemma mergeStep_newSection acc i line :
  isNewSection i line = true -> mergeStep acc i line = acc ++ [line].
Proof.
  intros H. unfold mergeStep, shouldMerge. now rewrite H.
Qed.

(** ** Evaluating the matcher on texts of a known shape *)

Lemma matchSeq_head_fail cap c lo hi rest bos x s :
  c x = false -> matchSeq (Rep cap c (S lo) hi :: rest) bos (x :: s) = None.
Proof.
  intros H. cbn [matchSeq]. rewrite span_head_false by assumption.
  apply backtrack_below. lia.
Qed.

Lemma matchSeq_star_stop c hi rest bos x s :
  c x = false ->
  matchSeq (Rep false c 0 hi :: rest) bos (x :: s) = matchSeq rest bos (x :: s).
Proof.
  intros H. cbn [matchSeq]. rewrite span_head_false by assumption.
  cbn. rewrite andb_true_r.
  destruct (matchSeq rest bos (x :: s)) as [[caps n]|]; reflexivity.
Qed.

Lemma matchSeq_one cap c rest bos x s :
  c x = true ->
  matchSeq (Rep cap c 1 (Some 1) :: rest) bos (x :: s) =
  match matchSeq rest false s with
  | Some (caps, n) => Some (if cap then [x] :: caps else caps, S n)
  | None => None
  end.
Proof.
  intros H. cbn [matchSeq]. rewrite span_one, H.
  cbn. rewrite andb_false_r.
  destruct (matchSeq rest false s) as [[caps n]|]; reflexivity.
Qed.

Lemma span_run c w s :
  forallb c w = true ->
  match s with [] => True | y :: _ => c y = false end ->
  span c None (w ++ s) = length w.
Proof.
  intros Hw Hs. induction w as [|x w IH]; simpl in *.
  - destruct s as [|y s]; [reflexivity|]. simpl. now rewrite Hs.
  - apply andb_true_iff in Hw as [Hx Hw]. rewrite Hx. f_equal. now apply IH.
Qed.

Lemma span_exact c w s :
  forallb c w = true -> span c (Some (length w)) (w ++ s) = length w.
Proof.
  intros Hw. induction w as [|x w IH]; simpl in *.
  - destruct s as [|y s]; [reflexivity|]. simpl. now destruct (c y).
  - apply andb_true_iff in Hw as [Hx Hw]. rewrite Hx. f_equal. now apply IH.
Qed.

Lemma skipn_length_app A (w s : list A) : skipn (length w) (w ++ s) = s.
Proof. induction w; simpl; auto. Qed.

Lemma firstn_length_app A (w s : list A) : firstn (length w) (w ++ s) = w.
Proof. induction w; simpl; f_equal; auto. Qed.

(** A star that takes a whole run and is followed by a match of the rest
    needs no backtracking. *)
Lemma matchSeq_star_run c rest bos w s caps n :
  forallb c w = true ->
  match s with [] => True | y :: _ => c y = false end ->
  (forall b, matchSeq rest b s = Some (caps, n)) ->
  matchSeq (Rep false c 0 None :: rest) bos (w ++ s)
  = Some (caps, length w + n).
Proof.
  intros Hw Hs Hrest. cbn [matchSeq]. rewrite span_run by assumption.
  apply backtrack_first; [lia|].
  now rewrite skipn_length_app, Hrest.
Qed.

Lemma matchSeq_exact cap c rest bos w s caps n :
  forallb c w = true ->
  (forall b, matchSeq rest b s = Some (caps, n)) ->
  matchSeq (Rep cap c (length w) (Some (length w)) :: rest) bos (w ++ s)
  = Some (if cap then w :: caps else caps, length w + n).
Proof.
  intros Hw Hrest. cbn [matchSeq]. rewrite span_exact by assumption.
  apply backtrack_first; [lia|].
  now rewrite skipn_length_app, firstn_length_app, Hrest.
Qed.

Lemma matchSeq_exact_end cap c bos w :
  forallb c w = true ->
  matchSeq [Rep cap c (length w) (Some (length w))] bos w
  = Some (if cap then [w] else [], length w + 0).
Proof.
  intros Hw.
  pose proof (@matchSeq_exact cap c [] bos w [] [] 0 Hw (fun _ => eq_refl))
    as H.
  now rewrite app_nil_r in H.
Qed.

Section ScanSteps.

Variable p : pattern.
Variable t : list tok.

Lemma scan_keep bos x s :
  matchAt p bos (x :: s) = None ->
  scan p t 0 bos (x :: s) = x :: scan p t 0 false s.
Proof. intros H. cbn [scan]. now rewrite H. Qed.

Lemma scan_hit bos x s caps k :
  matchAt p bos (x :: s) = Some (caps, S k) ->
  scan p t 0 bos (x :: s) = expand t caps ++ scan p t 0 false (skipn k s).
Proof.
  intros H. cbn [scan]. rewrite H. f_equal. apply scan_skipn.
  apply matchAt_sound in H as [Hn _]. simpl in Hn. lia.
Qed.

(** Where each alternative needs a character of a class the text lacks,
    the scan changes nothing. *)
Lemma scan_lacking bos s :
  Forall (fun alt => exists c, In c (mandatory alt) /\
                               forallb (notC c) s = true) p ->
  scan p t 0 bos s = s.
Proof.
  intros Hp. apply scan_no_match. intros b u v ->.
  induction Hp as [|alt p' (c & Hc & Hs) _ IH]; simpl; [reflexivity|].
  rewrite (matchSeq_mandatory _ _ _ _ Hc); [assumption|].
  intros x Hx. rewrite forallb_app in Hs. apply andb_true_iff in Hs as [_ Hs].
  rewrite forallb_forall in Hs. apply Hs in Hx. unfold notC in Hx.
  now apply negb_true_iff.
Qed.

End ScanSteps.

Lemma replace_lacking1 alt t c s :
  In c (mandatory alt) -> forallb (notC c) s = true ->
  replace [alt] t s = s.
Proof.
  intros Hc Hs. apply scan_lacking. constructor; [|constructor]. eauto.
Qed.

(** ** Character classes *)

Ltac norm_ch :=
  repeat match goal with
         | |- context [ch ?a] =>
             let v := eval vm_compute in (ch a) in change (ch a) with v
         | H : context [ch ?a] |- _ =>
             let v := eval vm_compute in (ch a) in change (ch a) with v in H
         end.

(** Decide a relation between character classes by arithmetic on the
    code unit. *)
Ltac chars :=
  unfold notC, isNonSpace, isPunct, isWord, isLetter,
    isCapsChar, isNameChar,
    isControl, isUpper, isLower, isDigit, isSpace, oneOf, chr, inRange,
    variantGlyphs, bulletGlyphs, blackCircle, bullet, blackSquare,
    whiteSquare, whiteBullet, triBullet, hyphenBullet, enDash, nl, cr, tab
    in *;
  cbn [existsb str] in *; norm_ch;
  repeat rewrite ?negb_true_iff, ?negb_false_iff, ?orb_true_iff,
    ?orb_false_iff, ?andb_true_iff, ?andb_false_iff, ?N.eqb_eq, ?N.eqb_neq,
    ?N.leb_le, ?N.leb_gt in *;
  lia.

Lemma forallb_impl (p q : char -> bool) l :
  (forall x, p x = true -> q x = true) ->
  forallb p l = true -> forallb q l = true.
Proof. rewrite !forallb_forall. auto. Qed.

Lemma word_not_space x : isWord x = true -> isSpace x = false.
Proof. intros H. chars. Qed.

Lemma word_not_dash x : isWord x = true -> chr (ch "-") x = false.
Proof. intros H. chars. Qed.

Lemma letter_word x : isLetter x = true -> isWord x = true.
Proof. intros H. chars. Qed.

Lemma digit_word x : isDigit x = true -> isWord x = true.
Proof. intros H. chars. Qed.

(** ** Trimming *)

Lemma dropWhile_id p x s : p x = false -> dropWhile p (x :: s) = x :: s.
Proof. intros H. simpl. now rewrite H. Qed.

Lemma trim_id x m y :
  isSpace x = false -> isSpace y = false ->
  trim (x :: m ++ [y]) = x :: m ++ [y].
Proof.
  intros Hx Hy. unfold trim. rewrite dropWhile_id by assumption.
  change (x :: m ++ [y]) with ((x :: m) ++ [y]).
  rewrite rev_app_distr. cbn [rev app].
  rewrite dropWhile_id by assumption.
  change (y :: rev m ++ [x]) with (rev [y] ++ rev (x :: m)).
  now rewrite <- rev_app_distr, rev_involutive.
Qed.

Lemma trim_id1 x : isSpace x = false -> trim [x] = [x].
Proof. intros Hx. unfold trim. simpl. rewrite Hx. simpl. now rewrite Hx. Qed.

(** A text that begins and ends with characters that are not white space
    is left as it is. *)
Lemma trim_solid_ends s :
  match s with
  | [] => True
  | x :: _ => isSpace x = false /\ isSpace (last s x) = false
  end -> trim s = s.
Proof.
  destruct s as [|x s]; [reflexivity|]. intros [Hx Hl].
  destruct (exists_last (l := x :: s)) as (m & y & E); [discriminate|].
  rewrite E in Hl |- *. rewrite last_last in Hl.
  destruct m as [|x' m]; simpl in E.
  - injection E as -> ->. now apply trim_id1.
  - injection E as -> ->. now apply trim_id.
Qed.

(** ** Hyphens *)

Lemma wordDash_no_match bos x y r :
  isWord y = true -> matchAt rxWordDash bos (x :: y :: r) = None.
Proof.
  intros Hy. cbv [rxWordDash group one star matchAt].
  destruct (isWord x) eqn:Hx.
  - rewrite matchSeq_one by assumption.
    rewrite matchSeq_star_stop by now apply word_not_space.
    rewrite matchSeq_head_fail by now apply word_not_dash.
    reflexivity.
  - now rewrite matchSeq_head_fail.
Qed.

Lemma wordDash_match bos x ws1 ws2 y r :
  isWord x = true -> forallb isSpace ws1 = true ->
  forallb isSpace ws2 = true -> isWord y = true ->
  matchAt rxWordDash bos (x :: ws1 ++ ch "-" :: ws2 ++ y :: r)
  = Some ([[x]; [y]], S (length ws1 + S (length ws2 + 1))).
Proof.
  intros Hx H1 H2 Hy. cbv [rxWordDash group one star matchAt].
  rewrite matchSeq_one by assumption.
  erewrite matchSeq_star_run; [reflexivity|assumption|reflexivity|].
  intros b. rewrite matchSeq_one by reflexivity.
  erewrite matchSeq_star_run;
    [reflexivity|assumption|now apply word_not_space|].
  intros b'. rewrite matchSeq_one by assumption. reflexivity.
Qed.

Lemma wordDash_rest bos v :
  forallb isWord v = true -> scan rxWordDash (tpl "$1-$2") 0 bos v = v.
Proof.
  intros Hv. apply scan_lacking. constructor; [|constructor].
  exists (chr (ch "-")). split; [cbn; tauto|].
  eapply forallb_impl; [|exact Hv].
  intros x Hx. unfold notC. now rewrite word_not_dash.
Qed.

(** The tightening rule on two words with a hyphen and any white space
    between them. *)
Lemma wordDash_tighten ws1 ws2 y v u :
  forallb isSpace ws1 = true -> forallb isSpace ws2 = true ->
  isWord y = true -> forallb isWord v = true ->
  u <> [] -> forallb isWord u = true ->
  forall bos,
    scan rxWordDash (tpl "$1-$2") 0 bos (u ++ ws1 ++ ch "-" :: ws2 ++ y :: v)
    = u ++ ch "-" :: y :: v.
Proof.
  intros H1 H2 Hy Hv. induction u as [|x u IH]; intros Hne Hu bos;
    [congruence|].
  cbn [forallb] in Hu. apply andb_true_iff in Hu as [Hx Hu].
  destruct u as [|x' u].
  - cbn [app]. erewrite scan_hit by now apply wordDash_match.
    replace (length ws1 + S (length ws2 + 1))
      with (length (ws1 ++ ch "-" :: ws2 ++ [y])).
    2:{ rewrite length_app. cbn [length]. rewrite length_app. reflexivity. }
    replace (ws1 ++ ch "-" :: ws2 ++ y :: v)
      with ((ws1 ++ ch "-" :: ws2 ++ [y]) ++ v).
    2:{ rewrite <- app_assoc. cbn [app]. rewrite <- app_assoc. reflexivity. }
    rewrite skipn_length_app, wordDash_rest by assumption. reflexivity.
  - cbn [app]. rewrite scan_keep.
    + f_equal. apply IH; [discriminate|assumption].
    + apply wordDash_no_match. cbn [forallb] in Hu.
      now apply andb_true_iff in Hu as [Hx' _].
Qed.

Lemma yearDash_match bos a b :
  length a = 4 -> length b = 4 ->
  forallb isDigit a = true -> forallb isDigit b = true ->
  matchAt rxYearDash bos (a ++ ch "-" :: b) = Some ([a; b], 9).
Proof.
  intros La Lb Ha Hb. cbv [rxYearDash group exactly one star matchAt].
  rewrite <- La at 1 2.
  erewrite matchSeq_exact; [rewrite La; reflexivity|assumption|].
  intros b0. rewrite matchSeq_star_stop by reflexivity.
  rewrite matchSeq_one by reflexivity.
  destruct b as [|d b']; [discriminate|].
  assert (Hd : isSpace d = false).
  { cbn [forallb] in Hb. apply andb_true_iff in Hb as [Hd _].
    apply word_not_space. now apply digit_word. }
  rewrite matchSeq_star_stop by assumption.
  rewrite <- Lb at 1 2.
  rewrite matchSeq_exact_end by assumption. rewrite Lb. reflexivity.
Qed.

(** The year rule on two groups of four digits with a bare hyphen. *)
Lemma yearDash_space a b :
  length a = 4 -> length b = 4 ->
  forallb isDigit a = true -> forallb isDigit b = true ->
  replace rxYearDash (tpl "$1 - $2") (a ++ ch "-" :: b) = a ++ str " - " ++ b.
Proof.
  intros La Lb Ha Hb. unfold replace.
  pose proof (yearDash_match true a b La Lb Ha Hb) as Hm.
  destruct a as [|d1 [|d2 [|d3 [|d4 [|]]]]]; try discriminate.
  destruct b as [|d5 [|d6 [|d7 [|d8 [|]]]]]; try discriminate.
  cbn [app] in *. erewrite scan_hit by exact Hm. reflexivity.
Qed.

(** ** Steps that find nothing to do *)

Lemma lacks_from (p c : char -> bool) l :
  (forall x, p x = true -> c x = false) ->
  forallb p l = true -> forallb (notC c) l = true.
Proof.
  intros H. apply forallb_impl. intros x Hx. unfold notC. now rewrite H.
Qed.

Ltac mandatory_class cls :=
  apply (@replace_lacking1 _ _ cls); [cbn; tauto|assumption].

Lemma lack_SpaceBeforePunct t s :
  forallb (notC isPunct) s = true -> replace rxSpaceBeforePunct t s = s.
Proof. intros H. mandatory_class isPunct. Qed.

Lemma lack_PunctPair t s :
  forallb (notC isPunct) s = true -> replace rxPunctPair t s = s.
Proof. intros H. mandatory_class isPunct. Qed.

Lemma lack_Pipe t s :
  forallb (notC (chr (ch "|"))) s = true -> replace rxPipe t s = s.
Proof. intros H. mandatory_class (chr (ch "|")). Qed.

Lemma lack_YearDash_digits t s :
  forallb (notC isDigit) s = true -> replace rxYearDash t s = s.
Proof. intros H. mandatory_class isDigit. Qed.

Lemma lack_Email t s :
  forallb (notC (chr (ch "@"))) s = true -> replace rxEmail t s = s.
Proof. intros H. mandatory_class (chr (ch "@")). Qed.

Lemma lack_BulletVariant t s :
  forallb (notC (oneOf variantGlyphs)) s = true ->
  replace rxBulletVariant t s = s.
Proof. intros H. mandatory_class (oneOf variantGlyphs). Qed.

Lemma lack_BlankLines t s :
  forallb (notC (chr nl)) s = true -> replace rxBlankLines t s = s.
Proof. intros H. mandatory_class (chr nl). Qed.

(** Show that a text assembled from pieces of known classes lacks a
    class. *)
Ltac lacking :=
  repeat (rewrite forallb_app || cbn [forallb str]);
  repeat (apply andb_true_intro; split);
  first [ reflexivity
        | match goal with
          | H : forallb ?p ?u = true |- forallb (notC _) ?u = true =>
              apply (@lacks_from p); [intros ? ?; chars|exact H]
          end ].

Lemma repair_word_dash u v ws1 ws2 :
  forallb isSpace ws1 = true -> forallb isSpace ws2 = true ->
  u <> [] -> v <> [] ->
  forallb isLetter u = true -> forallb isLetter v = true ->
  repair (u ++ ws1 ++ ch "-" :: ws2 ++ v) = u ++ ch "-" :: v.
Proof.
  intros H1 H2 Hu Hv Lu Lv.
  assert (Wu : forallb isWord u = true)
    by (eapply forallb_impl; [apply letter_word|assumption]).
  assert (Wv : forallb isWord v = true)
    by (eapply forallb_impl; [apply letter_word|assumption]).
  unfold repair, repairSpacing.
  rewrite lack_SpaceBeforePunct by lacking.
  rewrite lack_PunctPair by lacking.
  rewrite lack_Pipe by lacking.
  assert (E : replace rxWordDash (tpl "$1-$2") (u ++ ws1 ++ ch "-" :: ws2 ++ v)
              = u ++ ch "-" :: v).
  { destruct v as [|y v]; [congruence|]. cbn [forallb] in Wv.
    apply andb_true_iff in Wv as [Wy Wv].
    now apply wordDash_tighten. }
  rewrite E.
  rewrite lack_YearDash_digits by lacking.
  rewrite lack_Email by lacking.
  rewrite lack_BulletVariant by lacking.
  rewrite lack_BlankLines by lacking.
  apply trim_solid_ends.
  destruct u as [|x u]; [congruence|]. cbn [app].
  destruct (exists_last Hv) as (m & y & ->).
  cbn [forallb] in Wu. apply andb_true_iff in Wu as [Wx _].
  rewrite forallb_app in Wv. apply andb_true_iff in Wv as [_ Wy].
  cbn [forallb] in Wy. rewrite andb_true_r in Wy.
  split; [now apply word_not_space|].
  replace (x :: u ++ ch "-" :: m ++ [y]) with ((x :: u ++ ch "-" :: m) ++ [y])
    by (cbn [app]; now rewrite <- app_assoc).
  rewrite last_last. now apply word_not_space.
Qed.

Lemma repair_year_dash a b ws1 ws2 :
  forallb isSpace ws1 = true -> forallb isSpace ws2 = true ->
  length a = 4 -> length b = 4 ->
  forallb isDigit a = true -> forallb isDigit b = true ->
  replace rxWordDash (tpl "$1-$2") (a ++ ws1 ++ ch "-" :: ws2 ++ b)
  = a ++ ch "-" :: b
  /\ replace rxYearDash (tpl "$1 - $2") (a ++ ch "-" :: b)
     = a ++ str " - " ++ b
  /\ repair (a ++ ws1 ++ ch "-" :: ws2 ++ b) = a ++ str " - " ++ b.
Proof.
  intros H1 H2 La Lb Da Db.
  assert (Wa : forallb isWord a = true)
    by (eapply forallb_impl; [apply digit_word|assumption]).
  assert (Wb : forallb isWord b = true)
    by (eapply forallb_impl; [apply digit_word|assumption]).
  assert (E : replace rxWordDash (tpl "$1-$2") (a ++ ws1 ++ ch "-" :: ws2 ++ b)
              = a ++ ch "-" :: b).
  { destruct b as [|y b]; [discriminate|]. cbn [forallb] in Wb.
    apply andb_true_iff in Wb as [Wy Wb].
    apply wordDash_tighten; try assumption.
    destruct a; discriminate. }
  split; [assumption|]. split; [now apply yearDash_space|].
  unfold repair, repairSpacing.
  rewrite lack_SpaceBeforePunct by lacking.
  rewrite lack_PunctPair by lacking.
  rewrite lack_Pipe by lacking.
  rewrite E, yearDash_space by assumption.
  rewrite lack_Email by lacking.
  rewrite lack_BulletVariant by lacking.
  rewrite lack_BlankLines by lacking.
  apply trim_solid_ends.
  destruct a as [|d1 [|d2 [|d3 [|d4 [|]]]]]; try discriminate.
  destruct b as [|d5 [|d6 [|d7 [|d8 [|]]]]]; try discriminate.
  cbn. cbn [forallb] in Wa, Wb.
  rewrite !andb_true_iff in Wa, Wb.
  split; apply word_not_space; tauto.
Qed.

(** ** Runs of newlines *)

Lemma blankLines_matchAt bos s :
  matchAt rxBlankLines bos s =
  if 3 <=? span (chr nl) None s then Some ([], span (chr nl) None s + 0)
  else None.
Proof.
  cbv [rxBlankLines atLeast matchAt]. cbn [matchSeq].
  destruct (3 <=? span (chr nl) None s) eqn:E.
  - apply Nat.leb_le in E. erewrite backtrack_first; [reflexivity|lia|].
    reflexivity.
  - apply Nat.leb_gt in E. rewrite backtrack_below by lia. reflexivity.
Qed.

Lemma span_stop c s :
  match skipn (span c None s) s with
  | [] => True
  | y :: _ => c y = false
  end.
Proof.
  induction s as [|x s IH]; simpl; [exact I|].
  destruct (c x) eqn:E; simpl; assumption.
Qed.

Lemma shortRuns_cons x s :
  span (chr nl) None (x :: s) < 3 -> shortRuns s -> shortRuns (x :: s).
Proof.
  intros Hx Hs [|z u] v E; simpl in E.
  - now subst v.
  - injection E as _ E. eapply Hs. eassumption.
Qed.

Lemma collapse_Rewrites bos s out :
  Rewrites rxBlankLines [Lit nl; Lit nl] bos s out ->
  span (chr nl) None out <= span (chr nl) None s /\ shortRuns out.
Proof.
  induction 1 as [bos Hm|bos caps n Hm|bos x s out Hm Hr [IHl IHs]
                 |bos x s caps out Hm Hr IH|bos x m s caps out Hm Hr [IHl IHs]].
  - split; [lia|]. intros [|z u] v E; simpl in E;
      [subst v; simpl; lia|discriminate].
  - discriminate.
  - rewrite blankLines_matchAt in Hm.
    destruct (3 <=? span (chr nl) None (x :: s)) eqn:E; [discriminate|].
    apply Nat.leb_gt in E.
    assert (Hle : span (chr nl) None (x :: out) <= span (chr nl) None (x :: s)).
    { simpl. destruct (chr nl x); lia. }
    split; [assumption|]. apply shortRuns_cons; [lia|assumption].
  - rewrite blankLines_matchAt in Hm.
    destruct (3 <=? span (chr nl) None (x :: s)) eqn:E; [|discriminate].
    apply Nat.leb_le in E.
    assert (Hz : span (chr nl) None (x :: s) + 0 = 0) by congruence. lia.
  - rewrite blankLines_matchAt in Hm.
    destruct (3 <=? span (chr nl) None (x :: m ++ s)) eqn:E; [|discriminate].
    apply Nat.leb_le in E.
    assert (Hn : span (chr nl) None (x :: m ++ s) = length (x :: m))
      by (cbn [length]; rewrite <- (Nat.add_0_r (span _ _ _)); congruence).
    assert (Hc : caps = []) by congruence. subst caps. clear Hm.
    assert (Hs0 : span (chr nl) None s = 0).
    { pose proof (span_stop (chr nl) ((x :: m) ++ s)) as Hstop.
      change ((x :: m) ++ s) with (x :: m ++ s) in Hstop at 1.
      rewrite Hn, skipn_length_app in Hstop.
      destruct s as [|y s]; [reflexivity|]. simpl. now rewrite Hstop. }
    assert (Ho0 : span (chr nl) None out = 0) by lia.
    cbn [expand flat_map expandTok app].
    assert (H2 : span (chr nl) None (nl :: nl :: out) = 2)
      by (simpl; now rewrite Ho0).
    split; [lia|].
    apply shortRuns_cons; [lia|].
    apply shortRuns_cons; [simpl; lia|assumption].
Qed.

Lemma collapse_shortRuns s :
  shortRuns (replace rxBlankLines [Lit nl; Lit nl] s).
Proof. eapply collapse_Rewrites. apply replace_Rewrites. Qed.

Lemma shortRuns_collapse s :
  shortRuns s -> replace rxBlankLines [Lit nl; Lit nl] s = s.
Proof.
  intros H. apply scan_no_match. intros b u v E.
  rewrite blankLines_matchAt. specialize (H u v E).
  destruct (3 <=? span (chr nl) None v) eqn:E3; [|reflexivity].
  apply Nat.leb_le in E3. lia.
Qed.

(** ** The repair on tokens *)

Lemma backtrack_ext A (f g : nat -> option A) lo k :
  (forall j, f j = g j) -> backtrack f lo k = backtrack g lo k.
Proof.
  intros E. induction k as [|k IH]; simpl; rewrite E; [reflexivity|].
  now rewrite IH.
Qed.

Lemma matchSeq_noBol atoms :
  Forall (fun a => a <> Bol) atoms ->
  forall bos s, matchSeq atoms bos s = matchSeq atoms false s.
Proof.
  induction 1 as [|a atoms Ha Hatoms IH]; intros bos s; [reflexivity|].
  destruct a as [| |cap c lo hi]; [congruence| |].
  - simpl. destruct s; [apply IH|reflexivity].
  - cbn [matchSeq]. apply backtrack_ext. intros k.
    rewrite (IH (bos && (k =? 0))). reflexivity.
Qed.

Lemma matchAt_noBol p :
  noBol p -> forall bos s, matchAt p bos s = matchAt p false s.
Proof.
  induction 1 as [|alt p Halt Hp IH]; intros bos s; [reflexivity|].
  simpl. rewrite (matchSeq_noBol Halt bos), IH. reflexivity.
Qed.

Lemma scan_noBol p t :
  noBol p -> forall s k bos, scan p t k bos s = scan p t k false s.
Proof.
  intros Hp. induction s as [|x s IH]; intros k bos; simpl.
  - now rewrite (matchAt_noBol Hp bos).
  - destruct k; [|reflexivity]. now rewrite (matchAt_noBol Hp bos).
Qed.

Lemma render_app a b tail : render (a ++ b) tail = render a (render b tail).
Proof.
  induction a as [|[g c] a IH]; simpl; [reflexivity|]. now rewrite IH.
Qed.

Lemma override_split m1 m2 ts :
  length m1 <= length ts ->
  override (m1 ++ m2) ts
  = override m1 (firstn (length m1) ts) ++ override m2 (skipn (length m1) ts).
Proof.
  revert ts. induction m1 as [|e m1 IH]; intros [|[g c] ts] H; simpl in *;
    try lia; try reflexivity.
  f_equal. apply IH. lia.
Qed.

Lemma override_chars m ts : map snd (override m ts) = map snd ts.
Proof.
  revert ts. induction m as [|e m IH]; intros [|[g c] ts]; simpl; auto.
  now rewrite IH.
Qed.

(** Every text is the rendering of gapped tokens. *)
Lemma tokens_of s :
  exists ts tail, gapped ts /\ forallb isSpace tail = true /\ s = render ts tail.
Proof.
  induction s as [|x s (ts & tail & Hts & Htail & ->)].
  - exists [], []. repeat split. constructor.
  - destruct (isSpace x) eqn:Hx.
    + destruct ts as [|[g c] ts].
      * exists [], (x :: tail). simpl. rewrite Hx, Htail.
        repeat split. constructor.
      * exists ((x :: g, c) :: ts), tail. inversion Hts as [|? ? [Hg Hc] Hrest]; subst.
        simpl in *. repeat split; try assumption.
        constructor; [|assumption]. simpl. now rewrite Hx, Hg.
    + exists (([], x) :: ts), tail. repeat split; try assumption.
      constructor; [|assumption]. simpl. auto.
Qed.

(** ** Scanning rendered tokens *)

Section Sweep.

Variable p : pattern.
Variable t : list tok.
Hypothesis p_noBol : noBol p.

(** No match starts on white space. *)
Hypothesis no_match_on_space :
  forall z r, isSpace z = true -> matchAt p false (z :: r) = None.

Lemma scan_gap g r :
  forallb isSpace g = true ->
  scan p t 0 false (g ++ r) = g ++ scan p t 0 false r.
Proof.
  induction g as [|z g IH]; intros Hg; [reflexivity|].
  simpl in Hg. apply andb_true_iff in Hg as [Hz Hg].
  cbn [app]. rewrite scan_keep by now apply no_match_on_space.
  now rewrite IH.
Qed.

Variable hit : tokens -> option mask.

(** What [hit] promises: its window starts at the head token, whose gap
    it leaves alone, and the matcher agrees with it. *)
Hypothesis hit_spec :
  forall g c ts tail,
    gapped ((g, c) :: ts) -> forallb isSpace tail = true ->
    match hit ((g, c) :: ts) with
    | Some win =>
        1 <= length win <= S (length ts) /\
        exists caps k,
          matchAt p false (c :: render ts tail) = Some (caps, S k) /\
          skipn k (render ts tail)
          = render (skipn (length win) ((g, c) :: ts)) tail /\
          forall rest,
            g ++ expand t caps ++ rest
            = render (override win (firstn (length win) ((g, c) :: ts))) rest
    | None => matchAt p false (c :: render ts tail) = None
    end.

Lemma gapped_skipn n ts : gapped ts -> gapped (skipn n ts).
Proof.
  unfold gapped. intros H. rewrite Forall_forall in *. intros x Hx.
  apply H. rewrite <- (firstn_skipn n ts). apply in_or_app. now right.
Qed.

Lemma scan_sweep n : forall ts tail,
  length ts <= n ->
  gapped ts -> forallb isSpace tail = true ->
  (forall r, forallb isSpace r = true -> scan p t 0 false r = r) ->
  scan p t 0 false (render ts tail)
  = render (override (sweep n hit ts) ts) tail.
Proof.
  induction n as [|n IH]; intros ts tail Hlen Hts Htail Hend.
  - destruct ts; simpl in Hlen; [|lia]. simpl. now apply Hend.
  - destruct ts as [|[g c] ts]; [simpl; now apply Hend|].
    pose proof (@hit_spec g c ts tail Hts Htail) as Hh.
    assert (Hg : forallb isSpace g = true)
      by (inversion Hts as [|? ? [Hg _] _]; exact Hg).
    cbn [render sweep]. rewrite scan_gap by assumption.
    destruct (hit ((g, c) :: ts)) as [win|].
    + destruct Hh as ([Hw1 Hw2] & caps & k & Hm & Hk & Hout).
      erewrite scan_hit by exact Hm. rewrite Hk.
      rewrite IH; [| |now apply gapped_skipn|assumption|assumption].
      2:{ rewrite length_skipn. cbn [length] in *. lia. }
      rewrite Hout.
      rewrite override_split by (cbn [length]; lia).
      now rewrite render_app.
    + rewrite scan_keep by assumption. cbn [override render].
      inversion Hts; subst.
      rewrite IH by (simpl in *; auto; lia). reflexivity.
Qed.

End Sweep.

Lemma backtrack_all_None A (f : nat -> option A) lo k :
  (forall j, lo <= j <= k -> f j = None) -> backtrack f lo k = None.
Proof.
  induction k as [|k IH]; intros H; simpl.
  - destruct (0 <? lo) eqn:E; [reflexivity|].
    apply Nat.ltb_ge in E. rewrite H by lia. reflexivity.
  - destruct (S k <? lo) eqn:E; [reflexivity|].
    apply Nat.ltb_ge in E. rewrite H by lia. apply IH.
    intros j Hj. apply H. lia.
Qed.

Lemma backtrack_top A (f : nat -> option A) lo k :
  lo <= k -> (forall j, lo <= j < k -> f j = None) ->
  backtrack f lo k = f k.
Proof.
  intros Hle H. destruct (f k) as [r|] eqn:E.
  - now apply backtrack_first.
  - apply backtrack_all_None. intros j Hj.
    destruct (Nat.eq_dec j k) as [->|]; [assumption|apply H; lia].
Qed.

Lemma skipn_in_gap j (w r : jsstring) :
  j < length w -> exists z r', skipn j (w ++ r) = z :: r' /\ In z w.
Proof.
  revert j. induction w as [|x w IH]; intros j Hj; simpl in Hj; [lia|].
  destruct j as [|j].
  - exists x, (w ++ r). split; [reflexivity|now left].
  - destruct (IH j) as (z & r' & E & Hz); [lia|].
    exists z, r'. split; [exact E|now right].
Qed.

(** White space before a sequence that cannot start on white space is
    taken whole. *)
Lemma matchSeq_gap lo rest bos w r :
  Forall (fun a => a <> Bol) rest ->
  forallb isSpace w = true ->
  match r with [] => True | y :: _ => isSpace y = false end ->
  (forall z r', isSpace z = true -> matchSeq rest false (z :: r') = None) ->
  matchSeq (Rep false isSpace lo None :: rest) bos (w ++ r) =
  if lo <=? length w then
    match matchSeq rest false r with
    | Some (caps, n) => Some (caps, length w + n)
    | None => None
    end
  else None.
Proof.
  intros Hrest Hw Hr Hrej. cbn [matchSeq]. rewrite span_run by assumption.
  destruct (lo <=? length w) eqn:E.
  - apply Nat.leb_le in E. rewrite backtrack_top; [| assumption |].
    + rewrite skipn_length_app, (matchSeq_noBol Hrest). reflexivity.
    + intros j Hj. rewrite (matchSeq_noBol Hrest).
      destruct (@skipn_in_gap j w r) as (z & r' & -> & Hz); [lia|].
      rewrite Hrej; [reflexivity|].
      rewrite forallb_forall in Hw. now apply Hw.
  - apply Nat.leb_gt in E. now apply backtrack_below.
Qed.

Lemma span_solid c n : forall s,
  span c (Some n) s = n <-> solidRun c n s = true.
Proof.
  unfold solidRun. induction n as [|n IH]; intros s.
  - split; [reflexivity|intros _].
    destruct s as [|x s]; simpl; [reflexivity|]. now destruct (c x).
  - destruct s as [|x s]; simpl.
    + split; discriminate.
    + destruct (c x) eqn:Hx; simpl.
      * rewrite <- IH. split; [intros [= H]; exact H|intros ->; reflexivity].
      * rewrite andb_false_r. split; discriminate.
Qed.

Lemma matchSeq_solid cap c n rest bos s :
  Forall (fun a => a <> Bol) rest ->
  matchSeq (Rep cap c n (Some n) :: rest) bos s =
  if solidRun c n s then
    match matchSeq rest false (skipn n s) with
    | Some (caps, m) =>
        Some (if cap then firstn n s :: caps else caps, n + m)
    | None => None
    end
  else None.
Proof.
  intros Hrest. cbn [matchSeq].
  pose proof (span_bound c n s) as Hb.
  destruct (solidRun c n s) eqn:E.
  - apply span_solid in E. rewrite E.
    rewrite backtrack_top by lia.
    now rewrite (matchSeq_noBol Hrest).
  - apply backtrack_below.
    destruct (Nat.eq_dec (span c (Some n) s) n) as [H|H]; [|lia].
    apply span_solid in H. congruence.
Qed.

Lemma solidRun_render c n : forall ts tail,
  gapped ts -> forallb isSpace tail = true ->
  (forall z, isSpace z = true -> c z = false) ->
  solidRun c n (render ts tail) = tightRun c n ts.
Proof.
  unfold solidRun. induction n as [|n IH]; intros ts tail Hts Htail Hc.
  - reflexivity.
  - destruct ts as [|[g x] ts]; cbn [render tightRun].
    + destruct tail as [|z tail]; [reflexivity|].
      simpl in Htail. apply andb_true_iff in Htail as [Hz _].
      cbn [firstn forallb]. rewrite (Hc _ Hz). simpl. apply andb_false_r.
    + inversion Hts as [|? ? [Hg Hx] Hrest]; subst. simpl in Hg, Hx.
      destruct g as [|z g]; cbn [isEmpty app].
      * cbn [length firstn forallb]. rewrite <- (IH ts tail) by assumption.
        change (S n <=? S (length (render ts tail)))
          with (n <=? length (render ts tail)).
        destruct (c x); simpl; [reflexivity|apply andb_false_r].
      * simpl in Hg. apply andb_true_iff in Hg as [Hz _].
        cbn [firstn forallb]. rewrite (Hc _ Hz). simpl. apply andb_false_r.
Qed.

Lemma tightRun_render c n : forall ts tail,
  tightRun c n ts = true ->
  firstn n (render ts tail) = map snd (firstn n ts)
  /\ skipn n (render ts tail) = render (skipn n ts) tail
  /\ n <= length ts.
Proof.
  induction n as [|n IH]; intros ts tail H.
  - repeat split. simpl. lia.
  - destruct ts as [|[g x] ts]; [discriminate|]. cbn [tightRun] in H.
    apply andb_true_iff in H as [H Hrest]. apply andb_true_iff in H as [Hg Hx].
    destruct g; [|discriminate].
    destruct (IH ts tail Hrest) as (Hf & Hs & Hl).
    cbn [render app firstn skipn map snd length]. rewrite Hf, Hs.
    repeat split. lia.
Qed.

Lemma compile_noBol items : Forall (fun a => a <> Bol) (map atomOf items).
Proof.
  induction items as [|[cap c n|] items IH]; constructor; try assumption;
    discriminate.
Qed.

Lemma compile_rejects_space items :
  itemsOk items ->
  match items with Solid _ _ (S _) :: _ => True | _ => False end ->
  forall z r, isSpace z = true ->
              matchSeq (map atomOf items) false (z :: r) = None.
Proof.
  destruct items as [|[cap c [|n]|] items]; try contradiction.
  intros [Hc _] _ z r Hz. cbn [map atomOf].
  apply matchSeq_head_fail. now apply Hc.
Qed.

(** On rendered tokens the matcher does what [tokMatch] does. *)
Theorem matchSeq_tokens items : forall ts tail bos,
  itemsOk items -> gapped ts -> forallb isSpace tail = true ->
  matchSeq (map atomOf items) bos (render ts tail) =
  match tokMatch items ts with
  | Some (caps, m, len) => Some (caps, len)
  | None => None
  end.
Proof.
  induction items as [|[cap c n|] items IH]; intros ts tail bos Hok Hts Htail.
  - reflexivity.
  - destruct Hok as [Hc Hok]. cbn [map atomOf tokMatch].
    rewrite matchSeq_solid by apply compile_noBol.
    rewrite solidRun_render by assumption.
    destruct (tightRun c n ts) eqn:E; [|reflexivity].
    destruct (tightRun_render _ _ _ tail E) as (Hf & Hs & _).
    rewrite Hs, Hf, IH by (assumption || now apply gapped_skipn).
    destruct (tokMatch items (skipn n ts)) as [[[caps m] len]|]; reflexivity.
  - destruct Hok as [Hnext Hok]. cbn [map atomOf tokMatch].
    destruct ts as [|[g x] ts].
    + cbn [render]. rewrite <- (app_nil_r tail).
      rewrite matchSeq_gap; try assumption; try exact I;
        [|apply compile_noBol|now apply compile_rejects_space].
      simpl. destruct items as [|[cap c [|n]|] items]; try contradiction.
      reflexivity.
    + inversion Hts as [|? ? [Hg Hx] Hrest]; subst. simpl in Hg, Hx.
      cbn [render].
      rewrite matchSeq_gap; try assumption;
        [|apply compile_noBol|now apply compile_rejects_space].
      simpl (0 <=? _).
      change (x :: render ts tail) with (render (([], x) :: ts) tail).
      rewrite IH; try assumption.
      * destruct (tokMatch items (([], x) :: ts)) as [[[caps m] len]|];
          reflexivity.
      * constructor; [|assumption]. simpl. auto.
Qed.

Lemma tokMatch_skip items : forall ts tail caps m len,
  itemsOk items ->
  tokMatch items ts = Some (caps, m, len) ->
  m <= length ts
  /\ skipn len (render ts tail) = render (skipn m ts) tail
  /\ (match items with Solid _ _ (S _) :: _ => True | _ => False end ->
      1 <= m /\ 1 <= len).
Proof.
  induction items as [|[cap c n|] items IH]; intros ts tail caps m len Hok H;
    cbn [tokMatch] in H.
  - injection H as <- <- <-. repeat split; try contradiction. simpl. lia.
  - destruct Hok as [Hc Hok].
    destruct (tightRun c n ts) eqn:E; [|discriminate].
    destruct (tokMatch items (skipn n ts)) as [[[caps' m'] len']|] eqn:E';
      [|discriminate].
    injection H as <- <- <-.
    destruct (tightRun_render _ _ _ tail E) as (_ & Hs & Hn).
    destruct (IH _ tail _ _ _ Hok E') as (Hm & Hs' & _).
    rewrite length_skipn in Hm. repeat split.
    + lia.
    + rewrite (Nat.add_comm n len'), (Nat.add_comm n m'), <- !skipn_skipn.
      now rewrite Hs, Hs'.
    + destruct n; [contradiction|]. lia.
    + destruct n; [contradiction|]. lia.
  - destruct Hok as [Hnext Hok].
    destruct ts as [|[g x] ts]; [discriminate|].
    destruct (tokMatch items (([], x) :: ts)) as [[[caps' m'] len']|] eqn:E';
      [|discriminate].
    injection H as <- <- <-.
    destruct (IH _ tail _ _ _ Hok E') as (Hm & Hs' & Hpos).
    destruct (Hpos Hnext) as [Hm1 _].
    repeat split; try contradiction.
    + exact Hm.
    + cbn [render]. rewrite (Nat.add_comm (length g)), <- skipn_skipn.
      rewrite skipn_length_app.
      change (x :: render ts tail) with (render (([], x) :: ts) tail).
      rewrite Hs'. destruct m'; [lia|]. reflexivity.
Qed.

Section SolidFirst.

Variable items : list item.
Variable win : mask.
Variable t : list tok.

Hypothesis items_ok : itemsOk items.
Hypothesis items_solid :
  match items with Solid _ _ (S _) :: _ => True | _ => False end.

(** The replacement text of a match is the window laid over the tokens
    matched. *)
Hypothesis win_spec :
  forall g c ts caps m len,
    gapped ((g, c) :: ts) ->
    tokMatch items (([], c) :: ts) = Some (caps, m, len) ->
    m = length win
    /\ forall rest,
        g ++ expand t caps ++ rest
        = render (override win (firstn m ((g, c) :: ts))) rest.

Lemma solidFirst_noBol : noBol [map atomOf items].
Proof. constructor; [apply compile_noBol|constructor]. Qed.

Lemma solidFirst_space z r :
  isSpace z = true -> matchAt [map atomOf items] false (z :: r) = None.
Proof.
  intros Hz. cbn [matchAt].
  now rewrite compile_rejects_space.
Qed.

Lemma solidFirst_end : matchAt [map atomOf items] false [] = None.
Proof.
  destruct items as [|[cap c [|n]|] its]; try contradiction. reflexivity.
Qed.

Lemma solidFirst_tail r :
  forallb isSpace r = true -> scan [map atomOf items] t 0 false r = r.
Proof.
  intros Hr. rewrite <- (app_nil_r r) at 1.
  rewrite scan_gap by (assumption || apply solidFirst_space).
  cbn [scan]. rewrite solidFirst_end. apply app_nil_r.
Qed.

Theorem scan_solidFirst ts tail :
  gapped ts -> forallb isSpace tail = true ->
  scan [map atomOf items] t 0 false (render ts tail)
  = render (override (sweep (length ts) (hitOf items win) ts) ts) tail.
Proof.
  intros Hts Htail.
  apply scan_sweep with (n := length ts); try assumption; try lia.
  - apply solidFirst_space.
  - clear ts tail Hts Htail. intros g c ts tail Hts Htail.
    assert (Hts' : gapped (([], c) :: ts)).
    { inversion Hts as [|? ? [_ Hc] Hrest]; subst.
      constructor; [|assumption]. simpl in *. auto. }
    cbn [hitOf matchAt].
    change (c :: render ts tail) with (render (([], c) :: ts) tail).
    rewrite (matchSeq_tokens items tail false items_ok Hts' Htail).
    destruct (tokMatch items (([], c) :: ts)) as [[[caps m] len]|] eqn:E;
      [|reflexivity].
    destruct (win_spec Hts E) as [Hm Hout]. subst m.
    destruct (@tokMatch_skip items _ tail _ _ _ items_ok E)
      as (Hlen & Hskip & Hpos).
    destruct (Hpos items_solid) as [Hw1 Hl1].
    split; [simpl in Hlen; lia|].
    destruct len as [|k]; [lia|].
    exists caps, k. repeat split.
    + cbn [render app skipn] in Hskip. rewrite Hskip.
      destruct (length win); [lia|]. reflexivity.
    + exact Hout.
  - apply solidFirst_tail.
Qed.

End SolidFirst.

(** Find the shape of the tokens from a successful [tokMatch]. *)
Ltac split_andb :=
  repeat match goal with
         | E : _ && _ = true |- _ =>
             let E1 := fresh E in
             apply andb_true_iff in E as [E1 E]
         end;
  try match goal with E : false = true |- _ => discriminate E end.

Ltac shape H :=
  cbn [tokMatch tightRun isEmpty skipn firstn map snd fst andb length app
       itemsPunctPair itemsWordDash itemsYearDash] in H;
  repeat (match type of H with
          | context [match ?ts with [] => _ | _ :: _ => _ end] =>
              is_var ts; destruct ts as [|[? ?] ?]
          | context [isEmpty ?g] => is_var g; destruct g
          | context [if ?b then _ else _] => destruct b eqn:?
          end;
          cbn [tokMatch tightRun isEmpty skipn firstn map snd fst andb length
               app] in H;
          try discriminate H;
          split_andb).

Lemma punctPair_win g c ts caps m len :
  gapped ((g, c) :: ts) ->
  tokMatch itemsPunctPair (([], c) :: ts) = Some (caps, m, len) ->
  m = length winPunctPair
  /\ forall rest,
      g ++ expand (tpl "$1 $2") caps ++ rest
      = render (override winPunctPair (firstn m ((g, c) :: ts))) rest.
Proof.
  intros _ H. shape H. injection H as <- <- <-.
  split; reflexivity.
Qed.

Lemma wordDash_win g c ts caps m len :
  gapped ((g, c) :: ts) ->
  tokMatch itemsWordDash (([], c) :: ts) = Some (caps, m, len) ->
  m = length winWordDash
  /\ forall rest,
      g ++ expand (tpl "$1-$2") caps ++ rest
      = render (override winWordDash (firstn m ((g, c) :: ts))) rest.
Proof.
  intros _ H. shape H. injection H as <- <- <-.
  match goal with
  | E : chr _ ?x = true |- _ => apply N.eqb_eq in E; subst x
  end.
  split; reflexivity.
Qed.

Lemma yearDash_win g c ts caps m len :
  gapped ((g, c) :: ts) ->
  tokMatch itemsYearDash (([], c) :: ts) = Some (caps, m, len) ->
  m = length winYearDash
  /\ forall rest,
      g ++ expand (tpl "$1 - $2") caps ++ rest
      = render (override winYearDash (firstn m ((g, c) :: ts))) rest.
Proof.
  intros _ H. shape H. injection H as <- <- <-.
  match goal with
  | E : chr _ ?x = true |- _ => apply N.eqb_eq in E; subst x
  end.
  split; reflexivity.
Qed.

Lemma itemsPunctPair_ok : itemsOk itemsPunctPair.
Proof. cbn. repeat split; intros z Hz; chars. Qed.

Lemma itemsWordDash_ok : itemsOk itemsWordDash.
Proof. cbn. repeat split; intros z Hz; chars. Qed.

Lemma itemsYearDash_ok : itemsOk itemsYearDash.
Proof. cbn. repeat split; intros z Hz; chars. Qed.

Lemma punctPair_tokens ts tail :
  gapped ts -> forallb isSpace tail = true ->
  replace rxPunctPair (tpl "$1 $2") (render ts tail)
  = render (override (maskPunctPair ts) ts) tail.
Proof.
  intros Hts Htail. unfold replace.
  change rxPunctPair with [map atomOf itemsPunctPair].
  rewrite scan_noBol by apply solidFirst_noBol.
  apply scan_solidFirst; try assumption.
  - apply itemsPunctPair_ok.
  - exact I.
  - apply punctPair_win.
Qed.

Lemma wordDash_tokens ts tail :
  gapped ts -> forallb isSpace tail = true ->
  replace rxWordDash (tpl "$1-$2") (render ts tail)
  = render (override (maskWordDash ts) ts) tail.
Proof.
  intros Hts Htail. unfold replace.
  change rxWordDash with [map atomOf itemsWordDash].
  rewrite scan_noBol by apply solidFirst_noBol.
  apply scan_solidFirst; try assumption.
  - apply itemsWordDash_ok.
  - exact I.
  - apply wordDash_win.
Qed.

Lemma yearDash_tokens ts tail :
  gapped ts -> forallb isSpace tail = true ->
  replace rxYearDash (tpl "$1 - $2") (render ts tail)
  = render (override (maskYearDash ts) ts) tail.
Proof.
  intros Hts Htail. unfold replace.
  change rxYearDash with [map atomOf itemsYearDash].
  rewrite scan_noBol by apply solidFirst_noBol.
  apply scan_solidFirst; try assumption.
  - apply itemsYearDash_ok.
  - exact I.
  - apply yearDash_win.
Qed.

Lemma scan_hit_n p t bos s caps n :
  matchAt p bos s = Some (caps, n) -> 1 <= n ->
  scan p t 0 bos s = expand t caps ++ scan p t 0 false (skipn n s).
Proof.
  intros H Hn. destruct n as [|k]; [lia|].
  destruct s as [|x s].
  - apply matchAt_sound in H as [H _]. simpl in H. lia.
  - cbn [skipn]. now apply scan_hit.
Qed.

(** *** White space before punctuation *)

Lemma spaceBeforePunct_blocked w r :
  forallb isSpace w = true ->
  match r with [] => True | y :: _ => isSpace y = false /\ isPunct y = false end ->
  matchAt rxSpaceBeforePunct false (w ++ r) = None.
Proof.
  intros Hw Hr. cbv [rxSpaceBeforePunct plus group one matchAt].
  rewrite matchSeq_gap; try assumption.
  - destruct (1 <=? length w); [|reflexivity].
    destruct r as [|y r]; [reflexivity|].
    rewrite matchSeq_head_fail by apply Hr. reflexivity.
  - repeat constructor; discriminate.
  - destruct r; [exact I|apply Hr].
  - intros z r' Hz. apply matchSeq_head_fail. chars.
Qed.

Lemma spaceBeforePunct_gap w r :
  forallb isSpace w = true ->
  match r with [] => True | y :: _ => isSpace y = false /\ isPunct y = false end ->
  scan rxSpaceBeforePunct (tpl "$1") 0 false (w ++ r)
  = w ++ scan rxSpaceBeforePunct (tpl "$1") 0 false r.
Proof.
  induction w as [|z w IH]; intros Hw Hr; [reflexivity|].
  cbn [app]. rewrite scan_keep.
  - f_equal. apply IH; [|assumption]. simpl in Hw.
    now apply andb_true_iff in Hw as [_ Hw].
  - change (z :: w ++ r) with ((z :: w) ++ r).
    now apply spaceBeforePunct_blocked.
Qed.

Lemma spaceBeforePunct_hit w c r :
  forallb isSpace w = true -> w <> [] -> isPunct c = true ->
  matchAt rxSpaceBeforePunct false (w ++ c :: r)
  = Some ([[c]], length w + 1).
Proof.
  intros Hw Hne Hc. cbv [rxSpaceBeforePunct plus group one matchAt].
  rewrite matchSeq_gap; try assumption.
  - destruct w; [congruence|]. cbn [length Nat.leb].
    rewrite matchSeq_one by assumption. reflexivity.
  - repeat constructor; discriminate.
  - chars.
  - intros z r' Hz. apply matchSeq_head_fail. chars.
Qed.

Lemma spaceBeforePunct_tokens ts : forall tail,
  gapped ts -> forallb isSpace tail = true ->
  scan rxSpaceBeforePunct (tpl "$1") 0 false (render ts tail)
  = render (override (maskSpaceBeforePunct ts) ts) tail.
Proof.
  induction ts as [|[g c] ts IH]; intros tail Hts Htail.
  - cbn [render override maskSpaceBeforePunct map].
    rewrite <- (app_nil_r tail) at 1.
    rewrite spaceBeforePunct_gap by (assumption || exact I).
    cbn. apply app_nil_r.
  - inversion Hts as [|? ? [Hg Hc] Hrest]; subst. simpl in Hg, Hc.
    cbn [render maskSpaceBeforePunct map override snd].
    assert (Hat : matchAt rxSpaceBeforePunct false (c :: render ts tail) = None).
    { cbv [rxSpaceBeforePunct plus group one matchAt].
      now rewrite matchSeq_head_fail. }
    destruct (isPunct c) eqn:Hp.
    + destruct g as [|z g].
      * cbn [app]. rewrite scan_keep by assumption. now rewrite IH.
      * erewrite scan_hit_n;
          [|apply spaceBeforePunct_hit; [assumption|discriminate|assumption]
           |lia].
        replace (length (z :: g) + 1) with (length ((z :: g) ++ [c]))
          by (rewrite length_app; reflexivity).
        replace ((z :: g) ++ c :: render ts tail)
          with (((z :: g) ++ [c]) ++ render ts tail)
          by (now rewrite <- app_assoc).
        rewrite skipn_length_app, IH by assumption. reflexivity.
    + rewrite spaceBeforePunct_gap by (assumption || (split; assumption)).
      rewrite scan_keep by assumption. now rewrite IH.
Qed.

(** *** Pipes *)

Lemma pipe_blocked w r :
  forallb isSpace w = true ->
  match r with
  | [] => True
  | y :: _ => isSpace y = false /\ chr (ch "|") y = false
  end ->
  matchAt rxPipe false (w ++ r) = None.
Proof.
  intros Hw Hr. cbv [rxPipe star one matchAt].
  rewrite matchSeq_gap; try assumption.
  - cbn [Nat.leb]. destruct r as [|y r]; [reflexivity|].
    rewrite matchSeq_head_fail by apply Hr. reflexivity.
  - repeat constructor; discriminate.
  - destruct r; [exact I|apply Hr].
  - intros z r' Hz. apply matchSeq_head_fail. chars.
Qed.

Lemma pipe_gap w r :
  forallb isSpace w = true ->
  match r with
  | [] => True
  | y :: _ => isSpace y = false /\ chr (ch "|") y = false
  end ->
  scan rxPipe (tpl " | ") 0 false (w ++ r)
  = w ++ scan rxPipe (tpl " | ") 0 false r.
Proof.
  induction w as [|z w IH]; intros Hw Hr; [reflexivity|].
  cbn [app]. rewrite scan_keep.
  - f_equal. apply IH; [|assumption]. simpl in Hw.
    now apply andb_true_iff in Hw as [_ Hw].
  - change (z :: w ++ r) with ((z :: w) ++ r). now apply pipe_blocked.
Qed.

Lemma pipe_hit w w' r :
  forallb isSpace w = true -> forallb isSpace w' = true ->
  match r with [] => True | y :: _ => isSpace y = false end ->
  matchAt rxPipe false (w ++ ch "|" :: w' ++ r)
  = Some ([], length w + (1 + (length w' + 0))).
Proof.
  intros Hw Hw' Hr. cbv [rxPipe star one matchAt].
  rewrite matchSeq_gap; try assumption.
  - cbn [Nat.leb]. rewrite matchSeq_one by reflexivity.
    erewrite matchSeq_star_run; [reflexivity|assumption| |reflexivity].
    destruct r; [exact I|assumption].
  - repeat constructor; discriminate.
  - reflexivity.
  - intros z r' Hz. apply matchSeq_head_fail. chars.
Qed.

Lemma pipe_after g c ts tail :
  str " " ++ render (override (maskPipe false (([], c) :: ts)) (([], c) :: ts))
                    (tailPipe false (([], c) :: ts) tail)
  = render (override (maskPipe true ((g, c) :: ts)) ((g, c) :: ts))
           (tailPipe true ((g, c) :: ts) tail).
Proof.
  cbn [maskPipe tailPipe override render].
  destruct (chr (ch "|") c); reflexivity.
Qed.

Lemma pipe_tokens n : forall ts tail,
  length ts <= n ->
  gapped ts -> forallb isSpace tail = true ->
  scan rxPipe (tpl " | ") 0 false (render ts tail)
  = render (override (maskPipe false ts) ts) (tailPipe false ts tail).
Proof.
  induction n as [|n IH]; intros ts tail Hlen Hts Htail.
  - destruct ts; [|simpl in Hlen; lia].
    cbn [render override maskPipe tailPipe].
    rewrite <- (app_nil_r tail) at 1.
    rewrite pipe_gap by (assumption || exact I). cbn. apply app_nil_r.
  - destruct ts as [|[g c] ts].
    { cbn [render override maskPipe tailPipe].
      rewrite <- (app_nil_r tail) at 1.
      rewrite pipe_gap by (assumption || exact I). cbn. apply app_nil_r. }
    inversion Hts as [|? ? [Hg Hc] Hrest]; subst. simpl in Hg, Hc.
    simpl in Hlen.
    destruct (chr (ch "|") c) eqn:Hp.
    + apply N.eqb_eq in Hp. subst c.
      destruct ts as [|[g' c'] ts].
      * (* the pipe is the last token: the match takes the tail *)
        cbn [render maskPipe tailPipe override].
        rewrite <- (app_nil_r tail) at 1.
        erewrite scan_hit_n;
          [|apply pipe_hit; [assumption|assumption|exact I]|lia].
        replace (length g + (1 + (length tail + 0)))
          with (length (g ++ ch "|" :: tail))
          by (rewrite length_app; cbn [length]; lia).
        rewrite app_nil_r, skipn_all. reflexivity.
      * inversion Hrest as [|? ? [Hg' Hc'] Hrest']; subst. simpl in Hg', Hc'.
        cbn [render].
        erewrite scan_hit_n;
          [|apply pipe_hit; [assumption|assumption|exact Hc']|lia].
        replace (length g + (1 + (length g' + 0)))
          with (length (g ++ ch "|" :: g'))
          by (rewrite length_app; cbn [length]; lia).
        replace (g ++ ch "|" :: g' ++ c' :: render ts tail)
          with ((g ++ ch "|" :: g') ++ render (([], c') :: ts) tail)
          by (rewrite <- app_assoc; reflexivity).
        rewrite skipn_length_app.
        rewrite IH; [| simpl in *; lia | | assumption].
        2:{ constructor; [|assumption]. simpl. auto. }
        change (expand (tpl " | ") [])
          with (str " " ++ ch "|" :: str " ").
        rewrite <- app_assoc. cbn [app str].
        change (ch " " :: render ?a ?b) with (str " " ++ render a b).
        rewrite (pipe_after g').
        cbn [maskPipe tailPipe override render].
        reflexivity.
    + cbn [render maskPipe tailPipe override]. rewrite Hp.
      rewrite pipe_gap by (assumption || (split; assumption)).
      rewrite scan_keep.
      * rewrite IH by (assumption || lia). reflexivity.
      * change (c :: render ts tail) with ([] ++ c :: render ts tail).
        apply pipe_blocked; [reflexivity|split; assumption].
Qed.

(** *** Bullet variants, blank lines and trimming *)

Lemma relabel_space c : isSpace c = true -> relabel c = c.
Proof.
  intros H. unfold relabel. destruct (oneOf variantGlyphs c) eqn:E; [|reflexivity].
  exfalso. revert H. chars.
Qed.

Lemma map_relabel_gap g : forallb isSpace g = true -> map relabel g = g.
Proof.
  induction g as [|z g IH]; intros H; [reflexivity|].
  simpl in H. apply andb_true_iff in H as [Hz Hg].
  cbn [map]. now rewrite relabel_space, IH.
Qed.

Lemma bulletVariant_tokens ts tail :
  gapped ts -> forallb isSpace tail = true ->
  replace rxBulletVariant [Lit blackCircle] (render ts tail)
  = render (map relabelTok ts) tail.
Proof.
  intros Hts Htail. unfold rxBulletVariant. rewrite replace_class.
  change (fun x => if oneOf variantGlyphs x then blackCircle else x)
    with relabel.
  induction Hts as [|[g c] ts [Hg Hc] Hts IH]; cbn [render map].
  - now apply map_relabel_gap.
  - simpl in Hg. rewrite map_app. cbn [map].
    rewrite map_relabel_gap, IH by assumption. reflexivity.
Qed.

Lemma span_app_stop c w y r :
  c y = false -> span c None (w ++ y :: r) = span c None w.
Proof.
  intros Hy. induction w as [|x w IH]; simpl.
  - now rewrite Hy.
  - destruct (c x); [now rewrite IH|reflexivity].
Qed.

Lemma collapse_split n : forall g c rest,
  length g <= n -> chr nl c = false ->
  scan rxBlankLines [Lit nl; Lit nl] 0 false (g ++ c :: rest)
  = scan rxBlankLines [Lit nl; Lit nl] 0 false g
    ++ c :: scan rxBlankLines [Lit nl; Lit nl] 0 false rest.
Proof.
  induction n as [|n IH]; intros g c rest Hlen Hc.
  - destruct g; [|simpl in Hlen; lia]. cbn [app].
    rewrite scan_keep.
    + cbn [scan]. rewrite blankLines_matchAt. reflexivity.
    + rewrite blankLines_matchAt, span_head_false by assumption. reflexivity.
  - destruct g as [|x g].
    { cbn [app]. rewrite scan_keep.
      + cbn [scan]. rewrite blankLines_matchAt. reflexivity.
      + rewrite blankLines_matchAt, span_head_false by assumption.
        reflexivity. }
    simpl in Hlen.
    pose proof (span_le (chr nl) None (x :: g)) as Hle.
    pose proof (blankLines_matchAt false (x :: g)) as E1.
    pose proof (blankLines_matchAt false ((x :: g) ++ c :: rest)) as E2.
    rewrite span_app_stop in E2 by assumption.
    destruct (3 <=? span (chr nl) None (x :: g)) eqn:E3.
    + apply Nat.leb_le in E3.
      rewrite (@scan_hit_n _ [Lit nl; Lit nl] _ _ _ _ E1),
        (@scan_hit_n _ [Lit nl; Lit nl] _ _ _ _ E2) by lia.
      rewrite Nat.add_0_r in *.
      rewrite skipn_app.
      replace (span (chr nl) None (x :: g) - length (x :: g)) with 0 by lia.
      change (skipn 0 (c :: rest)) with (c :: rest).
      rewrite IH; [now rewrite <- app_assoc| |assumption].
      rewrite length_skipn. cbn [length] in *. lia.
    + cbn [app] in *. rewrite !scan_keep by assumption.
      rewrite IH by (assumption || lia). reflexivity.
Qed.

Lemma collapse_scan g :
  collapse g = scan rxBlankLines [Lit nl; Lit nl] 0 false g.
Proof.
  unfold collapse, replace. apply scan_noBol.
  repeat constructor; discriminate.
Qed.

Lemma blankLines_tokens ts tail :
  gapped ts ->
  collapse (render ts tail) = render (map collapseTok ts) (collapse tail).
Proof.
  intros Hts.
  induction Hts as [|[g c] ts [Hg Hc] Hts IH]; cbn [render map].
  - reflexivity.
  - simpl in Hg, Hc. rewrite collapse_scan.
    rewrite (@collapse_split (length g)); [|lia|chars].
    rewrite <- !collapse_scan, IH. reflexivity.
Qed.

Lemma collapse_collapse g : collapse (collapse g) = collapse g.
Proof. apply shortRuns_collapse, collapse_shortRuns. Qed.

Lemma collapse_spaces g :
  forallb isSpace g = true -> forallb isSpace (collapse g) = true.
Proof.
  intros H. apply forallb_forall. intros x Hx.
  apply replace_chars in Hx as [Hx|Hx].
  - rewrite forallb_forall in H. now apply H.
  - simpl in Hx. destruct Hx as [[= <-]|[[= <-]|[]]]; reflexivity.
Qed.

Lemma collapse_isEmpty g : isEmpty (collapse g) = isEmpty g.
Proof.
  destruct g as [|x g]; [reflexivity|]. unfold collapse, replace.
  cbn [scan]. destruct (matchAt rxBlankLines true (x :: g)) as [[caps [|k]]|];
    reflexivity.
Qed.

(** *** Trimming *)

Lemma render_tail ts tail : render ts tail = render ts [] ++ tail.
Proof.
  induction ts as [|[g c] ts IH]; simpl; [reflexivity|].
  now rewrite IH, <- app_assoc.
Qed.

Lemma render_last ts :
  gapped ts -> ts <> [] ->
  exists m y, render ts [] = m ++ [y] /\ isSpace y = false.
Proof.
  induction 1 as [|[g c] ts [Hg Hc] Hts IH]; intros Hne;
    [exfalso; now apply Hne|].
  simpl in Hc. cbn [render]. destruct ts as [|t ts].
  - exists g, c. split; [reflexivity|assumption].
  - destruct IH as (m & y & E & Hy); [discriminate|].
    exists (g ++ c :: m), y. rewrite E, <- app_assoc. split; [reflexivity|assumption].
Qed.

Lemma dropWhile_gap (p : char -> bool) w r :
  forallb p w = true ->
  match r with [] => True | y :: _ => p y = false end ->
  dropWhile p (w ++ r) = r.
Proof.
  intros Hw Hr. induction w as [|x w IH]; simpl in *.
  - destruct r as [|y r]; [reflexivity|]. simpl. now rewrite Hr.
  - apply andb_true_iff in Hw as [Hx Hw]. rewrite Hx. now apply IH.
Qed.

Lemma trim_tokens ts tail :
  gapped ts -> forallb isSpace tail = true ->
  trim (render ts tail) = render (dropFirstGap ts) [].
Proof.
  intros Hts Htail. destruct ts as [|[g c] ts].
  - cbn [render dropFirstGap]. unfold trim.
    rewrite <- (app_nil_r tail), dropWhile_gap by (assumption || exact I).
    reflexivity.
  - inversion Hts as [|? ? [Hg Hc] Hrest]; subst. simpl in Hg, Hc.
    cbn [render dropFirstGap app]. unfold trim.
    rewrite dropWhile_gap by assumption.
    destruct (@render_last (([], c) :: ts)) as (m & y & E & Hy);
      [constructor; [split; [reflexivity|assumption]|assumption]|discriminate|].
    cbn [render app] in E.
    rewrite render_tail, app_comm_cons, E.
    rewrite rev_app_distr, rev_app_distr.
    cbn [rev app].
    rewrite dropWhile_gap.
    + cbn [rev]. rewrite rev_involutive. reflexivity.
    + apply forallb_forall. intros x Hx. apply in_rev in Hx.
      rewrite forallb_forall in Htail. now apply Htail.
    + assumption.
Qed.

Lemma kind_digit x y : kind x = kind y -> isDigit x = isDigit y.
Proof. unfold kind. now intros [= _ _ _ _ H]. Qed.

Lemma sim_refl ts : forall pd, sim pd ts ts.
Proof. induction ts as [|[g c] ts IH]; intros pd; simpl; auto. Qed.

Lemma sim_trans a : forall pd b c, sim pd a b -> sim pd b c -> sim pd a c.
Proof.
  induction a as [|[g1 c1] a IH]; intros pd [|[g2 c2] b] [|[g3 c3] c];
    simpl; try tauto.
  intros (K1 & G1 & S1) (K2 & G2 & S2).
  pose proof (kind_digit K1) as D. rewrite <- D in *.
  repeat split.
  - congruence.
  - intros H. rewrite G1, G2 by assumption. reflexivity.
  - eapply IH; eassumption.
Qed.

Lemma sim_length a : forall pd b, sim pd a b -> length a = length b.
Proof.
  induction a as [|[g c] a IH]; intros pd [|[g' c'] b]; simpl; try tauto.
  intros (_ & _ & H). f_equal. eapply IH, H.
Qed.

Lemma sim_weaken pd a b : sim pd a b -> sim false a b.
Proof.
  destruct a as [|[g c] a], b as [|[g' c'] b]; simpl; try tauto.
  intros (K & _ & S). repeat split; try assumption. discriminate.
Qed.

Lemma sim_skipn n : forall pd a b,
  sim pd a b -> sim false (skipn n a) (skipn n b).
Proof.
  induction n as [|n IH]; intros pd a b H; [now apply sim_weaken in H|].
  destruct a as [|[g c] a], b as [|[g' c'] b]; simpl in *; try tauto.
  destruct H as (_ & _ & H). eapply IH, H.
Qed.

Lemma override_sim m : forall pd ts, safe pd m ts -> sim pd ts (override m ts).
Proof.
  induction m as [|e m IH]; intros pd [|[g c] ts] H; simpl in *; auto.
  - repeat split; auto. apply sim_refl.
  - destruct H as [He H]. repeat split; [|now apply IH].
    intros Hpd. destruct e; [congruence|reflexivity].
Qed.

Lemma kind_relabel c : kind (relabel c) = kind c.
Proof.
  unfold relabel. destruct (oneOf variantGlyphs c) eqn:E; [|reflexivity].
  assert (H1 : isPunct c = false) by chars.
  assert (H2 : chr (ch "|") c = false) by chars.
  assert (H3 : isWord c = false) by chars.
  assert (H4 : chr (ch "-") c = false) by chars.
  assert (H5 : isDigit c = false) by chars.
  unfold kind. rewrite H1, H2, H3, H4, H5. reflexivity.
Qed.

Lemma relabel_sim ts : forall pd, sim pd ts (map relabelTok ts).
Proof.
  induction ts as [|[g c] ts IH]; intros pd; simpl; auto.
  rewrite kind_relabel. auto.
Qed.

Lemma collapse_sim ts : forall pd, sim pd ts (map collapseTok ts).
Proof.
  induction ts as [|[g c] ts IH]; intros pd; simpl; auto.
  rewrite collapse_isEmpty. auto.
Qed.

Lemma dropFirstGap_sim ts : sim false ts (dropFirstGap ts).
Proof.
  destruct ts as [|[g c] ts]; simpl; auto.
  repeat split; [discriminate|apply sim_refl].
Qed.

(** *** Masks that respect the digits *)

Lemma safe_maskSpaceBeforePunct ts :
  forall pd, safe pd (maskSpaceBeforePunct ts) ts.
Proof.
  induction ts as [|[g c] ts IH]; intros pd; simpl; auto.
  split; [|apply IH]. destruct (isPunct c) eqn:E; [|exact I].
  assert (isDigit c = false) by chars. apply andb_false_iff. now right.
Qed.

Lemma safe_maskPipe ts : forall pd after,
  (after = true -> pd = false) -> safe pd (maskPipe after ts) ts.
Proof.
  induction ts as [|[g c] ts IH]; intros pd after H; [exact I|].
  cbn [maskPipe]. destruct (chr (ch "|") c) eqn:E.
  - assert (isDigit c = false) by chars. cbn [safe]. split.
    + apply andb_false_iff. now right.
    + apply IH. auto.
  - cbn [safe]. split.
    + destruct after; [|exact I]. now rewrite H.
    + apply IH. discriminate.
Qed.

Lemma safe_split m1 : forall pd m2 ts,
  length m1 <= length ts ->
  safe pd m1 (firstn (length m1) ts) ->
  (forall pd', safe pd' m2 (skipn (length m1) ts)) ->
  safe pd (m1 ++ m2) ts.
Proof.
  induction m1 as [|e m1 IH]; intros pd m2 ts Hlen H1 H2; [apply H2|].
  destruct ts as [|[g c] ts]; [simpl in Hlen; lia|].
  simpl in *. destruct H1 as [He H1]. split; [assumption|].
  apply IH; [lia|assumption|assumption].
Qed.

Section SweepFacts.

Variable hit : tokens -> option mask.

Hypothesis hit_window :
  forall ts win, hit ts = Some win ->
    1 <= length win <= length ts
    /\ spaceMask win
    /\ forall pd, safe pd win (firstn (length win) ts).

Hypothesis hit_sim : forall pd a b, sim pd a b -> hit a = hit b.

Lemma safe_sweep n : forall ts pd, safe pd (sweep n hit ts) ts.
Proof.
  induction n as [|n IH]; intros ts pd; [exact I|].
  destruct ts as [|[g c] ts]; [exact I|]. cbn [sweep].
  destruct (hit ((g, c) :: ts)) as [win|] eqn:E.
  - destruct (hit_window E) as (Hlen & _ & Hwin).
    apply safe_split; [lia|apply Hwin|intros pd'; apply IH].
  - cbn [safe]. split; [exact I|apply IH].
Qed.

Lemma spaceMask_sweep n : forall ts, spaceMask (sweep n hit ts).
Proof.
  induction n as [|n IH]; intros ts; [constructor|].
  destruct ts as [|[g c] ts]; [constructor|]. cbn [sweep].
  destruct (hit ((g, c) :: ts)) as [win|] eqn:E.
  - destruct (hit_window E) as (_ & Hwin & _).
    apply Forall_app. split; [assumption|apply IH].
  - constructor; [exact I|apply IH].
Qed.

Lemma sweep_sim n : forall pd a b,
  sim pd a b -> sweep n hit a = sweep n hit b.
Proof.
  induction n as [|n IH]; intros pd a b H; [reflexivity|].
  destruct a as [|[g c] a], b as [|[g' c'] b]; simpl in H; try tauto.
  cbn [sweep]. rewrite <- (@hit_sim pd ((g, c) :: a) ((g', c') :: b))
    by (simpl; exact H).
  destruct (hit ((g, c) :: a)) as [win|].
  - f_equal. apply (IH false).
    apply (@sim_skipn (length win) pd ((g, c) :: a) ((g', c') :: b)).
    simpl. exact H.
  - f_equal. destruct H as (_ & _ & H). eapply IH, H.
Qed.

End SweepFacts.

(** *** Matching cannot tell similar tokens apart *)

Lemma tokOk_solid cap c n rest ts :
  tokOk (Solid cap c n :: rest) ts
  = tightRun c n ts && tokOk rest (skipn n ts).
Proof.
  unfold tokOk. cbn [tokMatch]. destruct (tightRun c n ts); [|reflexivity].
  now destruct (tokMatch rest (skipn n ts)) as [[[caps m] len]|].
Qed.

Lemma tokOk_gap rest ts :
  tokOk (Gap :: rest) ts
  = match ts with
    | [] => false
    | (g, x) :: ts' => tokOk rest (([], x) :: ts')
    end.
Proof.
  unfold tokOk. cbn [tokMatch]. destruct ts as [|[g x] ts]; [reflexivity|].
  now destruct (tokMatch rest (([], x) :: ts)) as [[[caps m] len]|].
Qed.

Lemma tightRun_digit_sim n : forall pd a b,
  sim pd a b -> pd = true \/ headAgree a b ->
  tightRun isDigit n a = tightRun isDigit n b.
Proof.
  induction n as [|n IH]; intros pd a b H Hh; [reflexivity|].
  destruct a as [|[g c] a], b as [|[g' c'] b]; simpl in H; try tauto.
  destruct H as (K & G & H). cbn [tightRun].
  rewrite <- (kind_digit K).
  destruct (isDigit c) eqn:D; [|now rewrite !andb_false_r].
  assert (E : isEmpty g = isEmpty g').
  { destruct Hh as [->|Hh]; [now apply G|exact Hh]. }
  rewrite E. f_equal. apply (IH true); [exact H|now left].
Qed.

Lemma tightRun_one_sim c : forall pd a b,
  (forall x y, kind x = kind y -> c x = c y) ->
  sim pd a b -> headAgree a b ->
  tightRun c 1 a = tightRun c 1 b.
Proof.
  intros pd a b Hc H Hh.
  destruct a as [|[g x] a], b as [|[g' y] b]; simpl in H; try tauto.
  destruct H as (K & _ & _). cbn [tightRun]. simpl in Hh.
  now rewrite Hh, (Hc _ _ K).
Qed.

Lemma tokOk_sim items : kindly items ->
  forall pd a b,
    sim pd a b ->
    headAgree a b \/ match items with Solid _ _ _ :: _ => False | _ => True end ->
    tokOk items a = tokOk items b.
Proof.
  induction items as [|[cap c n|] items IH]; intros Hk pd a b H Hh.
  - reflexivity.
  - destruct Hk as (Hc & Hnext & Hk). destruct Hh as [Hh|[]].
    rewrite !tokOk_solid. f_equal.
    + destruct Hc as [[-> Hc]| ->].
      * now apply tightRun_one_sim with (pd := pd).
      * apply tightRun_digit_sim with (pd := pd); auto.
    + apply (IH Hk false); [eapply sim_skipn, H|].
      right. destruct items as [|[? ? ?|] ?]; auto.
  - rewrite !tokOk_gap.
    destruct a as [|[g x] a], b as [|[g' y] b]; simpl in H; try tauto.
    destruct H as (K & _ & H).
    apply (IH Hk false); [|now left].
    simpl. repeat split; [assumption|assumption].
Qed.

Lemma hitOf_tokOk items win ts :
  hitOf items win ts
  = match ts with
    | [] => None
    | (g, c) :: ts' => if tokOk items (([], c) :: ts') then Some win else None
    end.
Proof.
  unfold hitOf, tokOk. destruct ts as [|[g c] ts]; [reflexivity|].
  now destruct (tokMatch items (([], c) :: ts)).
Qed.

Lemma hitOf_sim items win :
  kindly items -> forall pd a b, sim pd a b ->
  hitOf items win a = hitOf items win b.
Proof.
  intros Hk pd a b H. rewrite !hitOf_tokOk.
  destruct a as [|[g x] a], b as [|[g' y] b]; simpl in H; try tauto.
  destruct H as (K & _ & H).
  rewrite (@tokOk_sim items Hk false (([], x) :: a) (([], y) :: b));
    [reflexivity| |now left].
  simpl. repeat split; assumption.
Qed.

Lemma kindly_punctPair : kindly itemsPunctPair.
Proof.
  cbn. repeat split; left; (split; [reflexivity|]);
    unfold kind; intros x y [= ? ? ? ? ?]; assumption.
Qed.

Lemma kindly_wordDash : kindly itemsWordDash.
Proof.
  cbn. repeat split; left; (split; [reflexivity|]);
    unfold kind; intros x y [= ? ? ? ? ?]; assumption.
Qed.

Lemma kindly_yearDash : kindly itemsYearDash.
Proof.
  cbn. repeat split; try (now right).
  left. split; [reflexivity|].
  unfold kind; intros x y [= ? ? ? ? ?]; assumption.
Qed.

Ltac window :=
  let H := fresh "H" in
  intros ts win; unfold hitOf;
  destruct ts as [|[? ?] ts]; [discriminate|];
  match goal with
  | |- context [tokMatch ?i ?l] =>
      destruct (tokMatch i l) as [[[? ?] ?]|] eqn:H; [|discriminate]
  end;
  intros [= <-]; shape H;
  split; [cbn [length winPunctPair winWordDash winYearDash]; lia|];
  split; [repeat constructor|];
  intros pd; cbn [safe firstn length winPunctPair winWordDash winYearDash];
  repeat split;
  apply andb_false_iff; first [right; chars | left; chars].

Lemma punctPair_window ts win :
  hitOf itemsPunctPair winPunctPair ts = Some win ->
  1 <= length win <= length ts
  /\ spaceMask win
  /\ forall pd, safe pd win (firstn (length win) ts).
Proof. revert ts win. window. Qed.

Lemma wordDash_window ts win :
  hitOf itemsWordDash winWordDash ts = Some win ->
  1 <= length win <= length ts
  /\ spaceMask win
  /\ forall pd, safe pd win (firstn (length win) ts).
Proof. revert ts win. window. Qed.

Lemma yearDash_window ts win :
  hitOf itemsYearDash winYearDash ts = Some win ->
  1 <= length win <= length ts
  /\ spaceMask win
  /\ forall pd, safe pd win (firstn (length win) ts).
Proof. revert ts win. window. Qed.

Lemma gapped_override m : forall ts,
  spaceMask m -> gapped ts -> gapped (override m ts).
Proof.
  induction m as [|e m IH]; intros [|[g c] ts] Hm Hts; simpl; auto.
  inversion Hm as [|? ? He Hm']; subst.
  inversion Hts as [|? ? [Hg Hc] Hts']; subst.
  constructor; [|now apply IH]. simpl in *. split; [|assumption].
  destruct e; assumption.
Qed.

Lemma spaceMask_maskSpaceBeforePunct ts : spaceMask (maskSpaceBeforePunct ts).
Proof.
  induction ts as [|[g c] ts IH]; simpl; constructor; [|assumption].
  destruct (isPunct c); [reflexivity|exact I].
Qed.

Lemma spaceMask_maskPipe ts : forall after, spaceMask (maskPipe after ts).
Proof.
  induction ts as [|[g c] ts IH]; intros after; cbn [maskPipe];
    [constructor|].
  destruct (chr (ch "|") c); (constructor; [|apply IH]);
    destruct after; try reflexivity; exact I.
Qed.

Lemma tailPipe_spaces ts : forall after tail,
  forallb isSpace tail = true -> forallb isSpace (tailPipe after ts tail) = true.
Proof.
  induction ts as [|[g c] ts IH]; intros after tail H; cbn [tailPipe].
  - destruct after; [reflexivity|assumption].
  - now apply IH.
Qed.

Lemma gapped_relabel ts : gapped ts -> gapped (map relabelTok ts).
Proof.
  induction 1 as [|[g c] ts [Hg Hc] Hts IH]; simpl; constructor;
    [|assumption].
  simpl in *. split; [assumption|]. unfold relabel.
  destruct (oneOf variantGlyphs c); [reflexivity|assumption].
Qed.

Lemma gapped_collapse ts : gapped ts -> gapped (map collapseTok ts).
Proof.
  induction 1 as [|[g c] ts [Hg Hc] Hts IH]; simpl; constructor;
    [|assumption].
  simpl in *. split; [now apply collapse_spaces|assumption].
Qed.

Lemma gapped_dropFirstGap ts : gapped ts -> gapped (dropFirstGap ts).
Proof.
  destruct 1 as [|[g c] ts [Hg Hc] Hts]; simpl; constructor;
    [|assumption].
  simpl in *. auto.
Qed.

Lemma maskSpaceBeforePunct_sim a : forall pd b,
  sim pd a b -> maskSpaceBeforePunct a = maskSpaceBeforePunct b.
Proof.
  induction a as [|[g c] a IH]; intros pd [|[g' c'] b] H; simpl in H;
    try tauto.
  destruct H as (K & _ & H). unfold maskSpaceBeforePunct in *.
  cbn [map snd]. rewrite (IH _ _ H). unfold kind in K.
  injection K as -> _ _ _ _. reflexivity.
Qed.

Lemma kind_pipe x y : kind x = kind y -> chr (ch "|") x = chr (ch "|") y.
Proof. unfold kind. intros [= _ H _ _ _]. exact H. Qed.

Lemma maskPipe_sim a : forall pd after b,
  sim pd a b -> maskPipe after a = maskPipe after b.
Proof.
  induction a as [|[g c] a IH]; intros pd after [|[g' c'] b] H; simpl in H;
    try tauto.
  destruct H as (K & _ & H). cbn [maskPipe]. rewrite (kind_pipe K).
  destruct (chr (ch "|") c'); f_equal; eapply IH, H.
Qed.

Lemma maskPunctPair_sim pd a b :
  sim pd a b -> maskPunctPair a = maskPunctPair b.
Proof.
  intros H. unfold maskPunctPair. rewrite (sim_length _ _ _ H).
  eapply sweep_sim; [|exact H].
  intros ? ? ?. apply hitOf_sim, kindly_punctPair.
Qed.

Lemma maskWordDash_sim pd a b :
  sim pd a b -> maskWordDash a = maskWordDash b.
Proof.
  intros H. unfold maskWordDash. rewrite (sim_length _ _ _ H).
  eapply sweep_sim; [|exact H].
  intros ? ? ?. apply hitOf_sim, kindly_wordDash.
Qed.

Lemma maskYearDash_sim pd a b :
  sim pd a b -> maskYearDash a = maskYearDash b.
Proof.
  intros H. unfold maskYearDash. rewrite (sim_length _ _ _ H).
  eapply sweep_sim; [|exact H].
  intros ? ? ?. apply hitOf_sim, kindly_yearDash.
Qed.

(** *** One pass *)

Lemma override_cons m g c ts :
  override m ((g, c) :: ts) = (pick (hd None m) g, c) :: override (tl m) ts.
Proof. destruct m as [|e m]; reflexivity. Qed.

Lemma fixedPass_cons mA mB mC mD mE g c ts :
  fixedPass mA mB mC mD mE ((g, c) :: ts)
  = (collapse (pick (hd None mE) (pick (hd None mD) (pick (hd None mC)
       (pick (hd None mB) (pick (hd None mA) g))))), relabel c)
    :: fixedPass (tl mA) (tl mB) (tl mC) (tl mD) (tl mE) ts.
Proof. unfold fixedPass. now rewrite !override_cons. Qed.

Lemma relabel_relabel c : relabel (relabel c) = relabel c.
Proof.
  unfold relabel. destruct (oneOf variantGlyphs c) eqn:E; [reflexivity|].
  now rewrite E.
Qed.

Lemma fixedPass_twice ts : forall mA mB mC mD mE,
  fixedPass mA mB mC mD mE (fixedPass mA mB mC mD mE ts)
  = fixedPass mA mB mC mD mE ts.
Proof.
  induction ts as [|[g c] ts IH]; intros mA mB mC mD mE.
  - unfold fixedPass. destruct mA, mB, mC, mD, mE; reflexivity.
  - rewrite !fixedPass_cons, IH, relabel_relabel.
    destruct (hd None mA), (hd None mB), (hd None mC), (hd None mD),
      (hd None mE); cbn [pick]; now rewrite ?collapse_collapse.
Qed.

Lemma dropFirstGap_fixedPass_twice mA mB mC mD mE ts :
  dropFirstGap (fixedPass mA mB mC mD mE
                  (dropFirstGap (fixedPass mA mB mC mD mE ts)))
  = dropFirstGap (fixedPass mA mB mC mD mE ts).
Proof.
  destruct ts as [|[g c] ts].
  - unfold fixedPass. destruct mA, mB, mC, mD, mE; reflexivity.
  - rewrite fixedPass_cons. cbn [dropFirstGap]. rewrite fixedPass_cons.
    cbn [dropFirstGap]. now rewrite relabel_relabel, fixedPass_twice.
Qed.

Ltac sim_step :=
  first [ apply override_sim;
          first [ apply safe_maskSpaceBeforePunct
                | apply safe_maskPipe; discriminate
                | apply safe_sweep;
                  first [apply punctPair_window | apply wordDash_window
                        | apply yearDash_window] ]
        | apply relabel_sim | apply collapse_sim | apply dropFirstGap_sim ].

Lemma spacingTokens_fixed ts :
  spacingTokens ts
  = override (maskYearDash ts) (override (maskWordDash ts)
      (override (maskPipe false ts) (override (maskPunctPair ts)
         (override (maskSpaceBeforePunct ts) ts)))).
Proof.
  unfold spacingTokens.
  set (t1 := override (maskSpaceBeforePunct ts) ts).
  assert (S1 : sim false ts t1) by sim_step.
  rewrite <- (maskPunctPair_sim _ _ _ S1).
  set (t2 := override (maskPunctPair ts) t1).
  assert (S2 : sim false ts t2).
  { apply sim_trans with (b := t1); [exact S1|].
    unfold t2. rewrite (maskPunctPair_sim _ _ _ S1). sim_step. }
  rewrite <- (maskPipe_sim _ _ false _ S2).
  set (t3 := override (maskPipe false ts) t2).
  assert (S3 : sim false ts t3).
  { apply sim_trans with (b := t2); [exact S2|].
    unfold t3. rewrite (maskPipe_sim _ _ false _ S2). sim_step. }
  rewrite <- (maskWordDash_sim _ _ _ S3).
  set (t4 := override (maskWordDash ts) t3).
  assert (S4 : sim false ts t4).
  { apply sim_trans with (b := t3); [exact S3|].
    unfold t4. rewrite (maskWordDash_sim _ _ _ S3). sim_step. }
  rewrite <- (maskYearDash_sim _ _ _ S4). reflexivity.
Qed.

Lemma spacingTokens_sim ts : sim false ts (spacingTokens ts).
Proof.
  unfold spacingTokens.
  repeat (eapply sim_trans; [|sim_step]). apply sim_refl.
Qed.

Lemma passTokens_sim ts : sim false ts (passTokens ts).
Proof.
  unfold passTokens.
  eapply sim_trans; [|sim_step].
  eapply sim_trans; [|sim_step].
  eapply sim_trans; [|sim_step].
  apply spacingTokens_sim.
Qed.

Lemma passTokens_fixed ts :
  passTokens ts
  = dropFirstGap (fixedPass (maskSpaceBeforePunct ts) (maskPunctPair ts)
                    (maskPipe false ts) (maskWordDash ts) (maskYearDash ts)
                    ts).
Proof. unfold passTokens, fixedPass. now rewrite spacingTokens_fixed. Qed.

(** On tokens, a second pass changes nothing. *)
Theorem passTokens_twice ts : passTokens (passTokens ts) = passTokens ts.
Proof.
  pose proof (passTokens_sim ts) as H.
  rewrite (passTokens_fixed (passTokens ts)).
  rewrite <- (maskSpaceBeforePunct_sim _ _ _ H), <- (maskPunctPair_sim _ _ _ H),
    <- (maskPipe_sim _ _ false _ H), <- (maskWordDash_sim _ _ _ H),
    <- (maskYearDash_sim _ _ _ H).
  rewrite (passTokens_fixed ts) at 1.
  rewrite dropFirstGap_fixedPass_twice. now rewrite passTokens_fixed.
Qed.

(** *** The repair on rendered tokens *)

Lemma spaceBeforePunct_replace ts tail :
  gapped ts -> forallb isSpace tail = true ->
  replace rxSpaceBeforePunct (tpl "$1") (render ts tail)
  = render (override (maskSpaceBeforePunct ts) ts) tail.
Proof.
  intros Hts Htail. unfold replace. rewrite scan_noBol.
  - now apply spaceBeforePunct_tokens.
  - repeat constructor; discriminate.
Qed.

Lemma pipe_replace ts tail :
  gapped ts -> forallb isSpace tail = true ->
  replace rxPipe (tpl " | ") (render ts tail)
  = render (override (maskPipe false ts) ts) (tailPipe false ts tail).
Proof.
  intros Hts Htail. unfold replace. rewrite scan_noBol.
  - now apply pipe_tokens with (n := length ts).
  - repeat constructor; discriminate.
Qed.

Lemma spaces_noAt g :
  forallb isSpace g = true -> forallb (notC (chr (ch "@"))) g = true.
Proof. apply forallb_impl. intros x Hx. chars. Qed.

Lemma render_noAt ts tail :
  gapped ts -> forallb isSpace tail = true -> noAt ts ->
  forallb (notC (chr (ch "@"))) (render ts tail) = true.
Proof.
  unfold noAt. induction 1 as [|[g c] ts [Hg Hc] Hts IH]; intros Htail Hno.
  - now apply spaces_noAt.
  - simpl in Hg, Hc. cbn [map snd forallb] in Hno.
    apply andb_true_iff in Hno as [Hc' Hno].
    cbn [render]. rewrite forallb_app. cbn [forallb].
    now rewrite spaces_noAt, Hc', IH.
Qed.

Lemma noAt_render ts tail :
  forallb (notC (chr (ch "@"))) (render ts tail) = true -> noAt ts.
Proof.
  unfold noAt. induction ts as [|[g c] ts IH]; intros H; [reflexivity|].
  cbn [render] in H. rewrite forallb_app in H. cbn [forallb] in H.
  apply andb_true_iff in H as [_ H]. apply andb_true_iff in H as [Hc H].
  cbn [map snd forallb]. now rewrite Hc, IH.
Qed.

Lemma noAt_override m ts : noAt ts -> noAt (override m ts).
Proof. unfold noAt. now rewrite override_chars. Qed.

Lemma gapped_spacingTokens ts : gapped ts -> gapped (spacingTokens ts).
Proof.
  intros H. unfold spacingTokens.
  repeat (apply gapped_override;
          [first [ apply spaceMask_maskSpaceBeforePunct
                 | apply spaceMask_maskPipe
                 | apply spaceMask_sweep;
                   first [apply punctPair_window | apply wordDash_window
                         | apply yearDash_window] ]|]).
  exact H.
Qed.

Lemma gapped_passTokens ts : gapped ts -> gapped (passTokens ts).
Proof.
  intros H. unfold passTokens.
  now apply gapped_dropFirstGap, gapped_collapse, gapped_relabel,
    gapped_spacingTokens.
Qed.

Theorem repair_tokens ts tail :
  gapped ts -> forallb isSpace tail = true -> noAt ts ->
  repair (render ts tail) = render (passTokens ts) [].
Proof.
  intros Hts Htail Hno. unfold repair, repairSpacing, passTokens, spacingTokens.
  set (t1 := override (maskSpaceBeforePunct ts) ts).
  assert (G1 : gapped t1)
    by (apply gapped_override;
        [apply spaceMask_maskSpaceBeforePunct|assumption]).
  set (t2 := override (maskPunctPair t1) t1).
  assert (G2 : gapped t2)
    by (apply gapped_override;
        [apply spaceMask_sweep, punctPair_window|assumption]).
  set (t3 := override (maskPipe false t2) t2).
  assert (G3 : gapped t3)
    by (apply gapped_override; [apply spaceMask_maskPipe|assumption]).
  set (t4 := override (maskWordDash t3) t3).
  assert (G4 : gapped t4)
    by (apply gapped_override;
        [apply spaceMask_sweep, wordDash_window|assumption]).
  set (t5 := override (maskYearDash t4) t4).
  assert (G5 : gapped t5)
    by (apply gapped_override;
        [apply spaceMask_sweep, yearDash_window|assumption]).
  assert (Htail3 : forallb isSpace (tailPipe false t2 tail) = true)
    by now apply tailPipe_spaces.
  assert (N5 : noAt t5) by (unfold t5, t4, t3, t2, t1;
                            now repeat apply noAt_override).
  rewrite spaceBeforePunct_replace by assumption. fold t1.
  rewrite punctPair_tokens by assumption. fold t2.
  rewrite pipe_replace by assumption. fold t3.
  rewrite wordDash_tokens by assumption. fold t4.
  rewrite yearDash_tokens by assumption. fold t5.
  rewrite lack_Email by now apply render_noAt.
  rewrite bulletVariant_tokens by assumption.
  change (replace rxBlankLines [Lit nl; Lit nl] ?x) with (collapse x).
  rewrite blankLines_tokens by now apply gapped_relabel.
  rewrite trim_tokens;
    [reflexivity|now apply gapped_collapse, gapped_relabel|].
  now apply collapse_spaces.
Qed.

Lemma noAt_passTokens ts : noAt ts -> noAt (passTokens ts).
Proof.
  intros H. unfold passTokens.
  assert (H5 : noAt (spacingTokens ts))
    by (unfold spacingTokens; now repeat apply noAt_override).
  revert H5. generalize (spacingTokens ts). clear. unfold noAt.
  intros ts H.
  assert (E : map snd (dropFirstGap (map collapseTok (map relabelTok ts)))
              = map relabel (map snd ts)).
  { destruct ts as [|[g c] ts]; [reflexivity|]. cbn. f_equal.
    rewrite !map_map. reflexivity. }
  rewrite E. rewrite forallb_forall in *. intros x Hx.
  apply in_map_iff in Hx as (y & <- & Hy). apply H in Hy.
  unfold relabel. destruct (oneOf variantGlyphs y); [reflexivity|assumption].
Qed.

(* ================================================================= *)
(** * The specification's claims *)

(** ** Line classification *)

(** C4 (as the specification states it, refuted): a line of 35 capital
    letters is a caps-header for the code, while the specification's rule
    stops at 34 characters. *)
Lemma caps_header_34_refuted :
  ~ (isHeaderCaps line35 = true <-> capsHeaderSpec line35 = true).
Proof.
  intros [H _]. specialize (H eq_refl). vm_compute in H. discriminate.
Qed.

(** C4 (amended).  A line is a caps-header exactly when all of it is made
    of upper-case letters, white space and ampersands and it is 2 to 35
    characters long; such a line is never a bullet item, so the bullet rule
    that comes first does not take it away. *)
Theorem caps_header_rule (line : jsstring) :
  (isHeaderCaps line = true <->
   forallb isCapsChar line = true /\ 2 <= length line <= 35)
  /\ isHeaderCaps line && isBulletPoint line = false.
Proof.
  split; [apply isHeaderCaps_spec|].
  destruct (isHeaderCaps line) eqn:E; [|reflexivity]. simpl.
  apply isHeaderCaps_spec in E as [Hall Hlen].
  rewrite isBulletPoint_head. destruct line as [|x line]; [reflexivity|].
  simpl in Hall. apply andb_true_iff in Hall as [Hx _].
  destruct (oneOf bulletGlyphs x) eqn:Hb; [|reflexivity].
  apply bullet_not_caps in Hb. congruence.
Qed.

Lemma caps_header_rule_witness :
  isHeaderCaps (str "TECHNICAL SKILLS") = true
  /\ isHeaderCaps line35 = true
  /\ isHeaderCaps (repeat (ch "A") 36) = false.
Proof.
  split; [|split].
  - apply (proj1 (caps_header_rule (str "TECHNICAL SKILLS"))).
    split; [reflexivity|simpl; lia].
  - apply (proj1 (caps_header_rule line35)).
    split; [reflexivity|simpl; lia].
  - destruct (isHeaderCaps (repeat (ch "A") 36)) eqn:E; [|reflexivity].
    apply (proj1 (caps_header_rule _)) in E as [_ Hlen].
    simpl in Hlen. lia.
Defined.

(** ** Line reconstruction *)

(** C5. In the merge loop, the line at position [i] is appended to the last
    logical line, after one space, exactly when it is not structural, a
    previous logical line exists, the line is no bullet item and the
    previous logical line does not end with a colon; otherwise it becomes a
    new logical line.  So "Languages:" does not take in "Python, Rust". *)
Theorem merge_rule (lines : list jsstring) (i : nat) (line : jsstring) :
  Forall (fun l => 0 < length l) lines ->
  nth_error lines i = Some line ->
  let processedLines := mergeLoop [] 0 (firstn i lines) in
  let prev := last processedLines [] in
  mergeLoop [] 0 (firstn (S i) lines) =
  (if negb (isNewSection i line)
      && (0 <? length processedLines)
      && negb (isBulletPoint line)
      && negb (endsWith prev (str ":"))
   then removelast processedLines ++ [prev ++ str " " ++ line]
   else processedLines ++ [line])
  /\ mergeLines [str "Skills"; str "Summary"; str "Languages:";
                 str "Python, Rust"]
     = [str "Skills"; str "Summary"; str "Languages:"; str "Python, Rust"].
Proof.
  intros Hne Hnth processedLines prev. split; [|reflexivity].
  rewrite (mergeLoop_snoc _ _ Hnth). fold processedLines.
  assert (Hacc : Forall (fun l => 0 < length l) processedLines).
  { apply mergeLoop_nonempty; [constructor|now apply Forall_firstn]. }
  unfold mergeStep, shouldMerge, prevLineOf. fold prev.
  destruct processedLines as [|l ls] eqn:E.
  - simpl. now rewrite !andb_false_r.
  - assert (Hprev : (0 <? length prev) = true).
    { apply Nat.ltb_lt.
      apply Forall_last with (P := fun l => 0 < length l) (d := []) in Hacc;
        [assumption|discriminate]. }
    rewrite Hprev. cbn [length]. change (0 <? S (length ls)) with true.
    now rewrite !andb_true_r.
Qed.

Lemma merge_rule_witness :
  mergeLoop [] 0 (firstn 4 [str "John Doe"; str "Engineer"; str "Built systems";
                            str "that scale."])
  = [str "John Doe"; str "Engineer Built systems that scale."].
Proof.
  refine (eq_trans
            (proj1 (@merge_rule [str "John Doe"; str "Engineer";
                                 str "Built systems"; str "that scale."]
                                3 (str "that scale.") _ eq_refl)) _).
  - repeat constructor.
  - reflexivity.
Defined.

(** The part of C8 the code keeps: the lines at positions 0 and 1 are
    structural whatever their text, and are pushed as logical lines of
    their own, never appended to a previous one. *)
Lemma preamble_pushed (processedLines : list jsstring) (line : jsstring) :
  isNewSection 0 line = true
  /\ isNewSection 1 line = true
  /\ mergeStep processedLines 0 line = processedLines ++ [line]
  /\ mergeStep processedLines 1 line = processedLines ++ [line].
Proof.
  assert (H0 : isNewSection 0 line = true)
    by (unfold isNewSection; cbn [isFirstLines Nat.ltb Nat.leb];
        apply orb_true_r).
  assert (H1 : isNewSection 1 line = true)
    by (unfold isNewSection; cbn [isFirstLines Nat.ltb Nat.leb];
        apply orb_true_r).
  split; [assumption|]. split; [assumption|].
  split; now apply mergeStep_newSection.
Qed.

(** C8 (the defect).  On the specification's example the title line at
    position 1 takes up the two body lines behind it: the loop yields
    "John Doe" and "Senior Engineer Built systems that scale.", and so
    does [cleanExtractedText], where the comment in the source has the
    structure of the first lines always preserved. *)
Theorem preamble_example_absorbed :
  mergeLines preambleExample
  = [str "John Doe"; str "Senior Engineer Built systems that scale."]
  /\ cleanExtractedText (Some (join [nl] preambleExample))
     = str "John Doe" ++ [nl]
       ++ str "Senior Engineer Built systems that scale.".
Proof. vm_compute. split; reflexivity. Qed.

(** ** The output has no blank line *)

(** C9. What [cleanExtractedText] returns never holds two newlines in a
    row, and the step that collapses three or more newlines finds nothing
    to do in the text rebuilt from the logical lines. *)
Theorem output_has_no_blank_line (text : option jsstring) (s : jsstring) :
  hasBlankLine (cleanExtractedText text) = false
  /\ replace rxBlankLines [Lit nl; Lit nl] (repairSpacing (reconstructed s))
     = repairSpacing (reconstructed s).
Proof.
  assert (H : forall s',
             noBlankFrom false (repairSpacing (reconstructed s')) = true)
    by (intros s'; apply repairSpacing_noBlank, reconstructed_noBlank).
  split; [|apply collapse_noBlank, H].
  destruct text as [[|c text]|]; try reflexivity.
  apply noBlankFrom_hasBlankLine with (b := false).
  unfold cleanExtractedText, repair.
  apply noBlankFrom_trim. rewrite collapse_noBlank by apply H. apply H.
Qed.

(** ** Batch extraction *)

Section ExtractionFacts.

Variables Buffer World : Type.
Variable getText : Buffer -> World -> outcome * World.

Lemma extractLoop_acc buffers : forall acc e,
  extractLoop getText buffers acc e =
  (acc ++ fst (extractLoop getText buffers [] e),
   snd (extractLoop getText buffers [] e)).
Proof.
  induction buffers as [|b buffers IH]; intros acc e; simpl.
  - unfold ret. simpl. now rewrite app_nil_r.
  - unfold bind. destruct (extractOne getText b e) as [text e'].
    rewrite IH. rewrite (IH [text]). simpl.
    now rewrite <- app_assoc.
Qed.

Lemma extractLoop_cons b buffers e :
  extractLoop getText (b :: buffers) [] e =
  (fst (extractOne getText b e)
     :: fst (extractLoop getText buffers [] (snd (extractOne getText b e))),
   snd (extractLoop getText buffers [] (snd (extractOne getText b e)))).
Proof.
  simpl. unfold bind. destruct (extractOne getText b e) as [text e'].
  now rewrite extractLoop_acc.
Qed.

Lemma extractLoop_app pre : forall post e,
  extractLoop getText (pre ++ post) [] e =
  (fst (extractLoop getText pre [] e)
     ++ fst (extractLoop getText post []
                         (snd (extractLoop getText pre [] e))),
   snd (extractLoop getText post [] (snd (extractLoop getText pre [] e)))).
Proof.
  induction pre as [|b pre IH]; intros post e.
  - simpl. unfold ret. simpl. now destruct (extractLoop getText post [] e).
  - rewrite <- app_comm_cons, !extractLoop_cons, IH. reflexivity.
Qed.

Lemma extract_length buffers : forall e,
  length (fst (extractTextFromPDFs getText buffers e)) = length buffers.
Proof.
  unfold extractTextFromPDFs.
  induction buffers as [|b buffers IH]; intros e; [reflexivity|].
  rewrite extractLoop_cons. simpl. now rewrite IH.
Qed.

(** C1. The batch returns as many strings as it was given buffers, the
    empty batch included, and the string at slot [i] is the one the loop
    body produces for the buffer at slot [i], in the state the earlier
    documents left. *)
Theorem extract_aligned (buffers : list (option Buffer))
        (e : Env Buffer World) (i : nat) :
  length (fst (extractTextFromPDFs getText buffers e)) = length buffers
  /\ fst (extractTextFromPDFs getText [] e) = []
  /\ nth_error (fst (extractTextFromPDFs getText buffers e)) i =
     option_map
       (fun buffer =>
          fst (extractOne getText buffer
                 (snd (extractTextFromPDFs getText (firstn i buffers) e))))
       (nth_error buffers i).
Proof.
  split; [apply extract_length|]. split; [reflexivity|].
  unfold extractTextFromPDFs.
  revert e i. induction buffers as [|b buffers IH]; intros e i.
  - destruct i; reflexivity.
  - rewrite extractLoop_cons. destruct i as [|i]; [reflexivity|].
    cbn [nth_error fst firstn]. rewrite IH, extractLoop_cons. reflexivity.
Qed.

(** C2. When the parser throws for a document, its slot holds the empty
    string and the documents before and after it are processed as they
    would be without it, from the state the parser left; an absent
    document yields the empty string too and the parser is not called for
    it: the state and the log of calls pass unchanged to the next
    document. *)
Theorem failure_is_isolated (pre post : list (option Buffer)) (b : Buffer)
        (e : Env Buffer World) (w : World) :
  let before := extractTextFromPDFs getText pre e in
  getText b (world (snd before)) = (Throws, w) ->
  let afterThrow :=
    extractTextFromPDFs getText post (mkEnv w (calls (snd before) ++ [b])) in
  let afterAbsent := extractTextFromPDFs getText post (snd before) in
  extractTextFromPDFs getText (pre ++ Some b :: post) e
  = (fst before ++ [] :: fst afterThrow, snd afterThrow)
  /\ extractTextFromPDFs getText (pre ++ None :: post) e
     = (fst before ++ [] :: fst afterAbsent, snd afterAbsent)
  /\ extractOne getText None (snd before) = ([], snd before).
Proof.
  intros before Hthrow afterThrow afterAbsent.
  unfold extractTextFromPDFs in *.
  split; [|split; [|reflexivity]].
  - rewrite extractLoop_app, extractLoop_cons. fold before.
    cbn [extractOne]. unfold bind, invoke, ret.
    rewrite Hthrow. reflexivity.
  - rewrite extractLoop_app, extractLoop_cons. reflexivity.
Qed.

End ExtractionFacts.

Lemma failure_is_isolated_witness :
  extractTextFromPDFs flakyParser [Some 1; Some 2; Some 3] (mkEnv 0 [])
  = ([str "page 1"; []; str "page 3"], mkEnv 3 [1; 2; 3]).
Proof.
  refine (eq_trans
            (proj1 (@failure_is_isolated nat nat flakyParser [Some 1] [Some 3]
                                         2 (mkEnv 0 []) 2 _)) _).
  - reflexivity.
  - vm_compute. reflexivity.
Defined.

Lemma pageText_pageOf t : pageText (pageOf t) = JStr t.
Proof. destruct t; reflexivity. Qed.

Lemma filterPages_strings texts :
  filterPages (map pageText (map pageOf texts))
  = Ok (filter (fun t => 0 <? length (trim t)) texts).
Proof.
  induction texts as [|t texts IH]; [reflexivity|].
  cbn [map filterPages filter]. rewrite pageText_pageOf, IH.
  cbn [keepPage toStr]. destruct (0 <? length (trim t)); reflexivity.
Qed.

(** C10. A result object with a string-valued [text] yields that string,
    whatever its [pages]; without one, a non-empty [pages] array is
    flattened: the page texts whose trimmed text is not empty are joined
    with a blank line between them; with neither, the document yields the
    empty string. *)
Theorem result_shapes (fields : list (string * JsVal)) (texts : list jsstring) :
  (forall s, lookup "text" fields = Some (JStr s) ->
             plainTextOf (JObj fields) = Ok s
             /\ textOfOutcome (Returns (JObj fields))
                = cleanExtractedText (Some s))
  /\ (hasStringText fields = false -> pagesOf fields <> [] ->
      plainTextOf (JObj fields)
      = match filterPages (map pageText (pagesOf fields)) with
        | Ok kept => Ok (join [nl; nl] kept)
        | Thrown => Thrown
        end)
  /\ filterPages (map pageText (map pageOf texts))
     = Ok (filter (fun t => 0 <? length (trim t)) texts)
  /\ (hasStringText fields = false -> pagesOf fields = [] ->
      plainTextOf (JObj fields) = Ok []
      /\ textOfOutcome (Returns (JObj fields)) = []).
Proof.
  split; [|split; [|split]].
  - intros s Hs. unfold textOfOutcome, plainTextOf, hasProp, getProp.
    rewrite Hs. split; reflexivity.
  - unfold hasStringText, pagesOf, plainTextOf, hasProp, getProp.
    intros Ht Hp.
    assert (Hcond :
              match lookup "text" fields with Some _ => true | None => false end
              && isString (match lookup "text" fields with
                           | Some x => x | None => JUndefined end) = false).
    { destruct (lookup "text" fields) as [[]|]; try reflexivity; discriminate. }
    rewrite Hcond.
    destruct (lookup "pages" fields) as [[| | | | |items|]|]; try congruence.
    destruct items; [congruence|reflexivity].
  - apply filterPages_strings.
  - unfold hasStringText, pagesOf, textOfOutcome, plainTextOf, hasProp, getProp.
    intros Ht Hp.
    assert (Hcond :
              match lookup "text" fields with Some _ => true | None => false end
              && isString (match lookup "text" fields with
                           | Some x => x | None => JUndefined end) = false).
    { destruct (lookup "text" fields) as [[]|]; try reflexivity; discriminate. }
    rewrite Hcond.
    destruct (lookup "pages" fields) as [[| | | | |items|]|];
      try (split; reflexivity).
    subst items. split; reflexivity.
Qed.

Lemma result_shapes_witness :
  plainTextOf (JObj [("text"%string, JStr (str "whole"));
                     ("pages"%string, JArr [pageOf (str "page one")])])
  = Ok (str "whole")
  /\ plainTextOf (JObj [("pages"%string,
                         JArr [pageOf (str "one"); pageOf (str "  ");
                               pageOf (str "two")])])
     = Ok (str "one" ++ [nl; nl] ++ str "two")
  /\ plainTextOf (JObj [("pages"%string, JArr [])]) = Ok [].
Proof.
  split; [|split].
  - apply (proj1 (@result_shapes
                    [("text"%string, JStr (str "whole"));
                     ("pages"%string, JArr [pageOf (str "page one")])] [])
                 (str "whole") eq_refl).
  - refine (eq_trans
              (proj1 (proj2 (@result_shapes
                               [("pages"%string,
                                 JArr [pageOf (str "one"); pageOf (str "  ");
                                       pageOf (str "two")])] []))
                     eq_refl _) _).
    + discriminate.
    + reflexivity.
  - apply (proj2 (proj2 (proj2 (@result_shapes
                                  [("pages"%string, JArr [])] [])))
                 eq_refl eq_refl).
Defined.

(** ** Punctuation and spacing repair *)

(** C3 (as the specification states it, refuted): with two at signs the
    email step of a second pass removes a space the first pass left:
    "a @@ a" becomes "a@@ a", which becomes "a@@a". *)
Lemma repair_not_idempotent :
  repair (repair (str "a @@ a")) <> repair (str "a @@ a").
Proof. vm_compute. discriminate. Qed.

(* ================================================================= *)
(** * More of the code: lemmas *)

(** ** Joining *)

Lemma join_cons sep l ls :
  ls <> [] -> join sep (l :: ls) = l ++ sep ++ join sep ls.
Proof. destruct ls; [congruence|reflexivity]. Qed.

Lemma join_app sep a : forall b,
  a <> [] -> b <> [] ->
  join sep (a ++ b) = join sep a ++ sep ++ join sep b.
Proof.
  induction a as [|l a IH]; intros b Ha Hb; [congruence|].
  destruct a as [|l' a].
  - cbn [app]. now rewrite join_cons.
  - rewrite <- app_comm_cons, !join_cons by (try discriminate; now destruct a).
    rewrite IH by (assumption || discriminate).
    now rewrite <- !app_assoc.
Qed.

Lemma join_snoc sep a l :
  a <> [] -> join sep (a ++ [l]) = join sep a ++ sep ++ l.
Proof. intros Ha. rewrite join_app by (assumption || discriminate). reflexivity. Qed.

(** ** The merge loop keeps the text *)

Lemma mergeStep_not_nil acc i l : mergeStep acc i l <> [].
Proof.
  unfold mergeStep. destruct (_ && _); intros H;
    apply app_eq_nil in H as [_ H]; discriminate.
Qed.

Lemma mergeStep_join acc i l :
  join (str " ") (mergeStep acc i l) = join (str " ") (acc ++ [l]).
Proof.
  unfold mergeStep. destruct (_ && _) eqn:E; [|reflexivity].
  apply andb_true_iff in E as [_ E]. apply Nat.ltb_lt in E.
  assert (Hne : acc <> []) by (destruct acc; [simpl in E; lia|discriminate]).
  unfold prevLineOf.
  destruct (exists_last Hne) as (rl & la & ->).
  rewrite removelast_last, last_last.
  destruct rl as [|r rs]; [reflexivity|].
  assert (Hne' : (r :: rs) ++ [la] <> [])
    by (intros H; apply app_eq_nil in H as [_ H]; discriminate).
  rewrite (join_snoc _ _ Hne'), !join_snoc by discriminate.
  now rewrite <- !app_assoc.
Qed.

Lemma mergeLoop_join lines : forall acc i,
  join (str " ") (mergeLoop acc i lines) = join (str " ") (acc ++ lines).
Proof.
  induction lines as [|l lines IH]; intros acc i; cbn [mergeLoop].
  - now rewrite app_nil_r.
  - rewrite IH.
    replace (acc ++ l :: lines) with ((acc ++ [l]) ++ lines)
      by (now rewrite <- app_assoc).
    destruct lines as [|l' lines].
    + rewrite !app_nil_r. apply mergeStep_join.
    + assert (H1 : mergeStep acc i l <> []) by apply mergeStep_not_nil.
      assert (H2 : acc ++ [l] <> [])
        by (intros H; apply app_eq_nil in H as [_ H]; discriminate).
      assert (H3 : l' :: lines <> []) by discriminate.
      rewrite (join_app _ H1 H3), (join_app _ H2 H3).
      now rewrite mergeStep_join.
Qed.

(** ** The number of logical lines *)

Lemma mergeStep_length acc i l :
  length acc <= length (mergeStep acc i l) <= S (length acc).
Proof.
  unfold mergeStep. destruct (_ && _) eqn:E.
  - apply andb_true_iff in E as [_ E]. apply Nat.ltb_lt in E.
    rewrite length_app, removelast_firstn_len, length_firstn. simpl. lia.
  - rewrite length_app. simpl. lia.
Qed.

Lemma mergeLoop_length lines : forall acc i,
  length acc <= length (mergeLoop acc i lines) <= length acc + length lines.
Proof.
  induction lines as [|l lines IH]; intros acc i; cbn [mergeLoop length].
  - lia.
  - pose proof (mergeStep_length acc i l).
    pose proof (IH (mergeStep acc i l) (S i)). lia.
Qed.

(** ** The first line *)

Lemma mergeStep_cons a acc i l :
  acc <> [] -> mergeStep (a :: acc) i l = a :: mergeStep acc i l.
Proof.
  intros Hne. destruct acc as [|b acc]; [congruence|].
  unfold mergeStep, prevLineOf.
  change (last (a :: b :: acc) []) with (last (b :: acc) []).
  change (0 <? length (a :: b :: acc)) with true.
  change (0 <? length (b :: acc)) with true.
  destruct (_ && true); reflexivity.
Qed.

Lemma mergeLoop_cons lines : forall a acc i,
  acc <> [] -> mergeLoop (a :: acc) i lines = a :: mergeLoop acc i lines.
Proof.
  induction lines as [|l lines IH]; intros a acc i Hne; [reflexivity|].
  cbn [mergeLoop]. rewrite mergeStep_cons by assumption.
  apply IH, mergeStep_not_nil.
Qed.

Lemma mergeStep_first acc line i :
  i < 2 -> mergeStep acc i line = acc ++ [line].
Proof.
  intros Hi. apply mergeStep_newSection. unfold isNewSection, isFirstLines.
  apply Nat.ltb_lt in Hi. rewrite Hi. apply orb_true_r.
Qed.

(** ** Trimmed lines *)

Lemma trim_ends s :
  match trim s with
  | [] => True
  | x :: _ => isSpace x = false /\ isSpace (last (trim s) x) = false
  end.
Proof.
  destruct (trim s) as [|x r] eqn:E; [exact I|]. rewrite <- E.
  unfold trim in *.
  destruct (dropWhile isSpace (rev (dropWhile isSpace s))) as [|y q] eqn:Eq;
    [discriminate|].
  pose proof (dropWhile_head _ _ Eq) as Hy.
  split.
  - assert (Hin : In x (dropWhile isSpace s)).
    { apply in_rev.
      destruct (dropWhile_split isSpace (rev (dropWhile isSpace s)))
        as (w & Hw & _). rewrite Hw. apply in_or_app. right.
      rewrite Eq. apply in_rev. rewrite E. now left. }
    destruct (dropWhile isSpace s) as [|z d] eqn:Ed; [contradiction|].
    pose proof (dropWhile_head _ _ Ed) as Hz.
    destruct (dropWhile_split isSpace (rev (z :: d))) as (w & Hw & _).
    rewrite Eq in Hw. apply (f_equal (@rev char)) in Hw.
    rewrite rev_involutive, rev_app_distr, E in Hw.
    simpl in Hw. now injection Hw as <- _.
  - simpl rev. rewrite last_last. assumption.
Qed.

Lemma trimmedLine_trim s :
  0 < length (trim s) -> trimmedLine (trim s) = true.
Proof.
  intros H. pose proof (trim_ends s) as He. unfold trimmedLine.
  destruct (trim s) as [|x r]; [simpl in H; lia|].
  destruct He as [-> ->]. reflexivity.
Qed.

Lemma last_app_cons (a : jsstring) x b d : last (a ++ x :: b) d = last (x :: b) d.
Proof.
  induction a as [|y a IH]; [reflexivity|].
  cbn [app]. rewrite <- IH. destruct (a ++ x :: b) eqn:E; [|reflexivity].
  apply app_eq_nil in E as [_ E]. discriminate.
Qed.

Lemma last_default (l : jsstring) d d' : l <> [] -> last l d = last l d'.
Proof.
  induction l as [|x l IH]; intros H; [congruence|].
  destruct l; [reflexivity|]. cbn [last] in *. apply IH. discriminate.
Qed.

Lemma trimmedLine_merge prev cur :
  trimmedLine prev = true -> trimmedLine cur = true ->
  trimmedLine (prev ++ str " " ++ cur) = true.
Proof.
  unfold trimmedLine. destruct prev as [|x prev]; [discriminate|].
  destruct cur as [|y cur]; [discriminate|].
  intros Hp Hc. apply andb_true_iff in Hp as [Hx _].
  apply andb_true_iff in Hc as [_ Hy].
  cbn [app str]. rewrite Hx. cbn [andb].
  change (x :: prev ++ ch " " :: y :: cur)
    with ((x :: prev) ++ ch " " :: y :: cur).
  rewrite last_app_cons.
  change (last (ch " " :: y :: cur) x) with (last (y :: cur) x).
  rewrite (@last_default (y :: cur) x y) by discriminate. exact Hy.
Qed.

Lemma mergeStep_trimmed acc i line :
  Forall (fun l => trimmedLine l = true) acc ->
  trimmedLine line = true ->
  Forall (fun l => trimmedLine l = true) (mergeStep acc i line).
Proof.
  intros Hacc Hline. unfold mergeStep, prevLineOf.
  destruct (_ && _) eqn:E.
  - apply andb_true_iff in E as [_ E]. apply Nat.ltb_lt in E.
    apply Forall_app. split; [now apply Forall_removelast|].
    constructor; [|constructor].
    apply trimmedLine_merge; [|assumption].
    apply Forall_last with (P := fun l => trimmedLine l = true);
      [assumption|]. destruct acc; [simpl in E; lia|discriminate].
  - apply Forall_app. split; [assumption|]. now constructor.
Qed.

Lemma mergeLoop_trimmed lines : forall acc i,
  Forall (fun l => trimmedLine l = true) acc ->
  Forall (fun l => trimmedLine l = true) lines ->
  Forall (fun l => trimmedLine l = true) (mergeLoop acc i lines).
Proof.
  induction lines as [|l lines IH]; intros acc i Hacc Hl; simpl;
    [assumption|].
  inversion Hl; subst. apply IH; [|assumption].
  now apply mergeStep_trimmed.
Qed.

Lemma splitLines_trimmed cleaned :
  Forall (fun l => trimmedLine l = true) (splitLines cleaned).
Proof.
  unfold splitLines. apply Forall_forall. intros l Hl.
  apply filter_In in Hl as [Hl Hlen]. apply Nat.ltb_lt in Hlen.
  apply in_map_iff in Hl as (piece & <- & _).
  now apply trimmedLine_trim.
Qed.

(** ** What one sees of a text *)

Lemma visible_app a b : visible (a ++ b) = visible a ++ visible b.
Proof. apply filter_app. Qed.

Lemma visible_spaces w : forallb isSpace w = true -> visible w = [].
Proof.
  induction w as [|x w IH]; intros H; [reflexivity|].
  simpl in H. apply andb_true_iff in H as [Hx Hw].
  unfold visible. cbn [filter]. unfold isNonSpace at 1, notC. rewrite Hx.
  now apply IH.
Qed.

Lemma visible_trim s : visible (trim s) = visible s.
Proof.
  destruct (trim_split s) as (u & v & Hs & Hu & Hv).
  rewrite Hs at 2. rewrite !visible_app, (visible_spaces _ Hu),
    (visible_spaces _ Hv). now rewrite app_nil_r.
Qed.

Lemma visible_join sep ls :
  forallb isSpace sep = true ->
  visible (join sep ls) = concat (map visible ls).
Proof.
  intros Hsep. induction ls as [|l ls IH]; [reflexivity|].
  destruct ls as [|l' ls].
  - cbn. now rewrite app_nil_r.
  - rewrite join_cons by discriminate.
    rewrite !visible_app, (visible_spaces _ Hsep), IH. reflexivity.
Qed.

Lemma visible_cons x s :
  visible (x :: s) = if isSpace x then visible s else x :: visible s.
Proof.
  unfold visible. cbn [filter]. unfold isNonSpace at 1, notC.
  now destruct (isSpace x).
Qed.

Lemma visible_split s :
  concat (map visible (split nl s)) = visible s.
Proof.
  induction s as [|x s IH]; [reflexivity|]. cbn [split].
  rewrite visible_cons, <- IH.
  destruct (N.eqb_spec x nl) as [->|Hx]; [reflexivity|].
  destruct (split nl s) as [|l ls]; cbn [map concat];
    rewrite visible_cons; destruct (isSpace x); reflexivity.
Qed.

Lemma visible_splitLines cleaned :
  concat (map visible (splitLines cleaned)) = visible cleaned.
Proof.
  unfold splitLines. rewrite <- visible_split.
  induction (split nl cleaned) as [|l ls IH]; [reflexivity|].
  cbn [map filter]. destruct (0 <? length (trim l)) eqn:E.
  - cbn [map concat]. now rewrite IH, visible_trim.
  - cbn [map concat]. rewrite IH, <- (visible_trim l).
    apply Nat.ltb_ge in E. destruct (trim l); [reflexivity|simpl in E; lia].
Qed.

Lemma visible_reconstructed text :
  visible (reconstructed text) = visible (normalizeArtifacts text).
Proof.
  unfold reconstructed, mergeLines.
  rewrite visible_join by reflexivity.
  rewrite <- (@visible_join (str " ")) by reflexivity.
  rewrite mergeLoop_join. cbn [app].
  rewrite visible_join by reflexivity.
  apply visible_splitLines.
Qed.

(** ** What a match is made of *)

Lemma matchSeq_Rep_inv cap c lo hi rest bos s caps n :
  matchSeq (Rep cap c lo hi :: rest) bos s = Some (caps, n) ->
  exists w r caps' n',
    s = w ++ r /\ forallb c w = true /\ lo <= length w
    /\ match hi with Some h => length w <= h | None => True end
    /\ matchSeq rest (bos && (length w =? 0)) r = Some (caps', n')
    /\ caps = (if cap then w :: caps' else caps')
    /\ n = length w + n'
    /\ firstn n s = w ++ firstn n' r.
Proof.
  cbn [matchSeq]. intros H.
  apply backtrack_Some in H as (j & [Hlo Hj] & H).
  destruct (matchSeq rest (bos && (j =? 0)) (skipn j s)) as [[caps' n']|] eqn:E;
    [|discriminate].
  injection H as <- <-.
  pose proof (span_le c hi s) as Hle.
  assert (Hlen : length (firstn j s) = j) by (rewrite length_firstn; lia).
  exists (firstn j s), (skipn j s), caps', n'.
  rewrite Hlen, firstn_skipn. repeat split; try assumption.
  - eapply span_forallb. eassumption.
  - destruct hi as [h|]; [|exact I]. pose proof (span_bound c h s). lia.
  - rewrite <- (firstn_skipn j s) at 1. rewrite <- Hlen at 1.
    apply firstn_app_2.
Qed.

Lemma matchAt_single alt bos s : matchAt [alt] bos s = matchSeq alt bos s.
Proof. cbn [matchAt]. now destruct (matchSeq alt bos s). Qed.

Lemma backtrack_complete A (f : nat -> option A) lo k j :
  lo <= j <= k -> f j <> None -> backtrack f lo k <> None.
Proof.
  induction k as [|k IH]; intros Hj Hf.
  - assert (j = 0) by lia. subst j. simpl.
    destruct (0 <? lo) eqn:E; [apply Nat.ltb_lt in E; lia|].
    now destruct (f 0).
  - simpl. destruct (S k <? lo) eqn:E; [apply Nat.ltb_lt in E; lia|].
    destruct (f (S k)) eqn:Ek; [discriminate|].
    apply IH; [|assumption].
    destruct (Nat.eq_dec j (S k)) as [->|]; [congruence|lia].
Qed.

Lemma span_ge c hi w r :
  forallb c w = true ->
  match hi with Some h => length w <= h | None => True end ->
  length w <= span c hi (w ++ r).
Proof.
  revert hi. induction w as [|x w IH]; intros hi Hw Hhi; [simpl; lia|].
  simpl in Hw. apply andb_true_iff in Hw as [Hx Hw].
  cbn [app span length]. rewrite Hx.
  destruct hi as [[|h]|]; simpl in Hhi; [lia| |].
  - apply le_n_S, IH; [assumption|simpl; lia].
  - apply le_n_S, IH; [assumption|exact I].
Qed.

Lemma matchSeq_Rep_intro cap c lo hi rest bos w r :
  forallb c w = true -> lo <= length w ->
  match hi with Some h => length w <= h | None => True end ->
  matchSeq rest (bos && (length w =? 0)) r <> None ->
  matchSeq (Rep cap c lo hi :: rest) bos (w ++ r) <> None.
Proof.
  intros Hw Hlo Hhi Hrest. cbn [matchSeq].
  apply backtrack_complete with (j := length w).
  - split; [assumption|now apply span_ge].
  - rewrite skipn_length_app.
    destruct (matchSeq rest (bos && (length w =? 0)) r) as [[caps n]|];
      [discriminate|congruence].
Qed.

(** Take a successful match apart, one atom after the other. *)
Ltac invert_seq H :=
  lazymatch type of H with
  | matchSeq (Rep _ _ _ _ :: _) _ _ = Some _ =>
      let w := fresh "w" in
      let r := fresh "r" in
      let caps := fresh "caps" in
      let n := fresh "n" in
      let Hc := fresh "Hc" in
      let Hlo := fresh "Hlo" in
      let Hhi := fresh "Hhi" in
      let Hp := fresh "Hp" in
      apply matchSeq_Rep_inv in H
        as (w & r & caps & n & -> & Hc & Hlo & Hhi & H & -> & -> & Hp);
      try rewrite Hp; clear Hp;
      invert_seq H
  | matchSeq [] _ _ = Some _ =>
      cbn [matchSeq] in H; injection H as <- <-; cbn [firstn]
  | Some _ = Some _ => injection H as <- <-; cbn [firstn]
  | matchSeq (Bol :: _) ?b _ = Some _ =>
      cbn [matchSeq] in H; destruct b eqn:?; [|discriminate H]; invert_seq H
  | matchSeq (Eol :: _) _ ?s = Some _ =>
      cbn [matchSeq] in H; destruct s eqn:?; [|discriminate H]; invert_seq H
  end.

(** A piece of one character of a known value. *)
Lemma one_chr x w :
  forallb (chr x) w = true -> 1 <= length w -> length w <= 1 -> w = [x].
Proof.
  destruct w as [|y [|z w]]; simpl; intros H H1 H2; try lia.
  rewrite andb_true_r in H. apply N.eqb_eq in H. now subst.
Qed.

(** ** Replacing and what one sees *)

Section VisibleFacts.

Variable p : pattern.
Variable t : list tok.

Hypothesis match_visible :
  forall bos s caps n,
    matchAt p bos s = Some (caps, n) ->
    visible (expand t caps) = visible (firstn n s).

Lemma Rewrites_visible bos s out :
  Rewrites p t bos s out -> visible out = visible s.
Proof.
  induction 1 as [bos Hm|bos caps n Hm|bos x s out Hm Hr IH
                 |bos x s caps out Hm Hr IH|bos x m s caps out Hm Hr IH].
  - reflexivity.
  - rewrite (match_visible _ _ Hm). now rewrite firstn_nil.
  - now rewrite !visible_cons, IH.
  - rewrite visible_app, (match_visible _ _ Hm), !visible_cons, IH.
    reflexivity.
  - rewrite visible_app, (match_visible _ _ Hm), IH.
    change (x :: m ++ s) with ((x :: m) ++ s).
    change (S (length m)) with (length (x :: m)).
    now rewrite firstn_length_app, visible_app.
Qed.

Lemma replace_visible s : visible (replace p t s) = visible s.
Proof. apply Rewrites_visible with (bos := true), replace_Rewrites. Qed.

End VisibleFacts.

Ltac pieces :=
  repeat match goal with
         | H : forallb (chr ?x) ?w = true, H1 : 1 <= length ?w,
           H2 : length ?w <= 1 |- _ =>
             pose proof (one_chr _ _ H H1 H2); subst w; clear H H1 H2
         end;
  repeat rewrite ?visible_app, ?app_nil_r;
  repeat match goal with
         | H : forallb isSpace ?w = true |- _ =>
             rewrite (visible_spaces w H); clear H
         | H : forallb (chr nl) ?w = true |- _ =>
             rewrite (@visible_spaces w)
               by (revert H; apply forallb_impl; intros ? ?; chars);
             clear H
         | H : forallb (chr cr) ?w = true |- _ =>
             rewrite (@visible_spaces w)
               by (revert H; apply forallb_impl; intros ? ?; chars);
             clear H
         | H : forallb (chr (ch " ")) ?w = true |- _ =>
             rewrite (@visible_spaces w)
               by (revert H; apply forallb_impl; intros ? ?; chars);
             clear H
         end;
  cbn [app]; try reflexivity.

Ltac vis_start H :=
  rewrite matchAt_single in H;
  cbv [group one star plus exactly atLeast] in H;
  invert_seq H; unfold_tpl.

Lemma visible_SpaceBeforePunct bos s caps n :
  matchAt rxSpaceBeforePunct bos s = Some (caps, n) ->
  visible (expand (tpl "$1") caps) = visible (firstn n s).
Proof. intros H. unfold rxSpaceBeforePunct in H. vis_start H. pieces. Qed.

Lemma visible_PunctPair bos s caps n :
  matchAt rxPunctPair bos s = Some (caps, n) ->
  visible (expand (tpl "$1 $2") caps) = visible (firstn n s).
Proof. intros H. unfold rxPunctPair in H. vis_start H. pieces. Qed.

Lemma visible_Pipe bos s caps n :
  matchAt rxPipe bos s = Some (caps, n) ->
  visible (expand (tpl " | ") caps) = visible (firstn n s).
Proof. intros H. unfold rxPipe in H. vis_start H. pieces. Qed.

Lemma visible_WordDash bos s caps n :
  matchAt rxWordDash bos s = Some (caps, n) ->
  visible (expand (tpl "$1-$2") caps) = visible (firstn n s).
Proof. intros H. unfold rxWordDash in H. vis_start H. pieces. Qed.

Lemma visible_YearDash bos s caps n :
  matchAt rxYearDash bos s = Some (caps, n) ->
  visible (expand (tpl "$1 - $2") caps) = visible (firstn n s).
Proof. intros H. unfold rxYearDash in H. vis_start H. pieces. Qed.

Lemma visible_Email bos s caps n :
  matchAt rxEmail bos s = Some (caps, n) ->
  visible (expand (tpl "$1@$2") caps) = visible (firstn n s).
Proof. intros H. unfold rxEmail in H. vis_start H. pieces. Qed.

Lemma visible_BlankLines bos s caps n :
  matchAt rxBlankLines bos s = Some (caps, n) ->
  visible (expand [Lit nl; Lit nl] caps) = visible (firstn n s).
Proof. intros H. unfold rxBlankLines in H. vis_start H. pieces. Qed.

Lemma visible_Spaces bos s caps n :
  matchAt rxSpaces bos s = Some (caps, n) ->
  visible (expand (tpl " ") caps) = visible (firstn n s).
Proof. intros H. unfold rxSpaces in H. vis_start H. pieces. Qed.

Lemma visible_LineBreak bos s caps n :
  matchAt rxLineBreak bos s = Some (caps, n) ->
  visible (expand [Lit nl] caps) = visible (firstn n s).
Proof.
  intros H. unfold rxLineBreak in H. cbn [matchAt] in H.
  destruct (matchSeq [one (chr cr); one (chr nl)] bos s) as [[caps' n']|] eqn:E.
  - injection H as <- <-. cbv [one] in E. invert_seq E. pieces.
  - clear E.
    destruct (matchSeq [one (chr cr)] bos s) as [[caps' n']|] eqn:E;
      [|discriminate].
    injection H as <- <-. cbv [one] in E. invert_seq E. pieces.
Qed.

(** Deleting the characters of a class. *)
Lemma replace_delete c s :
  replace [[one c]] [] s = filter (notC c) s.
Proof.
  unfold replace. generalize true as bos.
  induction s as [|x s IH]; intros bos; [reflexivity|].
  cbn [scan filter]. rewrite matchAt_one. unfold notC at 1.
  destruct (c x); cbn [expand flat_map app negb]; [|f_equal]; apply IH.
Qed.

Lemma visible_filter q s : visible (filter q s) = filter q (visible s).
Proof.
  unfold visible. induction s as [|x s IH]; [reflexivity|].
  cbn [filter]. destruct (q x) eqn:Eq, (isNonSpace x) eqn:Ex; cbn [filter];
    rewrite ?Eq, ?Ex, IH; reflexivity.
Qed.

Lemma visible_map (f : char -> char) s :
  (forall x, isSpace (f x) = isSpace x) ->
  visible (map f s) = map f (visible s).
Proof.
  intros Hf. induction s as [|x s IH]; [reflexivity|].
  cbn [map]. rewrite !visible_cons, Hf, IH.
  now destruct (isSpace x).
Qed.

Lemma visible_Tab s : visible (replace rxTab (tpl " ") s) = visible s.
Proof.
  unfold rxTab. change (tpl " ") with [Lit (ch " ")]. rewrite replace_class.
  induction s as [|x s IH]; [reflexivity|].
  cbn [map]. rewrite !visible_cons, IH.
  destruct (chr tab x) eqn:E; [|reflexivity].
  apply N.eqb_eq in E. subst x. reflexivity.
Qed.

Lemma relabel_isSpace x : isSpace (relabel x) = isSpace x.
Proof.
  unfold relabel. destruct (oneOf variantGlyphs x) eqn:E; [|reflexivity].
  symmetry. change (isSpace blackCircle) with false. chars.
Qed.

Lemma visible_BulletVariant s :
  visible (replace rxBulletVariant [Lit blackCircle] s)
  = map relabel (visible s).
Proof.
  unfold rxBulletVariant. rewrite replace_class.
  change (fun x => if oneOf variantGlyphs x then blackCircle else x)
    with relabel.
  apply visible_map, relabel_isSpace.
Qed.

Lemma visible_normalizeArtifacts text :
  visible (normalizeArtifacts text)
  = filter (notC isControl) (visible (replace rxPageSeparator [] text)).
Proof.
  unfold normalizeArtifacts.
  rewrite (@replace_visible rxSpaces (tpl " ") visible_Spaces), visible_Tab,
    (@replace_visible rxLineBreak [Lit nl] visible_LineBreak).
  unfold rxControl. rewrite replace_delete. apply visible_filter.
Qed.

Lemma visible_repair s : visible (repair s) = map relabel (visible s).
Proof.
  unfold repair, repairSpacing.
  rewrite visible_trim, (@replace_visible rxBlankLines [Lit nl; Lit nl] visible_BlankLines),
    visible_BulletVariant.
  rewrite (@replace_visible rxEmail (tpl "$1@$2") visible_Email), (@replace_visible rxYearDash (tpl "$1 - $2") visible_YearDash),
    (@replace_visible rxWordDash (tpl "$1-$2") visible_WordDash), (@replace_visible rxPipe (tpl " | ") visible_Pipe),
    (@replace_visible rxPunctPair (tpl "$1 $2") visible_PunctPair),
    (@replace_visible rxSpaceBeforePunct (tpl "$1") visible_SpaceBeforePunct).
  reflexivity.
Qed.

Lemma visible_cleanExtractedText text :
  visible (cleanExtractedText (Some text))
  = map relabel (visible (normalizeArtifacts text)).
Proof.
  destruct text as [|c text]; [reflexivity|].
  cbn [cleanExtractedText]. now rewrite visible_repair, visible_reconstructed.
Qed.

(** ** The result is trimmed *)

Lemma cleanExtractedText_trimmed text :
  cleanExtractedText text = [] \/ trimmedLine (cleanExtractedText text) = true.
Proof.
  destruct text as [[|c text]|]; try (now left).
  cbn [cleanExtractedText]. unfold repair.
  set (s := replace rxBlankLines _ _).
  destruct (trim s) as [|x r] eqn:E; [now left|right].
  rewrite <- E. apply trimmedLine_trim. rewrite E. simpl. lia.
Qed.

Lemma trimmedLine_visible l : trimmedLine l = true -> visible l <> [].
Proof.
  destruct l as [|x l]; [discriminate|]. unfold trimmedLine.
  intros H. apply andb_true_iff in H as [Hx _]. apply negb_true_iff in Hx.
  rewrite visible_cons, Hx. discriminate.
Qed.

Lemma cleanExtractedText_empty text :
  cleanExtractedText (Some text) = [] <-> visible (normalizeArtifacts text) = [].
Proof.
  pose proof (visible_cleanExtractedText text) as Hv. split; intros H.
  - rewrite H in Hv. symmetry in Hv. now apply map_eq_nil in Hv.
  - rewrite H in Hv. cbn [map] in Hv.
    destruct (cleanExtractedText_trimmed (Some text)) as [E|E]; [assumption|].
    now apply trimmedLine_visible in E.
Qed.

(** ** No artifact is left *)

Section CharsFacts.

Variable P : char -> bool.

Lemma split_incl sep s l : In l (split sep s) -> incl l s.
Proof.
  revert l. induction s as [|x s IH]; intros l; simpl.
  - intros [<-|[]]. apply incl_refl.
  - destruct (x =? sep)%N.
    + intros [<-|H]; [intros y []|]. now apply incl_tl, IH.
    + destruct (split sep s) as [|l' ls] eqn:E.
      * intros [<-|[]]. intros y [->|[]]. now left.
      * intros [<-|H].
        -- intros y [->|Hy]; [now left|]. right. apply (IH l'); [now left|assumption].
        -- apply incl_tl, IH. now right.
Qed.

Lemma splitLines_forallb cleaned :
  forallb P cleaned = true ->
  Forall (fun l => forallb P l = true) (splitLines cleaned).
Proof.
  intros H. unfold splitLines. apply Forall_forall. intros l Hl.
  apply filter_In in Hl as [Hl _].
  apply in_map_iff in Hl as (piece & <- & Hp).
  apply forallb_incl with (b := cleaned); [|assumption].
  eapply incl_tran; [apply trim_incl|]. eapply split_incl. eassumption.
Qed.

Hypothesis P_space : P (ch " ") = true.

Lemma mergeStep_forallb acc i line :
  Forall (fun l => forallb P l = true) acc ->
  forallb P line = true ->
  Forall (fun l => forallb P l = true) (mergeStep acc i line).
Proof.
  intros Hacc Hline. unfold mergeStep, prevLineOf.
  destruct (_ && _) eqn:E.
  - apply andb_true_iff in E as [_ E]. apply Nat.ltb_lt in E.
    apply Forall_app. split; [now apply Forall_removelast|].
    constructor; [|constructor].
    rewrite !forallb_app. cbn [forallb str]. rewrite P_space, Hline.
    rewrite andb_true_r. cbn [andb].
    apply Forall_last with (P := fun l => forallb P l = true);
      [assumption|]. destruct acc; [simpl in E; lia|discriminate].
  - apply Forall_app. split; [assumption|]. now constructor.
Qed.

Lemma mergeLoop_forallb lines : forall acc i,
  Forall (fun l => forallb P l = true) acc ->
  Forall (fun l => forallb P l = true) lines ->
  Forall (fun l => forallb P l = true) (mergeLoop acc i lines).
Proof.
  induction lines as [|l lines IH]; intros acc i Hacc Hl; simpl;
    [assumption|].
  inversion Hl; subst. apply IH; [|assumption].
  now apply mergeStep_forallb.
Qed.

Lemma join_forallb sep ls :
  forallb P sep = true ->
  Forall (fun l => forallb P l = true) ls ->
  forallb P (join sep ls) = true.
Proof.
  intros Hsep. induction 1 as [|l ls Hl Hls IH]; [reflexivity|].
  destruct ls as [|l' ls]; [exact Hl|].
  rewrite join_cons by discriminate.
  now rewrite !forallb_app, Hl, Hsep, IH.
Qed.

Lemma replace_forallb p t s :
  (forall x, In (Lit x) t -> P x = true) ->
  forallb P s = true -> forallb P (replace p t s) = true.
Proof.
  intros Ht Hs. apply forallb_forall. intros x Hx.
  apply replace_chars in Hx as [Hx|Hx]; [|now apply Ht].
  rewrite forallb_forall in Hs. now apply Hs.
Qed.

End CharsFacts.

(** The carriage returns go. *)
Lemma Rewrites_LineBreak bos s out :
  Rewrites rxLineBreak [Lit nl] bos s out ->
  forallb (notC (chr cr)) out = true.
Proof.
  induction 1 as [bos Hm|bos caps n Hm|bos x s out Hm Hr IH
                 |bos x s caps out Hm Hr IH|bos x m s caps out Hm Hr IH].
  - reflexivity.
  - reflexivity.
  - cbn [forallb]. rewrite IH, andb_true_r.
    unfold notC. destruct (chr cr x) eqn:E; [|reflexivity].
    exfalso. unfold rxLineBreak in Hm. cbn [matchAt] in Hm.
    destruct (matchSeq [one (chr cr); one (chr nl)] bos (x :: s));
      [discriminate|].
    unfold one in Hm. rewrite matchSeq_one in Hm by assumption.
    discriminate.
  - cbn [expand flat_map expandTok app forallb]. rewrite IH.
    cbn [forallb] in *.
    exfalso. unfold rxLineBreak in Hm. cbn [matchAt] in Hm.
    destruct (matchSeq [one (chr cr); one (chr nl)] bos (x :: s))
      as [[c0 n0]|] eqn:E.
    + cbv [one] in E. invert_seq E. injection Hm as _ Hn. lia.
    + destruct (matchSeq [one (chr cr)] bos (x :: s)) as [[c0 n0]|] eqn:E';
        [|discriminate].
      cbv [one] in E'. invert_seq E'. injection Hm as _ Hn. lia.
  - cbn [expand flat_map expandTok app forallb]. exact IH.
Qed.

Lemma normalizeArtifacts_clean text :
  forallb (notC isArtifact) (normalizeArtifacts text) = true.
Proof.
  unfold normalizeArtifacts.
  set (s0 := replace rxPageSeparator [] text).
  assert (H1 : forallb (notC isControl) (replace rxControl [] s0) = true).
  { unfold rxControl. rewrite replace_delete. apply forallb_forall.
    intros x Hx. now apply filter_In in Hx as [_ Hx]. }
  set (s1 := replace rxControl [] s0) in *.
  assert (H2 : forallb (fun c => notC isControl c && notC (chr cr) c)
                       (replace rxLineBreak [Lit nl] s1) = true).
  { apply forallb_forall. intros x Hx. apply andb_true_intro. split.
    - revert x Hx. apply forallb_forall.
      apply replace_forallb; [|assumption].
      intros x [[= <-]|[]]. reflexivity.
    - revert x Hx. apply forallb_forall.
      apply Rewrites_LineBreak with (bos := true) (s := s1).
      apply replace_Rewrites. }
  set (s2 := replace rxLineBreak [Lit nl] s1) in *.
  assert (H3 : forallb (notC isArtifact) (replace rxTab (tpl " ") s2) = true).
  { unfold rxTab. change (tpl " ") with [Lit (ch " ")]. rewrite replace_class.
    apply forallb_forall. intros y Hy.
    apply in_map_iff in Hy as (x & <- & Hx).
    rewrite forallb_forall in H2. specialize (H2 _ Hx).
    apply andb_true_iff in H2 as [Hc Hr].
    destruct (chr tab x) eqn:E; [reflexivity|].
    unfold notC, isArtifact in *. apply negb_true_iff in Hc, Hr.
    rewrite Hc. unfold chr in *. now rewrite E, Hr. }
  apply replace_forallb; [|assumption].
  intros x [[= <-]|[]]. reflexivity.
Qed.

Lemma cleanExtractedText_clean text :
  forallb (notC isArtifact) (cleanExtractedText text) = true.
Proof.
  destruct text as [[|c text]|]; try reflexivity.
  cbn [cleanExtractedText]. unfold repair, repairSpacing.
  apply forallb_incl with (b := replace rxBlankLines [Lit nl; Lit nl]
    (replace rxBulletVariant [Lit blackCircle]
       (replace rxEmail (tpl "$1@$2")
          (replace rxYearDash (tpl "$1 - $2")
             (replace rxWordDash (tpl "$1-$2")
                (replace rxPipe (tpl " | ")
                   (replace rxPunctPair (tpl "$1 $2")
                      (replace rxSpaceBeforePunct (tpl "$1")
                         (reconstructed (c :: text))))))))));
    [apply trim_incl|].
  repeat (apply replace_forallb;
          [intros x Hx; cbn in Hx;
           repeat destruct Hx as [Hx|Hx]; try contradiction;
           try discriminate; injection Hx as <-; reflexivity|]).
  unfold reconstructed, mergeLines.
  apply join_forallb; [reflexivity|].
  apply mergeLoop_forallb; [reflexivity|constructor|].
  apply splitLines_forallb, normalizeArtifacts_clean.
Qed.

(** ** Runs of spaces *)

Lemma spaces_matchAt bos s :
  matchAt rxSpaces bos s =
  if 2 <=? span (chr (ch " ")) None s
  then Some ([], span (chr (ch " ")) None s + 0)
  else None.
Proof.
  cbv [rxSpaces atLeast matchAt]. cbn [matchSeq].
  destruct (2 <=? span (chr (ch " ")) None s) eqn:E.
  - apply Nat.leb_le in E. erewrite backtrack_first; [reflexivity|lia|].
    reflexivity.
  - apply Nat.leb_gt in E. rewrite backtrack_below; [reflexivity|lia].
Qed.

Lemma hasDoubleSpace_cons x s :
  hasDoubleSpace (x :: s)
  = match s with
    | [] => false
    | y :: _ => ((x =? ch " ")%N && (y =? ch " ")%N) || hasDoubleSpace s
    end.
Proof. destruct s; reflexivity. Qed.

Lemma Rewrites_Spaces bos s out :
  Rewrites rxSpaces (tpl " ") bos s out ->
  hasDoubleSpace out = false
  /\ (match s with y :: _ => chr (ch " ") y = false | [] => True end ->
      match out with y :: _ => chr (ch " ") y = false | [] => True end).
Proof.
  induction 1 as [bos Hm|bos caps n Hm|bos x s out Hm Hr [IH1 IH2]
                 |bos x s caps out Hm Hr [IH1 IH2]
                 |bos x m s caps out Hm Hr [IH1 IH2]].
  - split; [reflexivity|auto].
  - rewrite spaces_matchAt in Hm. discriminate.
  - split; [|auto].
    rewrite hasDoubleSpace_cons. destruct out as [|y out]; [reflexivity|].
    rewrite IH1, orb_false_r.
    destruct (x =? ch " ")%N eqn:Ex; [|reflexivity].
    destruct (y =? ch " ")%N eqn:Ey; [|reflexivity]. exfalso.
    rewrite spaces_matchAt in Hm.
    destruct s as [|z s]; [specialize (IH2 I); unfold chr in IH2; congruence|].
    destruct (chr (ch " ") z) eqn:Ez;
      [|specialize (IH2 eq_refl); unfold chr in IH2; congruence].
    cbn [span] in Hm. unfold chr at 1 in Hm. rewrite Ex, Ez in Hm.
    discriminate.
  - rewrite spaces_matchAt in Hm.
    set (k := span (chr (ch " ")) None (x :: s)) in *.
    destruct (2 <=? k) eqn:E; [|discriminate].
    apply Nat.leb_le in E. assert (Hn : k + 0 = 0) by congruence. lia.
  - rewrite spaces_matchAt in Hm.
    set (k := span (chr (ch " ")) None (x :: m ++ s)) in *.
    destruct (2 <=? k) eqn:E; [|discriminate].
    assert (Hn : k + 0 = S (length m)) by congruence.
    assert (Hc : caps = []) by congruence. subst caps.
    rewrite Nat.add_0_r in Hn.
    pose proof (span_stop (chr (ch " ")) (x :: m ++ s)) as Hstop.
    fold k in Hstop. rewrite Hn in Hstop.
    change (x :: m ++ s) with ((x :: m) ++ s) in Hstop.
    change (S (length m)) with (length (x :: m)) in Hstop.
    rewrite skipn_length_app in Hstop.
    change (expand (tpl " ") []) with [ch " "]. cbn [app].
    specialize (IH2 Hstop). split.
    + rewrite hasDoubleSpace_cons. destruct out as [|y out]; [reflexivity|].
      rewrite IH1, orb_false_r. unfold chr in IH2. rewrite IH2.
      apply andb_false_r.
    + subst k. cbn [span] in Hn. destruct (chr (ch " ") x); discriminate.
Qed.

(** ** The line classifier *)

Lemma search_noBol p s : noBol p -> forall bos,
  search p bos s = true <->
  exists u v, s = u ++ v /\ matchAt p false v <> None.
Proof.
  intros Hp. induction s as [|x s IH]; intros bos; cbn [search];
    rewrite (matchAt_noBol Hp bos).
  - destruct (matchAt p false []) eqn:E.
    + split; [intros _|reflexivity]. exists [], []. split; [reflexivity|].
      congruence.
    + split; [discriminate|]. intros (u & v & Huv & Hm).
      symmetry in Huv. apply app_eq_nil in Huv as [-> ->]. congruence.
  - destruct (matchAt p false (x :: s)) eqn:E.
    + split; [intros _|reflexivity]. exists [], (x :: s).
      split; [reflexivity|congruence].
    + rewrite IH. split.
      * intros (u & v & -> & Hm). exists (x :: u), v. now split.
      * intros (u & v & Huv & Hm). destruct u as [|y u].
        -- cbn [app] in Huv. subst v. congruence.
        -- injection Huv as <- ->. exists u, v. now split.
Qed.

Lemma one_class (c : char -> bool) w :
  forallb c w = true -> 1 <= length w -> length w <= 1 ->
  exists x, w = [x] /\ c x = true.
Proof.
  destruct w as [|y [|z w]]; simpl; intros H H1 H2; try lia.
  rewrite andb_true_r in H. now exists y.
Qed.

Lemma nonempty_length (w : jsstring) : w <> [] <-> 1 <= length w.
Proof. destruct w; simpl; split; (congruence || lia || (intros; discriminate)). Qed.

Lemma headerColon_matchAt v :
  matchAt rxHeaderColon false v <> None <->
  exists ws, v = ch ":" :: ws /\ forallb isSpace ws = true.
Proof.
  unfold rxHeaderColon. rewrite matchAt_single. cbv [one star]. split.
  - destruct (matchSeq _ false v) as [[caps n]|] eqn:E; [intros _|congruence].
    invert_seq E.
    match goal with
    | H : forallb (chr (ch ":")) ?w = true |- _ =>
        apply one_chr in H; [subst w|assumption|assumption]
    end.
    eexists. rewrite app_nil_r. split; [reflexivity|assumption].
  - intros (ws & -> & Hws).
    apply (@matchSeq_Rep_intro false (chr (ch ":")) 1 (Some 1) _ false
                               [ch ":"] ws); [reflexivity|simpl; lia|simpl; lia|].
    rewrite <- (app_nil_r ws).
    apply matchSeq_Rep_intro; [assumption|lia|exact I|].
    cbn. discriminate.
Qed.

Lemma isCompanyLocation_spec line :
  isCompanyLocation line = true <->
  exists U name inner ws rest,
    line = U :: name ++ ch "(" :: inner ++ ch ")" :: ws ++ rest
    /\ isUpper U = true
    /\ name <> [] /\ forallb isNameChar name = true
    /\ inner <> [] /\ forallb (notC (chr (ch ")"))) inner = true
    /\ ws <> [] /\ forallb isSpace ws = true.
Proof.
  unfold isCompanyLocation, rxCompanyLocation. rewrite test_Bol.
  cbv [one plus]. split.
  - destruct (matchSeq _ true line) as [[caps n]|] eqn:E; [intros _|discriminate].
    invert_seq E.
    repeat match goal with
           | H : forallb (chr ?c) ?w = true, H1 : 1 <= length ?w,
             H2 : length ?w <= 1 |- _ =>
               pose proof (one_chr _ _ H H1 H2); subst w; clear H H1 H2
           | H : forallb isUpper ?w = true, H1 : 1 <= length ?w,
             H2 : length ?w <= 1 |- _ =>
               let x := fresh "x" in
               let Hx := fresh "Hx" in
               destruct (one_class _ _ H H1 H2) as (x & -> & Hx);
               clear H H1 H2
           end.
    match goal with
    | Hu : isUpper ?U = true, Hn : forallb isNameChar ?name = true,
      Hi : forallb (notC (chr (ch ")"))) ?inner = true,
      Hs : forallb isSpace ?ws = true |- _ =>
        exists U, name, inner, ws; eexists;
        repeat split; try eassumption;
        try (apply nonempty_length; assumption)
    end.
  - intros (U & name & inner & ws & rest & -> & HU & Hn0 & Hn & Hi0 & Hi
            & Hw0 & Hw).
    apply nonempty_length in Hn0, Hi0, Hw0.
    assert (Hne : matchSeq
                    [Rep false isUpper 1 (Some 1); Rep false isNameChar 1 None;
                     Rep false (chr (ch "(")) 1 (Some 1);
                     Rep false (notC (chr (ch ")"))) 1 None;
                     Rep false (chr (ch ")")) 1 (Some 1);
                     Rep false isSpace 1 None]
                    true ([U] ++ name ++ [ch "("] ++ inner ++ [ch ")"]
                          ++ ws ++ rest)
                  <> None).
    { apply matchSeq_Rep_intro;
        [cbn; now rewrite HU|simpl; lia|simpl; lia|].
      apply matchSeq_Rep_intro; [assumption|assumption|exact I|].
      apply matchSeq_Rep_intro; [reflexivity|simpl; lia|simpl; lia|].
      apply matchSeq_Rep_intro; [assumption|assumption|exact I|].
      apply matchSeq_Rep_intro; [reflexivity|simpl; lia|simpl; lia|].
      apply matchSeq_Rep_intro; [assumption|assumption|exact I|].
      cbn. discriminate. }
    cbn [app] in Hne.
    destruct (matchSeq _ true _); [reflexivity|congruence].
Qed.

Lemma trimmedLine_last (pre post : jsstring) :
  trimmedLine (pre ++ post) = true -> post <> [] -> visible post <> [].
Proof.
  intros Ht Hne. destruct (exists_last Hne) as (m & y & ->).
  unfold trimmedLine in Ht. destruct (pre ++ m ++ [y]) as [|x l] eqn:E;
    [discriminate|].
  apply andb_true_iff in Ht as [_ Hy]. rewrite <- E in Hy.
  rewrite app_assoc, last_last in Hy. apply negb_true_iff in Hy.
  rewrite visible_app. intros H. apply app_eq_nil in H as [_ H].
  rewrite visible_cons, Hy in H. discriminate.
Qed.

(** ** Page separators *)

Lemma matchSeq_run c lo rest bos w s caps n :
  Forall (fun a => a <> Bol) rest ->
  forallb c w = true -> lo <= length w ->
  match s with [] => True | y :: _ => c y = false end ->
  matchSeq rest false s = Some (caps, n) ->
  matchSeq (Rep false c lo None :: rest) bos (w ++ s)
  = Some (caps, length w + n).
Proof.
  intros Hrest Hw Hlo Hs Hm. cbn [matchSeq]. rewrite span_run by assumption.
  apply backtrack_first; [assumption|].
  now rewrite skipn_length_app, (matchSeq_noBol Hrest), Hm.
Qed.

Lemma head_of_app (c : char -> bool) (a r : jsstring) :
  a <> [] -> forallb (notC c) a = true ->
  match a ++ r with [] => True | y :: _ => c y = false end.
Proof.
  destruct a as [|x a]; [congruence|]. intros _ H. simpl in *.
  apply andb_true_iff in H as [H _]. now apply negb_true_iff.
Qed.

Lemma pageSeparator_matchAt bos ws1 a ws2 ws3 b ws4 post :
  forallb isSpace ws1 = true ->
  a <> [] -> forallb isDigit a = true ->
  ws2 <> [] -> forallb isSpace ws2 = true ->
  ws3 <> [] -> forallb isSpace ws3 = true ->
  b <> [] -> forallb isDigit b = true ->
  forallb isSpace ws4 = true ->
  matchAt rxPageSeparator bos
    (str "--" ++ ws1 ++ a ++ ws2 ++ str "of" ++ ws3 ++ b ++ ws4 ++ str "--"
     ++ post)
  = Some ([], length (str "--" ++ ws1 ++ a ++ ws2 ++ str "of" ++ ws3 ++ b
                      ++ ws4 ++ str "--")).
Proof.
  intros Hw1 Ha0 Ha Hw20 Hw2 Hw30 Hw3 Hb0 Hb Hw4.
  apply nonempty_length in Ha0 as Ha1, Hw20 as Hw21, Hw30 as Hw31, Hb0 as Hb1.
  assert (Hnb : forall atoms : list atom,
             Forall (fun a => a <> Bol) atoms ->
             Forall (fun a => a <> Bol) atoms) by auto.
  assert (H8 : matchSeq (lit (str "--")) false (str "--" ++ post)
               = Some ([], 2)).
  { cbv [lit str map]. cbn [app]. unfold one.
    rewrite !matchSeq_one by reflexivity. reflexivity. }
  assert (H7 : matchSeq (star isSpace :: lit (str "--")) false
                        (ws4 ++ str "--" ++ post)
               = Some ([], length ws4 + 2)).
  { apply matchSeq_run; try assumption; try lia; try reflexivity.
    repeat constructor; discriminate. }
  assert (H6 : matchSeq (plus isDigit :: star isSpace :: lit (str "--")) false
                        (b ++ ws4 ++ str "--" ++ post)
               = Some ([], length b + (length ws4 + 2))).
  { apply matchSeq_run; try assumption.
    - repeat constructor; discriminate.
    - destruct ws4 as [|z ws4]; [reflexivity|]. simpl in Hw4.
      apply andb_true_iff in Hw4 as [Hz _]. cbn [app]. revert Hz. chars. }
  assert (H5 : matchSeq (plus isSpace :: plus isDigit :: star isSpace
                         :: lit (str "--")) false
                        (ws3 ++ b ++ ws4 ++ str "--" ++ post)
               = Some ([], length ws3 + (length b + (length ws4 + 2)))).
  { apply matchSeq_run; try assumption.
    - repeat constructor; discriminate.
    - apply head_of_app; [assumption|].
      revert Hb. apply forallb_impl. intros x Hx. chars. }
  assert (H4 : matchSeq (lit (str "of") ++ plus isSpace :: plus isDigit
                         :: star isSpace :: lit (str "--")) false
                        (str "of" ++ ws3 ++ b ++ ws4 ++ str "--" ++ post)
               = Some ([], 2 + (length ws3 + (length b + (length ws4 + 2))))).
  { cbv [lit str map]. cbn [app]. unfold one at 1 2.
    rewrite !matchSeq_one by reflexivity.
    pose proof H5 as H5'. cbv [lit str map] in H5'. cbn [app] in H5'.
    rewrite H5'. reflexivity. }
  assert (H3 : matchSeq (plus isSpace :: lit (str "of") ++ plus isSpace
                         :: plus isDigit :: star isSpace :: lit (str "--"))
                        false
                        (ws2 ++ str "of" ++ ws3 ++ b ++ ws4 ++ str "--" ++ post)
               = Some ([], length ws2
                           + (2 + (length ws3 + (length b + (length ws4 + 2)))))).
  { apply matchSeq_run; try assumption; try reflexivity.
    repeat constructor; discriminate. }
  assert (H2 : matchSeq (plus isDigit :: plus isSpace :: lit (str "of")
                         ++ plus isSpace :: plus isDigit :: star isSpace
                         :: lit (str "--")) false
                        (a ++ ws2 ++ str "of" ++ ws3 ++ b ++ ws4 ++ str "--"
                         ++ post)
               = Some ([], length a + (length ws2
                           + (2 + (length ws3 + (length b + (length ws4 + 2))))))).
  { apply matchSeq_run; try assumption.
    - repeat constructor; discriminate.
    - apply head_of_app; [assumption|].
      revert Hw2. apply forallb_impl. intros x Hx. chars. }
  assert (H1 : matchSeq (star isSpace :: plus isDigit :: plus isSpace
                         :: lit (str "of") ++ plus isSpace :: plus isDigit
                         :: star isSpace :: lit (str "--")) false
                        (ws1 ++ a ++ ws2 ++ str "of" ++ ws3 ++ b ++ ws4
                         ++ str "--" ++ post)
               = Some ([], length ws1 + (length a + (length ws2
                           + (2 + (length ws3 + (length b + (length ws4 + 2)))))))).
  { apply matchSeq_run; try assumption; try lia.
    - repeat constructor; discriminate.
    - apply head_of_app; [assumption|].
      revert Ha. apply forallb_impl. intros x Hx. chars. }
  unfold rxPageSeparator. rewrite matchAt_single.
  change (lit (str "--") ++ [star isSpace; plus isDigit; plus isSpace]
          ++ lit (str "of") ++ [plus isSpace; plus isDigit; star isSpace]
          ++ lit (str "--"))
    with (one (chr (ch "-")) :: one (chr (ch "-")) :: star isSpace
          :: plus isDigit :: plus isSpace
          :: lit (str "of") ++ plus isSpace :: plus isDigit
          :: star isSpace :: lit (str "--")).
  change (str "--" ++ ws1 ++ a ++ ws2 ++ str "of" ++ ws3 ++ b ++ ws4
          ++ str "--" ++ post)
    with (ch "-" :: ch "-" :: ws1 ++ a ++ ws2 ++ str "of" ++ ws3 ++ b ++ ws4
          ++ str "--" ++ post).
  unfold one at 1 2. rewrite !matchSeq_one by reflexivity.
  rewrite H1. f_equal. f_equal.
  rewrite !length_app. simpl. lia.
Qed.

Lemma pageSeparator_prefix pre r :
  forallb (notC (chr (ch "-"))) pre = true ->
  scan rxPageSeparator [] 0 false (pre ++ r)
  = pre ++ scan rxPageSeparator [] 0 false r.
Proof.
  induction pre as [|x pre IH]; intros H; [reflexivity|].
  simpl in H. apply andb_true_iff in H as [Hx H].
  cbn [app]. rewrite scan_keep; [now rewrite IH|].
  unfold rxPageSeparator. rewrite matchAt_single.
  cbv [lit str map]. cbn [app]. unfold one at 1.
  apply matchSeq_head_fail. now apply negb_true_iff.
Qed.

Lemma pageSeparator_noBol : noBol rxPageSeparator.
Proof. repeat constructor; discriminate. Qed.

(** ** The batch *)

Lemma cleanExtractedText_noBlank text :
  hasBlankLine (cleanExtractedText text) = false.
Proof.
  destruct text as [[|c text]|]; try reflexivity.
  apply noBlankFrom_hasBlankLine with (b := false).
  unfold cleanExtractedText, repair.
  assert (H : noBlankFrom false (repairSpacing (reconstructed (c :: text)))
              = true)
    by apply repairSpacing_noBlank, reconstructed_noBlank.
  apply noBlankFrom_trim. rewrite collapse_noBlank by apply H. apply H.
Qed.

Lemma textOfOutcome_cases o :
  textOfOutcome o = [] \/ exists s, textOfOutcome o = cleanExtractedText (Some s).
Proof.
  destruct o as [result|]; [|now left]. unfold textOfOutcome.
  destruct (plainTextOf result) as [s|]; [right; now exists s|now left].
Qed.

Lemma filterPages_bad texts :
  existsb (fun t => negb (isString t)) texts = true ->
  Forall (fun t => truthy t = true \/ t = JStr []) texts ->
  filterPages texts = Thrown.
Proof.
  induction texts as [|t texts IH]; [discriminate|].
  cbn [existsb filterPages]. intros H HF. inversion HF as [|? ? Ht HF']; subst.
  destruct (isString t) eqn:Es.
  - cbn [negb orb] in H. rewrite (IH H HF').
    destruct (keepPage t); reflexivity.
  - destruct t; try discriminate; try reflexivity;
      destruct Ht as [Ht|Ht]; discriminate.
Qed.

Lemma pageText_truthy page : truthy (pageText page) = true \/ pageText page = JStr [].
Proof.
  unfold pageText. cbv zeta.
  set (text := match page with
               | JUndefined | JNull => JUndefined
               | _ => getProp "text" page
               end).
  destruct (truthy text) eqn:E; [left; exact E|now right].
Qed.

Section BatchFacts.

Variables Buffer World : Type.
Variable getText : Buffer -> World -> outcome * World.

Lemma extractOne_calls buffer e :
  calls (snd (extractOne getText buffer e))
  = calls e ++ presentBuffers [buffer].
Proof.
  destruct buffer as [b|]; cbn.
  - unfold bind, invoke, ret. destruct (getText b (world e)). reflexivity.
  - now rewrite app_nil_r.
Qed.

Lemma extractOne_text buffer e :
  fst (extractOne getText buffer e) = []
  \/ exists s, fst (extractOne getText buffer e) = cleanExtractedText (Some s).
Proof.
  destruct buffer as [b|]; cbn; [|now left].
  unfold bind, invoke, ret. destruct (getText b (world e)) as [o w]. cbn.
  apply textOfOutcome_cases.
Qed.

Lemma extract_calls buffers : forall e,
  calls (snd (extractTextFromPDFs getText buffers e))
  = calls e ++ presentBuffers buffers.
Proof.
  unfold extractTextFromPDFs.
  induction buffers as [|b buffers IH]; intros e.
  - cbn. now rewrite app_nil_r.
  - rewrite extractLoop_cons. cbn [snd]. rewrite IH, extractOne_calls.
    rewrite <- app_assoc. unfold presentBuffers. cbn [flat_map].
    now rewrite app_nil_r.
Qed.

Lemma extract_Forall (Q : jsstring -> Prop) buffers :
  Q [] -> (forall s, Q (cleanExtractedText (Some s))) ->
  forall e, Forall Q (fst (extractTextFromPDFs getText buffers e)).
Proof.
  intros Q0 Qc. unfold extractTextFromPDFs.
  induction buffers as [|b buffers IH]; intros e.
  - constructor.
  - rewrite extractLoop_cons. cbn [fst]. constructor; [|apply IH].
    destruct (extractOne_text b e) as [-> |(s & ->)]; auto.
Qed.

End BatchFacts.

(** ** Text the repair finds nothing in *)

Lemma join_head sep l ls : exists r, join sep (l :: ls) = l ++ r.
Proof.
  destruct ls as [|l' ls].
  - exists []. cbn. now rewrite app_nil_r.
  - rewrite join_cons by discriminate. eauto.
Qed.

Lemma join_trimmed ls :
  Forall (fun l => trimmedLine l = true) ls ->
  join [nl] ls = [] \/ trimmedLine (join [nl] ls) = true.
Proof.
  induction 1 as [|l ls Hl Hls IH]; [now left|]. right.
  destruct ls as [|l' ls]; [exact Hl|].
  rewrite join_cons by discriminate.
  destruct IH as [IH|IH].
  - exfalso. inversion Hls as [|? ? Hl' _]; subst.
    destruct (join_head [nl] l' ls) as (r & E). rewrite E in IH.
    destruct l'; discriminate.
  - unfold trimmedLine in *. destruct l as [|x l]; [discriminate|].
    apply andb_true_iff in Hl as [Hx _]. cbn [app]. rewrite Hx. cbn [andb].
    destruct (join [nl] (l' :: ls)) as [|y r] eqn:E; [discriminate|].
    apply andb_true_iff in IH as [_ Hy].
    change (last (x :: l ++ nl :: y :: r) x)
      with (last ((x :: l) ++ nl :: y :: r) x).
    rewrite last_app_cons.
    change (last (nl :: y :: r) x) with (last (y :: r) x).
    now rewrite (@last_default (y :: r) x y) by discriminate.
Qed.

Lemma not_trigger (c : char -> bool) s :
  (forall x, c x = true -> isRepairTrigger x = true) ->
  forallb (notC isRepairTrigger) s = true -> forallb (notC c) s = true.
Proof.
  intros Hc. apply forallb_impl. intros x Hx. unfold notC in *.
  destruct (c x) eqn:E; [|reflexivity]. now rewrite (Hc _ E) in Hx.
Qed.

Ltac trigger :=
  intros ? ?; unfold isRepairTrigger;
  repeat match goal with
         | H : ?c ?x = true |- context [?c ?x] => rewrite H
         end;
  rewrite ?orb_true_r; try reflexivity.

Lemma lack_WordDash t s :
  forallb (notC (chr (ch "-"))) s = true -> replace rxWordDash t s = s.
Proof. intros H. mandatory_class (chr (ch "-")). Qed.

Lemma lack_YearDash t s :
  forallb (notC (chr (ch "-"))) s = true -> replace rxYearDash t s = s.
Proof. intros H. mandatory_class (chr (ch "-")). Qed.

Lemma repairSpacing_plain s :
  forallb (notC isRepairTrigger) s = true -> repairSpacing s = s.
Proof.
  intros H. unfold repairSpacing.
  rewrite lack_SpaceBeforePunct by (apply not_trigger with (2 := H); trigger).
  rewrite lack_PunctPair by (apply not_trigger with (2 := H); trigger).
  rewrite lack_Pipe
    by (apply not_trigger with (2 := H); intros x Hx;
        unfold isRepairTrigger, chr in *; rewrite Hx;
        now rewrite ?orb_true_r).
  rewrite lack_WordDash
    by (apply not_trigger with (2 := H); intros x Hx;
        unfold isRepairTrigger, chr in *; rewrite Hx;
        now rewrite ?orb_true_r).
  rewrite lack_YearDash
    by (apply not_trigger with (2 := H); intros x Hx;
        unfold isRepairTrigger, chr in *; rewrite Hx;
        now rewrite ?orb_true_r).
  rewrite lack_Email
    by (apply not_trigger with (2 := H); intros x Hx;
        unfold isRepairTrigger, chr in *; rewrite Hx;
        now rewrite ?orb_true_r).
  rewrite lack_BulletVariant by (apply not_trigger with (2 := H); trigger).
  reflexivity.
Qed.

Lemma reconstructed_plain text :
  forallb (notC isRepairTrigger) text = true ->
  forallb (notC isRepairTrigger) (reconstructed text) = true.
Proof.
  intros H. unfold reconstructed, mergeLines.
  apply join_forallb; [reflexivity|].
  apply mergeLoop_forallb; [reflexivity|constructor|].
  apply splitLines_forallb. unfold normalizeArtifacts.
  repeat (apply replace_forallb;
          [intros x Hx; cbn in Hx;
           repeat destruct Hx as [Hx|Hx]; try contradiction;
           try discriminate; injection Hx as <-; reflexivity|]).
  exact H.
Qed.

(** ** The repair on simple shapes *)

(** A prefix none of whose characters can start a match is copied. *)
Lemma scan_prefix p t (c : char -> bool) u r bos :
  noBol p ->
  (forall x s, c x = true -> matchAt p false (x :: s) = None) ->
  forallb c u = true ->
  scan p t 0 bos (u ++ r) = u ++ scan p t 0 false r.
Proof.
  intros Hp Hc. revert bos. induction u as [|x u IH]; intros bos Hu.
  - cbn [app]. now apply scan_noBol.
  - cbn [forallb] in Hu. apply andb_true_iff in Hu as [Hx Hu].
    cbn [app]. rewrite scan_keep.
    + f_equal. now apply IH.
    + rewrite (matchAt_noBol Hp). now apply Hc.
Qed.

Lemma spaceBeforePunct_noBol : noBol rxSpaceBeforePunct.
Proof. repeat constructor; discriminate. Qed.

Lemma punctPair_noBol : noBol rxPunctPair.
Proof. repeat constructor; discriminate. Qed.

Lemma pipe_noBol : noBol rxPipe.
Proof. repeat constructor; discriminate. Qed.

Lemma spaceBeforePunct_solid x s :
  isSpace x = false -> matchAt rxSpaceBeforePunct false (x :: s) = None.
Proof.
  intros Hx. cbv [rxSpaceBeforePunct plus group one matchAt].
  now rewrite matchSeq_head_fail.
Qed.

Lemma punctPair_other x s :
  isPunct x = false -> matchAt rxPunctPair false (x :: s) = None.
Proof.
  intros Hx. cbv [rxPunctPair star group one matchAt].
  now rewrite matchSeq_head_fail.
Qed.

Lemma pipe_other x s :
  isSpace x = false -> chr (ch "|") x = false ->
  matchAt rxPipe false (x :: s) = None.
Proof.
  intros Hx Hp. apply (@pipe_blocked [] (x :: s)); [reflexivity|now split].
Qed.

Lemma word_not_punct x : isWord x = true -> isPunct x = false.
Proof. intros H. chars. Qed.

Lemma word_not_pipe x : isWord x = true -> chr (ch "|") x = false.
Proof. intros H. chars. Qed.

Lemma punct_not_space x : isPunct x = true -> isSpace x = false.
Proof. intros H. chars. Qed.

(** Words hold nothing a step of the repair looks for. *)
Lemma scan_word p t (c : char -> bool) v bos :
  noBol p ->
  (forall x s, c x = true -> matchAt p false (x :: s) = None) ->
  matchAt p false [] = None ->
  forallb c v = true ->
  scan p t 0 bos v = v.
Proof.
  intros Hp Hc He Hv. rewrite <- (app_nil_r v) at 1.
  rewrite (@scan_prefix p t c v [] bos Hp Hc Hv). cbn [scan]. rewrite He.
  apply app_nil_r.
Qed.

Lemma spaceBeforePunct_word v bos :
  forallb isWord v = true ->
  scan rxSpaceBeforePunct (tpl "$1") 0 bos v = v.
Proof.
  apply scan_word; [apply spaceBeforePunct_noBol| |reflexivity].
  intros x s Hx. apply spaceBeforePunct_solid. now apply word_not_space.
Qed.

(** White space before one punctuation mark. *)
Lemma spaceBeforePunct_shape u ws p v bos :
  forallb isWord u = true -> forallb isSpace ws = true ->
  isPunct p = true -> forallb isWord v = true ->
  scan rxSpaceBeforePunct (tpl "$1") 0 bos (u ++ ws ++ p :: v) = u ++ p :: v.
Proof.
  intros Hu Hws Hp Hv.
  rewrite (@scan_prefix rxSpaceBeforePunct _ isWord u _ bos
             spaceBeforePunct_noBol);
    [|intros x s Hx; apply spaceBeforePunct_solid; now apply word_not_space
     |assumption].
  f_equal. destruct ws as [|z ws].
  - cbn [app]. rewrite scan_keep
      by (apply spaceBeforePunct_solid; now apply punct_not_space).
    now rewrite spaceBeforePunct_word.
  - erewrite scan_hit_n;
      [|apply spaceBeforePunct_hit; [assumption|discriminate|assumption]
       |cbn [length]; lia].
    replace (length (z :: ws) + 1) with (length ((z :: ws) ++ [p]))
      by (rewrite length_app; reflexivity).
    replace ((z :: ws) ++ p :: v) with (((z :: ws) ++ [p]) ++ v)
      by (now rewrite <- app_assoc).
    rewrite skipn_length_app, spaceBeforePunct_word by assumption.
    reflexivity.
Qed.

Lemma punctPair_word v bos :
  forallb isWord v = true ->
  scan rxPunctPair (tpl "$1 $2") 0 bos v = v.
Proof.
  apply scan_word; [apply punctPair_noBol| |reflexivity].
  intros x s Hx. apply punctPair_other. now apply word_not_punct.
Qed.

(** One punctuation mark between words is no pair. *)
Lemma punctPair_single u p v bos :
  forallb isWord u = true -> isPunct p = true -> forallb isWord v = true ->
  scan rxPunctPair (tpl "$1 $2") 0 bos (u ++ p :: v) = u ++ p :: v.
Proof.
  intros Hu Hp Hv.
  rewrite (@scan_prefix rxPunctPair _ isWord u _ bos punctPair_noBol);
    [|intros x s Hx; apply punctPair_other; now apply word_not_punct
     |assumption].
  f_equal. rewrite scan_keep; [now rewrite punctPair_word|].
  cbv [rxPunctPair star group one matchAt].
  rewrite matchSeq_one by assumption.
  destruct v as [|y v]; [reflexivity|].
  cbn [forallb] in Hv. apply andb_true_iff in Hv as [Hy _].
  rewrite matchSeq_star_stop by now apply word_not_space.
  rewrite matchSeq_head_fail by now apply word_not_punct.
  reflexivity.
Qed.

(** Two punctuation marks in a row get one space between them. *)
Lemma punctPair_shape u p q v bos :
  forallb isWord u = true -> isPunct p = true -> isPunct q = true ->
  forallb isWord v = true ->
  scan rxPunctPair (tpl "$1 $2") 0 bos (u ++ p :: q :: v)
  = u ++ p :: ch " " :: q :: v.
Proof.
  intros Hu Hp Hq Hv.
  rewrite (@scan_prefix rxPunctPair _ isWord u _ bos punctPair_noBol);
    [|intros x s Hx; apply punctPair_other; now apply word_not_punct
     |assumption].
  f_equal.
  assert (Hm : matchAt rxPunctPair false (p :: q :: v) = Some ([[p]; [q]], 2)).
  { cbv [rxPunctPair star group one matchAt].
    rewrite matchSeq_one by assumption.
    rewrite matchSeq_star_stop by now apply punct_not_space.
    rewrite matchSeq_one by assumption. reflexivity. }
  erewrite scan_hit by exact Hm. cbn [skipn].
  now rewrite punctPair_word.
Qed.

Lemma pipe_word v bos :
  forallb isWord v = true -> scan rxPipe (tpl " | ") 0 bos v = v.
Proof.
  apply scan_word; [apply pipe_noBol| |reflexivity].
  intros x s Hx. apply pipe_other;
    [now apply word_not_space|now apply word_not_pipe].
Qed.

(** One pipe with the white space around it. *)
Lemma pipe_step ws1 ws2 r bos :
  forallb isSpace ws1 = true -> forallb isSpace ws2 = true ->
  match r with [] => True | y :: _ => isSpace y = false end ->
  scan rxPipe (tpl " | ") 0 bos (ws1 ++ ch "|" :: ws2 ++ r)
  = str " | " ++ scan rxPipe (tpl " | ") 0 false r.
Proof.
  intros H1 H2 Hr. rewrite (scan_noBol _ pipe_noBol).
  pose proof (pipe_hit ws1 ws2 r H1 H2 Hr) as Hm.
  rewrite (@scan_hit_n _ (tpl " | ") _ _ _ _ Hm) by lia.
  replace (length ws1 + (1 + (length ws2 + 0)))
    with (length (ws1 ++ ch "|" :: ws2))
    by (rewrite length_app; cbn [length]; lia).
  replace (ws1 ++ ch "|" :: ws2 ++ r) with ((ws1 ++ ch "|" :: ws2) ++ r)
    by (now rewrite <- app_assoc).
  now rewrite skipn_length_app.
Qed.

Lemma word_head v :
  forallb isWord v = true ->
  match v with [] => True | y :: _ => isSpace y = false end.
Proof.
  destruct v as [|y v]; [easy|]. cbn [forallb]. intros H.
  apply andb_true_iff in H as [Hy _]. now apply word_not_space.
Qed.

Lemma pipe_prefix u r bos :
  forallb isWord u = true ->
  scan rxPipe (tpl " | ") 0 bos (u ++ r)
  = u ++ scan rxPipe (tpl " | ") 0 false r.
Proof.
  intros Hu. apply scan_prefix with (c := isWord);
    [apply pipe_noBol| |assumption].
  intros x s Hx. apply pipe_other;
    [now apply word_not_space|now apply word_not_pipe].
Qed.

(** A pipe between words, with any white space around it. *)
Lemma pipe_shape u ws1 ws2 v :
  forallb isWord u = true -> forallb isSpace ws1 = true ->
  forallb isSpace ws2 = true -> forallb isWord v = true ->
  replace rxPipe (tpl " | ") (u ++ ws1 ++ ch "|" :: ws2 ++ v)
  = u ++ str " | " ++ v.
Proof.
  intros Hu H1 H2 Hv. unfold replace.
  rewrite pipe_prefix by assumption.
  rewrite pipe_step by (assumption || now apply word_head).
  now rewrite pipe_word.
Qed.

(** Two pipes in a row: each gets its spaces. *)
Lemma pipe_pair_shape u ws1 ws2 ws3 v :
  forallb isWord u = true -> forallb isSpace ws1 = true ->
  forallb isSpace ws2 = true -> forallb isSpace ws3 = true ->
  forallb isWord v = true ->
  replace rxPipe (tpl " | ")
          (u ++ ws1 ++ ch "|" :: ws2 ++ ch "|" :: ws3 ++ v)
  = u ++ str " |  | " ++ v.
Proof.
  intros Hu H1 H2 H3 Hv. unfold replace.
  rewrite pipe_prefix by assumption.
  rewrite pipe_step by (assumption || reflexivity).
  change (ch "|" :: ws3 ++ v) with ([] ++ ch "|" :: ws3 ++ v).
  rewrite (@pipe_step [] ws3 v false)
    by (assumption || reflexivity || now apply word_head).
  now rewrite pipe_word.
Qed.

Lemma trim_solid s :
  forallb isNonSpace s = true -> trim s = s.
Proof.
  intros H. apply trim_solid_ends. destruct s as [|x s]; [exact I|].
  rewrite forallb_forall in H. split.
  - apply negb_true_iff. apply H. now left.
  - apply negb_true_iff. apply H.
    destruct (exists_last (l := x :: s)) as (m & y & E); [discriminate|].
    rewrite E at 1. rewrite last_last. rewrite E.
    apply in_or_app. right. now left.
Qed.

Lemma trim_between a m b :
  a <> [] -> b <> [] ->
  forallb isNonSpace a = true -> forallb isNonSpace b = true ->
  trim (a ++ m ++ b) = a ++ m ++ b.
Proof.
  intros Ha Hb Wa Wb. apply trim_solid_ends.
  destruct a as [|x a]; [congruence|]. cbn [app].
  destruct (exists_last Hb) as (w & y & ->).
  cbn [forallb] in Wa. apply andb_true_iff in Wa as [Wx _].
  rewrite forallb_app in Wb. apply andb_true_iff in Wb as [_ Wy].
  cbn [forallb] in Wy. rewrite andb_true_r in Wy.
  split; [now apply negb_true_iff|].
  replace (x :: a ++ m ++ w ++ [y]) with ((x :: a ++ m ++ w) ++ [y])
    by (cbn [app]; now rewrite <- !app_assoc).
  rewrite last_last. now apply negb_true_iff.
Qed.

(** Show that a text of words, white space and single characters of
    known classes lacks a class. *)
Ltac lacking1 :=
  repeat (rewrite forallb_app || cbn [forallb str app]);
  repeat (apply andb_true_intro; split);
  first [ reflexivity
        | match goal with
          | H : forallb ?p ?u = true |- forallb (notC _) ?u = true =>
              apply (@lacks_from p); [intros ? ?; chars|exact H]
          end
        | match goal with
          | H : isPunct ?p = true |- notC _ ?p = true =>
              clear - H; chars
          end ].

Lemma word_solid u : forallb isWord u = true -> forallb isNonSpace u = true.
Proof.
  apply forallb_impl. intros x Hx. unfold isNonSpace, notC.
  now rewrite word_not_space.
Qed.

(** *** The email step *)

Lemma backtrack_from A (f : nat -> option A) lo k j r :
  lo <= j <= k -> f j = Some r ->
  (forall i, j < i <= k -> f i = None) ->
  backtrack f lo k = Some r.
Proof.
  induction k as [|k IH]; intros Hj Hf Hnone.
  - assert (j = 0) by lia. subst j. apply backtrack_first; [lia|assumption].
  - destruct (Nat.eq_dec j (S k)) as [->|Hne].
    + apply backtrack_first; [lia|assumption].
    + cbn [backtrack]. destruct (S k <? lo) eqn:E;
        [apply Nat.ltb_lt in E; lia|].
      rewrite Hnone by lia. apply IH; [lia|assumption|].
      intros i Hi. apply Hnone. lia.
Qed.

(** The longest run the rest of the pattern accepts is the one taken. *)
Lemma matchSeq_Rep_first cap c lo hi rest bos w r caps n :
  forallb c w = true -> lo <= length w ->
  match hi with Some h => length w <= h | None => True end ->
  matchSeq rest (bos && (length w =? 0)) r = Some (caps, n) ->
  (forall i, length w < i <= span c hi (w ++ r) ->
             matchSeq rest (bos && (i =? 0)) (skipn i (w ++ r)) = None) ->
  matchSeq (Rep cap c lo hi :: rest) bos (w ++ r)
  = Some (if cap then w :: caps else caps, length w + n).
Proof.
  intros Hw Hlo Hhi Hm Hnone. cbn [matchSeq].
  apply backtrack_from with (j := length w).
  - split; [assumption|now apply span_ge].
  - now rewrite skipn_length_app, firstn_length_app, Hm.
  - intros i Hi. now rewrite Hnone.
Qed.

Lemma skipn_past (i : nat) (u r : jsstring) :
  length u <= i -> skipn i (u ++ r) = skipn (i - length u) r.
Proof.
  intros H. rewrite skipn_app, skipn_all2 by assumption. reflexivity.
Qed.

Lemma In_skipn (x : char) i (l : jsstring) : In x (skipn i l) -> In x l.
Proof.
  intros H. rewrite <- (firstn_skipn i l). apply in_or_app. now right.
Qed.

Lemma matchSeq_plus_end cap c bos v :
  v <> [] -> forallb c v = true ->
  matchSeq [Rep cap c 1 None] bos v
  = Some (if cap then [v] else [], length v + 0).
Proof.
  intros Hv Hc. rewrite <- (app_nil_r v) at 1.
  apply matchSeq_Rep_first; try assumption; try exact I.
  - destruct v; [congruence|simpl; lia].
  - reflexivity.
  - intros i [Hi Hs]. pose proof (span_le c None (v ++ [])) as Hle.
    rewrite app_nil_r in Hle, Hs. lia.
Qed.

Lemma email_rest b ws1 ws2 v :
  forallb isSpace ws1 = true -> forallb isSpace ws2 = true ->
  v <> [] -> forallb isNonSpace v = true ->
  matchSeq [star isSpace; one (chr (ch "@")); star isSpace;
            group (plus isNonSpace)] b (ws1 ++ ch "@" :: ws2 ++ v)
  = Some ([v], length ws1 + S (length ws2 + (length v + 0))).
Proof.
  intros H1 H2 Hv0 Hv. cbv [star one group plus].
  erewrite matchSeq_star_run; [reflexivity|assumption|reflexivity|].
  intros b1. rewrite matchSeq_one by reflexivity.
  erewrite matchSeq_star_run; [reflexivity|assumption| |].
  - destruct v as [|y v]; [congruence|]. cbn [forallb] in Hv.
    apply andb_true_iff in Hv as [Hy _]. now apply negb_true_iff in Hy.
  - intros b2. now apply matchSeq_plus_end.
Qed.

(** Two runs of visible characters around an at sign: the first group
    takes the whole first run when what follows holds no other at sign. *)
Lemma email_match bos u ws1 ws2 v :
  u <> [] -> forallb isNonSpace u = true ->
  forallb isSpace ws1 = true -> forallb isSpace ws2 = true ->
  v <> [] -> forallb isNonSpace v = true ->
  forallb (notC (chr (ch "@"))) v = true ->
  matchAt rxEmail bos (u ++ ws1 ++ ch "@" :: ws2 ++ v)
  = Some ([u; v],
          length u + (length ws1 + S (length ws2 + (length v + 0)))).
Proof.
  intros Hu0 Hu H1 H2 Hv0 Hv Hat.
  unfold rxEmail. rewrite matchAt_single.
  change (group (plus isNonSpace) :: ?rest)
    with (Rep true isNonSpace 1 None :: rest) at 1.
  apply (@matchSeq_Rep_first true isNonSpace 1 None _ bos u _ [v]);
    try assumption; try exact I.
  - destruct u; [congruence|simpl; lia].
  - now apply email_rest.
  - intros i [Hi Hs].
    destruct ws1 as [|z ws1].
    + cbn [app] in *. rewrite skipn_past by lia.
      apply matchSeq_mandatory with (c := chr (ch "@")); [cbn; tauto|].
      intros x Hx.
      destruct (i - length u) as [|m] eqn:Em; [lia|].
      cbn [skipn] in Hx. apply In_skipn in Hx.
      apply in_app_or in Hx as [Hx|Hx].
      * rewrite forallb_forall in H2. specialize (H2 _ Hx).
        clear - H2. chars.
      * rewrite forallb_forall in Hat. specialize (Hat _ Hx).
        now apply negb_true_iff in Hat.
    + rewrite span_run in Hs; [lia|assumption|].
      cbn [app forallb] in *. apply andb_true_iff in H1 as [Hz _].
      unfold isNonSpace, notC. now rewrite Hz.
Qed.

Lemma email_shape u ws1 ws2 v :
  u <> [] -> forallb isNonSpace u = true ->
  forallb isSpace ws1 = true -> forallb isSpace ws2 = true ->
  v <> [] -> forallb isNonSpace v = true ->
  forallb (notC (chr (ch "@"))) v = true ->
  replace rxEmail (tpl "$1@$2") (u ++ ws1 ++ ch "@" :: ws2 ++ v)
  = u ++ ch "@" :: v.
Proof.
  intros Hu0 Hu H1 H2 Hv0 Hv Hat. unfold replace.
  pose proof (@email_match true u ws1 ws2 v Hu0 Hu H1 H2 Hv0 Hv Hat) as Hm.
  rewrite (@scan_hit_n _ (tpl "$1@$2") _ _ _ _ Hm)
    by (destruct u; [congruence|simpl; lia]).
  rewrite skipn_all2
    by (rewrite !length_app; cbn [length]; rewrite !length_app; lia).
  unfold_tpl. cbn [expand flat_map expandTok nth Nat.sub scan matchAt app].
  rewrite !app_nil_r. reflexivity.
Qed.

(* ================================================================= *)
(** * The repair on tokens, all steps *)

(** ** The email step on tokens *)

Lemma backtrack_split A (f : nat -> option A) lo k :
  lo <= k ->
  backtrack f lo k
  = match backtrack f (S lo) k with
    | Some r => Some r
    | None => f lo
    end.
Proof.
  induction k as [|k IH]; intros H.
  - assert (lo = 0) by lia. subst lo. cbn. now destruct (f 0).
  - destruct (Nat.eq_dec lo (S k)) as [->|Hne].
    + rewrite (@backtrack_below _ f (S (S k)) (S k)) by lia.
      cbn [backtrack]. rewrite Nat.ltb_irrefl.
      destruct (f (S k)); [reflexivity|].
      apply backtrack_below. lia.
    + cbn [backtrack].
      destruct (S k <? lo) eqn:E1; [apply Nat.ltb_lt in E1; lia|].
      destruct (S k <? S lo) eqn:E2; [apply Nat.ltb_lt in E2; lia|].
      destruct (f (S k)); [reflexivity|]. apply IH. lia.
Qed.

Lemma span_render ts : forall tail,
  gapped ts -> forallb isSpace tail = true ->
  span isNonSpace None (render ts tail) = solidLen ts.
Proof.
  induction ts as [|[g c] ts IH]; intros tail Hts Htail.
  - cbn [render solidLen]. destruct tail as [|z tail]; [reflexivity|].
    cbn [forallb] in Htail. apply andb_true_iff in Htail as [Hz _].
    apply span_head_false. unfold isNonSpace, notC. now rewrite Hz.
  - inversion Hts as [|? ? [Hg Hc] Hrest]; subst. simpl in Hg, Hc.
    cbn [render solidLen]. destruct g as [|z g]; cbn [isEmpty app].
    + cbn [span]. unfold isNonSpace at 1, notC. rewrite Hc. cbn [negb].
      now rewrite IH.
    + cbn [forallb] in Hg. apply andb_true_iff in Hg as [Hz _].
      apply span_head_false. unfold isNonSpace, notC. now rewrite Hz.
Qed.

Lemma solid_render ts : forall tail,
  firstn (solidLen ts) (render ts tail) = map snd (firstn (solidLen ts) ts)
  /\ skipn (solidLen ts) (render ts tail) = render (skipn (solidLen ts) ts) tail.
Proof.
  induction ts as [|[g c] ts IH]; intros tail; [split; reflexivity|].
  cbn [solidLen]. destruct g as [|z g]; cbn [isEmpty]; [|split; reflexivity].
  cbn [render app firstn skipn map snd]. destruct (IH tail) as [H1 H2].
  split; [now rewrite H1|exact H2].
Qed.

Lemma emailTail_noBol : Forall (fun a => a <> Bol) emailTail.
Proof. repeat constructor; discriminate. Qed.

(** The second group takes the token it starts on and all that is written
    together with it. *)
Lemma plus_at_token b d ts tail :
  gapped ts -> forallb isSpace tail = true -> isSpace d = false ->
  matchSeq [Rep true isNonSpace 1 None] b (d :: render ts tail)
  = Some ([d :: map snd (firstn (solidLen ts) ts)], S (solidLen ts) + 0).
Proof.
  intros Hts Htail Hd. cbn [matchSeq].
  assert (Hs : span isNonSpace None (d :: render ts tail) = S (solidLen ts)).
  { cbn [span]. unfold isNonSpace at 1, notC. rewrite Hd. cbn [negb].
    now rewrite span_render. }
  rewrite Hs. apply backtrack_first; [lia|].
  cbn [skipn firstn]. destruct (solid_render ts tail) as [H1 _].
  now rewrite H1.
Qed.

(** What stands behind the first group: the gap, the at sign, the gap
    behind it and a token. *)
Lemma emailTail_match b g c rest tail :
  gapped ((g, c) :: rest) -> forallb isSpace tail = true ->
  matchSeq emailTail b (g ++ c :: render rest tail)
  = if chr (ch "@") c
    then match rest with
         | [] => None
         | (g2, d) :: rest' =>
             Some ([d :: map snd (firstn (solidLen rest') rest')],
                   length g + S (length g2 + (S (solidLen rest') + 0)))
         end
    else None.
Proof.
  intros Hts Htail. inversion Hts as [|? ? [Hg Hc] Hrest]; subst.
  simpl in Hg, Hc. unfold emailTail. cbv [star one group plus].
  rewrite matchSeq_gap; try assumption.
  2:{ repeat constructor; discriminate. }
  2:{ intros z r' Hz. apply matchSeq_head_fail. clear - Hz. chars. }
  cbn [Nat.leb].
  destruct (chr (ch "@") c) eqn:Ec.
  - rewrite matchSeq_one by assumption.
    destruct rest as [|[g2 d] rest'].
    + cbn [render]. rewrite <- (app_nil_r tail).
      rewrite matchSeq_gap; try assumption; try exact I.
      * reflexivity.
      * repeat constructor; discriminate.
      * intros z r' Hz. apply matchSeq_head_fail.
        unfold isNonSpace, notC. now rewrite Hz.
    + inversion Hrest as [|? ? [Hg2 Hd] Hrest']; subst. simpl in Hg2, Hd.
      cbn [render]. rewrite matchSeq_gap; try assumption.
      * cbn [Nat.leb]. rewrite plus_at_token by assumption. reflexivity.
      * repeat constructor; discriminate.
      * intros z r' Hz. apply matchSeq_head_fail.
        unfold isNonSpace, notC. now rewrite Hz.
  - now rewrite matchSeq_head_fail.
Qed.

Lemma backtrack_one A (f : nat -> option A) k : backtrack f k k = f k.
Proof.
  destruct (f k) as [r|] eqn:E; [now apply backtrack_first|].
  apply backtrack_all_None. intros j Hj. assert (j = k) by lia. now subst.
Qed.

Lemma emailTry_app u s :
  emailTry (u ++ s) (length u)
  = match matchSeq emailTail false s with
    | Some (caps, n) => Some (u :: caps, length u + n)
    | None => None
    end.
Proof. unfold emailTry. now rewrite skipn_length_app, firstn_length_app. Qed.

Lemma skipn_email (u g : jsstring) c g2 d rest tail :
  skipn (length u + (length g + S (length g2 + (S (solidLen rest) + 0))))
        (u ++ g ++ c :: g2 ++ d :: render rest tail)
  = render (skipn (solidLen rest) rest) tail.
Proof.
  rewrite skipn_past by lia.
  replace (length u + (length g + S (length g2 + (S (solidLen rest) + 0)))
           - length u)
    with (length g + S (length g2 + S (solidLen rest))) by lia.
  rewrite skipn_past by lia.
  replace (length g + S (length g2 + S (solidLen rest)) - length g)
    with (S (length g2 + S (solidLen rest))) by lia.
  cbn [skipn]. rewrite skipn_past by lia.
  replace (length g2 + S (solidLen rest) - length g2)
    with (S (solidLen rest)) by lia.
  cbn [skipn]. now destruct (solid_render rest tail) as [_ ->].
Qed.

(** The first group gives characters back until the at sign follows. *)
Lemma email_backtrack rest : forall u tail,
  gapped rest -> forallb isSpace tail = true ->
  forallb isNonSpace u = true ->
  match emailHit rest with
  | Some q =>
      exists N,
        backtrack (emailTry (u ++ render rest tail)) (length u)
                  (span isNonSpace None (u ++ render rest tail))
        = Some ([u ++ map snd (firstn q rest);
                 map snd (firstn (S (solidLen (skipn (q + 2) rest)))
                                 (skipn (S q) rest))], N)
        /\ skipn N (u ++ render rest tail)
           = render (skipn (q + 2 + solidLen (skipn (q + 2) rest)) rest) tail
        /\ length u <= N
  | None =>
      backtrack (emailTry (u ++ render rest tail)) (length u)
                (span isNonSpace None (u ++ render rest tail))
      = None
  end.
Proof.
  induction rest as [|[g c] rest IH]; intros u tail Hts Htail Hu.
  - cbn [emailHit render].
    assert (Hs : span isNonSpace None (u ++ tail) = length u).
    { apply span_run; [assumption|]. destruct tail as [|z tail]; [exact I|].
      cbn [forallb] in Htail. apply andb_true_iff in Htail as [Hz _].
      unfold isNonSpace, notC. now rewrite Hz. }
    rewrite Hs, backtrack_one, emailTry_app.
    rewrite (@matchSeq_mandatory emailTail false tail (chr (ch "@")));
      [reflexivity|cbn; tauto|].
    intros x Hx. rewrite forallb_forall in Htail. specialize (Htail _ Hx).
    clear - Htail. chars.
  - inversion Hts as [|? ? [Hg Hc] Hrest]; subst. simpl in Hg, Hc.
    pose proof (@emailTail_match false g c rest tail Hts Htail) as Hhere.
    cbn [emailHit render].
    destruct g as [|z g]; cbn [isEmpty].
    + (* the run goes on through this token *)
      cbn [app] in *.
      assert (Hu' : forallb isNonSpace (u ++ [c]) = true).
      { rewrite forallb_app, Hu. cbn [forallb]. unfold isNonSpace, notC.
        now rewrite Hc. }
      specialize (IH (u ++ [c]) tail Hrest Htail Hu').
      rewrite <- app_assoc in IH. cbn [app] in IH.
      rewrite length_app in IH. cbn [length] in IH.
      rewrite Nat.add_1_r in IH.
      rewrite backtrack_split
        by (apply (@span_ge isNonSpace None u (c :: render rest tail));
            [assumption|exact I]).
      destruct (emailHit rest) as [q|].
      * destruct IH as (N & HN & Hskip & Hlen). exists N.
        rewrite HN. cbn [firstn map snd skipn Nat.add].
        rewrite <- app_assoc. cbn [app]. repeat split; [exact Hskip|lia].
      * rewrite IH, emailTry_app, Hhere. cbn [length Nat.add].
        destruct rest as [|[g2 d] rest']; [now destruct (chr (ch "@") c)|].
        destruct (chr (ch "@") c); [|reflexivity].
        eexists. split; [|split].
        -- cbn [firstn map snd skipn Nat.add]. rewrite app_nil_r.
           reflexivity.
        -- cbn [Nat.add skipn render].
           apply (@skipn_email u [] c g2 d rest' tail).
        -- lia.
    + (* the run ends before this token *)
      cbn [forallb] in Hg. apply andb_true_iff in Hg as [Hz Hg].
      assert (Hs : span isNonSpace None (u ++ (z :: g) ++ c :: render rest tail)
                   = length u).
      { apply span_run; [assumption|]. cbn [app].
        unfold isNonSpace, notC. now rewrite Hz. }
      rewrite Hs, backtrack_one, emailTry_app, Hhere.
      destruct rest as [|[g2 d] rest']; [now destruct (chr (ch "@") c)|].
      destruct (chr (ch "@") c); [|reflexivity].
      eexists. split; [|split].
      * cbn [firstn map snd skipn Nat.add]. rewrite app_nil_r. reflexivity.
      * cbn [Nat.add skipn render].
        apply (@skipn_email u (z :: g) c g2 d rest' tail).
      * lia.
Qed.

Lemma email_unfold s :
  matchAt rxEmail false s = backtrack (emailTry s) 1 (span isNonSpace None s).
Proof. unfold rxEmail. rewrite matchAt_single. reflexivity. Qed.

Lemma emailHit_shape rest : forall q,
  emailHit rest = Some q ->
  exists pre gq gf d post,
    rest = pre ++ (gq, ch "@") :: (gf, d) :: post
    /\ length pre = q
    /\ Forall (fun t => fst t = []) pre.
Proof.
  induction rest as [|[g c] rest IH]; intros q H; [discriminate|].
  cbn [emailHit] in H.
  assert (Hhere : match rest with
                  | _ :: _ => if chr (ch "@") c then Some 0 else None
                  | [] => None
                  end = Some q ->
                  exists pre gq gf d post,
                    (g, c) :: rest = pre ++ (gq, ch "@") :: (gf, d) :: post
                    /\ length pre = q
                    /\ Forall (fun t => fst t = []) pre).
  { destruct rest as [|[gf d] post]; [discriminate|].
    destruct (chr (ch "@") c) eqn:Ec; [|discriminate].
    intros [= <-]. apply N.eqb_eq in Ec. subst c.
    exists [], g, gf, d, post. repeat split. constructor. }
  destruct g as [|z g]; cbn [isEmpty] in H; [|now apply Hhere].
  destruct (emailHit rest) as [q'|]; [|now apply Hhere].
  injection H as <-.
  destruct (IH q' eq_refl) as (pre & gq & gf & d & post & -> & Hlen & Hpre).
  exists (([], c) :: pre), gq, gf, d, post. repeat split.
  - cbn [length]. now rewrite Hlen.
  - constructor; [reflexivity|assumption].
Qed.

Lemma render_solid pre : forall X,
  Forall (fun t : jsstring * char => fst t = []) pre ->
  render pre X = map snd pre ++ X.
Proof.
  induction pre as [|[g c] pre IH]; intros X H; [reflexivity|].
  inversion H as [|? ? Hg Hpre]; subst. simpl in Hg. subst g.
  cbn [render map snd app]. now rewrite IH.
Qed.

Lemma solidLen_firstn ts :
  Forall (fun t : jsstring * char => fst t = []) (firstn (solidLen ts) ts).
Proof.
  induction ts as [|[g c] ts IH]; [constructor|].
  cbn [solidLen]. destruct g; cbn [isEmpty firstn]; constructor; auto.
Qed.

Lemma solidLen_le ts : solidLen ts <= length ts.
Proof.
  induction ts as [|[g c] ts IH]; [reflexivity|].
  cbn [solidLen]. destruct g; cbn [isEmpty length]; lia.
Qed.

Lemma override_None n : forall m ts,
  override (repeat None n ++ m) ts = firstn n ts ++ override m (skipn n ts).
Proof.
  induction n as [|n IH]; intros m ts; [reflexivity|].
  destruct ts as [|[g c] ts]; cbn [repeat app override firstn skipn].
  - now destruct m.
  - now rewrite IH.
Qed.

Lemma override_all_None n ts : override (repeat None n) ts = ts.
Proof.
  rewrite <- (app_nil_r (repeat None n)), override_None.
  replace (override [] (skipn n ts)) with (skipn n ts)
    by (now destruct (skipn n ts)).
  apply firstn_skipn.
Qed.

Lemma winEmail_length q rest :
  length (winEmail q rest) = S (q + 2 + solidLen (skipn (q + 2) rest)).
Proof.
  unfold winEmail. rewrite !length_app, !repeat_length. cbn [length]. lia.
Qed.

(** The sweep of [hitEmail] is the email step. *)
Lemma hitEmail_spec g c ts tail :
  gapped ((g, c) :: ts) -> forallb isSpace tail = true ->
  match hitEmail ((g, c) :: ts) with
  | Some win =>
      1 <= length win <= S (length ts) /\
      exists caps k,
        matchAt rxEmail false (c :: render ts tail) = Some (caps, S k) /\
        skipn k (render ts tail)
        = render (skipn (length win) ((g, c) :: ts)) tail /\
        forall rest,
          g ++ expand (tpl "$1@$2") caps ++ rest
          = render (override win (firstn (length win) ((g, c) :: ts))) rest
  | None => matchAt rxEmail false (c :: render ts tail) = None
  end.
Proof.
  intros Hts Htail. inversion Hts as [|? ? [Hg Hc] Hrest]; subst.
  simpl in Hg, Hc.
  assert (Hu : forallb isNonSpace [c] = true)
    by (cbn [forallb]; unfold isNonSpace, notC; now rewrite Hc).
  pose proof (@email_backtrack ts [c] tail Hrest Htail Hu) as Hb.
  cbn [app length] in Hb. rewrite <- email_unfold in Hb.
  cbn [hitEmail]. destruct (emailHit ts) as [q|] eqn:Eq; [|exact Hb].
  destruct Hb as (N & HN & Hskip & HlenN).
  destruct (emailHit_shape _ Eq)
    as (pre & gq & gf & d & post & -> & Hq & Hpre).
  assert (Hsk : skipn (q + 2) (pre ++ (gq, ch "@") :: (gf, d) :: post) = post).
  { rewrite <- Hq. replace (length pre + 2) with (length (pre ++ [(gq, ch "@"); (gf, d)]))
      by (rewrite length_app; reflexivity).
    replace (pre ++ (gq, ch "@") :: (gf, d) :: post)
      with ((pre ++ [(gq, ch "@"); (gf, d)]) ++ post)
      by (now rewrite <- app_assoc).
    apply skipn_length_app. }
  rewrite Hsk in *. rewrite winEmail_length, Hsk.
  pose proof (solidLen_le post) as Hle.
  split.
  { rewrite length_app. cbn [length]. lia. }
  destruct N as [|k]; [lia|].
  exists [c :: map snd (firstn q (pre ++ (gq, ch "@") :: (gf, d) :: post));
          map snd (firstn (S (solidLen post))
                          (skipn (S q) (pre ++ (gq, ch "@") :: (gf, d) :: post)))],
    k.
  split; [exact HN|]. split.
  { cbn [skipn] in Hskip. rewrite Hskip. reflexivity. }
  intros rest.
  assert (E1 : firstn q (pre ++ (gq, ch "@") :: (gf, d) :: post) = pre)
    by (rewrite <- Hq; apply firstn_length_app).
  assert (E2 : skipn (S q) (pre ++ (gq, ch "@") :: (gf, d) :: post)
               = (gf, d) :: post).
  { rewrite <- Hq.
    replace (S (length pre)) with (length (pre ++ [(gq, ch "@")]))
      by (rewrite length_app; cbn [length]; lia).
    replace (pre ++ (gq, ch "@") :: (gf, d) :: post)
      with ((pre ++ [(gq, ch "@")]) ++ (gf, d) :: post)
      by (now rewrite <- app_assoc).
    apply skipn_length_app. }
  rewrite E1, E2. unfold_tpl. cbn [firstn map snd].
  unfold winEmail. rewrite Hsk.
  cbn [firstn]. cbn [repeat app]. cbn [override].
  rewrite override_None.
  replace (q + 2 + solidLen post) with (q + (2 + solidLen post)) by lia.
  rewrite <- Hq.
  rewrite firstn_app_2, firstn_length_app, skipn_length_app.
  cbn [app skipn Nat.add firstn override]. rewrite override_all_None.
  cbn [render]. rewrite render_app. cbn [render app].
  rewrite (render_solid _ Hpre).
  rewrite (render_solid _ (solidLen_firstn post)).
  rewrite app_nil_r. rewrite <- !app_assoc. reflexivity.
Qed.

Lemma email_on_space z r :
  isSpace z = true -> matchAt rxEmail false (z :: r) = None.
Proof.
  intros Hz. unfold rxEmail. rewrite matchAt_single. cbv [group plus].
  apply matchSeq_head_fail. unfold isNonSpace, notC. now rewrite Hz.
Qed.

Lemma email_noBol : noBol rxEmail.
Proof. repeat constructor; discriminate. Qed.

Theorem email_tokens ts tail :
  gapped ts -> forallb isSpace tail = true ->
  replace rxEmail (tpl "$1@$2") (render ts tail)
  = render (override (maskEmail ts) ts) tail.
Proof.
  intros Hts Htail. unfold replace, maskEmail.
  rewrite (scan_noBol _ email_noBol).
  apply (@scan_sweep rxEmail (tpl "$1@$2") email_on_space hitEmail
                     hitEmail_spec); try assumption; [lia|].
  intros r Hr. rewrite <- (app_nil_r r) at 1.
  rewrite (@scan_gap rxEmail (tpl "$1@$2") email_on_space) by assumption.
  cbn. apply app_nil_r.
Qed.

Lemma safe_None n : forall pd m ts,
  (forall pd', safe pd' m (skipn n ts)) -> safe pd (repeat None n ++ m) ts.
Proof.
  induction n as [|n IH]; intros pd m ts H; [apply H|].
  destruct ts as [|[g c] ts]; cbn [repeat app safe]; [exact I|].
  split; [exact I|]. apply IH. exact H.
Qed.

Lemma spaceMask_None n : spaceMask (repeat None n).
Proof. induction n; constructor; auto. Qed.

Lemma hitEmail_window ts win :
  hitEmail ts = Some win ->
  1 <= length win <= length ts
  /\ spaceMask win
  /\ forall pd, safe pd win (firstn (length win) ts).
Proof.
  destruct ts as [|[g c] ts]; [discriminate|]. cbn [hitEmail].
  destruct (emailHit ts) as [q|] eqn:Eq; [|discriminate]. intros [= <-].
  destruct (emailHit_shape _ Eq)
    as (pre & gq & gf & d & post & -> & Hq & Hpre).
  assert (Hsk : skipn (q + 2) (pre ++ (gq, ch "@") :: (gf, d) :: post) = post).
  { rewrite <- Hq.
    replace (length pre + 2) with (length (pre ++ [(gq, ch "@"); (gf, d)]))
      by (rewrite length_app; reflexivity).
    replace (pre ++ (gq, ch "@") :: (gf, d) :: post)
      with ((pre ++ [(gq, ch "@"); (gf, d)]) ++ post)
      by (now rewrite <- app_assoc).
    apply skipn_length_app. }
  rewrite winEmail_length, Hsk. pose proof (solidLen_le post) as Hle.
  split; [|split].
  - cbn [length]. rewrite length_app. cbn [length]. lia.
  - unfold winEmail. apply Forall_app. split; [apply spaceMask_None|].
    constructor; [reflexivity|]. constructor; [reflexivity|].
    apply spaceMask_None.
  - intros pd. unfold winEmail. rewrite Hsk. apply safe_None.
    intros pd'. rewrite <- Hq.
    replace (S (length pre + 2 + solidLen post))
      with (length ((g, c) :: pre) + (2 + solidLen post))
      by (cbn [length]; lia).
    change ((g, c) :: pre ++ (gq, ch "@") :: (gf, d) :: post)
      with (((g, c) :: pre) ++ (gq, ch "@") :: (gf, d) :: post).
    rewrite firstn_app_2.
    replace (S (length pre)) with (length ((g, c) :: pre)) by reflexivity.
    rewrite skipn_length_app. cbn [Nat.add firstn app safe].
    split; [apply andb_false_r|]. split; [reflexivity|].
    rewrite <- (app_nil_r (repeat None (solidLen post))).
    apply safe_None. intros pd''. now destruct (skipn _ _).
Qed.

Lemma spaceMask_maskEmail ts : spaceMask (maskEmail ts).
Proof. apply spaceMask_sweep, hitEmail_window. Qed.

Lemma safe_maskEmail ts pd : safe pd (maskEmail ts) ts.
Proof. apply safe_sweep, hitEmail_window. Qed.

Lemma gapped_spacingAll ts : gapped ts -> gapped (spacingAll ts).
Proof.
  intros H. unfold spacingAll.
  apply gapped_override; [apply spaceMask_maskEmail|].
  now apply gapped_spacingTokens.
Qed.

Lemma gapped_passAll ts : gapped ts -> gapped (passAll ts).
Proof.
  intros H. unfold passAll.
  now apply gapped_dropFirstGap, gapped_collapse, gapped_relabel,
    gapped_spacingAll.
Qed.

(** The repair, on every text, is one pass over its tokens. *)
Theorem repair_tokens_all ts tail :
  gapped ts -> forallb isSpace tail = true ->
  repair (render ts tail) = render (passAll ts) [].
Proof.
  intros Hts Htail.
  unfold repair, repairSpacing, passAll, spacingAll, spacingTokens.
  set (t1 := override (maskSpaceBeforePunct ts) ts).
  assert (G1 : gapped t1)
    by (apply gapped_override;
        [apply spaceMask_maskSpaceBeforePunct|assumption]).
  set (t2 := override (maskPunctPair t1) t1).
  assert (G2 : gapped t2)
    by (apply gapped_override;
        [apply spaceMask_sweep, punctPair_window|assumption]).
  set (t3 := override (maskPipe false t2) t2).
  assert (G3 : gapped t3)
    by (apply gapped_override; [apply spaceMask_maskPipe|assumption]).
  set (t4 := override (maskWordDash t3) t3).
  assert (G4 : gapped t4)
    by (apply gapped_override;
        [apply spaceMask_sweep, wordDash_window|assumption]).
  set (t5 := override (maskYearDash t4) t4).
  assert (G5 : gapped t5)
    by (apply gapped_override;
        [apply spaceMask_sweep, yearDash_window|assumption]).
  set (t6 := override (maskEmail t5) t5).
  assert (G6 : gapped t6)
    by (apply gapped_override; [apply spaceMask_maskEmail|assumption]).
  assert (Htail3 : forallb isSpace (tailPipe false t2 tail) = true)
    by now apply tailPipe_spaces.
  rewrite spaceBeforePunct_replace by assumption. fold t1.
  rewrite punctPair_tokens by assumption. fold t2.
  rewrite pipe_replace by assumption. fold t3.
  rewrite wordDash_tokens by assumption. fold t4.
  rewrite yearDash_tokens by assumption. fold t5.
  rewrite email_tokens by assumption. fold t6.
  rewrite bulletVariant_tokens by assumption.
  change (replace rxBlankLines [Lit nl; Lit nl] ?x) with (collapse x).
  rewrite blankLines_tokens by now apply gapped_relabel.
  rewrite trim_tokens;
    [reflexivity|now apply gapped_collapse, gapped_relabel|].
  now apply collapse_spaces.
Qed.

(** ** Texts with at most one at sign *)

Lemma atCount_cons g c ts :
  atCount ((g, c) :: ts) = (if chr (ch "@") c then 1 else 0) + atCount ts.
Proof.
  unfold atCount, atSkeleton. cbn [map snd filter].
  now destruct (chr (ch "@") c).
Qed.

Lemma atCount_app a b : atCount (a ++ b) = atCount a + atCount b.
Proof.
  unfold atCount, atSkeleton. now rewrite map_app, filter_app, length_app.
Qed.

Lemma emailHit_noAt rest : atCount rest = 0 -> emailHit rest = None.
Proof.
  induction rest as [|[g c] rest IH]; intros H; [reflexivity|].
  rewrite atCount_cons in H. cbn [emailHit].
  destruct (chr (ch "@") c); [discriminate|]. cbn [Nat.add] in H.
  rewrite (IH H). destruct rest; now destruct (isEmpty g).
Qed.

Lemma atCount_skipn n ts : atCount (skipn n ts) <= atCount ts.
Proof.
  rewrite <- (firstn_skipn n ts) at 2. rewrite atCount_app. lia.
Qed.

Lemma sweep_noAt n : forall ts,
  atCount ts = 0 -> override (sweep n hitEmail ts) ts = ts.
Proof.
  induction n as [|n IH]; intros ts H; [now destruct ts|].
  destruct ts as [|[g c] ts]; [reflexivity|].
  rewrite atCount_cons in H. cbn [sweep hitEmail].
  rewrite emailHit_noAt by lia. cbn [override]. now rewrite IH by lia.
Qed.

Lemma skelFrom_pre pre : forall gq y post,
  atCount pre = 0 ->
  skelFrom false (pre ++ (gq, ch "@") :: y :: post)
  = repeat None (length pre) ++ [Some []; Some []].
Proof.
  induction pre as [|[g c] pre IH]; intros gq y post H.
  - cbn [app skelFrom repeat length]. reflexivity.
  - rewrite atCount_cons in H. cbn [app skelFrom length repeat].
    destruct (chr (ch "@") c); [discriminate|]. now rewrite IH by lia.
Qed.

Lemma emailHit_at g y rest : emailHit ((g, ch "@") :: y :: rest) <> None.
Proof.
  cbn [emailHit]. change (chr (ch "@") (ch "@")) with true.
  destruct y as [g' c'].
  destruct (isEmpty g); [|intros H; discriminate H].
  destruct (match rest with
            | [] => None
            | _ :: _ => if chr (ch "@") c' then Some 0 else None
            end); destruct (isEmpty g');
    repeat match goal with
           | |- context [emailHit rest] => destruct (emailHit rest)
           end; intros H; discriminate H.
Qed.

Lemma override_nil ts : override [] ts = ts.
Proof. now destruct ts. Qed.

Lemma override_at_sign (pre : tokens) (m : mask) gq gf d post :
  override (repeat None (length pre) ++ Some [] :: Some [] :: m)
           (pre ++ (gq, ch "@") :: (gf, d) :: post)
  = pre ++ ([], ch "@") :: ([], d) :: override m post.
Proof.
  rewrite override_None, firstn_length_app, skipn_length_app. reflexivity.
Qed.

Lemma skipn_window (pre : tokens) x y post k :
  skipn (length pre + 2 + k) (pre ++ x :: y :: post) = skipn k post.
Proof.
  rewrite skipn_app, skipn_all2 by lia.
  replace (length pre + 2 + k - length pre) with (S (S k)) by lia.
  reflexivity.
Qed.

(** With one at sign the email step is the same on all texts that have
    the at sign in the same place. *)
Lemma maskEmail_one n : forall ts,
  length ts <= n -> atCount ts <= 1 ->
  override (sweep n hitEmail ts) ts = override (skelFrom true ts) ts.
Proof.
  induction n as [|n IH]; intros ts Hn H.
  - destruct ts; [reflexivity|simpl in Hn; lia].
  - destruct ts as [|[g c] ts]; [reflexivity|].
    rewrite atCount_cons in H. cbn [length] in Hn.
    cbn [sweep hitEmail skelFrom].
    destruct (chr (ch "@") c) eqn:Ec.
    + (* the text begins with the at sign *)
      cbn [Nat.add] in H.
      rewrite emailHit_noAt by lia. cbn [override].
      now rewrite sweep_noAt by lia.
    + cbn [Nat.add] in H.
      destruct (emailHit ts) as [q|] eqn:Eq.
      * destruct (emailHit_shape _ Eq)
          as (pre & gq & gf & d & post & -> & Hq & Hpre).
        rewrite !atCount_app in H. rewrite !atCount_cons in H.
        change (chr (ch "@") (ch "@")) with true in H. cbv iota in H.
        assert (Hd : chr (ch "@") d = false)
          by (destruct (chr (ch "@") d); [cbv iota in H; lia|reflexivity]).
        rewrite Hd in H. cbv iota in H.
        assert (Hp : atCount pre = 0) by lia.
        assert (Hpost : atCount post = 0) by lia.
        assert (Hsk : skipn (q + 2) (pre ++ (gq, ch "@") :: (gf, d) :: post)
                      = post).
        { rewrite <- Hq.
          rewrite <- (Nat.add_0_r (length pre + 2)).
          apply (skipn_window pre (gq, ch "@") (gf, d) post 0). }
        rewrite winEmail_length, Hsk. unfold winEmail. rewrite Hsk.
        subst q.
        set (sl := solidLen post).
        assert (E : skipn (S (length pre + 2 + sl))
                          ((g, c) :: pre ++ (gq, ch "@") :: (gf, d) :: post)
                    = skipn sl post)
          by (cbn [skipn]; apply skipn_window).
        rewrite E.
        change ((g, c) :: pre ++ (gq, ch "@") :: (gf, d) :: post)
          with (((g, c) :: pre) ++ (gq, ch "@") :: (gf, d) :: post).
        change (repeat None (S (length pre)))
          with (repeat (@None jsstring) (length ((g, c) :: pre))).
        rewrite <- !app_assoc.
        change ([Some []; Some []]
                ++ repeat None sl ++ sweep n hitEmail (skipn sl post))
          with (Some [] :: Some []
                :: repeat None sl ++ sweep n hitEmail (skipn sl post)).
        rewrite override_at_sign, override_None.
        rewrite sweep_noAt
          by (pose proof (atCount_skipn sl post); lia).
        rewrite firstn_skipn.
        cbn [app]. rewrite skelFrom_pre by assumption.
        change (None :: repeat None (length pre) ++ [Some []; Some []])
          with (repeat (@None jsstring) (length ((g, c) :: pre))
                ++ [Some []; Some []]).
        change ((g, c) :: pre ++ (gq, ch "@") :: (gf, d) :: post)
          with (((g, c) :: pre) ++ (gq, ch "@") :: (gf, d) :: post).
        change ([Some []; Some []]) with (Some [] :: Some [] :: @nil (option jsstring)).
        rewrite override_at_sign. now rewrite override_nil.
      * cbn [override]. f_equal. rewrite IH by lia.
        destruct ts as [|[g1 c1] ts1]; [reflexivity|].
        cbn [skelFrom]. destruct (chr (ch "@") c1) eqn:E1; [|reflexivity].
        apply N.eqb_eq in E1. subst c1.
        destruct ts1 as [|y ts1]; [reflexivity|].
        now destruct (emailHit_at g1 y ts1).
Qed.

Lemma skelFrom_skeleton a : forall first b,
  atSkeleton a = atSkeleton b -> skelFrom first a = skelFrom first b.
Proof.
  induction a as [|[g c] a IH]; intros first [|[g' c'] b] H;
    try discriminate; [reflexivity|].
  assert (Hc : chr (ch "@") c = chr (ch "@") c')
    by (unfold atSkeleton in H; cbn [map snd] in H; congruence).
  assert (Hab : atSkeleton a = atSkeleton b)
    by (unfold atSkeleton in *; cbn [map snd] in H; congruence).
  cbn [skelFrom]. rewrite <- Hc.
  destruct (chr (ch "@") c).
  - destruct first; [reflexivity|].
    destruct a, b; try discriminate; reflexivity.
  - f_equal. now apply IH.
Qed.

Lemma atSkeleton_override m ts : atSkeleton (override m ts) = atSkeleton ts.
Proof.
  unfold atSkeleton. rewrite <- !(map_map snd (chr (ch "@"))).
  now rewrite override_chars.
Qed.

Lemma relabel_at c : chr (ch "@") (relabel c) = chr (ch "@") c.
Proof.
  unfold relabel. destruct (oneOf variantGlyphs c) eqn:E; [|reflexivity].
  assert (Hc : chr (ch "@") c = false) by (clear - E; chars).
  now rewrite Hc.
Qed.

Lemma atSkeleton_relabel ts : atSkeleton (map relabelTok ts) = atSkeleton ts.
Proof.
  unfold atSkeleton. rewrite map_map. apply map_ext. intros [g c].
  apply relabel_at.
Qed.

Lemma atSkeleton_collapse ts : atSkeleton (map collapseTok ts) = atSkeleton ts.
Proof. unfold atSkeleton. rewrite map_map. reflexivity. Qed.

Lemma atSkeleton_dropFirstGap ts : atSkeleton (dropFirstGap ts) = atSkeleton ts.
Proof. now destruct ts as [|[g c] ts]. Qed.

Lemma atSkeleton_spacingTokens ts : atSkeleton (spacingTokens ts) = atSkeleton ts.
Proof. unfold spacingTokens. now rewrite !atSkeleton_override. Qed.

Lemma atSkeleton_passAll ts : atSkeleton (passAll ts) = atSkeleton ts.
Proof.
  unfold passAll, spacingAll.
  now rewrite atSkeleton_dropFirstGap, atSkeleton_collapse,
    atSkeleton_relabel, atSkeleton_override, atSkeleton_spacingTokens.
Qed.

Lemma spacingAll_sim ts : sim false ts (spacingAll ts).
Proof.
  unfold spacingAll.
  eapply sim_trans; [apply spacingTokens_sim|].
  apply override_sim, safe_maskEmail.
Qed.

Lemma passAll_sim ts : sim false ts (passAll ts).
Proof.
  unfold passAll.
  eapply sim_trans; [|apply dropFirstGap_sim].
  eapply sim_trans; [|apply collapse_sim].
  eapply sim_trans; [|apply relabel_sim].
  apply spacingAll_sim.
Qed.

(** With at most one at sign, a pass lays six masks that the kinds of
    the characters decide. *)
Lemma passAll_fixed ts :
  atCount ts <= 1 ->
  passAll ts
  = dropFirstGap (fixedAll (maskSpaceBeforePunct ts) (maskPunctPair ts)
                    (maskPipe false ts) (maskWordDash ts) (maskYearDash ts)
                    (skelFrom true ts) ts).
Proof.
  intros H. unfold passAll, spacingAll, fixedAll, maskEmail.
  rewrite maskEmail_one;
    [|reflexivity
     |unfold atCount; now rewrite atSkeleton_spacingTokens].
  rewrite (@skelFrom_skeleton (spacingTokens ts) true ts)
    by apply atSkeleton_spacingTokens.
  now rewrite spacingTokens_fixed.
Qed.

Lemma fixedAll_cons mA mB mC mD mE mF g c ts :
  fixedAll mA mB mC mD mE mF ((g, c) :: ts)
  = (collapse (pick (hd None mF) (pick (hd None mE) (pick (hd None mD)
       (pick (hd None mC) (pick (hd None mB) (pick (hd None mA) g)))))),
     relabel c)
    :: fixedAll (tl mA) (tl mB) (tl mC) (tl mD) (tl mE) (tl mF) ts.
Proof. unfold fixedAll. now rewrite !override_cons. Qed.

Lemma fixedAll_twice ts : forall mA mB mC mD mE mF,
  fixedAll mA mB mC mD mE mF (fixedAll mA mB mC mD mE mF ts)
  = fixedAll mA mB mC mD mE mF ts.
Proof.
  induction ts as [|[g c] ts IH]; intros mA mB mC mD mE mF.
  - unfold fixedAll. destruct mA, mB, mC, mD, mE, mF; reflexivity.
  - rewrite !fixedAll_cons, IH, relabel_relabel.
    destruct (hd None mA), (hd None mB), (hd None mC), (hd None mD),
      (hd None mE), (hd None mF); cbn [pick]; now rewrite ?collapse_collapse.
Qed.

Lemma dropFirstGap_fixedAll_twice mA mB mC mD mE mF ts :
  dropFirstGap (fixedAll mA mB mC mD mE mF
                  (dropFirstGap (fixedAll mA mB mC mD mE mF ts)))
  = dropFirstGap (fixedAll mA mB mC mD mE mF ts).
Proof.
  destruct ts as [|[g c] ts].
  - unfold fixedAll. destruct mA, mB, mC, mD, mE, mF; reflexivity.
  - rewrite fixedAll_cons. cbn [dropFirstGap]. rewrite fixedAll_cons.
    cbn [dropFirstGap]. now rewrite relabel_relabel, fixedAll_twice.
Qed.

(** On the tokens of a text with at most one at sign, a second pass
    changes nothing. *)
Theorem passAll_twice ts :
  atCount ts <= 1 -> passAll (passAll ts) = passAll ts.
Proof.
  intros H. pose proof (passAll_sim ts) as S.
  assert (H' : atCount (passAll ts) <= 1)
    by (unfold atCount; now rewrite atSkeleton_passAll).
  rewrite (@passAll_fixed (passAll ts) H').
  rewrite <- (maskSpaceBeforePunct_sim _ _ _ S), <- (maskPunctPair_sim _ _ _ S),
    <- (maskPipe_sim _ _ false _ S), <- (maskWordDash_sim _ _ _ S),
    <- (maskYearDash_sim _ _ _ S).
  rewrite (@skelFrom_skeleton (passAll ts) true ts)
    by apply atSkeleton_passAll.
  rewrite (@passAll_fixed ts H) at 1.
  rewrite dropFirstGap_fixedAll_twice. now rewrite <- passAll_fixed.
Qed.

Lemma atCount_render ts : forall tail,
  gapped ts -> forallb isSpace tail = true ->
  length (filter (chr (ch "@")) (render ts tail)) = atCount ts.
Proof.
  assert (Hsp : forall g, forallb isSpace g = true ->
                          filter (chr (ch "@")) g = []).
  { induction g as [|z g IH]; intros Hg; [reflexivity|].
    cbn [forallb] in Hg. apply andb_true_iff in Hg as [Hz Hg].
    cbn [filter]. assert (E : chr (ch "@") z = false) by (clear - Hz; chars).
    rewrite E. now apply IH. }
  induction ts as [|[g c] ts IH]; intros tail Hts Htail.
  - cbn [render]. now rewrite Hsp.
  - inversion Hts as [|? ? [Hg Hc] Hrest]; subst. simpl in Hg.
    cbn [render]. rewrite filter_app, (Hsp g Hg), atCount_cons.
    cbn [app filter]. destruct (chr (ch "@") c); cbn [length];
      now rewrite IH.
Qed.

(** ** Gaps a step leaves alone *)

Lemma quiet_split ok m1 : forall p m2 ts,
  length m1 <= length ts ->
  quiet ok p m1 (firstn (length m1) ts) ->
  (forall p', quiet ok p' m2 (skipn (length m1) ts)) ->
  quiet ok p (m1 ++ m2) ts.
Proof.
  induction m1 as [|e m1 IH]; intros p m2 ts Hlen H1 H2; [apply H2|].
  destruct ts as [|[g c] ts]; [simpl in Hlen; lia|].
  simpl in *. destruct H1 as [He H1]. split; [assumption|].
  apply IH; [lia|assumption|assumption].
Qed.

Lemma quiet_None ok n : forall p m ts,
  (forall p', quiet ok p' m (skipn n ts)) ->
  quiet ok p (repeat None n ++ m) ts.
Proof.
  induction n as [|n IH]; intros p m ts H; [apply H|].
  destruct ts as [|[g c] ts]; cbn [repeat app quiet]; [exact I|].
  split; [discriminate|]. apply IH. exact H.
Qed.

Lemma quiet_nth ok : forall i m ts p gx x g c,
  quiet ok p m ts ->
  nth_error ts i = Some (gx, x) -> nth_error ts (S i) = Some (g, c) ->
  ok x c = false ->
  nth (S i) m None = None.
Proof.
  induction i as [|i IH]; intros m ts p gx x g c Hq H1 H2 Hok.
  - destruct ts as [|t0 [|t1 ts]]; try discriminate.
    cbn in H1, H2. injection H1 as ->. injection H2 as ->.
    destruct m as [|e0 [|e1 m]]; try reflexivity.
    cbn [quiet] in Hq. destruct Hq as (_ & He1 & _).
    destruct e1 as [v|]; [|reflexivity].
    specialize (He1 v x eq_refl eq_refl). congruence.
  - destruct ts as [|[g0 c0] ts]; [discriminate|].
    destruct m as [|e0 m]; [reflexivity|].
    cbn [quiet] in Hq. destruct Hq as [_ Hq].
    cbn [nth]. eapply IH; eauto.
Qed.

Section QuietSweep.

Variable ok : char -> char -> bool.
Variable hit : tokens -> option mask.

Hypothesis hit_quiet :
  forall ts win, hit ts = Some win ->
    1 <= length win <= length ts
    /\ forall p, quiet ok p win (firstn (length win) ts).

Lemma quiet_sweep n : forall ts p, quiet ok p (sweep n hit ts) ts.
Proof.
  induction n as [|n IH]; intros ts p; [exact I|].
  destruct ts as [|[g c] ts]; [exact I|]. cbn [sweep].
  destruct (hit ((g, c) :: ts)) as [win|] eqn:E.
  - destruct (hit_quiet E) as (Hlen & Hwin).
    apply quiet_split; [lia|apply Hwin|intros p'; apply IH].
  - cbn [quiet]. split; [discriminate|apply IH].
Qed.

End QuietSweep.

Ltac quiet_window :=
  let H := fresh "H" in
  intros ts win; unfold hitOf;
  destruct ts as [|[? ?] ts]; [discriminate|];
  match goal with
  | |- context [tokMatch ?i ?l] =>
      destruct (tokMatch i l) as [[[? ?] ?]|] eqn:H; [|discriminate]
  end;
  intros [= <-]; shape H;
  split; [cbn [length winPunctPair winWordDash winYearDash]; lia|];
  intros p; cbn [quiet firstn length winPunctPair winWordDash winYearDash];
  repeat split; try discriminate;
  intros v x [= <-] _;
  unfold okPunct, okWordDash, okYearDash;
  repeat match goal with
         | E : ?f ?y = true |- context [?f ?y] => rewrite E
         end;
  rewrite ?orb_true_r, ?andb_true_r; try reflexivity.

Lemma punctPair_quiet ts win :
  hitOf itemsPunctPair winPunctPair ts = Some win ->
  1 <= length win <= length ts
  /\ forall p, quiet okPunct p win (firstn (length win) ts).
Proof. revert ts win. quiet_window. Qed.

Lemma wordDash_quiet ts win :
  hitOf itemsWordDash winWordDash ts = Some win ->
  1 <= length win <= length ts
  /\ forall p, quiet okWordDash p win (firstn (length win) ts).
Proof. revert ts win. quiet_window. Qed.

Lemma yearDash_quiet ts win :
  hitOf itemsYearDash winYearDash ts = Some win ->
  1 <= length win <= length ts
  /\ forall p, quiet okYearDash p win (firstn (length win) ts).
Proof.
  revert ts win. intros ts win; unfold hitOf.
  destruct ts as [|[? ?] ts]; [discriminate|].
  match goal with
  | |- context [tokMatch ?i ?l] =>
      destruct (tokMatch i l) as [[[? ?] ?]|] eqn:H; [|discriminate]
  end.
  intros [= <-]. shape H.
  split; [cbn [length winYearDash]; lia|].
  intros p. cbn [quiet firstn length winYearDash].
  repeat split; try discriminate.
  - intros v x [= <-] [= <-]. unfold okYearDash.
    repeat match goal with
           | E : ?f ?y = true |- context [?f ?y] => rewrite E
           end.
    reflexivity.
  - intros v x [= <-] _. unfold okYearDash.
    repeat match goal with
           | E : ?f ?y = true |- context [?f ?y] => rewrite E
           end.
    now rewrite orb_true_r.
Qed.

Lemma quiet_maskSpaceBeforePunct ts :
  forall p, quiet okPunct p (maskSpaceBeforePunct ts) ts.
Proof.
  induction ts as [|[g c] ts IH]; intros p; [exact I|].
  unfold maskSpaceBeforePunct in *. cbn [map snd quiet]. split; [|apply IH].
  intros v x H _. unfold okPunct.
  destruct (isPunct c); [reflexivity|discriminate].
Qed.

Lemma quiet_maskPipe ts : forall p after,
  (after = true -> exists x, p = Some x /\ chr (ch "|") x = true) ->
  quiet okPipe p (maskPipe after ts) ts.
Proof.
  induction ts as [|[g c] ts IH]; intros p after H; [exact I|].
  cbn [maskPipe]. destruct (chr (ch "|") c) eqn:E.
  - cbn [quiet]. split.
    + intros v x _ _. unfold okPipe. now rewrite E.
    + apply IH. intros _. now exists c.
  - cbn [quiet]. split.
    + intros v x Hv Hx. destruct after; [|discriminate].
      destruct (H eq_refl) as (y & Hy & Hpipe).
      assert (y = x) by congruence. subst y.
      unfold okPipe. rewrite Hpipe. apply orb_true_r.
    + apply IH. discriminate.
Qed.

Lemma quiet_maskPunctPair ts p : quiet okPunct p (maskPunctPair ts) ts.
Proof. apply quiet_sweep, punctPair_quiet. Qed.

Lemma quiet_maskWordDash ts p : quiet okWordDash p (maskWordDash ts) ts.
Proof. apply quiet_sweep, wordDash_quiet. Qed.

Lemma quiet_maskYearDash ts p : quiet okYearDash p (maskYearDash ts) ts.
Proof. apply quiet_sweep, yearDash_quiet. Qed.

Lemma hitEmail_quiet ts win :
  hitEmail ts = Some win ->
  1 <= length win <= length ts
  /\ forall p, quiet okEmail p win (firstn (length win) ts).
Proof.
  intros H. destruct (hitEmail_window _ H) as (Hlen & _ & _).
  split; [exact Hlen|]. clear Hlen.
  destruct ts as [|[g c] ts]; [discriminate|]. cbn [hitEmail] in H.
  destruct (emailHit ts) as [q|] eqn:Eq; [|discriminate].
  injection H as <-.
  destruct (emailHit_shape _ Eq)
    as (pre & gq & gf & d & post & -> & Hq & Hpre).
  assert (Hsk : skipn (q + 2) (pre ++ (gq, ch "@") :: (gf, d) :: post) = post).
  { rewrite <- Hq. rewrite <- (Nat.add_0_r (length pre + 2)).
    apply (skipn_window pre (gq, ch "@") (gf, d) post 0). }
  rewrite winEmail_length, Hsk. unfold winEmail. rewrite Hsk. subst q.
  intros p. apply quiet_None. intros p'.
  replace (S (length pre + 2 + solidLen post))
    with (length ((g, c) :: pre) + (2 + solidLen post))
    by (cbn [length]; lia).
  change ((g, c) :: pre ++ (gq, ch "@") :: (gf, d) :: post)
    with (((g, c) :: pre) ++ (gq, ch "@") :: (gf, d) :: post).
  rewrite firstn_app_2.
  replace (S (length pre)) with (length ((g, c) :: pre)) by reflexivity.
  rewrite skipn_length_app. cbn [Nat.add firstn app quiet].
  split; [intros; reflexivity|].
  split; [intros v x _ [= <-]; unfold okEmail; apply orb_true_r|].
  rewrite <- (app_nil_r (repeat None (solidLen post))).
  apply quiet_None. intros p''. now destruct (skipn _ _).
Qed.

Lemma quiet_maskEmail ts p : quiet okEmail p (maskEmail ts) ts.
Proof. apply quiet_sweep, hitEmail_quiet. Qed.

(** ** One gap through a pass *)

Lemma override_nth m : forall ts n g c,
  nth_error ts n = Some (g, c) ->
  nth_error (override m ts) n = Some (pick (nth n m None) g, c).
Proof.
  induction m as [|e m IH]; intros ts n g c H.
  - rewrite override_nil. now destruct n.
  - destruct ts as [|[g0 c0] ts]; [now destruct n|].
    destruct n as [|n]; cbn [override nth_error nth] in *.
    + now injection H as -> ->.
    + now apply IH.
Qed.

Lemma snd_spacingTokens ts : map snd (spacingTokens ts) = map snd ts.
Proof. unfold spacingTokens. now rewrite !override_chars. Qed.

Lemma snd_finish (l : tokens) :
  map snd (dropFirstGap (map collapseTok (map relabelTok l)))
  = map relabel (map snd l).
Proof.
  destruct l as [|[g c] l]; [reflexivity|]. cbn. f_equal.
  rewrite !map_map. reflexivity.
Qed.

Lemma snd_passAll ts : map snd (passAll ts) = map relabel (map snd ts).
Proof.
  unfold passAll, spacingAll.
  now rewrite snd_finish, override_chars, snd_spacingTokens.
Qed.

Lemma length_passAll ts : length (passAll ts) = length ts.
Proof.
  rewrite <- (length_map snd (passAll ts)), snd_passAll, !length_map.
  reflexivity.
Qed.

Lemma passAll_nth ts i g c :
  nth_error ts (S i) = Some (g, c) ->
  nth_error (passAll ts) (S i) = Some (gapAt ts (S i) g, relabel c).
Proof.
  intros H. unfold passAll, spacingAll, gapAt.
  rewrite spacingTokens_fixed at 2.
  set (mF := maskEmail (spacingTokens ts)).
  assert (E : nth_error
                (override mF (override (maskYearDash ts)
                   (override (maskWordDash ts) (override (maskPipe false ts)
                      (override (maskPunctPair ts)
                         (override (maskSpaceBeforePunct ts) ts))))))
                (S i)
              = Some (pick (nth (S i) mF None)
                        (pick (nth (S i) (maskYearDash ts) None)
                           (pick (nth (S i) (maskWordDash ts) None)
                              (pick (nth (S i) (maskPipe false ts) None)
                                 (pick (nth (S i) (maskPunctPair ts) None)
                                    (pick (nth (S i) (maskSpaceBeforePunct ts)
                                            None) g))))), c))
    by (now repeat apply override_nth).
  revert E. generalize (override mF (override (maskYearDash ts)
                   (override (maskWordDash ts) (override (maskPipe false ts)
                      (override (maskPunctPair ts)
                         (override (maskSpaceBeforePunct ts) ts)))))).
  intros [|[g0 c0] l] E; [discriminate|].
  cbn [nth_error] in E.
  change (nth_error (map collapseTok (map relabelTok l)) i
          = Some (collapseTok (relabelTok
              (pick (nth (S i) mF None)
                 (pick (nth (S i) (maskYearDash ts) None)
                    (pick (nth (S i) (maskWordDash ts) None)
                       (pick (nth (S i) (maskPipe false ts) None)
                          (pick (nth (S i) (maskPunctPair ts) None)
                             (pick (nth (S i) (maskSpaceBeforePunct ts)
                                     None) g))))), c)))).
  now rewrite !nth_error_map, E.
Qed.

Lemma passAll_nth_any ts n g c :
  gapped ts -> nth_error ts n = Some (g, c) ->
  exists g', nth_error (passAll ts) n = Some (g', relabel c)
             /\ forallb isSpace g' = true.
Proof.
  intros Hts H.
  assert (Hc : nth_error (map snd (passAll ts)) n = Some (relabel c)).
  { rewrite snd_passAll, map_map, nth_error_map, H. reflexivity. }
  rewrite nth_error_map in Hc.
  destruct (nth_error (passAll ts) n) as [[g' c']|] eqn:E; [|discriminate].
  injection Hc as ->. exists g'. split; [reflexivity|].
  apply nth_error_In in E. apply gapped_passAll in Hts.
  unfold gapped in Hts. rewrite Forall_forall in Hts.
  now apply Hts in E.
Qed.

Lemma passAll_head g c ts :
  exists r, passAll ((g, c) :: ts) = ([], relabel c) :: r.
Proof.
  unfold passAll.
  assert (E : map snd (spacingAll ((g, c) :: ts)) = c :: map snd ts).
  { unfold spacingAll. now rewrite override_chars, snd_spacingTokens. }
  destruct (spacingAll ((g, c) :: ts)) as [|[g0 c0] l]; [discriminate|].
  injection E as -> _. cbn. eauto.
Qed.

(** ** Cutting a list at a place *)

Lemma skipn_cut A (l : list A) : forall n t,
  nth_error l n = Some t -> skipn n l = t :: skipn (S n) l.
Proof.
  induction l as [|x l IH]; intros [|n] t H; try discriminate.
  - now injection H as ->.
  - cbn [skipn nth_error] in *. now apply IH.
Qed.

Lemma nth_error_mid A (a : list A) t b : nth_error (a ++ t :: b) (length a) = Some t.
Proof. rewrite nth_error_app2, Nat.sub_diag by lia. reflexivity. Qed.

Lemma nth_error_past A (a : list A) b k :
  nth_error (a ++ b) (k + length a) = nth_error b k.
Proof.
  rewrite nth_error_app2 by lia. f_equal. lia.
Qed.

(** ** What one sees of tokens *)

Lemma visible_render ts : forall tail,
  gapped ts -> forallb isSpace tail = true ->
  visible (render ts tail) = map snd ts.
Proof.
  induction ts as [|[g c] ts IH]; intros tail Hts Htail.
  - cbn [render map]. now apply visible_spaces.
  - inversion Hts as [|? ? [Hg Hc] Hrest]; subst. cbn [fst snd] in *.
    cbn [render map snd]. rewrite visible_app, visible_spaces by assumption.
    cbn [app]. unfold visible at 1. cbn [filter]. unfold isNonSpace, notC.
    rewrite Hc. cbn [negb]. f_equal. now apply IH.
Qed.

Lemma gapped_firstn n ts : gapped ts -> gapped (firstn n ts).
Proof. apply Forall_firstn. Qed.

Lemma gapped_app_inv a b : gapped (a ++ b) -> gapped a /\ gapped b.
Proof. apply Forall_app. Qed.

Lemma lastVisible_render a g c tail :
  gapped (a ++ [(g, c)]) -> forallb isSpace tail = true ->
  lastVisible (render (a ++ [(g, c)]) tail) = Some c.
Proof.
  intros H Ht. unfold lastVisible. rewrite visible_render by assumption.
  now rewrite map_app, rev_app_distr.
Qed.

(** ** The sweep behind a prefix *)

Section SweepReach.

Variable hit : tokens -> option mask.

Hypothesis hit_length :
  forall ts win, hit ts = Some win -> 1 <= length win <= length ts.

Lemma sweep_fuel n : forall m ts,
  length ts <= n -> length ts <= m -> sweep n hit ts = sweep m hit ts.
Proof.
  induction n as [|n IH]; intros m ts Hn Hm.
  - destruct ts; [now destruct m|simpl in Hn; lia].
  - destruct ts as [|t ts]; [now destruct m|].
    destruct m as [|m]; [simpl in Hm; lia|].
    cbn [sweep]. cbn [length] in Hn, Hm.
    destruct (hit (t :: ts)) as [win|] eqn:E.
    + apply hit_length in E. f_equal.
      apply IH; rewrite length_skipn; cbn [length] in *; lia.
    + f_equal. apply IH; lia.
Qed.

(** No match that starts in [a] reaches beyond it: the sweep then starts
    afresh behind [a]. *)
Lemma sweep_reach n : forall a ts',
  length (a ++ ts') <= n ->
  (forall k win, k < length a -> hit (skipn k (a ++ ts')) = Some win ->
                 k + length win <= length a) ->
  exists mA, length mA = length a
             /\ sweep n hit (a ++ ts') = mA ++ sweep (length ts') hit ts'.
Proof.
  induction n as [|n IH]; intros a ts' Hn Hin.
  - destruct a; [|simpl in Hn; lia]. exists []. split; [reflexivity|].
    destruct ts'; [reflexivity|simpl in Hn; lia].
  - destruct a as [|t a].
    + exists []. split; [reflexivity|]. now apply sweep_fuel.
    + cbn [app length] in Hn. cbn [app sweep].
      destruct (hit (t :: a ++ ts')) as [win|] eqn:E.
      * pose proof (hit_length E) as Hw.
        pose proof (Hin 0 win ltac:(cbn [length]; lia) E) as Hle.
        cbn [length] in Hle.
        assert (Hs : skipn (length win) (t :: a ++ ts')
                     = skipn (length win) (t :: a) ++ ts').
        { change (t :: a ++ ts') with ((t :: a) ++ ts').
          rewrite skipn_app.
          replace (length win - length (t :: a)) with 0
            by (cbn [length]; lia).
          reflexivity. }
        rewrite Hs.
        destruct (IH (skipn (length win) (t :: a)) ts') as (mA & HmA & ->).
        { rewrite length_app, length_skipn. cbn [length].
          rewrite length_app in Hn. lia. }
        { intros k w Hk Hh. rewrite length_skipn in *.
          rewrite <- Hs, skipn_skipn in Hh.
          pose proof (Hin (k + length win) w
                          ltac:(cbn [length] in *; lia) Hh).
          cbn [length] in *. lia. }
        exists (win ++ mA). split.
        -- rewrite length_app, HmA, length_skipn. cbn [length]. lia.
        -- now rewrite app_assoc.
      * destruct (IH a ts') as (mA & HmA & ->).
        { lia. }
        { intros k w Hk Hh. specialize (Hin (S k) w).
          cbn [length skipn app] in Hin. apply Hin in Hh; lia. }
        exists (None :: mA). split; [cbn [length]; lia|reflexivity].
Qed.

(** Where the sweep so reaches a match, its window lies on the mask. *)
Lemma sweep_window a ts' win k :
  (forall j w, j < length a -> hit (skipn j (a ++ ts')) = Some w ->
               j + length w <= length a) ->
  hit ts' = Some win -> k < length win ->
  nth (k + length a) (sweep (length (a ++ ts')) hit (a ++ ts')) None
  = nth k win None.
Proof.
  intros Hin Hh Hk.
  destruct (@sweep_reach (length (a ++ ts')) a ts' (le_n _) Hin)
    as (mA & HmA & ->).
  rewrite app_nth2, HmA by lia.
  replace (k + length a - length a) with k by lia.
  pose proof (hit_length Hh) as Hw.
  destruct ts' as [|t ts']; [simpl in Hw; lia|].
  cbn [length sweep]. rewrite Hh. now apply app_nth1.
Qed.

(** An entry of the mask comes from the window of a match. *)
Lemma sweep_entry n : forall ts j v,
  nth j (sweep n hit ts) None = Some v ->
  exists s w, hit (skipn s ts) = Some w
              /\ s <= j < s + length w
              /\ nth (j - s) w None = Some v.
Proof.
  induction n as [|n IH]; intros ts j v H.
  - cbn [sweep] in H. destruct j; discriminate H.
  - destruct ts as [|t ts]; [destruct j; discriminate H|].
    cbn [sweep] in H.
    destruct (hit (t :: ts)) as [win|] eqn:E.
    + destruct (Nat.lt_ge_cases j (length win)) as [Hj|Hj].
      * rewrite app_nth1 in H by assumption.
        exists 0, win. cbn [skipn]. rewrite Nat.sub_0_r.
        repeat split; [assumption|lia|lia|assumption].
      * rewrite app_nth2 in H by assumption.
        destruct (IH _ _ _ H) as (s & w & Hh & Hs & Hv).
        rewrite skipn_skipn in Hh.
        exists (s + length win), w.
        repeat split; [assumption|lia|lia|].
        now replace (j - (s + length win)) with (j - length win - s) by lia.
    + destruct j as [|j]; [discriminate H|]. cbn [nth] in H.
      destruct (IH _ _ _ H) as (s & w & Hh & Hs & Hv).
      exists (S s), w. cbn [skipn Nat.sub].
      repeat split; [assumption|lia|lia|assumption].
Qed.

End SweepReach.

(** ** Digits written together stay so *)

Lemma safe_nth : forall i m ts pd gx x g c,
  safe pd m ts ->
  nth_error ts i = Some (gx, x) -> nth_error ts (S i) = Some (g, c) ->
  isDigit x = true -> isDigit c = true ->
  nth (S i) m None = None.
Proof.
  induction i as [|i IH]; intros m ts pd gx x g c Hs H1 H2 Hx Hc.
  - destruct ts as [|t0 [|t1 ts]]; try discriminate.
    cbn in H1, H2. injection H1 as ->. injection H2 as ->.
    destruct m as [|e0 [|e1 m]]; try reflexivity.
    cbn [safe] in Hs. destruct Hs as (_ & He1 & _).
    destruct e1 as [v|]; [|reflexivity].
    cbn [nth]. rewrite Hx, Hc in He1. discriminate.
  - destruct ts as [|[g0 c0] ts]; [discriminate|].
    destruct m as [|e0 m]; [reflexivity|].
    cbn [safe] in Hs. destruct Hs as [_ Hs].
    cbn [nth]. eapply IH; eauto.
Qed.

(** ** Where a sweep finds its match *)

Section Reach.

Variable cls : list (char -> bool).
Variable hit : tokens -> option mask.

Hypothesis hit_cls : obeys cls hit.

(** A match that starts before a place cannot reach over it when the
    characters on the two sides of it do not fit two classes in a row. *)
Lemma no_crossing (a : tokens) g0 c0 b :
  (forall a0 gz z, a = a0 ++ [(gz, z)] ->
     forall k f f', nth_error cls k = Some f ->
                    nth_error cls (S k) = Some f' ->
                    f z = true -> f' c0 = false) ->
  forall j w, j < length a ->
    hit (skipn j (a ++ (g0, c0) :: b)) = Some w ->
    j + length w <= length a.
Proof.
  intros Hz j w Hj Hh. destruct (hit_cls Hh) as (Hlen & Hcls).
  destruct (Nat.le_gt_cases (j + length w) (length a)) as [|Hgt];
    [assumption|exfalso].
  assert (Hne : a <> []) by (intros ->; simpl in Hj; lia).
  destruct (exists_last Hne) as (a0 & [gz z] & ->).
  rewrite length_app in *. cbn [length] in *.
  set (k := length a0 - j).
  destruct (nth_error cls k) as [f|] eqn:Ef;
    [|apply nth_error_None in Ef; lia].
  destruct (nth_error cls (S k)) as [f'|] eqn:Ef';
    [|apply nth_error_None in Ef'; lia].
  destruct (Hcls _ _ Ef) as (g & c & Hn & Hc).
  destruct (Hcls _ _ Ef') as (g' & c' & Hn' & Hc').
  rewrite nth_error_skipn in Hn, Hn'.
  replace (j + k) with (length a0) in Hn by lia.
  replace (j + S k) with (0 + length (a0 ++ [(gz, z)])) in Hn'
    by (rewrite length_app; cbn [length]; lia).
  rewrite <- app_assoc in Hn. cbn [app] in Hn.
  rewrite nth_error_mid in Hn. rewrite nth_error_past in Hn'.
  cbn [nth_error] in Hn'.
  injection Hn as <- <-. injection Hn' as <- <-.
  rewrite (Hz a0 gz z eq_refl k f f' Ef Ef' Hc) in Hc'. discriminate.
Qed.

End Reach.

Ltac obeying :=
  let H := fresh "H" in
  intros ts w; unfold hitOf;
  destruct ts as [|[? ?] ts]; [discriminate|];
  match goal with
  | |- context [tokMatch ?i ?l] =>
      destruct (tokMatch i l) as [[[? ?] ?]|] eqn:H; [|discriminate]
  end;
  intros [= <-]; shape H;
  split; [reflexivity|];
  let k := fresh "k" in
  let f := fresh "f" in
  let Hk := fresh "Hk" in
  intros k f Hk;
  unfold clsPunctPair, clsWordDash, clsYearDash in Hk;
  do 9 (try (destruct k as [|k];
             [cbn in Hk;
              first [ discriminate Hk
                    | injection Hk as <-; do 2 eexists;
                      split; [reflexivity|assumption] ]|]));
  cbn in Hk; destruct k; discriminate Hk.

Lemma punctPair_obeys :
  obeys clsPunctPair (hitOf itemsPunctPair winPunctPair).
Proof. obeying. Qed.

Lemma wordDash_obeys :
  obeys clsWordDash (hitOf itemsWordDash winWordDash).
Proof. obeying. Qed.

Lemma yearDash_obeys :
  obeys clsYearDash (hitOf itemsYearDash winYearDash).
Proof. obeying. Qed.

Lemma punctPair_length ts win :
  hitOf itemsPunctPair winPunctPair ts = Some win ->
  1 <= length win <= length ts.
Proof. intros H. now apply punctPair_window in H. Qed.

Lemma wordDash_length ts win :
  hitOf itemsWordDash winWordDash ts = Some win ->
  1 <= length win <= length ts.
Proof. intros H. now apply wordDash_window in H. Qed.

Lemma yearDash_length ts win :
  hitOf itemsYearDash winYearDash ts = Some win ->
  1 <= length win <= length ts.
Proof. intros H. now apply yearDash_window in H. Qed.

(** ** The gaps a step leaves alone, by place *)

Lemma nth_error_chars (ts ts' : tokens) i g c :
  map snd ts = map snd ts' -> nth_error ts i = Some (g, c) ->
  exists g', nth_error ts' i = Some (g', c).
Proof.
  intros E H.
  assert (H' : nth_error (map snd ts') i = Some c)
    by (rewrite <- E, nth_error_map, H; reflexivity).
  rewrite nth_error_map in H'.
  destruct (nth_error ts' i) as [[g' c']|]; [|discriminate].
  injection H' as ->. eauto.
Qed.

Section GapFacts.

Variables (ts : tokens) (i : nat) (gx : jsstring) (x : char).
Variables (g : jsstring) (c : char).

Hypothesis Hx : nth_error ts i = Some (gx, x).
Hypothesis Hc : nth_error ts (S i) = Some (g, c).

Lemma spaceBeforePunct_off :
  isPunct c = false -> nth (S i) (maskSpaceBeforePunct ts) None = None.
Proof.
  intros H.
  exact (@quiet_nth okPunct i _ _ _ _ _ _ _ (quiet_maskSpaceBeforePunct ts None) Hx Hc H).
Qed.

Lemma punctPair_off :
  isPunct c = false -> nth (S i) (maskPunctPair ts) None = None.
Proof.
  intros H.
  exact (@quiet_nth okPunct i _ _ _ _ _ _ _ (quiet_maskPunctPair ts None) Hx Hc H).
Qed.

Lemma pipe_off :
  okPipe x c = false -> nth (S i) (maskPipe false ts) None = None.
Proof.
  intros H.
  refine (@quiet_nth okPipe i _ _ _ _ _ _ _ (@quiet_maskPipe ts None false _) Hx Hc H).
  discriminate.
Qed.

Lemma wordDash_off :
  okWordDash x c = false -> nth (S i) (maskWordDash ts) None = None.
Proof.
  intros H.
  exact (@quiet_nth okWordDash i _ _ _ _ _ _ _ (quiet_maskWordDash ts None) Hx Hc H).
Qed.

Lemma wordDash_digits :
  isDigit x = true -> isDigit c = true ->
  nth (S i) (maskWordDash ts) None = None.
Proof.
  intros H1 H2.
  refine (@safe_nth i _ ts false gx x g c _ Hx Hc H1 H2).
  apply safe_sweep. apply wordDash_window.
Qed.

Lemma yearDash_off :
  okYearDash x c = false -> nth (S i) (maskYearDash ts) None = None.
Proof.
  intros H.
  exact (@quiet_nth okYearDash i _ _ _ _ _ _ _ (quiet_maskYearDash ts None) Hx Hc H).
Qed.

Lemma email_off :
  okEmail x c = false ->
  nth (S i) (maskEmail (spacingTokens ts)) None = None.
Proof.
  intros H.
  destruct (@nth_error_chars ts (spacingTokens ts) i gx x
              (eq_sym (snd_spacingTokens ts)) Hx) as (gx' & Hx').
  destruct (@nth_error_chars ts (spacingTokens ts) (S i) g c
              (eq_sym (snd_spacingTokens ts)) Hc) as (g' & Hc').
  exact (@quiet_nth okEmail i _ _ _ _ _ _ _ (quiet_maskEmail (spacingTokens ts) None)
           Hx' Hc' H).
Qed.

(** A gap no step touches has its runs of newlines collapsed, no more. *)
Lemma gapAt_off :
  isPunct c = false -> okPipe x c = false -> okWordDash x c = false ->
  okYearDash x c = false -> okEmail x c = false ->
  gapAt ts (S i) g = collapse g.
Proof.
  intros H1 H2 H3 H4 H5. unfold gapAt.
  now rewrite spaceBeforePunct_off, punctPair_off, pipe_off, wordDash_off,
    yearDash_off, email_off.
Qed.

End GapFacts.

(** ** The gaps a match closes or sets *)

Lemma some_inj A (x y : A) : Some x = Some y -> x = y.
Proof. congruence. Qed.

Lemma punctPair_on (a : tokens) g0 p g1 q b :
  isPunct p = true -> isPunct q = true ->
  (forall a0 gz z, a = a0 ++ [(gz, z)] -> isPunct z = false) ->
  nth (S (length a)) (maskPunctPair (a ++ (g0, p) :: (g1, q) :: b)) None
  = Some (str " ").
Proof.
  intros Hp Hq Hz. unfold maskPunctPair.
  refine (@sweep_window _ punctPair_length a _ winPunctPair 1 _ _ _).
  - apply (no_crossing punctPair_obeys). intros a0 gz z E k f f' Hf Hf' Hfz.
    specialize (Hz _ _ _ E).
    destruct k as [|[|k]]; cbn [nth_error clsPunctPair] in Hf, Hf';
      try discriminate;
      apply some_inj in Hf; subst f; congruence.
  - unfold hitOf.
    cbn [tokMatch itemsPunctPair tightRun isEmpty skipn firstn andb].
    now rewrite Hp, Hq.
  - cbn; lia.
Qed.

Lemma wordDash_on (a : tokens) g0 x g1 g2 y b :
  isWord x = true -> isWord y = true ->
  (forall a0 gz z, a = a0 ++ [(gz, z)] -> chr (ch "-") z = false) ->
  nth (S (length a))
      (maskWordDash (a ++ (g0, x) :: (g1, ch "-") :: (g2, y) :: b)) None
  = Some []
  /\ nth (S (S (length a)))
         (maskWordDash (a ++ (g0, x) :: (g1, ch "-") :: (g2, y) :: b)) None
     = Some [].
Proof.
  intros Hx Hy Hz. unfold maskWordDash.
  assert (Hin : forall j w, j < length a ->
            hitOf itemsWordDash winWordDash
              (skipn j (a ++ (g0, x) :: (g1, ch "-") :: (g2, y) :: b))
            = Some w -> j + length w <= length a).
  { apply (no_crossing wordDash_obeys). intros a0 gz z E k f f' Hf Hf' Hfz.
    specialize (Hz _ _ _ E).
    destruct k as [|[|[|k]]]; cbn [nth_error clsWordDash] in Hf, Hf';
      try discriminate;
      apply some_inj in Hf; apply some_inj in Hf'; subst f f';
      [chars|congruence]. }
  assert (Hh : hitOf itemsWordDash winWordDash
                 ((g0, x) :: (g1, ch "-") :: (g2, y) :: b)
               = Some winWordDash).
  { unfold hitOf.
    cbn [tokMatch itemsWordDash tightRun isEmpty skipn firstn andb].
    rewrite Hx, Hy. change (chr (ch "-") (ch "-")) with true. reflexivity. }
  split.
  - refine (@sweep_window _ wordDash_length a _ winWordDash 1 Hin Hh _).
    cbn; lia.
  - refine (@sweep_window _ wordDash_length a _ winWordDash 2 Hin Hh _).
    cbn; lia.
Qed.

Lemma yearDash_on (a : tokens) g0 d0 d1 d2 d3 g4 g5 e0 e1 e2 e3 b k :
  forallb isDigit [d0; d1; d2; d3; e0; e1; e2; e3] = true ->
  (forall a0 gz z, a = a0 ++ [(gz, z)] ->
     isDigit z = false /\ chr (ch "-") z = false) ->
  k < 9 ->
  nth (k + length a)
      (maskYearDash
         (a ++ (g0, d0) :: ([], d1) :: ([], d2) :: ([], d3) :: (g4, ch "-")
            :: (g5, e0) :: ([], e1) :: ([], e2) :: ([], e3) :: b)) None
  = nth k winYearDash None.
Proof.
  intros Hd Hz Hk. unfold maskYearDash.
  refine (@sweep_window _ yearDash_length a _ winYearDash k _ _ Hk).
  - apply (no_crossing yearDash_obeys). intros a0 gz z E j f f' Hf Hf' Hfz.
    destruct (Hz _ _ _ E) as [Hz1 Hz2].
    do 9 (try (destruct j as [|j];
               [cbn [nth_error clsYearDash] in Hf, Hf';
                first [ discriminate Hf'
                      | apply some_inj in Hf; subst f; congruence ]|])).
    cbn in Hf. destruct j; discriminate Hf.
  - unfold hitOf. cbn [forallb] in Hd. split_andb.
    cbn [tokMatch itemsYearDash tightRun isEmpty skipn firstn andb].
    repeat match goal with
           | E : isDigit ?y = true |- context [isDigit ?y] => rewrite E
           end.
    change (chr (ch "-") (ch "-")) with true. reflexivity.
Qed.

(** ** A window of tokens through the repair *)

Lemma passAll_skipn ts : forall mid n b,
  skipn (S n) ts = mid ++ b ->
  skipn (S n) (passAll ts)
  = gapsFrom ts (S n) mid ++ skipn (S n + length mid) (passAll ts).
Proof.
  induction mid as [|[g c] mid IH]; intros n b H.
  - cbn [gapsFrom app length]. now rewrite Nat.add_0_r.
  - assert (Hn : nth_error ts (S n) = Some (g, c)).
    { rewrite <- (Nat.add_0_r (S n)), <- nth_error_skipn, H. reflexivity. }
    rewrite (skipn_cut _ _ (passAll_nth _ _ Hn)). cbn [gapsFrom app].
    f_equal. rewrite (IH (S n) b).
    + do 2 f_equal. cbn [length]. lia.
    + change (S (S n)) with (1 + S n). rewrite <- skipn_skipn, H.
      reflexivity.
Qed.

Lemma repair_window a tA c0 mid b tB :
  gapped a -> forallb isSpace tA = true -> isSpace c0 = false ->
  gapped mid -> gapped b -> forallb isSpace tB = true ->
  exists A' B',
    repair (render a tA ++ c0 :: render mid (render b tB))
    = A' ++ relabel c0
         :: render (gapsFrom (a ++ (tA, c0) :: mid ++ b) (S (length a)) mid)
              B'
    /\ visible A' = map relabel (map snd a)
    /\ visible B' = map relabel (map snd b)
    /\ (a = [] -> A' = []).
Proof.
  intros Ha HtA Hc0 Hmid Hb HtB.
  set (ts := a ++ (tA, c0) :: mid ++ b).
  assert (Hts : gapped ts).
  { unfold ts, gapped. apply Forall_app. split; [exact Ha|].
    constructor; [now split|]. apply Forall_app. now split. }
  assert (E : render a tA ++ c0 :: render mid (render b tB) = render ts tB).
  { unfold ts. rewrite render_app. cbn [render]. rewrite render_app.
    rewrite (render_tail a (tA ++ _)), (render_tail a tA), <- app_assoc.
    reflexivity. }
  rewrite E, repair_tokens_all by assumption.
  pose proof (gapped_passAll Hts) as HP.
  pose proof (snd_passAll ts) as Hsnd.
  destruct (@passAll_nth_any ts (length a) tA c0 Hts)
    as (g' & Hg' & Hsp); [apply nth_error_mid|].
  assert (Hcut : passAll ts
                 = firstn (length a) (passAll ts)
                   ++ (g', relabel c0)
                   :: gapsFrom ts (S (length a)) mid
                   ++ skipn (S (length a) + length mid) (passAll ts)).
  { rewrite <- (firstn_skipn (length a) (passAll ts)) at 1. f_equal.
    rewrite (skipn_cut _ _ Hg'). f_equal.
    apply passAll_skipn with (b := b). unfold ts.
    change (S (length a)) with (1 + length a).
    now rewrite <- skipn_skipn, skipn_length_app. }
  exists (render (firstn (length a) (passAll ts)) [] ++ g'),
    (render (skipn (S (length a) + length mid) (passAll ts)) []).
  split; [|split; [|split]].
  - rewrite Hcut at 1. rewrite render_app. cbn [render].
    rewrite render_app, render_tail, <- app_assoc. reflexivity.
  - rewrite visible_app, (visible_spaces _ Hsp), app_nil_r.
    rewrite visible_render; [|now apply gapped_firstn|reflexivity].
    rewrite <- firstn_map, Hsnd, firstn_map. f_equal.
    unfold ts. rewrite map_app.
    rewrite <- (length_map snd a). apply firstn_length_app.
  - rewrite visible_render; [|now apply gapped_skipn|reflexivity].
    rewrite <- skipn_map, Hsnd, !skipn_map. do 2 f_equal. unfold ts.
    replace (S (length a) + length mid)
      with (length (a ++ (tA, c0) :: mid))
      by (rewrite length_app; cbn [length]; lia).
    change (a ++ (tA, c0) :: mid ++ b) with (a ++ ((tA, c0) :: mid) ++ b).
    rewrite app_assoc. apply skipn_length_app.
  - intros ->. cbn [length firstn render app].
    destruct (passAll_head tA c0 (mid ++ b)) as (r & Hr).
    subst ts. cbn [app length] in Hg'.
    pose proof (eq_trans (eq_sym Hg')
                  (f_equal (fun l => nth_error l 0) Hr)) as E0.
    cbn [nth_error] in E0. congruence.
Qed.

(** ** Where the year rule sets a gap *)

(** A gap the year rule sets is the one before the hyphen or the one
    behind it, of four digits, a hyphen and four digits. *)
Lemma yearDash_entry ts j v :
  nth j (maskYearDash ts) None = Some v ->
  exists s, (j = s + 4 \/ j = s + 5)
            /\ forall k f, nth_error clsYearDash k = Some f ->
                 exists g c, nth_error ts (s + k) = Some (g, c) /\ f c = true.
Proof.
  intros H. unfold maskYearDash in H.
  destruct (@sweep_entry _ _ _ _ _ H)
    as (s & w & Hh & Hs & Hv).
  destruct (yearDash_obeys _ Hh) as (_ & Hcls).
  assert (Ew : w = winYearDash).
  { unfold hitOf in Hh. destruct (skipn s ts) as [|[? ?] ?];
      [discriminate|]. destruct (tokMatch _ _); congruence. }
  subst w. exists s. split.
  - cbn [length winYearDash] in Hs.
    remember (j - s) as d eqn:Ed.
    do 9 (try (destruct d as [|d];
               [cbn [nth winYearDash] in Hv;
                first [discriminate Hv | lia]|])).
    lia.
  - intros k f Hk. destruct (Hcls k f Hk) as (g & c & Hn & Hc).
    rewrite nth_error_skipn in Hn. eauto.
Qed.

(** Between two word characters that are not both digits the year rule
    sets no gap. *)
Lemma yearDash_mixed ts i g0 x g1 g2 y :
  nth_error ts i = Some (g0, x) ->
  nth_error ts (S i) = Some (g1, ch "-") ->
  nth_error ts (S (S i)) = Some (g2, y) ->
  isWord y = true -> isDigit x && isDigit y = false ->
  nth (S i) (maskYearDash ts) None = None
  /\ nth (S (S i)) (maskYearDash ts) None = None.
Proof.
  intros T0 T1 T2 Hy Hxy.
  assert (Hpick : forall s k f d c,
            nth_error clsYearDash k = Some f ->
            (forall k f, nth_error clsYearDash k = Some f ->
               exists g c, nth_error ts (s + k) = Some (g, c) /\ f c = true) ->
            nth_error ts (s + k) = Some (d, c) -> f c = true).
  { intros s k f d c Hk Hcls Hn.
    destruct (Hcls k f Hk) as (g & c' & Hn' & Hc). congruence. }
  split.
  - destruct (nth (S i) (maskYearDash ts) None) as [v|] eqn:E;
      [exfalso|reflexivity].
    destruct (yearDash_entry _ _ E) as (s & [Hs|Hs] & Hcls).
    + assert (Hx : isDigit x = true).
      { apply (Hpick s 3 isDigit g0 x eq_refl Hcls).
        now replace (s + 3) with i by lia. }
      assert (Hy' : isDigit y = true).
      { apply (Hpick s 5 isDigit g2 y eq_refl Hcls).
        now replace (s + 5) with (S (S i)) by lia. }
      rewrite Hx, Hy' in Hxy. discriminate.
    + assert (Hd : isDigit (ch "-") = true).
      { apply (Hpick s 5 isDigit g1 (ch "-") eq_refl Hcls).
        now replace (s + 5) with (S i) by lia. }
      discriminate Hd.
  - destruct (nth (S (S i)) (maskYearDash ts) None) as [v|] eqn:E;
      [exfalso|reflexivity].
    destruct (yearDash_entry _ _ E) as (s & [Hs|Hs] & Hcls).
    + assert (Hd : chr (ch "-") y = true).
      { apply (Hpick s 4 (chr (ch "-")) g2 y eq_refl Hcls).
        now replace (s + 4) with (S (S i)) by lia. }
      clear - Hd Hy. chars.
    + assert (Hx : isDigit x = true).
      { apply (Hpick s 3 isDigit g0 x eq_refl Hcls).
        now replace (s + 3) with i by lia. }
      assert (Hy' : isDigit y = true).
      { apply (Hpick s 5 isDigit g2 y eq_refl Hcls).
        now replace (s + 5) with (S (S i)) by lia. }
      rewrite Hx, Hy' in Hxy. discriminate.
Qed.

(** ** Characters the bullet step leaves alone *)

Lemma relabel_plain c : oneOf variantGlyphs c = false -> relabel c = c.
Proof. unfold relabel. now intros ->. Qed.

Lemma word_plain c : isWord c = true -> relabel c = c.
Proof. intros H. apply relabel_plain. chars. Qed.

Lemma punct_plain c : isPunct c = true -> relabel c = c.
Proof. intros H. apply relabel_plain. chars. Qed.

Lemma digit_plain c : isDigit c = true -> relabel c = c.
Proof. intros H. apply relabel_plain. chars. Qed.

Lemma bullet_relabel b : In b bulletGlyphs -> relabel b = blackCircle.
Proof.
  intros H. cbn in H.
  repeat (destruct H as [<-|H]; [reflexivity|]). contradiction.
Qed.

Lemma lastVisibleIs_tokens p a tA :
  gapped a -> forallb isSpace tA = true ->
  lastVisibleIs p (render a tA) = false ->
  forall a0 gz z, a = a0 ++ [(gz, z)] -> p z = false.
Proof.
  intros Ha Ht H a0 gz z ->. unfold lastVisibleIs in H.
  now rewrite lastVisible_render in H.
Qed.

Lemma collapse_nil : collapse [] = [].
Proof. reflexivity. Qed.

Lemma collapse_space : collapse (str " ") = str " ".
Proof. reflexivity. Qed.

Lemma collapse_nl : collapse [nl] = [nl].
Proof. reflexivity. Qed.

Ltac gapside :=
  unfold okPunct, okPipe, okWordDash, okYearDash, okEmail; chars.

(** ** The hyphen rules in running text *)

Lemma word_dash_in_text (A B ws1 ws2 : jsstring) (x y : char) :
  isWord x = true -> isWord y = true ->
  isDigit x && isDigit y = false ->
  forallb isSpace ws1 = true -> forallb isSpace ws2 = true ->
  lastVisibleIs (chr (ch "-")) A = false ->
  exists A' B',
    repair (A ++ x :: ws1 ++ ch "-" :: ws2 ++ y :: B)
    = A' ++ x :: ch "-" :: y :: B'
    /\ visible A' = map relabel (visible A)
    /\ visible B' = map relabel (visible B).
Proof.
  intros Hx Hy Hxy H1 H2 HA.
  destruct (tokens_of A) as (a & tA & Ha & HtA & ->).
  destruct (tokens_of B) as (b & tB & Hb & HtB & ->).
  pose proof (@lastVisibleIs_tokens _ a tA Ha HtA HA) as Hz.
  assert (Hxs : isSpace x = false) by now apply word_not_space.
  assert (Hys : isSpace y = false) by now apply word_not_space.
  assert (Hmid : gapped [(ws1, ch "-"); (ws2, y)])
    by (repeat constructor; assumption).
  destruct (@repair_window a tA x [(ws1, ch "-"); (ws2, y)] b tB
              Ha HtA Hxs Hmid Hb HtB) as (A' & B' & E & HA' & HB' & _).
  exists A', B'. split; [|split].
  - cbn [render] in E. rewrite E. clear E.
    set (ts := a ++ (tA, x) :: [(ws1, ch "-"); (ws2, y)] ++ b).
    assert (T0 : nth_error ts (length a) = Some (tA, x))
      by apply nth_error_mid.
    assert (T1 : nth_error ts (S (length a)) = Some (ws1, ch "-"))
      by exact (nth_error_past a _ 1).
    assert (T2 : nth_error ts (S (S (length a))) = Some (ws2, y))
      by exact (nth_error_past a _ 2).
    destruct (@wordDash_on a tA x ws1 ws2 y b Hx Hy Hz) as [D1 D2].
    cbn [gapsFrom render]. unfold gapAt.
    destruct (@yearDash_mixed ts _ _ _ _ _ _ T0 T1 T2 Hy Hxy) as [Y1 Y2].
    rewrite (@email_off ts _ _ _ _ _ T0 T1) by (clear - Hx; gapside).
    rewrite (@email_off ts _ _ _ _ _ T1 T2) by (clear - Hy; gapside).
    rewrite Y1, Y2.
    change (maskWordDash (a ++ _)) with (maskWordDash ts) in D1, D2.
    rewrite D1, D2. cbn [pick].
    rewrite collapse_nil, (@word_plain x Hx), (@word_plain y Hy).
    reflexivity.
  - rewrite HA'. now rewrite visible_render.
  - rewrite HB'. now rewrite visible_render.
Qed.

Lemma year_dash_in_text (A B ws1 ws2 d1 d2 : jsstring) :
  length d1 = 4 -> length d2 = 4 ->
  forallb isDigit d1 = true -> forallb isDigit d2 = true ->
  forallb isSpace ws1 = true -> forallb isSpace ws2 = true ->
  lastVisibleIs isDigit A = false ->
  lastVisibleIs (chr (ch "-")) A = false ->
  exists A' B',
    repair (A ++ d1 ++ ws1 ++ ch "-" :: ws2 ++ d2 ++ B)
    = A' ++ d1 ++ str " - " ++ d2 ++ B'
    /\ visible A' = map relabel (visible A)
    /\ visible B' = map relabel (visible B).
Proof.
  intros L1 L2 D1 D2 H1 H2 HAd HAh.
  destruct d1 as [|x0 [|x1 [|x2 [|x3 [|? ?]]]]]; try discriminate L1.
  destruct d2 as [|y0 [|y1 [|y2 [|y3 [|? ?]]]]]; try discriminate L2.
  clear L1 L2. cbn [forallb] in D1, D2. split_andb.
  destruct (tokens_of A) as (a & tA & Ha & HtA & ->).
  destruct (tokens_of B) as (b & tB & Hb & HtB & ->).
  pose proof (@lastVisibleIs_tokens _ a tA Ha HtA HAd) as Hzd.
  pose proof (@lastVisibleIs_tokens _ a tA Ha HtA HAh) as Hzh.
  set (mid := [([], x1); ([], x2); ([], x3); (ws1, ch "-");
               (ws2, y0); ([], y1); ([], y2); ([], y3)] : tokens).
  assert (Hmid : gapped mid).
  { unfold mid. repeat constructor; cbn [fst snd];
      try assumption; try reflexivity; now apply word_not_space, digit_word. }
  assert (Hxs : isSpace x0 = false) by now apply word_not_space, digit_word.
  destruct (@repair_window a tA x0 mid b tB Ha HtA Hxs Hmid Hb HtB)
    as (A' & B' & E & HA' & HB' & _).
  exists A', B'. split; [|split].
  - transitivity (repair (render a tA ++ x0 :: render mid (render b tB)));
      [reflexivity|].
    rewrite E. clear E.
    set (ts := a ++ (tA, x0) :: mid ++ b).
    assert (T0 : nth_error ts (length a) = Some (tA, x0))
      by apply nth_error_mid.
    assert (T1 : nth_error ts (1 + length a) = Some ([], x1))
      by exact (nth_error_past a _ 1).
    assert (T2 : nth_error ts (2 + length a) = Some ([], x2))
      by exact (nth_error_past a _ 2).
    assert (T3 : nth_error ts (3 + length a) = Some ([], x3))
      by exact (nth_error_past a _ 3).
    assert (T4 : nth_error ts (4 + length a) = Some (ws1, ch "-"))
      by exact (nth_error_past a _ 4).
    assert (T5 : nth_error ts (5 + length a) = Some (ws2, y0))
      by exact (nth_error_past a _ 5).
    assert (T6 : nth_error ts (6 + length a) = Some ([], y1))
      by exact (nth_error_past a _ 6).
    assert (T7 : nth_error ts (7 + length a) = Some ([], y2))
      by exact (nth_error_past a _ 7).
    assert (T8 : nth_error ts (8 + length a) = Some ([], y3))
      by exact (nth_error_past a _ 8).
    assert (Y : forall k, k < 9 ->
              nth (k + length a) (maskYearDash ts) None
              = nth k winYearDash None).
    { intros k Hk.
      apply (@yearDash_on a tA x0 x1 x2 x3 ws1 ws2 y0 y1 y2 y3 b k);
        [|intros a0 gz z Ea; split; [now apply (Hzd a0 gz)
                                    |now apply (Hzh a0 gz)]
         |assumption].
      cbn [forallb].
      repeat match goal with
             | E : isDigit ?y = true |- context [isDigit ?y] => rewrite E
             end.
      reflexivity. }
    unfold mid. cbn [gapsFrom render]. unfold gapAt.
    cbn [Nat.add] in *.
    rewrite (@email_off ts _ _ _ _ _ T0 T1), (@email_off ts _ _ _ _ _ T1 T2),
      (@email_off ts _ _ _ _ _ T2 T3), (@email_off ts _ _ _ _ _ T3 T4),
      (@email_off ts _ _ _ _ _ T4 T5), (@email_off ts _ _ _ _ _ T5 T6),
      (@email_off ts _ _ _ _ _ T6 T7), (@email_off ts _ _ _ _ _ T7 T8)
      by gapside.
    pose proof (Y 1 ltac:(lia)) as Y1. pose proof (Y 2 ltac:(lia)) as Y2.
    pose proof (Y 3 ltac:(lia)) as Y3. pose proof (Y 4 ltac:(lia)) as Y4.
    pose proof (Y 5 ltac:(lia)) as Y5. pose proof (Y 6 ltac:(lia)) as Y6.
    pose proof (Y 7 ltac:(lia)) as Y7. pose proof (Y 8 ltac:(lia)) as Y8.
    cbn [Nat.add nth winYearDash] in Y1, Y2, Y3, Y4, Y5, Y6, Y7, Y8.
    rewrite Y1, Y2, Y3, Y4, Y5, Y6, Y7, Y8.
    cbn [pick].
    rewrite (@wordDash_digits ts _ _ _ _ _ T0 T1),
      (@wordDash_digits ts _ _ _ _ _ T1 T2),
      (@wordDash_digits ts _ _ _ _ _ T2 T3),
      (@wordDash_digits ts _ _ _ _ _ T5 T6),
      (@wordDash_digits ts _ _ _ _ _ T6 T7),
      (@wordDash_digits ts _ _ _ _ _ T7 T8) by assumption.
    rewrite (@pipe_off ts _ _ _ _ _ T0 T1), (@pipe_off ts _ _ _ _ _ T1 T2),
      (@pipe_off ts _ _ _ _ _ T2 T3), (@pipe_off ts _ _ _ _ _ T5 T6),
      (@pipe_off ts _ _ _ _ _ T6 T7), (@pipe_off ts _ _ _ _ _ T7 T8)
      by gapside.
    rewrite (@punctPair_off ts _ _ _ _ _ T0 T1),
      (@punctPair_off ts _ _ _ _ _ T1 T2),
      (@punctPair_off ts _ _ _ _ _ T2 T3),
      (@punctPair_off ts _ _ _ _ _ T5 T6),
      (@punctPair_off ts _ _ _ _ _ T6 T7),
      (@punctPair_off ts _ _ _ _ _ T7 T8) by gapside.
    rewrite (@spaceBeforePunct_off ts _ _ _ _ _ T0 T1),
      (@spaceBeforePunct_off ts _ _ _ _ _ T1 T2),
      (@spaceBeforePunct_off ts _ _ _ _ _ T2 T3),
      (@spaceBeforePunct_off ts _ _ _ _ _ T5 T6),
      (@spaceBeforePunct_off ts _ _ _ _ _ T6 T7),
      (@spaceBeforePunct_off ts _ _ _ _ _ T7 T8) by gapside.
    cbn [pick]. rewrite collapse_nil, collapse_space.
    repeat match goal with
           | E : isDigit ?y = true |- context [relabel ?y] =>
               rewrite (@digit_plain y E)
           end.
    reflexivity.
  - rewrite HA'. now rewrite visible_render.
  - rewrite HB'. now rewrite visible_render.
Qed.

(** ** Two marks in running text *)

Lemma punct_pair_in_text (A B ws : jsstring) (p q : char) :
  isPunct p = true -> isPunct q = true ->
  forallb isSpace ws = true ->
  lastVisibleIs isPunct A = false ->
  exists A' B',
    repair (A ++ p :: ws ++ q :: B) = A' ++ p :: ch " " :: q :: B'
    /\ visible A' = map relabel (visible A)
    /\ visible B' = map relabel (visible B).
Proof.
  intros Hp Hq Hws HA.
  destruct (tokens_of A) as (a & tA & Ha & HtA & ->).
  destruct (tokens_of B) as (b & tB & Hb & HtB & ->).
  pose proof (@lastVisibleIs_tokens _ a tA Ha HtA HA) as Hz.
  assert (Hps : isSpace p = false) by now apply punct_not_space.
  assert (Hqs : isSpace q = false) by now apply punct_not_space.
  assert (Hmid : gapped [(ws, q)]) by (repeat constructor; assumption).
  destruct (@repair_window a tA p [(ws, q)] b tB
              Ha HtA Hps Hmid Hb HtB) as (A' & B' & E & HA' & HB' & _).
  exists A', B'. split; [|split].
  - cbn [render] in E. rewrite E. clear E.
    set (ts := a ++ (tA, p) :: [(ws, q)] ++ b).
    assert (T0 : nth_error ts (length a) = Some (tA, p))
      by apply nth_error_mid.
    assert (T1 : nth_error ts (S (length a)) = Some (ws, q))
      by exact (nth_error_past a _ 1).
    pose proof (@punctPair_on a tA p ws q b Hp Hq Hz) as P1.
    change (maskPunctPair (a ++ _)) with (maskPunctPair ts) in P1.
    cbn [gapsFrom render]. unfold gapAt.
    rewrite (@email_off ts _ _ _ _ _ T0 T1),
      (@yearDash_off ts _ _ _ _ _ T0 T1),
      (@wordDash_off ts _ _ _ _ _ T0 T1),
      (@pipe_off ts _ _ _ _ _ T0 T1) by (clear - Hp Hq; gapside).
    rewrite P1. cbn [pick].
    rewrite collapse_space, (@punct_plain p Hp), (@punct_plain q Hq).
    reflexivity.
  - rewrite HA'. now rewrite visible_render.
  - rewrite HB'. now rewrite visible_render.
Qed.

(** ** The email step with one at sign *)

Lemma filter_none (p : char -> bool) s :
  forallb (notC p) s = true -> filter p s = [].
Proof.
  induction s as [|x s IH]; intros H; [reflexivity|].
  cbn [forallb] in H. apply andb_true_iff in H as [Hx Hs].
  cbn [filter]. unfold notC in Hx. apply negb_true_iff in Hx.
  rewrite Hx. now apply IH.
Qed.

Lemma atCount_none ts tail :
  gapped ts -> forallb isSpace tail = true ->
  forallb (notC (chr (ch "@"))) (render ts tail) = true -> atCount ts = 0.
Proof.
  intros Hts Ht H. rewrite <- (@atCount_render ts tail Hts Ht).
  now rewrite filter_none.
Qed.

Lemma skelFrom_behind pre : forall gq y post,
  pre <> [] -> atCount pre = 0 ->
  skelFrom true (pre ++ (gq, ch "@") :: y :: post)
  = repeat None (length pre) ++ [Some []; Some []].
Proof.
  destruct pre as [|[g c] pre]; intros gq y post Hne H; [congruence|].
  rewrite atCount_cons in H. cbn [app skelFrom length repeat].
  destruct (chr (ch "@") c); [discriminate|].
  now rewrite skelFrom_pre by lia.
Qed.

Lemma email_in_text (A B ws1 ws2 : jsstring) (x y : char) :
  isSpace x = false -> isSpace y = false ->
  forallb isSpace ws1 = true -> forallb isSpace ws2 = true ->
  forallb (notC (chr (ch "@"))) (A ++ x :: y :: B) = true ->
  replace rxEmail (tpl "$1@$2") (A ++ x :: ws1 ++ ch "@" :: ws2 ++ y :: B)
  = A ++ x :: ch "@" :: y :: B.
Proof.
  intros Hx Hy H1 H2 Hno.
  rewrite forallb_app in Hno. cbn [forallb] in Hno.
  apply andb_true_iff in Hno as [HnA Hno].
  apply andb_true_iff in Hno as [Hnx Hno].
  apply andb_true_iff in Hno as [Hny HnB].
  destruct (tokens_of A) as (a & tA & Ha & HtA & ->).
  destruct (tokens_of B) as (b & tB & Hb & HtB & ->).
  pose proof (@atCount_none a tA Ha HtA HnA) as Ca.
  pose proof (@atCount_none b tB Hb HtB HnB) as Cb.
  set (pre := a ++ [(tA, x)]).
  set (ts := pre ++ (ws1, ch "@") :: (ws2, y) :: b).
  assert (Hts : gapped ts).
  { unfold ts, pre, gapped. rewrite !Forall_app. repeat split.
    - exact Ha.
    - repeat constructor; assumption.
    - repeat constructor; try assumption. }
  assert (Cpre : atCount pre = 0).
  { unfold pre. rewrite atCount_app, Ca. unfold atCount, atSkeleton.
    cbn [map snd filter]. unfold notC in Hnx. apply negb_true_iff in Hnx.
    now rewrite Hnx. }
  assert (Cts : atCount ts <= 1).
  { unfold ts. rewrite atCount_app, Cpre, !atCount_cons, Cb.
    unfold notC in Hny. apply negb_true_iff in Hny. rewrite Hny.
    change (chr (ch "@") (ch "@")) with true. cbn. lia. }
  assert (E : render a tA ++ x :: ws1 ++ ch "@" :: ws2 ++ y :: render b tB
              = render ts tB).
  { unfold ts, pre. rewrite <- app_assoc. cbn [app]. rewrite render_app.
    cbn [render]. now rewrite (render_tail a (tA ++ _)),
      (render_tail a tA), <- app_assoc. }
  rewrite E, email_tokens by assumption.
  unfold maskEmail. rewrite (@maskEmail_one (length ts) ts (le_n _) Cts).
  unfold ts.
  rewrite skelFrom_behind;
    [|unfold pre; intros H; apply app_eq_nil in H as [_ H]; discriminate
     |exact Cpre].
  refine (eq_trans (f_equal (fun t => render t tB)
                      (@override_at_sign pre [] ws1 ws2 y b)) _).
  rewrite override_nil.
  unfold pre. rewrite <- app_assoc. cbn [app]. rewrite render_app.
  cbn [render app].
  now rewrite (render_tail a (tA ++ _)), (render_tail a tA), <- app_assoc.
Qed.

(** ** A bullet line in the text *)

Lemma mergeLoop_prefix (L1 : list jsstring) : forall acc i lines,
  acc <> [] -> mergeLoop (L1 ++ acc) i lines = L1 ++ mergeLoop acc i lines.
Proof.
  induction L1 as [|l L1 IH]; intros acc i lines H; [reflexivity|].
  cbn [app]. rewrite mergeLoop_cons.
  - now rewrite IH.
  - intros E. apply app_eq_nil in E as [_ E]. contradiction.
Qed.

Lemma mergeStep_head l acc i line :
  exists s rest, mergeStep (l :: acc) i line = (l ++ s) :: rest.
Proof.
  unfold mergeStep. destruct (_ && _).
  - destruct acc as [|l' acc].
    + cbn [removelast prevLineOf last app]. eauto.
    + exists [], (removelast (l' :: acc)
                  ++ [prevLineOf (l :: l' :: acc) ++ str " " ++ line]).
      now rewrite app_nil_r.
  - exists [], (acc ++ [line]). now rewrite app_nil_r.
Qed.

Lemma mergeLoop_head lines : forall l acc i,
  exists s rest, mergeLoop (l :: acc) i lines = (l ++ s) :: rest.
Proof.
  induction lines as [|line lines IH]; intros l acc i.
  - exists [], acc. cbn [mergeLoop]. now rewrite app_nil_r.
  - cbn [mergeLoop].
    destruct (mergeStep_head l acc i line) as (s & rest & ->).
    destruct (IH (l ++ s) rest (S i)) as (s' & rest' & E).
    exists (s ++ s'), rest'. rewrite app_assoc. exact E.
Qed.

Lemma trimmed_last l :
  trimmedLine l = true -> exists l0 z, l = l0 ++ [z] /\ isSpace z = false.
Proof.
  intros H. destruct l as [|x l]; [discriminate|].
  cbn [trimmedLine] in H. apply andb_true_iff in H as [_ H].
  apply negb_true_iff in H.
  destruct (@exists_last _ (x :: l)) as (l0 & z & E); [discriminate|].
  exists l0, z. split; [exact E|]. rewrite E in H.
  now rewrite last_last in H.
Qed.

Lemma visible_concat ls : visible (concat ls) = concat (map visible ls).
Proof.
  induction ls as [|l ls IH]; [reflexivity|].
  cbn [concat map]. now rewrite visible_app, IH.
Qed.

Lemma visible_mergeLoop lines :
  visible (join [nl] (mergeLoop [] 0 lines)) = visible (concat lines).
Proof.
  rewrite visible_join by reflexivity.
  rewrite <- (@visible_join (str " ")) by reflexivity.
  rewrite mergeLoop_join. cbn [app].
  rewrite visible_join by reflexivity. now rewrite visible_concat.
Qed.

Lemma bullet_not_space b : In b bulletGlyphs -> isSpace b = false.
Proof.
  intros H. cbn in H.
  repeat (destruct H as [<-|H]; [reflexivity|]). contradiction.
Qed.

Lemma bullet_newSection i b r :
  In b bulletGlyphs -> isNewSection i (b :: r) = true.
Proof.
  intros H. unfold isNewSection. rewrite isBulletPoint_head.
  assert (oneOf bulletGlyphs b = true) as ->; [|reflexivity].
  unfold oneOf. apply existsb_exists. exists b.
  split; [assumption|apply N.eqb_refl].
Qed.

(** The logical lines around a bullet line: those of the lines before
    it, and one that begins with it. *)
Lemma bullet_logical pre b r post :
  In b bulletGlyphs ->
  exists s rest,
    mergeLines (pre ++ (b :: r) :: post)
    = mergeLines pre ++ (b :: r ++ s) :: rest.
Proof.
  intros Hb. unfold mergeLines. rewrite mergeLoop_app. cbn [mergeLoop].
  rewrite mergeStep_newSection by now apply bullet_newSection.
  rewrite mergeLoop_prefix by discriminate.
  destruct (mergeLoop_head post (b :: r) [] (S (0 + length pre)))
    as (s & rest & E).
  exists s, rest. f_equal. exact E.
Qed.

Lemma mergeLoop_nil lines : mergeLoop [] 0 lines = [] -> lines = [].
Proof.
  destruct lines as [|l lines]; [reflexivity|]. intros H.
  pose proof (mergeLoop_length lines (mergeStep [] 0 l) 1) as Hl.
  pose proof (mergeStep_not_nil [] 0 l) as Hne.
  cbn [mergeLoop] in H. rewrite H in Hl.
  destruct (mergeStep [] 0 l); [congruence|simpl in Hl; lia].
Qed.

(** The text the repair starts from, around a bullet line. *)
Lemma bullet_reconstructed pre b r post :
  Forall (fun l => trimmedLine l = true) pre ->
  In b bulletGlyphs ->
  exists R,
    visible R = visible (r ++ concat post)
    /\ ((pre = []
         /\ join [nl] (mergeLines (pre ++ (b :: r) :: post)) = b :: R)
        \/ (exists P0 z,
              pre <> [] /\ isSpace z = false
              /\ visible (P0 ++ [z]) = visible (concat pre)
              /\ join [nl] (mergeLines (pre ++ (b :: r) :: post))
                 = P0 ++ z :: nl :: b :: R)).
Proof.
  intros Hpre Hb.
  pose proof (@bullet_not_space b Hb) as Hbs.
  destruct (@bullet_logical pre b r post Hb) as (s & rest & E).
  destruct (join_head [nl] (b :: r ++ s) rest) as (r2 & Ej).
  cbn [app] in Ej. rewrite <- app_assoc in Ej.
  pose proof (visible_mergeLoop (pre ++ (b :: r) :: post)) as Hv.
  fold (mergeLines (pre ++ (b :: r) :: post)) in Hv.
  rewrite concat_app in Hv. cbn [concat] in Hv.
  rewrite visible_app in Hv. cbn [app] in Hv.
  rewrite (visible_cons b (r ++ concat post)), Hbs in Hv.
  exists (r ++ s ++ r2).
  unfold jsstring in *.
  destruct pre as [|p0 pre'].
  - split.
    + rewrite E in Hv. cbn [mergeLines mergeLoop app] in Hv.
      rewrite Ej, visible_cons, Hbs in Hv. cbn [visible filter app] in Hv.
      now injection Hv.
    + left. split; [reflexivity|]. rewrite E. cbn [mergeLines mergeLoop app].
      exact Ej.
  - set (pre := p0 :: pre') in *.
    assert (Hne : mergeLines pre <> []).
    { intros H0. apply mergeLoop_nil in H0. discriminate. }
    assert (Ht : Forall (fun l => trimmedLine l = true) (mergeLines pre))
      by (apply mergeLoop_trimmed; [constructor|assumption]).
    assert (Ejoin : join [nl] (mergeLines (pre ++ (b :: r) :: post))
                    = join [nl] (mergeLines pre) ++ nl :: b :: r ++ s ++ r2).
    { rewrite E, join_app by (assumption || discriminate).
      now rewrite Ej. }
    destruct (@join_trimmed _ Ht) as [H0|Htr].
    { exfalso. destruct (mergeLines pre) as [|l ls]; [congruence|].
      inversion Ht as [|? ? Hl _]; subst.
      destruct (join_head [nl] l ls) as (r3 & E3). rewrite E3 in H0.
      destruct l; discriminate. }
    destruct (@trimmed_last _ Htr) as (P0 & z & EP & Hz).
    assert (HvP : visible (P0 ++ [z]) = visible (concat pre)).
    { rewrite <- EP. apply visible_mergeLoop. }
    split.
    + rewrite Ejoin, EP, visible_app, HvP in Hv.
      apply app_inv_head in Hv.
      rewrite visible_cons in Hv. change (isSpace nl) with true in Hv.
      rewrite visible_cons, Hbs in Hv. now injection Hv.
    + right. exists P0, z. repeat split; try assumption; [discriminate|].
      rewrite Ejoin, EP, <- app_assoc. reflexivity.
Qed.

(** ** Pairs standing alone *)

Lemma punct_pair_alone (u ws v : jsstring) (p q : char) :
  forallb isWord u = true -> isPunct p = true ->
  forallb isSpace ws = true -> isPunct q = true ->
  forallb isWord v = true ->
  repair (u ++ p :: ws ++ q :: v) = u ++ p :: ch " " :: q :: v.
Proof.
  intros Hu Hp Hws Hq Hv. unfold repair, repairSpacing.
  assert (E1 : replace rxSpaceBeforePunct (tpl "$1") (u ++ p :: ws ++ q :: v)
               = u ++ p :: q :: v).
  { unfold replace.
    rewrite (@scan_prefix rxSpaceBeforePunct _ isWord u _ true
               spaceBeforePunct_noBol);
      [|intros x s Hx; apply spaceBeforePunct_solid; now apply word_not_space
       |assumption].
    f_equal. rewrite scan_keep
      by (apply spaceBeforePunct_solid; now apply punct_not_space).
    f_equal. now apply (@spaceBeforePunct_shape [] ws q v false). }
  rewrite E1.
  change (replace rxPunctPair (tpl "$1 $2") ?s)
    with (scan rxPunctPair (tpl "$1 $2") 0 true s).
  rewrite punctPair_shape by assumption.
  rewrite lack_Pipe by lacking1.
  rewrite lack_WordDash by lacking1.
  rewrite lack_YearDash by lacking1.
  rewrite lack_Email by lacking1.
  rewrite lack_BulletVariant by lacking1.
  rewrite lack_BlankLines by lacking1.
  change (u ++ p :: ch " " :: q :: v) with (u ++ [p] ++ [ch " "] ++ q :: v).
  rewrite app_assoc.
  apply trim_between; try discriminate; unfold isNonSpace; try lacking1.
  intros E. now apply app_eq_nil in E as [_ E].
Qed.

Lemma email_alone (u ws1 ws2 v : jsstring) :
  u <> [] -> v <> [] ->
  forallb isSpace ws1 = true -> forallb isSpace ws2 = true ->
  forallb isWord u = true -> forallb isWord v = true ->
  repair (u ++ ws1 ++ ch "@" :: ws2 ++ v) = u ++ ch "@" :: v.
Proof.
  intros Hu0 Hv0 H1 H2 Hu Hv. unfold repair, repairSpacing.
  rewrite lack_SpaceBeforePunct by lacking1.
  rewrite lack_PunctPair by lacking1.
  rewrite lack_Pipe by lacking1.
  rewrite lack_WordDash by lacking1.
  rewrite lack_YearDash by lacking1.
  rewrite email_shape;
    try assumption; try (now apply word_solid); try lacking1.
  rewrite lack_BulletVariant by lacking1.
  rewrite lack_BlankLines by lacking1.
  apply trim_solid.
  rewrite forallb_app. cbn [forallb].
  now rewrite !word_solid.
Qed.

(** ** A bullet line in what is returned *)

Lemma clean_reconstructed text :
  splitLines (normalizeArtifacts text) <> [] ->
  cleanExtractedText (Some text)
  = repair (join [nl] (mergeLines (splitLines (normalizeArtifacts text)))).
Proof.
  intros H. destruct text as [|c text]; [now elim H|]. reflexivity.
Qed.

Lemma lastVisibleIs_visible p s s' :
  visible s = visible s' -> lastVisibleIs p s = lastVisibleIs p s'.
Proof. intros E. unfold lastVisibleIs, lastVisible. now rewrite E. Qed.

Lemma lastVisibleIs_snoc p s z :
  isSpace z = false -> lastVisibleIs p (s ++ [z]) = p z.
Proof.
  intros Hz. unfold lastVisibleIs, lastVisible.
  rewrite visible_app, visible_cons, Hz. cbn [visible filter].
  now rewrite rev_unit.
Qed.

Lemma bullet_gap (ts : tokens) i gz z g b :
  nth_error ts i = Some (gz, z) -> nth_error ts (S i) = Some (g, b) ->
  In b bulletGlyphs ->
  chr (ch "|") z = false -> chr (ch "@") z = false ->
  gapAt ts (S i) g = collapse g.
Proof.
  intros T0 T1 Hb Hp Ha.
  apply (@gapAt_off ts i gz z g b T0 T1); cbn in Hb;
    repeat (destruct Hb as [<-|Hb]; [gapside|]); contradiction.
Qed.

Lemma bullet_output text pre b r post :
  splitLines (normalizeArtifacts text) = pre ++ (b :: r) :: post ->
  In b bulletGlyphs ->
  exists A' B',
    cleanExtractedText (Some text) = A' ++ blackCircle :: B'
    /\ visible A' = map relabel (visible (concat pre))
    /\ visible B' = map relabel (visible (r ++ concat post))
    /\ (pre = [] -> A' = [])
    /\ (pre <> [] ->
        lastVisibleIs (chr (ch "|")) (concat pre) = false ->
        lastVisibleIs (chr (ch "@")) (concat pre) = false ->
        exists A'', A' = A'' ++ [nl]).
Proof.
  intros Hl Hb.
  pose proof (@bullet_not_space b Hb) as Hbs.
  pose proof (@bullet_relabel b Hb) as Hbr.
  assert (Hpre : Forall (fun l => trimmedLine l = true) pre).
  { pose proof (splitLines_trimmed (normalizeArtifacts text)) as H.
    rewrite Hl in H. now apply Forall_app in H as [H _]. }
  rewrite clean_reconstructed
    by (rewrite Hl; intros E; apply app_eq_nil in E as [_ E]; discriminate).
  rewrite Hl.
  destruct (@bullet_reconstructed pre b r post Hpre Hb)
    as (R & HR & [[-> E]|(P0 & z & Hne & Hz & HvP & E)]).
  - (* the first line of the text *)
    unfold jsstring in *.
    destruct (tokens_of R) as (tb & tB & Htb & HtB & ER).
    destruct (@repair_window [] [] b [] tb tB) as (A' & B' & E' & HA' & HB' & H0);
      try assumption; try reflexivity; try constructor.
    cbn [render app] in E'. rewrite Hbr in E'.
    exists A', B'. rewrite E, ER. repeat split.
    + rewrite (H0 eq_refl) in *. exact E'.
    + now rewrite (H0 eq_refl).
    + rewrite HB', <- HR, ER. now rewrite visible_render.
    + intros _. now apply H0.
    + intros H. now elim H.
  - unfold jsstring in *. rewrite E. clear E.
    destruct (tokens_of P0) as (ta & tA & Hta & HtA & EP).
    destruct (tokens_of R) as (tb & tB & Htb & HtB & ER).
    destruct (lastVisibleIs (chr (ch "|")) (concat pre)) eqn:Lp;
      [|destruct (lastVisibleIs (chr (ch "@")) (concat pre)) eqn:La].
    3:{ (* the break stays *)
      rewrite <- (@lastVisibleIs_visible _ _ _ HvP), lastVisibleIs_snoc in Lp
        by assumption.
      rewrite <- (@lastVisibleIs_visible _ _ _ HvP), lastVisibleIs_snoc in La
        by assumption.
      assert (Hmid : gapped [([nl], b)])
        by (repeat constructor; assumption).
      destruct (@repair_window ta tA z [([nl], b)] tb tB
                  Hta HtA Hz Hmid Htb HtB)
        as (A' & B' & E' & HA' & HB' & _).
      set (ts := ta ++ (tA, z) :: [([nl], b)] ++ tb) in *.
      cbn [render] in E'. rewrite <- EP, <- ER in E'.
      assert (T0 : nth_error ts (length ta) = Some (tA, z))
        by apply nth_error_mid.
      assert (T1 : nth_error ts (S (length ta)) = Some ([nl], b))
        by exact (nth_error_past ta _ 1).
      cbn [gapsFrom render] in E'.
      change (gapAt _ (S (length ta)) [nl])
        with (gapAt ts (S (length ta)) [nl]) in E'.
      rewrite (@bullet_gap ts _ _ _ _ _ T0 T1 Hb Lp La) in E'.
      rewrite collapse_nl, Hbr in E'. cbn [app] in E'.
      exists ((A' ++ [relabel z]) ++ [nl]), B'. repeat split.
      - rewrite E'. now rewrite <- !app_assoc.
      - rewrite <- HvP, EP, !visible_app, map_app, HA'.
        rewrite visible_render by assumption.
        unfold visible. cbn [filter]. unfold isNonSpace, notC.
        rewrite relabel_isSpace, Hz. change (isSpace nl) with true.
        cbn [negb map]. now rewrite app_nil_r.
      - rewrite HB', <- HR, ER. now rewrite visible_render.
      - intros H. now elim Hne.
      - intros _ _ _. eauto. }
    all: (* the line before ends in a pipe or an at sign *)
      destruct (tokens_of (P0 ++ [z; nl])) as (tc & tC & Htc & HtC & EC);
      destruct (@repair_window tc tC b [] tb tB) as
          (A' & B' & E' & HA' & HB' & _);
      try assumption; try constructor;
      cbn [render app] in E'; rewrite <- EC, <- ER, Hbr in E';
      rewrite <- app_assoc in E'; cbn [app] in E';
      exists A', B'; repeat split;
      [ exact E'
      | rewrite HA', <- (@visible_render tc tC Htc HtC), <- EC, <- HvP;
        rewrite !visible_app; cbn [app];
        rewrite (visible_cons z [nl]), Hz, (visible_cons z []), Hz;
        reflexivity
      | rewrite HB', <- HR, ER; now rewrite visible_render
      | intros H; now elim Hne
      | intros _ H1 H2; congruence ].
Qed.

(* ================================================================= *)
(** * The specification's claims, in running text *)

(** ** Idempotence *)

(** C3 (amended).  On every text that holds at most one at sign, applying
    the repair twice gives what applying it once gives.  Each of the first
    six steps lays a mask over the gaps between the characters that are not
    white space; the masks depend on the kinds of these characters, on
    which digits are written together and, with one at sign, on where it
    stands, and no step changes any of that; the last three steps are
    idempotent on what is left. *)
Theorem repair_idempotent_one_at (s : jsstring) :
  length (filter (chr (ch "@")) s) <= 1 ->
  repair (repair s) = repair s.
Proof.
  intros Hs. destruct (tokens_of s) as (ts & tail & Hts & Htail & ->).
  rewrite atCount_render in Hs by assumption.
  rewrite repair_tokens_all by assumption.
  rewrite repair_tokens_all.
  - now rewrite passAll_twice.
  - now apply gapped_passAll.
  - reflexivity.
Qed.

Lemma repair_idempotent_one_at_witness :
  repair (repair (str "mail: test @ example.com , or 2020-2023 |call"))
  = repair (str "mail: test @ example.com , or 2020-2023 |call").
Proof.
  apply (@repair_idempotent_one_at
           (str "mail: test @ example.com , or 2020-2023 |call")).
  vm_compute. lia.
Defined.

(** ** Bullet lines *)




(** ** Hyphens *)




(* ================================================================= *)
(** * More of the code: properties *)

(** ** The merge loop *)

(** X1. The merge loop loses, adds and reorders nothing: the logical lines
    joined with single spaces are the lines joined with single spaces.  All
    the loop decides is which line breaks become spaces. *)
Theorem merge_keeps_text (lines : list jsstring) :
  join (str " ") (mergeLines lines) = join (str " ") lines.
Proof. unfold mergeLines. now rewrite mergeLoop_join. Qed.

(** X2. There are never more logical lines than lines, and the first two
    lines are never lost to a merge: two or more lines give at least two
    logical lines, one line gives one, no line gives none. *)
Theorem merge_line_count (lines : list jsstring) :
  Nat.min 2 (length lines) <= length (mergeLines lines) <= length lines.
Proof.
  unfold mergeLines. split; [|apply (mergeLoop_length lines [] 0)].
  destruct lines as [|l0 [|l1 rest]]; cbn [mergeLoop length Nat.min].
  - lia.
  - rewrite mergeStep_first by lia. simpl. lia.
  - rewrite !mergeStep_first by lia. cbn [app].
    pose proof (mergeLoop_length rest [l0; l1] 2). simpl in *. lia.
Qed.

(** X3. Nothing is ever appended to the first line: the first logical line
    is the first line as it stands, and the lines after it are merged as
    they would be without it. *)
Theorem first_line_stands_alone (l0 : jsstring) (rest : list jsstring) :
  mergeLines (l0 :: rest)
  = l0 :: match rest with
          | [] => []
          | l1 :: rest' => mergeLoop [l1] 2 rest'
          end.
Proof.
  unfold mergeLines. destruct rest as [|l1 rest]; cbn [mergeLoop].
  - now rewrite mergeStep_first by lia.
  - rewrite !mergeStep_first by lia. cbn [app].
    apply mergeLoop_cons. discriminate.
Qed.

(** X4. Every logical line the loop builds from a text is free of
    newlines, not empty, and begins and ends with a character that is not
    white space. *)
Theorem logical_lines_trimmed (cleaned : jsstring) :
  Forall (fun l => trimmedLine l = true
                   /\ forallb (notC (chr nl)) l = true)
         (mergeLines (splitLines cleaned)).
Proof.
  unfold mergeLines.
  pose proof (@mergeLoop_trimmed (splitLines cleaned) [] 0 (Forall_nil _)
                                 (splitLines_trimmed cleaned)) as Ht.
  pose proof (@mergeLoop_solid (splitLines cleaned) [] 0 (Forall_nil _)
                               (splitLines_solid cleaned)) as Hs.
  rewrite Forall_forall in *. intros l Hl. split; [now apply Ht|].
  specialize (Hs l Hl). unfold solidLine in Hs.
  apply andb_true_iff in Hs as [Hs _]. exact Hs.
Qed.

(** ** What the cleaner keeps and what it takes out *)

(** X5. The cleaner changes white space only, apart from what it is there
    to take out: the characters of its result that are not white space are
    those of the text once the page separators are removed, without the
    control characters, in the same order, each bullet variant turned into
    the black circle. *)
Theorem clean_keeps_visible (text : jsstring) :
  visible (cleanExtractedText (Some text))
  = map relabel
        (filter (notC isControl)
                (visible (replace rxPageSeparator [] text))).
Proof.
  now rewrite visible_cleanExtractedText, visible_normalizeArtifacts.
Qed.

(** X6. What [cleanExtractedText] returns is trimmed: it is empty, or it
    begins and ends with a character that is not white space. *)
Theorem clean_output_trimmed (text : option jsstring) :
  cleanExtractedText text = []
  \/ trimmedLine (cleanExtractedText text) = true.
Proof. apply cleanExtractedText_trimmed. Qed.

(** X7. The result is empty exactly when the normalised text shows
    nothing; so a text of white space and control characters only cleans
    to the empty string. *)
Theorem blank_text_cleans_to_empty (text : jsstring) :
  (cleanExtractedText (Some text) = []
   <-> visible (normalizeArtifacts text) = [])
  /\ (forallb (fun c => isSpace c || isControl c) text = true ->
      cleanExtractedText (Some text) = []).
Proof.
  split; [apply cleanExtractedText_empty|].
  intros H. apply cleanExtractedText_empty.
  rewrite visible_normalizeArtifacts.
  destruct (filter _ _) as [|x r] eqn:E; [reflexivity|exfalso].
  assert (Hx : In x (x :: r)) by now left.
  rewrite <- E in Hx. apply filter_In in Hx as [Hx Hc].
  apply filter_In in Hx as [Hx Hs].
  apply replace_chars in Hx as [Hx|[]].
  rewrite forallb_forall in H. specialize (H _ Hx).
  unfold isNonSpace, notC in *.
  destruct (isSpace x), (isControl x); discriminate.
Qed.

Lemma blank_text_cleans_to_empty_witness :
  cleanExtractedText (Some (str "  " ++ [tab; nl; 0x0C%N; cr; nl; 0x07%N]
                            ++ str " "))
  = [].
Proof.
  apply (proj2 (blank_text_cleans_to_empty
                  (str "  " ++ [tab; nl; 0x0C%N; cr; nl; 0x07%N] ++ str " "))).
  reflexivity.
Defined.

(** X8. No control character, tab or carriage return is left in what
    [cleanExtractedText] returns. *)
Theorem clean_output_no_artifacts (text : option jsstring) :
  forallb (notC isArtifact) (cleanExtractedText text) = true.
Proof. apply cleanExtractedText_clean. Qed.

(** X9. After the first block the text holds no two spaces in a row. *)
Theorem normalize_single_spaces (text : jsstring) :
  hasDoubleSpace (normalizeArtifacts text) = false.
Proof.
  unfold normalizeArtifacts.
  eapply Rewrites_Spaces. apply replace_Rewrites.
Qed.

(** X10. A page separator whose two numbers are digits, with any white
    space where the pattern allows it, is removed from a text that holds
    no hyphen before it, and the text behind it is cleaned of separators
    in turn. *)
Theorem page_separator_removed (pre ws1 a ws2 ws3 b ws4 post : jsstring) :
  forallb (notC (chr (ch "-"))) pre = true ->
  forallb isSpace ws1 = true ->
  a <> [] -> forallb isDigit a = true ->
  ws2 <> [] -> forallb isSpace ws2 = true ->
  ws3 <> [] -> forallb isSpace ws3 = true ->
  b <> [] -> forallb isDigit b = true ->
  forallb isSpace ws4 = true ->
  replace rxPageSeparator []
          (pre ++ (str "--" ++ ws1 ++ a ++ ws2 ++ str "of" ++ ws3 ++ b ++ ws4
                   ++ str "--") ++ post)
  = pre ++ replace rxPageSeparator [] post.
Proof.
  intros Hpre Hw1 Ha0 Ha Hw20 Hw2 Hw30 Hw3 Hb0 Hb Hw4.
  unfold replace. rewrite !(scan_noBol _ pageSeparator_noBol _ _ true).
  rewrite pageSeparator_prefix by assumption. f_equal.
  set (sep := str "--" ++ ws1 ++ a ++ ws2 ++ str "of" ++ ws3 ++ b ++ ws4
              ++ str "--").
  assert (Hm : matchAt rxPageSeparator false (sep ++ post)
               = Some ([], length sep)).
  { unfold sep. rewrite <- !app_assoc.
    now rewrite (@pageSeparator_matchAt false ws1 a ws2 ws3 b ws4 post)
      by assumption. }
  rewrite (@scan_hit_n _ [] _ _ _ _ Hm) by (unfold sep; simpl; lia).
  now rewrite skipn_length_app.
Qed.

Lemma page_separator_removed_witness :
  replace rxPageSeparator []
          (str "Summary" ++ [nl] ++ str "-- 1 of 12 --" ++ [nl] ++ str "Skills")
  = str "Summary" ++ [nl] ++ [nl] ++ str "Skills".
Proof.
  refine (eq_trans
            (@page_separator_removed (str "Summary" ++ [nl]) (str " ") (str "1")
               (str " ") (str " ") (str "12") (str " ") ([nl] ++ str "Skills")
               eq_refl eq_refl _ eq_refl _ eq_refl _ eq_refl _ eq_refl eq_refl)
            _); try discriminate.
  reflexivity.
Defined.

(** ** The line classifier *)

(** X11. A line is a colon header exactly when a colon is followed by
    nothing but white space up to its end and the line is shorter than 50
    characters. *)
Theorem header_colon_rule (line : jsstring) :
  isHeaderColon line = true <->
  (exists u ws, line = u ++ ch ":" :: ws /\ forallb isSpace ws = true)
  /\ length line < 50.
Proof.
  unfold isHeaderColon, test. rewrite andb_true_iff, Nat.ltb_lt.
  rewrite search_noBol by (repeat constructor; discriminate).
  split; intros [H Hlen]; (split; [|assumption]).
  - destruct H as (u & v & -> & Hm).
    apply headerColon_matchAt in Hm as (ws & -> & Hws). now exists u, ws.
  - destruct H as (u & ws & -> & Hws). exists u, (ch ":" :: ws).
    split; [reflexivity|]. apply headerColon_matchAt. now exists ws.
Qed.

Lemma header_colon_rule_witness :
  isHeaderColon (str "Languages:") = true
  /\ isHeaderColon (repeat (ch "a") 49 ++ str ":") = false.
Proof.
  split.
  - apply (proj2 (header_colon_rule (str "Languages:"))).
    split; [|simpl; lia]. exists (str "Languages"), []. now split.
  - destruct (isHeaderColon (repeat (ch "a") 49 ++ str ":")) eqn:E;
      [|reflexivity].
    apply (proj1 (header_colon_rule _)) in E as [_ Hlen].
    simpl in Hlen. lia.
Defined.

(** X12. A line is a date range exactly when it begins with a capital
    letter, one or more small letters, white space, four digits, any white
    space, and then an en dash or a hyphen; what follows does not
    matter. *)
Theorem date_range_rule (line : jsstring) :
  isDateRange line = true <->
  exists U lows ws d ws' dash rest,
    line = U :: lows ++ ws ++ d ++ ws' ++ dash :: rest
    /\ isUpper U = true
    /\ lows <> [] /\ forallb isLower lows = true
    /\ ws <> [] /\ forallb isSpace ws = true
    /\ length d = 4 /\ forallb isDigit d = true
    /\ forallb isSpace ws' = true
    /\ (dash = enDash \/ dash = ch "-").
Proof.
  unfold isDateRange, rxDateRange. rewrite test_Bol.
  cbv [one plus star exactly]. split.
  - destruct (matchSeq _ true line) as [[caps n]|] eqn:E; [intros _|discriminate].
    invert_seq E.
    repeat match goal with
           | H : forallb _ ?w = true, H1 : 1 <= length ?w,
             H2 : length ?w <= 1 |- _ =>
               let x := fresh "x" in
               let Hx := fresh "Hx" in
               destruct (one_class _ _ H H1 H2) as (x & -> & Hx);
               clear H H1 H2
           end.
    match goal with
    | Hu : isUpper ?U = true, Hd : oneOf [enDash; ch "-"] ?dash = true,
      Hl : forallb isLower ?lows = true, Hs : forallb isSpace ?ws = true,
      H4 : 4 <= length ?d, Hs' : forallb isSpace ?ws' = true |- _ =>
        match goal with
        | H1 : 1 <= length ws |- _ =>
            exists U, lows, ws, d, ws', dash;
            eexists; repeat split; try eassumption;
            try (apply nonempty_length; assumption); try lia
        end
    end.
    unfold oneOf in *. cbn [existsb] in *.
    repeat match goal with
           | H : _ || _ = true |- _ => apply orb_true_iff in H as [H|H]
           end; try discriminate;
      match goal with H : (_ =? _)%N = true |- _ => apply N.eqb_eq in H end;
      auto.
  - intros (U & lows & ws & d & ws' & dash & rest & -> & HU & Hl0 & Hl & Hw0
            & Hw & Hd4 & Hd & Hw' & Hdash).
    apply nonempty_length in Hl0, Hw0.
    assert (Hne : matchSeq
                    [Rep false isUpper 1 (Some 1); Rep false isLower 1 None;
                     Rep false isSpace 1 None; Rep false isDigit 4 (Some 4);
                     Rep false isSpace 0 None;
                     Rep false (oneOf [enDash; ch "-"]) 1 (Some 1)]
                    true ([U] ++ lows ++ ws ++ d ++ ws' ++ [dash] ++ rest)
                  <> None).
    { apply matchSeq_Rep_intro;
        [cbn; now rewrite HU|simpl; lia|simpl; lia|].
      apply matchSeq_Rep_intro; [assumption|assumption|exact I|].
      apply matchSeq_Rep_intro; [assumption|assumption|exact I|].
      apply matchSeq_Rep_intro; [assumption|lia|simpl; lia|].
      apply matchSeq_Rep_intro; [assumption|lia|exact I|].
      apply matchSeq_Rep_intro; [|simpl; lia|simpl; lia|cbn; discriminate].
      cbn [forallb]. rewrite andb_true_r.
      destruct Hdash as [-> | ->]; reflexivity. }
    cbn [app] in Hne.
    destruct (matchSeq _ true _); [reflexivity|congruence].
Qed.

Lemma date_range_rule_witness :
  isDateRange (str "October 2024 " ++ [enDash] ++ str " Present") = true.
Proof.
  apply (proj2 (date_range_rule _)).
  exists (ch "O"), (str "ctober"), (str " "), (str "2024"), (str " "), enDash,
    (str " Present").
  repeat split; try reflexivity; try discriminate. now left.
Defined.

(** X13. A line is a company line exactly when it begins with a capital
    letter, one or more letters, white space or ampersands, an opening
    parenthesis, one or more characters other than the closing
    parenthesis, the closing parenthesis and at least one white space.  A
    trimmed line, as the loop sees them, therefore needs text behind the
    closing parenthesis: "Google (Mountain View)" by itself is none. *)
Theorem company_location_rule (line : jsstring) :
  (isCompanyLocation line = true <->
   exists U name inner ws rest,
     line = U :: name ++ ch "(" :: inner ++ ch ")" :: ws ++ rest
     /\ isUpper U = true
     /\ name <> [] /\ forallb isNameChar name = true
     /\ inner <> [] /\ forallb (notC (chr (ch ")"))) inner = true
     /\ ws <> [] /\ forallb isSpace ws = true)
  /\ (trimmedLine line = true -> isCompanyLocation line = true ->
      exists pre post, line = pre ++ ch ")" :: post /\ visible post <> [])
  /\ isCompanyLocation (str "Google (Mountain View)") = false.
Proof.
  split; [apply isCompanyLocation_spec|]. split; [|reflexivity].
  intros Ht H.
  apply isCompanyLocation_spec in H
    as (U & name & inner & ws & rest & -> & _ & _ & _ & _ & _ & Hw0 & _).
  exists (U :: name ++ ch "(" :: inner), (ws ++ rest).
  split; [cbn [app]; now rewrite <- app_assoc|].
  apply trimmedLine_last with (pre := U :: name ++ ch "(" :: inner ++ [ch ")"]).
  - cbn [app] in *. rewrite <- app_assoc. cbn [app].
    rewrite <- app_assoc. exact Ht.
  - intros E. apply app_eq_nil in E as [E _]. contradiction.
Qed.

Lemma company_location_rule_witness :
  isCompanyLocation (str "Google (Mountain View) 2021") = true
  /\ exists pre post,
       str "Google (Mountain View) 2021" = pre ++ ch ")" :: post
       /\ visible post <> [].
Proof.
  assert (H : isCompanyLocation (str "Google (Mountain View) 2021") = true).
  { apply (proj2 (proj1 (company_location_rule _))).
    exists (ch "G"), (str "oogle "), (str "Mountain View"), (str " "),
      (str "2021").
    repeat split; try reflexivity; discriminate. }
  split; [exact H|].
  exact (proj1 (proj2 (company_location_rule
                         (str "Google (Mountain View) 2021"))) eq_refl H).
Defined.

(** ** The batch *)

Section BatchTheorems.

Variables Buffer World : Type.
Variable getText : Buffer -> World -> outcome * World.

(** X14. Over a batch the parser is called once for each buffer that is
    there, in the order of the batch, whatever it throws or returns:
    the log of calls grows by exactly those buffers. *)
Theorem parser_called_once_each (buffers : list (option Buffer))
        (e : Env Buffer World) :
  calls (snd (extractTextFromPDFs getText buffers e))
  = calls e ++ presentBuffers buffers.
Proof. apply extract_calls. Qed.

(** X15. Every string of the batch's result is a cleaned text, whatever
    the parser hands back: it is trimmed, holds no blank line and no
    control character, tab or carriage return. *)
Theorem batch_texts_are_clean (buffers : list (option Buffer))
        (e : Env Buffer World) :
  Forall (fun s => (s = [] \/ trimmedLine s = true)
                   /\ hasBlankLine s = false
                   /\ forallb (notC isArtifact) s = true)
         (fst (extractTextFromPDFs getText buffers e)).
Proof.
  apply extract_Forall.
  - repeat split. now left.
  - intros s. repeat split.
    + apply cleanExtractedText_trimmed.
    + apply cleanExtractedText_noBlank.
    + apply cleanExtractedText_clean.
Qed.

(** X20. A batch is its first part followed by the rest: the texts of the
    two parts one after the other, the second part processed from the
    state the first left the parser in. *)
Theorem batch_splits (pre post : list (option Buffer))
        (e : Env Buffer World) :
  let first := extractTextFromPDFs getText pre e in
  let second := extractTextFromPDFs getText post (snd first) in
  extractTextFromPDFs getText (pre ++ post) e
  = (fst first ++ fst second, snd second).
Proof. intros first second. apply extractLoop_app. Qed.

End BatchTheorems.

(** X16. Where the result has no string [text] and one of its pages has a
    [text] that is truthy and no string, the flattening raises an error,
    which the [catch] turns into the empty string: one such page costs the
    whole document its text. *)
Theorem bad_page_drops_document (fields : list (string * JsVal))
        (pages : list JsVal) :
  hasStringText fields = false ->
  lookup "pages" fields = Some (JArr pages) ->
  existsb (fun page => badPageText (pageText page)) pages = true ->
  plainTextOf (JObj fields) = Thrown
  /\ textOfOutcome (Returns (JObj fields)) = [].
Proof.
  intros Ht Hp Hbad.
  assert (H : plainTextOf (JObj fields) = Thrown).
  { unfold hasStringText in Ht. unfold plainTextOf, hasProp, getProp.
    assert (Hcond :
              match lookup "text" fields with Some _ => true | None => false end
              && isString (match lookup "text" fields with
                           | Some x => x | None => JUndefined end) = false).
    { destruct (lookup "text" fields) as [[]|]; try reflexivity; discriminate. }
    rewrite Hcond, Hp. cbn [isArray itemsOf andb].
    destruct pages as [|page pages]; [discriminate|].
    change (0 <? length (page :: pages)) with true. cbn [andb].
    rewrite filterPages_bad; [reflexivity| |].
    - rewrite existsb_exists in *. destruct Hbad as (pg & Hin & Hb).
      exists (pageText pg). split; [now apply in_map|].
      unfold badPageText in Hb. now apply andb_true_iff in Hb as [_ Hb].
    - apply Forall_forall. intros t Hin.
      apply in_map_iff in Hin as (pg & <- & _). apply pageText_truthy. }
  split; [assumption|]. unfold textOfOutcome. now rewrite H.
Qed.

Lemma bad_page_drops_document_witness :
  textOfOutcome
    (Returns (JObj [("pages"%string,
                     JArr [pageOf (str "page one");
                           JObj [("text"%string, JNum 7)]])]))
  = [].
Proof.
  apply (@bad_page_drops_document
           [("pages"%string,
             JArr [pageOf (str "page one"); JObj [("text"%string, JNum 7)]])]
           [pageOf (str "page one"); JObj [("text"%string, JNum 7)]]
           eq_refl eq_refl eq_refl).
Defined.

(** ** The upload handler *)

Section UploadTheorems.

Variables Buffer World : Type.
Variable getText : Buffer -> World -> outcome * World.

Lemma buffersOf_length (files : list (option (UploadedFile Buffer))) :
  length (buffersOf files) <= length files.
Proof.
  unfold buffersOf, presentBuffers.
  induction files as [|f files IH]; [simpl; lia|].
  cbn [map flat_map length]. rewrite length_app.
  destruct (bufferOf f); simpl; lia.
Qed.

Lemma presentBuffers_Some (buffers : list Buffer) :
  presentBuffers (map Some buffers) = buffers.
Proof.
  unfold presentBuffers. induction buffers as [|b buffers IH]; [reflexivity|].
  cbn [map flat_map app]. now rewrite IH.
Qed.

(** X17. A request that carries no buffer is turned down with status 400
    before any parsing: "No files uploaded" when [files] is missing, no
    array or empty, "No valid file buffers found" when no entry of the
    array has a buffer; the parser is not called and its state is left as
    it was. *)
Theorem upload_rejected (files : Files Buffer) (e : Env Buffer World) :
  usableBuffers files = [] ->
  uploadResumes getText files e
  = (Raised BAD_REQUEST
            match files with
            | FileArray (_ :: _) => "No valid file buffers found"
            | _ => "No files uploaded"
            end,
     e).
Proof.
  unfold usableBuffers, uploadResumes.
  destruct files as [| |[|f files]]; try reflexivity.
  intros H. cbv beta iota. now rewrite H.
Qed.

(** X18. A request with at least one buffer is answered with status 200
    and one text for each file that has a buffer, in upload order: the
    parser is called on exactly those buffers, and files without a buffer
    get no slot, so the texts line up with the files by position only when
    every file has a buffer. *)
Theorem upload_accepted (files : list (option (UploadedFile Buffer)))
        (e : Env Buffer World) :
  buffersOf files <> [] ->
  let batch :=
    extractTextFromPDFs getText (map Some (buffersOf files)) e in
  uploadResumes getText (FileArray files) e
  = (Sent (mkResponse OK true "Resumes uploaded successfully"
                      (mkData (fst batch))),
     snd batch)
  /\ length (fst batch) = length (buffersOf files)
  /\ length (buffersOf files) <= length files
  /\ calls (snd batch) = calls e ++ buffersOf files.
Proof.
  intros Hne batch. repeat split.
  - unfold uploadResumes. destruct files as [|f files]; [now elim Hne|].
    destruct (buffersOf (f :: files)) as [|b bs] eqn:E; [now elim Hne|].
    unfold bind, ret. fold batch. now destruct batch.
  - unfold batch. rewrite extract_length. apply length_map.
  - apply buffersOf_length.
  - unfold batch. rewrite extract_calls. now rewrite presentBuffers_Some.
Qed.

End UploadTheorems.

Lemma upload_rejected_witness :
  uploadResumes flakyParser (FileArray [None; Some (mkFile None)]) (mkEnv 0 [])
  = (Raised BAD_REQUEST "No valid file buffers found", mkEnv 0 []).
Proof.
  apply (@upload_rejected nat nat flakyParser
                          (FileArray [None; Some (mkFile None)]) (mkEnv 0 [])).
  reflexivity.
Defined.

Lemma upload_accepted_witness :
  uploadResumes flakyParser
    (FileArray [Some (mkFile (Some 1)); Some (mkFile None);
                Some (mkFile (Some 3))])
    (mkEnv 0 [])
  = (Sent (mkResponse OK true "Resumes uploaded successfully"
                      (mkData [str "page 1"; str "page 3"])),
     mkEnv 2 [1; 3]).
Proof.
  refine (eq_trans
            (proj1 (@upload_accepted nat nat flakyParser
                      [Some (mkFile (Some 1)); Some (mkFile None);
                       Some (mkFile (Some 3))]
                      (mkEnv 0 []) _)) _).
  - discriminate.
  - vm_compute. reflexivity.
Defined.

(** X19. On a text that holds none of the characters the repair looks
    for (punctuation, pipe, hyphen, at sign, bullet variants) the result
    is the logical lines, as the merge loop leaves them, joined by single
    newlines: the repair, the collapse of newlines and the final trim find
    nothing to do. *)
Theorem plain_text_cleans_to_lines (text : jsstring) :
  forallb (notC isRepairTrigger) text = true ->
  cleanExtractedText (Some text)
  = join [nl] (mergeLines (splitLines (normalizeArtifacts text))).
Proof.
  intros H. destruct text as [|c text]; [reflexivity|].
  cbn [cleanExtractedText]. unfold repair.
  rewrite repairSpacing_plain by now apply reconstructed_plain.
  rewrite collapse_noBlank by apply reconstructed_noBlank.
  unfold reconstructed. cbv zeta.
  set (ls := mergeLines (splitLines (normalizeArtifacts (c :: text)))).
  assert (Hls : Forall (fun l => trimmedLine l = true) ls).
  { unfold ls, mergeLines.
    apply mergeLoop_trimmed; [constructor|apply splitLines_trimmed]. }
  destruct (join_trimmed Hls) as [E|E]; [now rewrite E|].
  apply trim_solid_ends. unfold trimmedLine in E.
  destruct (join [nl] ls) as [|x r]; [exact I|].
  apply andb_true_iff in E as [Hx Hy].
  now apply negb_true_iff in Hx, Hy.
Qed.

Lemma plain_text_cleans_to_lines_witness :
  cleanExtractedText
    (Some (str "Jane Roe" ++ [cr; nl] ++ str "  Engineer " ++ [nl; nl]
           ++ str "Built" ++ [tab] ++ str "systems" ++ [nl] ++ str "that scale"))
  = str "Jane Roe" ++ [nl] ++ str "Engineer Built systems that scale".
Proof.
  refine (eq_trans
            (@plain_text_cleans_to_lines
               (str "Jane Roe" ++ [cr; nl] ++ str "  Engineer " ++ [nl; nl]
                ++ str "Built" ++ [tab] ++ str "systems" ++ [nl]
                ++ str "that scale") eq_refl) _).
  vm_compute. reflexivity.
Defined.

(** ** The repair on simple shapes *)

(** X21. White space in front of a punctuation mark that stands between
    two words is removed, and no space is put behind the mark:
    "word ,word" becomes "word,word". *)
Theorem space_before_punct_rule (u ws v : jsstring) (p : char) :
  forallb isWord u = true -> forallb isSpace ws = true ->
  isPunct p = true -> forallb isWord v = true ->
  repair (u ++ ws ++ p :: v) = u ++ p :: v.
Proof.
  intros Hu Hws Hp Hv. unfold repair, repairSpacing.
  change (replace rxSpaceBeforePunct (tpl "$1") ?s)
    with (scan rxSpaceBeforePunct (tpl "$1") 0 true s).
  rewrite spaceBeforePunct_shape by assumption.
  change (replace rxPunctPair (tpl "$1 $2") ?s)
    with (scan rxPunctPair (tpl "$1 $2") 0 true s).
  rewrite punctPair_single by assumption.
  rewrite lack_Pipe by lacking1.
  rewrite lack_WordDash by lacking1.
  rewrite lack_YearDash by lacking1.
  rewrite lack_Email by lacking1.
  rewrite lack_BulletVariant by lacking1.
  rewrite lack_BlankLines by lacking1.
  apply trim_solid. unfold isNonSpace. lacking1.
Qed.

Lemma space_before_punct_rule_witness :
  repair (str "word ,word") = str "word,word".
Proof.
  apply (@space_before_punct_rule (str "word") (str " ") (str "word")
           (ch ",")); reflexivity.
Defined.



(** X23. A pipe between two words comes out with exactly one space on
    each side, whatever white space stood around it; two pipes in a row
    each get their spaces, which leaves two spaces between them. *)
Theorem pipe_rule (u ws1 ws2 ws3 v : jsstring) :
  u <> [] -> v <> [] ->
  forallb isWord u = true -> forallb isWord v = true ->
  forallb isSpace ws1 = true -> forallb isSpace ws2 = true ->
  forallb isSpace ws3 = true ->
  repair (u ++ ws1 ++ ch "|" :: ws2 ++ v) = u ++ str " | " ++ v
  /\ repair (u ++ ws1 ++ ch "|" :: ws2 ++ ch "|" :: ws3 ++ v)
     = u ++ str " |  | " ++ v.
Proof.
  intros Hu0 Hv0 Hu Hv H1 H2 H3. unfold repair, repairSpacing. split.
  - rewrite lack_SpaceBeforePunct by lacking1.
    rewrite lack_PunctPair by lacking1.
    rewrite pipe_shape by assumption.
    rewrite lack_WordDash by lacking1.
    rewrite lack_YearDash by lacking1.
    rewrite lack_Email by lacking1.
    rewrite lack_BulletVariant by lacking1.
    rewrite lack_BlankLines by lacking1.
    apply trim_between; try assumption; now apply word_solid.
  - rewrite lack_SpaceBeforePunct by lacking1.
    rewrite lack_PunctPair by lacking1.
    rewrite pipe_pair_shape by assumption.
    rewrite lack_WordDash by lacking1.
    rewrite lack_YearDash by lacking1.
    rewrite lack_Email by lacking1.
    rewrite lack_BulletVariant by lacking1.
    rewrite lack_BlankLines by lacking1.
    apply trim_between; try assumption; now apply word_solid.
Qed.

Lemma pipe_rule_witness :
  repair (str "Java|Python") = str "Java | Python"
  /\ repair (str "Java" ++ [nl] ++ str "||  Python") = str "Java |  | Python".
Proof.
  apply (@pipe_rule (str "Java") [] [] (str "  ") (str "Python"));
    (discriminate || reflexivity).
Defined.

(** X24. In a text with one at sign that has a character before it and
    one behind it, the email step removes the white space on both sides
    of the at sign and changes nothing else.  With more at signs the
    matches are taken from the left, each with the run of characters
    behind its at sign, and an at sign in such a run starts no match of
    its own, so "c@ a @ b" becomes "c@a @ b".  Two runs of characters
    that are the whole text are joined when the run behind holds no at
    sign, and the whole repair turns two words with an at sign and any
    white space between them into the two words joined by the at sign. *)
Theorem email_rule (A B u ws1 ws2 v : jsstring) (x y : char) :
  forallb isSpace ws1 = true -> forallb isSpace ws2 = true ->
  (isSpace x = false -> isSpace y = false ->
   forallb (notC (chr (ch "@"))) (A ++ x :: y :: B) = true ->
   replace rxEmail (tpl "$1@$2") (A ++ x :: ws1 ++ ch "@" :: ws2 ++ y :: B)
   = A ++ x :: ch "@" :: y :: B)
  /\ (u <> [] -> v <> [] ->
      forallb isNonSpace u = true -> forallb isNonSpace v = true ->
      forallb (notC (chr (ch "@"))) v = true ->
      replace rxEmail (tpl "$1@$2") (u ++ ws1 ++ ch "@" :: ws2 ++ v)
      = u ++ ch "@" :: v)
  /\ (u <> [] -> v <> [] ->
      forallb isWord u = true -> forallb isWord v = true ->
      repair (u ++ ws1 ++ ch "@" :: ws2 ++ v) = u ++ ch "@" :: v)
  /\ replace rxEmail (tpl "$1@$2") (str "c@ a @ b") = str "c@a @ b"
  /\ replace rxEmail (tpl "$1@$2") (str "me @ john@ example.com")
     = str "me@john@ example.com".
Proof.
  intros H1 H2. split; [|split; [|split; [|split]]].
  - intros Hx Hy Hno. now apply email_in_text.
  - intros Hu0 Hv0 Hu Hv Hat. now apply email_shape.
  - intros Hu0 Hv0 Hu Hv. now apply email_alone.
  - vm_compute. reflexivity.
  - vm_compute. reflexivity.
Qed.

Lemma email_rule_witness :
  replace rxEmail (tpl "$1@$2") (str "mail john.doe @ example.com now")
  = str "mail john.doe@example.com now"
  /\ replace rxEmail (tpl "$1@$2") (str "john.doe @ example.com")
     = str "john.doe@example.com"
  /\ repair (str "jane  @" ++ [nl] ++ str "example") = str "jane@example".
Proof.
  split; [|split].
  - apply (proj1 (@email_rule (str "mail john.do") (str "xample.com now")
                    [] (str " ") (str " ") [] (ch "e") (ch "e")
                    eq_refl eq_refl)); reflexivity.
  - apply (proj1 (proj2 (@email_rule [] [] (str "john.doe") (str " ")
                           (str " ") (str "example.com") (ch "a") (ch "a")
                           eq_refl eq_refl)));
      (discriminate || reflexivity).
  - apply (proj1 (proj2 (proj2 (@email_rule [] [] (str "jane") (str "  ")
                                  [nl] (str "example") (ch "a") (ch "a")
                                  eq_refl eq_refl))));
      (discriminate || reflexivity).
Defined.
